(** * go_encoder: orchestrator, chunk planner, concatenator and time formatter

    A shallow embedding of the Go sources
      - internal/timeutil/timeutil.go   (FormatSeconds)
      - models/chunk.go, models/encoder_result.go
      - chunker/chunker.go
      - concatenator/concatenator.go
      - orchestrator/dag.go
    together with the properties the design document states about them.

    Conventions.
    - [float64] values are dyadic rationals; they are embedded in [Q] and the
      arithmetic is exact.  The Go operations used by the sources (integer
      conversion, subtraction of an integer multiple, multiplication of two
      integers, comparison) are exact on float64 below 2^53, so on that range
      the embedding computes what the program computes, and the properties of
      the formatter and of the planner are stated for that range.  Where a
      function takes arbitrary times from its caller ([NewChunk],
      [ValidateChunks]) it is embedded over [Float64.float64], which has the
      infinities, NaN and the rounding of sums.
    - [uint] is a 64-bit unsigned integer: a [Z] reduced modulo 2^64.
    - Go maps are [gmap]s; a [range] over a map takes its iteration order as
      an explicit argument, since Go leaves the order unspecified.
    - Values produced by the environment (file existence, the exit status of
      a subprocess, the text scanner of the standard library) are parameters. *)

From Stdlib Require Import ZArith QArith Qround Qabs Qpower String Ascii List Lia Lqa
  Bool DecimalString Sorted.
From stdpp Require Import base gmap strings list relations.

Local Open Scope Z_scope.

(** ** Formatting helpers shared by the modules (Go's [fmt] verbs) *)

Module Fmt.

(** Decimal digits of a non-negative integer. *)
Definition dec (z : Z) : string :=
  NilZero.string_of_uint (N.to_uint (Z.to_N z)).

Fixpoint zeros (n : nat) : string :=
  match n with
  | O => EmptyString
  | S k => String "0"%char (zeros k)
  end.

(** Left padding with ['0'] up to width [w]. *)
Definition pad0 (w : nat) (s : string) : string :=
  (zeros (w - String.length s) ++ s)%string.

(** [%02d]: sign, then the magnitude zero-padded to what is left of width 2. *)
Definition sprintf_02d (z : Z) : string :=
  if z <? 0 then ("-" ++ pad0 1 (dec (Z.abs z)))%string
  else pad0 2 (dec z).

Definition Qltb (x y : Q) : bool := negb (Qle_bool y x).

(** Integer conversion [int(x)] of a float: truncation toward zero. *)
Definition Qtrunc (x : Q) : Z := Z.quot (Qnum x) (Z.pos (Qden x)).

(** Go's [strconv] rounds the exact value of the float to the requested
    number of digits, to nearest, an exact tie going to the even digit
    ([shouldRoundUp] in strconv/decimal.go).  [x] is non-negative here. *)
Definition round_half_even (x : Q) : Z :=
  let f := Qfloor x in
  let r := (x - inject_Z f)%Q in
  if Qltb r (1 # 2) then f
  else if Qltb (1 # 2) r then f + 1
  else if Z.even f then f else f + 1.

(** Hundredths shown by [%.2f] for the magnitude of [x]. *)
Definition hundredths (x : Q) : Z := round_half_even (Qabs x * 100)%Q.

(** [%05.2f]: two fractional digits, zero-padded to width 5. *)
Definition sprintf_05_2f (x : Q) : string :=
  let c := hundredths x in
  let body := (dec (c / 100) ++ "." ++ pad0 2 (dec (c mod 100)))%string in
  if Qltb x 0 then ("-" ++ pad0 4 body)%string else pad0 5 body.

End Fmt.

(** ** internal/timeutil *)

Module Timeutil.
Import Fmt.

(** The arithmetic of [FormatSeconds] is that of the program for
    [0 <= seconds < 2^53]: there [int(seconds)] is the exact truncation, the
    products [hours*3600] and [minutes*60] are integers below 2^53, which
    float64 holds exactly, and both subtractions are exact (the operands are
    multiples of the last bit of [seconds], and the difference is no larger
    than [seconds]).  Beyond that range float64 rounds the products and, from
    2^63 on, the integer conversion overflows; the properties below are
    stated for [seconds < 2^53]. *)
Definition hours_of (seconds : Q) : Z := Z.quot (Qtrunc seconds) 3600.
Definition minutes_of (seconds : Q) : Z := Z.quot (Z.rem (Qtrunc seconds) 3600) 60.
Definition secs_of (seconds : Q) : Q :=
  (seconds - inject_Z (hours_of seconds * 3600)
           - inject_Z (minutes_of seconds * 60))%Q.

(** [FormatSeconds]: "%02d:%02d:%05.2f" of hours, minutes and the rest. *)
Definition FormatSeconds (seconds : Q) : string :=
  (sprintf_02d (hours_of seconds) ++ ":" ++
   sprintf_02d (minutes_of seconds) ++ ":" ++
   sprintf_05_2f (secs_of seconds))%string.


End Timeutil.

(** ** Results of fallible operations: Go's [(value, error)] pairs *)

Inductive result (E A : Type) : Type :=
| Ok (a : A)
| Err (e : E).
Arguments Ok {E A} a.
Arguments Err {E A} e.

Definition is_ok {E A} (r : result E A) : bool :=
  match r with Ok _ => true | Err _ => false end.

(** [uint] conversion: 64-bit wrap-around. *)
Definition to_uint (z : Z) : Z := z mod 2 ^ 64.

(** [strings.TrimSpace(s)] is the empty string: every rune of [s] is Unicode white space.
    The string is the UTF-8 byte sequence Go holds. *)
Definition is_space (a : ascii) : bool :=
  let n := N_of_ascii a in
  ((9 <=? n) && (n <=? 13) || (n =? 32))%N.

Fixpoint blank_fuel (fuel : nat) (bs : list N) : bool :=
  match fuel with
  | O => false
  | S fuel' =>
    match bs with
    | [] => true
    | 194 :: 133 :: r => blank_fuel fuel' r                 (* U+0085 *)
    | 194 :: 160 :: r => blank_fuel fuel' r                 (* U+00A0 *)
    | 225 :: 154 :: 128 :: r => blank_fuel fuel' r          (* U+1680 *)
    | 226 :: 128 :: b :: r =>
        (* U+2000..U+200A, U+2028, U+2029, U+202F *)
        (((128 <=? b) && (b <=? 138)) || (b =? 168) || (b =? 169) || (b =? 175))%N
        && blank_fuel fuel' r
    | 226 :: 129 :: 159 :: r => blank_fuel fuel' r          (* U+205F *)
    | 227 :: 128 :: 128 :: r => blank_fuel fuel' r          (* U+3000 *)
    | b :: r => is_space (ascii_of_N b) && (b <? 128)%N && blank_fuel fuel' r
    end
  end%N.

Definition blank (s : string) : bool :=
  let bs := map N_of_ascii (list_ascii_of_string s) in
  blank_fuel (S (length bs)) bs.

(** ** models *)

Module Models.

(** *** models/chunk.go *)

Record Chunk : Type := mkChunk {
  ChunkID : Z;            (* uint *)
  StartTime : Q;          (* float64 *)
  EndTime : Q;            (* float64 *)
  SourcePath : string
}.

Inductive chunk_error : Type :=
| ErrSourcePathEmpty        (* "source_path cannot be empty" *)
| ErrEndTimeZero            (* "end_time must be greater than 0" *)
| ErrStartNotBeforeEnd.     (* "start_time must be less than end_time" *)

(** [Chunk.Validate]; [None] is Go's [nil] error.  The times of a [Chunk]
    are numbers, as the planner produces them; [FloatModels.Chunk_Validate]
    is the same function over every float64, NaN included. *)
Definition Chunk_Validate (c : Chunk) : option chunk_error :=
  if blank (SourcePath c) then Some ErrSourcePathEmpty
  else if Qeq_bool (EndTime c) 0 then Some ErrEndTimeZero
  else if Qle_bool (EndTime c) (StartTime c) then Some ErrStartNotBeforeEnd
  else None.

(** *** models/encoder_result.go *)

(** Go's [error] values are kept as their message. *)
Definition error : Type := string.

Record EncoderResult : Type := mkEncoderResult {
  RChunkID : Z;                 (* uint *)
  OutputPath : string;
  Success : bool;
  Error : option error          (* nil = None *)
}.

Inductive result_error : Type :=
| ErrSuccessWithError     (* "inconsistent state: Success is true but Error is not nil" *)
| ErrFailureWithoutError  (* "failed result must have an error" *)
| ErrSuccessWithoutOutput (* "output_path cannot be empty for successful result" *)
| ErrFailureWithOutput.   (* "failed result should not have output_path" *)

(** [EncoderResult.Validate]. *)
Definition EncoderResult_Validate (er : EncoderResult) : option result_error :=
  if Success er && bool_decide (Error er <> None) then Some ErrSuccessWithError
  else if negb (Success er) && bool_decide (Error er = None) then Some ErrFailureWithoutError
  else if Success er && blank (OutputPath er) then Some ErrSuccessWithoutOutput
  else if negb (Success er) && negb (blank (OutputPath er)) then Some ErrFailureWithOutput
  else None.

End Models.

(** ** chunker/chunker.go *)

Module Chunker.
Import Models.

Definition DefaultChunkDuration : Z := 600.
Definition MinChunkDuration : Z := 1.
Definition MaxChunkDuration : Z := 86400.

Record Chunker : Type := mkChunker {
  sourcePath : string;
  chunkDuration : Z;        (* uint32 *)
  useChapters : bool
}.

Definition NewChunker (source : string) : Chunker :=
  mkChunker source DefaultChunkDuration true.

Definition SetChunkDuration (c : Chunker) (duration : Z) : Chunker :=
  mkChunker (sourcePath c) duration (useChapters c).

Definition SetUseChapters (c : Chunker) (use : bool) : Chunker :=
  mkChunker (sourcePath c) (chunkDuration c) use.

(** chunker/media_info.go: the probe interface the planner consumes. *)
Record ChapterInfo : Type := mkChapterInfo {
  ChStartTime : string;
  ChEndTime : string
}.

Record MediaInfo : Type := mkMediaInfo {
  GetDuration : result error Q;
  HasChapters : bool;
  GetChapters : list ChapterInfo
}.

Inductive chunker_error : Type :=
| ErrSourcePathCannotBeEmpty          (* "source path cannot be empty" *)
| ErrChunkDurationTooSmall            (* "chunk duration must be at least %d seconds" *)
| ErrChunkDurationTooLarge            (* "chunk duration cannot exceed %d seconds" *)
| ErrMediaInfoNil                     (* "media info cannot be nil" *)
| ErrGetDuration (e : error)          (* "failed to get duration: %w" *)
| ErrInvalidDuration (d : Q)          (* "invalid duration: %.2f seconds" *)
| ErrNoChapters                       (* "no chapters available" *)
| ErrParseStartTime (chapter : Z)     (* "failed to parse start_time for chapter %d: %w" *)
| ErrParseEndTime (chapter : Z)       (* "failed to parse end_time for chapter %d: %w" *)
| ErrInvalidChunk (chunk : Z) (e : chunk_error).   (* "invalid chunk %d: %w" *)

Section WithScanner.

(** [fmt.Sscanf(s, "%f", &x)]: the scanned value, or [None] when it reports
    an error. *)
Variable Sscanf_f : string -> option Q.

(** The [for i, chapter := range chapters] loop of [createChunksFromChapters];
    [i] is the index of the head of [chapters], [chunks] what was appended. *)
Fixpoint chapters_loop (c : Chunker) (i : Z) (chapters : list ChapterInfo)
  (chunks : list Chunk) : result chunker_error (list Chunk) :=
  match chapters with
  | [] => Ok chunks
  | chapter :: rest =>
    match Sscanf_f (ChStartTime chapter) with
    | None => Err (ErrParseStartTime (i + 1))
    | Some startTime =>
      match Sscanf_f (ChEndTime chapter) with
      | None => Err (ErrParseEndTime (i + 1))
      | Some endTime =>
        let chunk := mkChunk (to_uint (i + 1)) startTime endTime (sourcePath c) in
        match Chunk_Validate chunk with
        | Some e => Err (ErrInvalidChunk (i + 1) e)
        | None => chapters_loop c (i + 1) rest (chunks ++ [chunk])
        end
      end
    end
  end.

Definition createChunksFromChapters (c : Chunker) (mediaInfo : MediaInfo)
  : result chunker_error (list Chunk) :=
  let chapters := GetChapters mediaInfo in
  if (length chapters =? 0)%nat then Err ErrNoChapters
  else chapters_loop c 0 chapters [].

(** [chunkCount] of [createFixedDurationChunks]. *)
Definition chunkCount_of (c : Chunker) (duration : Q) : Z :=
  let chunkDurationFloat := inject_Z (chunkDuration c) in
  let chunkCount := Fmt.Qtrunc (duration / chunkDurationFloat) in
  let chunkCount :=
    if Fmt.Qltb (inject_Z chunkCount * chunkDurationFloat) duration
    then chunkCount + 1 else chunkCount in
  if chunkCount =? 0 then 1 else chunkCount.

(** The [for i := 0; i < chunkCount; i++] loop; [todo] iterations remain. *)
Fixpoint fixed_loop (c : Chunker) (duration : Q) (i : Z) (todo : nat)
  (chunks : list Chunk) : result chunker_error (list Chunk) :=
  match todo with
  | O => Ok chunks
  | S todo' =>
    let chunkDurationFloat := inject_Z (chunkDuration c) in
    let startTime := (inject_Z i * chunkDurationFloat)%Q in
    let endTime := (startTime + chunkDurationFloat)%Q in
    let endTime := if Fmt.Qltb duration endTime then duration else endTime in
    let chunk := mkChunk (to_uint (i + 1)) startTime endTime (sourcePath c) in
    match Chunk_Validate chunk with
    | Some e => Err (ErrInvalidChunk (i + 1) e)
    | None => fixed_loop c duration (i + 1) todo' (chunks ++ [chunk])
    end
  end.

Definition createFixedDurationChunks (c : Chunker) (duration : Q)
  : result chunker_error (list Chunk) :=
  if Qle_bool duration 0 then Err (ErrInvalidDuration duration)
  else fixed_loop c duration 0 (Z.to_nat (chunkCount_of c duration)) [].

(** [CreateChunks]; [None] is a nil [mediaInfo]. *)
Definition CreateChunks (c : Chunker) (mediaInfo : option MediaInfo)
  : result chunker_error (list Chunk) :=
  if String.eqb (sourcePath c) EmptyString then Err ErrSourcePathCannotBeEmpty
  else if chunkDuration c <? MinChunkDuration then Err ErrChunkDurationTooSmall
  else if MaxChunkDuration <? chunkDuration c then Err ErrChunkDurationTooLarge
  else match mediaInfo with
  | None => Err ErrMediaInfoNil
  | Some mi =>
    match GetDuration mi with
    | Err e => Err (ErrGetDuration e)
    | Ok duration =>
      if Qle_bool duration 0 then Err (ErrInvalidDuration duration)
      else
        let fixed := createFixedDurationChunks c duration in
        if useChapters c && HasChapters mi then
          match createChunksFromChapters c mi with
          | Ok chunks => if (0 <? length chunks)%nat then Ok chunks else fixed
          | Err _ => fixed      (* falls through to fixed-duration chunks *)
          end
        else fixed
    end
  end.

End WithScanner.

(** A scanner for plain decimal numerals ("12", "30.500"), enough to run the
    planner on concrete chapter lists; [Sscanf] agrees with it on them. *)
Definition digit_of (a : ascii) : option Z :=
  let n := Z.of_N (N_of_ascii a) in
  if (48 <=? n) && (n <=? 57) then Some (n - 48) else None.

Fixpoint scan_digits (s : string) (acc : Z) (scale : positive) (frac : bool)
  (seen : bool) : option Q :=
  match s with
  | EmptyString => if seen then Some (acc # scale) else None
  | String a rest =>
    if Ascii.eqb a "."%char then
      if frac then None else scan_digits rest acc scale true seen
    else match digit_of a with
    | None => None
    | Some d =>
      scan_digits rest (acc * 10 + d) (if frac then scale * 10 else scale)%positive
        frac true
    end
  end.

Definition scan_decimal (s : string) : option Q := scan_digits s 0 1 false false.

End Chunker.

(** ** concatenator/concatenator.go *)

Module Concatenator.
Import Models.

Record Concatenator : Type := mkConcatenator {
  strictMode : bool
}.

Definition NewConcatenator (strict : bool) : Concatenator := mkConcatenator strict.

(** What the operating system and the ffmpeg subprocess answer. *)
Record Env : Type := mkEnv {
  stat : string -> bool;                  (* os.Stat(path) returns no error *)
  create_temp : option string;            (* os.CreateTemp: name of the list file *)
  abs_path : string -> option string;     (* filepath.Abs *)
  write_string : string -> bool;          (* tmpFile.WriteString(line) succeeds *)
  ffmpeg : list string -> string -> bool; (* exit status 0, given argv and list file text *)
  stat_output : string -> bool            (* os.Stat(outputPath) after the run *)
}.

Inductive concat_error : Type :=
| ErrNoResults                      (* "no results provided" *)
| ErrValidation (e : concat_error)  (* "validation failed: %w" *)
| ErrStrictFailed (n : nat)         (* "strict mode: %d chunks failed encoding" *)
| ErrNoSuccessful                   (* "no successful chunks to concatenate" *)
| ErrMissingChunks (gaps : list Z)  (* "missing chunks: %v" *)
| ErrStrict (e : concat_error)      (* "strict mode: %w" *)
| ErrCreateTemp                     (* "failed to create temp file: %w" *)
| ErrAbsPath (path : string)        (* "failed to get absolute path for %s: %w" *)
| ErrWrite                          (* "failed to write to concat file: %w" *)
| ErrCreateConcatFile (e : concat_error)  (* "failed to create concat file: %w" *)
| ErrFfmpeg                         (* "ffmpeg error: %w\nOutput: %s" *)
| ErrOutputNotCreated               (* "output file not created: %w" *)
| ErrConcatFailed (e : concat_error).     (* "ffmpeg concat failed: %w" *)

Inductive warning : Type :=
| WarnFailed (failed successful : nat)  (* "Warning: %d chunks failed, proceeding with %d successful chunks" *)
| WarnGaps (e : concat_error).          (* "Warning: %v" *)

(** [sort.Slice(successful, less)] with [less] comparing chunk ids.  For a
    slice of at most 12 elements the library (of Go 1.19 and later; the
    project asks for Go 1.21) runs its insertion sort: each
    element in turn, from the second on, is moved left past the elements
    that are strictly greater, so results with equal ids keep their input
    order.  [insert_by_id r l] is that move on the sorted prefix [l]; it puts
    [r] behind every element whose id is at most the id of [r].  Longer
    slices are sorted by the library's quicksort, which leaves the same
    sequence of ids and may order results with equal ids differently; the
    properties below that concern such inputs do not depend on that order. *)
Fixpoint insert_by_id (r : EncoderResult) (l : list EncoderResult) : list EncoderResult :=
  match l with
  | [] => [r]
  | x :: rest =>
    if RChunkID r <? RChunkID x then r :: l else x :: insert_by_id r rest
  end.

Definition sort_by_id (l : list EncoderResult) : list EncoderResult :=
  fold_left (fun sorted r => insert_by_id r sorted) l [].

Section WithEnv.
Variable env : Env.

(** The classification of one result in [validateResults]. *)
Definition usable (r : EncoderResult) : bool :=
  Success r && negb (String.eqb (OutputPath r) EmptyString) && stat env (OutputPath r).

Definition validateResults (results : list EncoderResult)
  : result concat_error (list EncoderResult * list EncoderResult) :=
  if (length results =? 0)%nat then Err ErrNoResults
  else
    let successful := filter (fun r => usable r = true) results in
    let failed := filter (fun r => usable r = false) results in
    Ok (sort_by_id successful, failed).

(** [for id := currentID + 1; id < nextID; id++] *)
Definition ids_between (from to : Z) : list Z :=
  map (fun k => from + Z.of_nat k) (seq 0 (Z.to_nat (to - from))).

(** The gaps collected by the loop over adjacent pairs. *)
Fixpoint collect_gaps (successful : list EncoderResult) : list Z :=
  match successful with
  | cur :: ((next :: _) as rest) =>
    let currentID := RChunkID cur in
    let nextID := RChunkID next in
    (if negb (nextID =? to_uint (currentID + 1))
     then ids_between (to_uint (currentID + 1)) nextID else [])
    ++ collect_gaps rest
  | _ => []
  end.

Definition checkForGaps (successful : list EncoderResult) : option concat_error :=
  if (length successful =? 0)%nat then None
  else
    let gaps := collect_gaps successful in
    if (0 <? length gaps)%nat then Some (ErrMissingChunks gaps) else None.

(** [strings.ReplaceAll(absPath, "'", "'\\''")] *)
Fixpoint escape_quotes (s : string) : string :=
  match s with
  | EmptyString => EmptyString
  | String a rest =>
    if Ascii.eqb a "'"%char
    then String "'" (String "\" (String "'" (String "'" (escape_quotes rest))))
    else String a (escape_quotes rest)
  end.

Definition newline : string := String (ascii_of_nat 10) EmptyString.

(** The loop of [createConcatFile]; [text] is what was written so far. *)
Fixpoint write_lines (successful : list EncoderResult) (text : string)
  : result concat_error string :=
  match successful with
  | [] => Ok text
  | r :: rest =>
    match abs_path env (OutputPath r) with
    | None => Err (ErrAbsPath (OutputPath r))
    | Some absPath =>
      let line := ("file '" ++ escape_quotes absPath ++ "'" ++ newline)%string in
      if write_string env line then write_lines rest (text ++ line)%string
      else Err ErrWrite
    end
  end.

(** [createConcatFile]: name and text of the list file. *)
Definition createConcatFile (successful : list EncoderResult)
  : result concat_error (string * string) :=
  match create_temp env with
  | None => Err ErrCreateTemp
  | Some name =>
    match write_lines successful EmptyString with
    | Err e => Err e
    | Ok text => Ok (name, text)
    end
  end.

Definition runConcat (concatFilePath text outputPath : string) : option concat_error :=
  let args := ["-f"; "concat"; "-safe"; "0"; "-i"; concatFilePath;
               "-c"; "copy"; "-y"; outputPath]%string in
  if ffmpeg env args text then
    if stat_output env outputPath then None else Some ErrOutputNotCreated
  else Some ErrFfmpeg.

(** The tail of [Concatenate]: the list file is written and ffmpeg run. *)
Definition join (successful : list EncoderResult) (finalOutputPath : string)
  : option concat_error :=
  match createConcatFile successful with
  | Err e => Some (ErrCreateConcatFile e)
  | Ok (concatFilePath, text) =>
    match runConcat concatFilePath text finalOutputPath with
    | Some e => Some (ErrConcatFailed e)
    | None => None
    end
  end.

(** [Concatenate]: the warnings printed and the error returned ([None] = nil,
    the final output was produced). *)
Definition Concatenate (c : Concatenator) (results : list EncoderResult)
  (finalOutputPath : string) : list warning * option concat_error :=
  match validateResults results with
  | Err e => ([], Some (ErrValidation e))
  | Ok (successful, failed) =>
    if (0 <? length failed)%nat && strictMode c
    then ([], Some (ErrStrictFailed (length failed)))
    else
      let w1 := if (0 <? length failed)%nat
                then [WarnFailed (length failed) (length successful)] else [] in
      if (length successful =? 0)%nat then (w1, Some ErrNoSuccessful)
      else
        match checkForGaps successful with
        | Some e =>
          if strictMode c then (w1, Some (ErrStrict e))
          else (w1 ++ [WarnGaps e], join successful finalOutputPath)
        | None => (w1, join successful finalOutputPath)
        end
  end.

End WithEnv.

(** An environment in which every file exists and every external step
    succeeds. *)
Definition env_all_ok : Env :=
  mkEnv (fun _ => true) (Some "/tmp/concat-1.txt"%string) (fun p => Some p)
        (fun _ => true) (fun _ _ => true) (fun _ => true).

End Concatenator.

(** ** command/command.go: what the orchestrator uses of a command *)

Module Command.

(** [Run] is the subprocess: its outcome belongs to the environment and is
    supplied when the call returns. *)
Record Command : Type := mkCommand {
  GetOutputPath : string
}.

End Command.

(** ** orchestrator/dag.go *)

Module Orchestrator.

Abbreviation ResourceType := string (only parsing).

Definition ResourceGPUEncode : ResourceType := "gpu-encode".
Definition ResourceGPUScale : ResourceType := "gpu-scale".
Definition ResourceCPU : ResourceType := "cpu".
Definition ResourceIO : ResourceType := "io".

Inductive TaskStatus : Type :=
| TaskPending
| TaskReady
| TaskRunning
| TaskCompleted
| TaskFailed.

Global Instance TaskStatus_eq_dec : EqDecision TaskStatus.
Proof. solve_decision. Defined.

(** [time.Time] is a reading of the monotonic clock; the zero value is 0. *)
Record Task : Type := mkTask {
  ID : string;
  Command : Command.Command;
  Dependencies : list string;
  Resource : ResourceType;
  Status : TaskStatus;
  Error : option Models.error;
  Result : option Models.EncoderResult;
  StartTime : Z;
  EndTime : Z
}.

Record ResourceConstraint : Type := mkResourceConstraint {
  Type_ : ResourceType;
  MaxSlots : Z
}.

(** The shared part of [DAGOrchestrator]: both maps, the slot table and the
    buffered completion channel (capacity 100, oldest first). *)
Record DAGOrchestrator : Type := mkDAG {
  tasks : gmap string Task;
  constraints : gmap string ResourceConstraint;
  activeSlots : gmap string Z;
  completeCh : list string
}.

Definition completeCh_cap : nat := 100.

Definition with_tasks (o : DAGOrchestrator) (ts : gmap string Task) : DAGOrchestrator :=
  mkDAG ts (constraints o) (activeSlots o) (completeCh o).

Definition with_slots (o : DAGOrchestrator) (sl : gmap string Z) : DAGOrchestrator :=
  mkDAG (tasks o) (constraints o) sl (completeCh o).

Definition with_ch (o : DAGOrchestrator) (ch : list string) : DAGOrchestrator :=
  mkDAG (tasks o) (constraints o) (activeSlots o) ch.

Definition NewDAGOrchestrator (cs : list ResourceConstraint) : DAGOrchestrator :=
  mkDAG ∅ (foldl (fun m c => <[Type_ c := c]> m) ∅ cs) ∅ [].

Inductive dag_error : Type :=
| ErrTaskExists (id : string)                 (* "task %s already exists" *)
| ErrUnknownDependency (id dep : string)      (* "task %s depends on non-existent task %s" *)
| ErrCycleDetected.                           (* "cycle detected in task dependencies" *)

Definition set_status (st : TaskStatus) (t : Task) : Task :=
  mkTask (ID t) (Command t) (Dependencies t) (Resource t) st
         (Error t) (Result t) (StartTime t) (EndTime t).

Definition AddTask (o : DAGOrchestrator) (task : Task) : result dag_error DAGOrchestrator :=
  match tasks o !! ID task with
  | Some _ => Err (ErrTaskExists (ID task))
  | None => Ok (with_tasks o (<[ID task := set_status TaskPending task]> (tasks o)))
  end.

(** [dependenciesMet] *)
Fixpoint deps_completed (ts : gmap string Task) (deps : list string) : bool :=
  match deps with
  | [] => true
  | depID :: rest =>
    match ts !! depID with
    | None => false
    | Some depTask =>
      if decide (Status depTask = TaskCompleted) then deps_completed ts rest else false
    end
  end.

Definition dependenciesMet (o : DAGOrchestrator) (task : Task) : bool :=
  deps_completed (tasks o) (Dependencies task).

(** [getReadyTasks]: the loop over [o.tasks], visited in [order]; the ready
    tasks are returned by id (the slice holds pointers into the map). *)
Fixpoint getReadyTasks_loop (o : DAGOrchestrator) (order : list string)
  (ready : list string) : DAGOrchestrator * list string :=
  match order with
  | [] => (o, ready)
  | id :: rest =>
    match tasks o !! id with
    | None => getReadyTasks_loop o rest ready
    | Some task =>
      match Status task with
      | TaskPending =>
        if dependenciesMet o task
        then getReadyTasks_loop
               (with_tasks o (<[id := set_status TaskReady task]> (tasks o)))
               rest (ready ++ [id])
        else getReadyTasks_loop o rest ready
      | TaskReady => getReadyTasks_loop o rest (ready ++ [id])
      | _ => getReadyTasks_loop o rest ready
      end
    end
  end.

Definition getReadyTasks (o : DAGOrchestrator) (order : list string)
  : DAGOrchestrator * list string :=
  getReadyTasks_loop o order [].

(** [o.activeSlots[resourceType]]: a missing key reads 0. *)
Definition slots_of (o : DAGOrchestrator) (r : ResourceType) : Z :=
  default 0 (activeSlots o !! r).

(** [tryAcquireResource] *)
Definition tryAcquireResource (o : DAGOrchestrator) (resourceType : ResourceType)
  : DAGOrchestrator * bool :=
  match constraints o !! resourceType with
  | None => (o, true)
  | Some constraint =>
    let currentSlots := slots_of o resourceType in
    if currentSlots <? MaxSlots constraint
    then (with_slots o (<[resourceType := currentSlots + 1]> (activeSlots o)), true)
    else (o, false)
  end.

(** [releaseResource] *)
Definition releaseResource (o : DAGOrchestrator) (resourceType : ResourceType)
  : DAGOrchestrator :=
  if 0 <? slots_of o resourceType
  then with_slots o (<[resourceType := slots_of o resourceType - 1]> (activeSlots o))
  else o.

(** [executeTask], first critical section: the task is marked running. *)
Definition executeTask_start (now : Z) (t : Task) : Task :=
  mkTask (ID t) (Command t) (Dependencies t) (Resource t) TaskRunning
         (Error t) (Result t) now (EndTime t).

(** [executeTask], second critical section, [err] being what [Run] returned. *)
Definition executeTask_finish (now : Z) (err : option Models.error) (t : Task) : Task :=
  match err with
  | Some e =>
    mkTask (ID t) (Command t) (Dependencies t) (Resource t) TaskFailed
           (Some e)
           (Some (Models.mkEncoderResult 0 (Command.GetOutputPath (Command t)) false (Some e)))
           (StartTime t) now
  | None =>
    mkTask (ID t) (Command t) (Dependencies t) (Resource t) TaskCompleted
           (Error t)
           (Some (Models.mkEncoderResult 0 (Command.GetOutputPath (Command t)) true None))
           (StartTime t) now
  end.

Definition dependency_failed : Models.error := "dependency failed".

(** The branch of [allTasksCompleteOrBlocked] that fails a blocked task. *)
Definition mark_blocked (t : Task) : Task :=
  mkTask (ID t) (Command t) (Dependencies t) (Resource t) TaskFailed
         (Some dependency_failed)
         (Some (Models.mkEncoderResult 0 (Command.GetOutputPath (Command t)) false
                  (Some dependency_failed)))
         (StartTime t) (EndTime t).

(** [hasFailedDependency]; the recursion follows dependency edges, [fuel]
    bounds its depth and [None] is a recursion that does not return. *)
Fixpoint failed_in (rec : Task -> option bool) (ts : gmap string Task)
  (deps : list string) : option bool :=
  match deps with
  | [] => Some false
  | depID :: rest =>
    match ts !! depID with
    | Some depTask =>
      if decide (Status depTask = TaskFailed) then Some true
      else match rec depTask with
           | None => None
           | Some true => Some true
           | Some false => failed_in rec ts rest
           end
    | None => failed_in rec ts rest
    end
  end.

Fixpoint hasFailedDependency (fuel : nat) (ts : gmap string Task) (task : Task)
  : option bool :=
  match fuel with
  | O => None
  | S fuel' => failed_in (hasFailedDependency fuel' ts) ts (Dependencies task)
  end.

(** [allTasksCompleteOrBlocked]: the loop over [o.tasks], visited in [order].
    Returns the ids whose completion is announced by a new goroutine and
    the result of the function. *)
Fixpoint allTasksCompleteOrBlocked_loop (o : DAGOrchestrator) (order : list string)
  (announced : list string) : option (DAGOrchestrator * list string * bool) :=
  match order with
  | [] => Some (o, announced, true)
  | id :: rest =>
    match tasks o !! id with
    | None => allTasksCompleteOrBlocked_loop o rest announced
    | Some task =>
      match Status task with
      | TaskCompleted | TaskFailed => allTasksCompleteOrBlocked_loop o rest announced
      | TaskPending | TaskReady =>
        match hasFailedDependency (S (size (tasks o))) (tasks o) task with
        | None => None
        | Some true =>
          allTasksCompleteOrBlocked_loop
            (with_tasks o (<[id := mark_blocked task]> (tasks o)))
            rest (announced ++ [ID task])
        | Some false => Some (o, announced, false)
        end
      | TaskRunning => Some (o, announced, false)
      end
    end
  end.

Definition allTasksCompleteOrBlocked (o : DAGOrchestrator) (order : list string)
  : option (DAGOrchestrator * list string * bool) :=
  allTasksCompleteOrBlocked_loop o order [].

(** A [range] over [o.tasks] visits every key once, in some order. *)
Definition range_of (ts : gmap string Task) (order : list string) : Prop :=
  order ≡ₚ (map_to_list ts).*1.

Global Instance range_of_dec ts order : Decision (range_of ts order).
Proof. unfold range_of. apply _. Defined.

(** [validateDAG], first loop: every dependency exists. *)
Fixpoint first_missing (ts : gmap string Task) (taskID : string) (deps : list string)
  : option dag_error :=
  match deps with
  | [] => None
  | depID :: rest =>
    match ts !! depID with
    | None => Some (ErrUnknownDependency taskID depID)
    | Some _ => first_missing ts taskID rest
    end
  end.

Fixpoint check_deps_exist (ts : gmap string Task) (order : list string)
  : option dag_error :=
  match order with
  | [] => None
  | id :: rest =>
    match ts !! id with
    | None => check_deps_exist ts rest
    | Some task =>
      match first_missing ts (ID task) (Dependencies task) with
      | Some e => Some e
      | None => check_deps_exist ts rest
      end
    end
  end.

(** The two [map[string]bool] of the cycle check, as the sets of keys that
    read [true]. *)
Record dfs : Type := mkDfs {
  visited : gset string;
  recStack : gset string
}.

(** The [for _, depID := range task.Dependencies] loop of [hasCycle]. *)
Fixpoint visit_deps (rec : string -> dfs -> option (bool * dfs))
  (deps : list string) (st : dfs) : option (bool * dfs) :=
  match deps with
  | [] => Some (false, st)
  | depID :: rest =>
    if decide (depID ∈ visited st) then
      if decide (depID ∈ recStack st) then Some (true, st)
      else visit_deps rec rest st
    else
      match rec depID st with
      | None => None
      | Some (true, st') => Some (true, st')
      | Some (false, st') => visit_deps rec rest st'
      end
  end.

(** The closure [hasCycle]; [fuel] bounds the recursion depth, [None] is a
    call that does not return (or dereferences a missing task). *)
Fixpoint hasCycle (fuel : nat) (ts : gmap string Task) (taskID : string) (st : dfs)
  : option (bool * dfs) :=
  match fuel with
  | O => None
  | S fuel' =>
    let st1 := mkDfs ({[taskID]} ∪ visited st) ({[taskID]} ∪ recStack st) in
    match ts !! taskID with
    | None => None
    | Some task =>
      match visit_deps (hasCycle fuel' ts) (Dependencies task) st1 with
      | None => None
      | Some (true, st2) => Some (true, st2)
      | Some (false, st2) =>
        Some (false, mkDfs (visited st2) (recStack st2 ∖ {[taskID]}))
      end
    end
  end.

(** [validateDAG], last loop. *)
Fixpoint cycle_loop (ts : gmap string Task) (order : list string) (st : dfs)
  : option bool :=
  match order with
  | [] => Some false
  | taskID :: rest =>
    if decide (taskID ∈ visited st) then cycle_loop ts rest st
    else
      match hasCycle (S (size ts)) ts taskID st with
      | None => None
      | Some (true, _) => Some true
      | Some (false, st') => cycle_loop ts rest st'
      end
  end.

(** [validateDAG]: [Some None] is a nil error. *)
Definition validateDAG (o : DAGOrchestrator) (order1 order2 : list string)
  : option (option dag_error) :=
  match check_deps_exist (tasks o) order1 with
  | Some e => Some (Some e)
  | None =>
    match cycle_loop (tasks o) order2 (mkDfs ∅ ∅) with
    | None => None
    | Some true => Some (Some ErrCycleDetected)
    | Some false => Some None
    end
  end.

(** *** The goroutines of [Execute] *)

(** Where the scheduler goroutine stands in its loop. *)
Inductive SchedPC : Type :=
| SchedCheck                                (* before allTasksCompleteOrBlocked *)
| SchedReady                                (* before getReadyTasks *)
| SchedDispatch (readyTasks : list string)  (* in the loop over readyTasks *)
| SchedSleep (wake : Z)                     (* in time.Sleep *)
| SchedDone.                                (* returned *)

Global Instance SchedPC_eq_dec : EqDecision SchedPC.
Proof. solve_decision. Defined.

(** Where a goroutine running [executeTask] stands. *)
Inductive WorkerPC : Type :=
| WStart       (* spawned, before the first critical section *)
| WRunning     (* in task.Command.Run() *)
| WNotify      (* before o.completeCh <- task.ID *)
| WRelease     (* before the deferred releaseResource *)
| WExited.

Global Instance WorkerPC_eq_dec : EqDecision WorkerPC.
Proof. solve_decision. Defined.

Record Worker : Type := mkWorker {
  wtask : string;
  wpc : WorkerPC
}.

(** The state of one call of [Execute] after validation. *)
Record Exec : Type := mkExec {
  orch : DAGOrchestrator;
  clock : Z;                                 (* milliseconds *)
  sched : SchedPC;
  workers : list Worker;
  announcers : list string;     (* goroutines blocked on o.completeCh <- id *)
  totalTasks : nat;
  completedTasks : nat;
  results : list Models.EncoderResult;
  handlerDone : bool;                        (* doneCh <- true was sent *)
  returned : bool                            (* Execute returned results *)
}.

Definition with_orch (s : Exec) (o : DAGOrchestrator) : Exec :=
  mkExec o (clock s) (sched s) (workers s) (announcers s) (totalTasks s)
         (completedTasks s) (results s) (handlerDone s) (returned s).

Definition with_sched (s : Exec) (pc : SchedPC) : Exec :=
  mkExec (orch s) (clock s) pc (workers s) (announcers s) (totalTasks s)
         (completedTasks s) (results s) (handlerDone s) (returned s).

Definition with_workers (s : Exec) (ws : list Worker) : Exec :=
  mkExec (orch s) (clock s) (sched s) ws (announcers s) (totalTasks s)
         (completedTasks s) (results s) (handlerDone s) (returned s).

Definition with_announcers (s : Exec) (an : list string) : Exec :=
  mkExec (orch s) (clock s) (sched s) (workers s) an (totalTasks s)
         (completedTasks s) (results s) (handlerDone s) (returned s).

Definition with_clock (s : Exec) (t : Z) : Exec :=
  mkExec (orch s) t (sched s) (workers s) (announcers s) (totalTasks s)
         (completedTasks s) (results s) (handlerDone s) (returned s).

(** One atomic action of one goroutine (or of the clock). *)
Inductive Label : Type :=
| Tick (d : Z)
| SchedulerCheck (order : list string)
| SchedulerReady (order : list string)
| SchedulerDispatch
| SchedulerWake
| WorkerStart (w : nat)
| WorkerFinish (w : nat) (err : option Models.error)
| WorkerNotify (w : nat)
| WorkerRelease (w : nat)
| AnnounceBlocked (n : nat)
| HandlerReceive
| MainReturn.

(** What an action lets an observer see. *)
Inductive Event : Type :=
| EvDispatch (id : string)
| EvStart (id : string) (t : Z)                 (* StartTime := t, then Run() *)
| EvFinish (id : string) (ok : bool) (t : Z)    (* Run() returned, EndTime := t *)
| EvBlocked (id : string)                       (* failed for a failed dependency *)
| EvProgress (completed total : nat) (id : string)
| EvReturn (results : list Models.EncoderResult).

Definition sleep_ms : Z := 10.

Definition step (l : Label) (s : Exec) : option (Exec * list Event) :=
  let o := orch s in
  match l with
  | Tick d =>
    if 0 <=? d then Some (with_clock s (clock s + d), []) else None
  | SchedulerCheck order =>
    match sched s with
    | SchedCheck =>
      if decide (range_of (tasks o) order) then
        match allTasksCompleteOrBlocked o order with
        | None => None
        | Some (o', announced, all) =>
          Some (with_sched
                  (with_announcers (with_orch s o') (announcers s ++ announced))
                  (if all then SchedDone else SchedReady),
                map EvBlocked announced)
        end
      else None
    | _ => None
    end
  | SchedulerReady order =>
    match sched s with
    | SchedReady =>
      if decide (range_of (tasks o) order) then
        let '(o', ready) := getReadyTasks o order in
        Some (with_sched (with_orch s o') (SchedDispatch ready), [])
      else None
    | _ => None
    end
  | SchedulerDispatch =>
    match sched s with
    | SchedDispatch [] => Some (with_sched s (SchedSleep (clock s + sleep_ms)), [])
    | SchedDispatch (id :: rest) =>
      match tasks o !! id with
      | None => None
      | Some task =>
        let '(o', ok) := tryAcquireResource o (Resource task) in
        if ok then
          Some (with_sched
                  (with_workers (with_orch s o') (workers s ++ [mkWorker id WStart]))
                  (SchedDispatch rest),
                [EvDispatch id])
        else Some (with_sched s (SchedDispatch rest), [])
      end
    | _ => None
    end
  | SchedulerWake =>
    match sched s with
    | SchedSleep wake =>
      if wake <=? clock s then Some (with_sched s SchedCheck, []) else None
    | _ => None
    end
  | WorkerStart w =>
    match workers s !! w with
    | Some (mkWorker id WStart) =>
      match tasks o !! id with
      | None => None
      | Some task =>
        Some (with_workers
                (with_orch s (with_tasks o (<[id := executeTask_start (clock s) task]> (tasks o))))
                (<[w := mkWorker id WRunning]> (workers s)),
              [EvStart id (clock s)])
      end
    | _ => None
    end
  | WorkerFinish w err =>
    match workers s !! w with
    | Some (mkWorker id WRunning) =>
      match tasks o !! id with
      | None => None
      | Some task =>
        Some (with_workers
                (with_orch s (with_tasks o (<[id := executeTask_finish (clock s) err task]> (tasks o))))
                (<[w := mkWorker id WNotify]> (workers s)),
              [EvFinish id (bool_decide (err = None)) (clock s)])
      end
    | _ => None
    end
  | WorkerNotify w =>
    match workers s !! w with
    | Some (mkWorker id WNotify) =>
      match tasks o !! id with
      | None => None
      | Some task =>
        if (length (completeCh o) <? completeCh_cap)%nat then
          Some (with_workers
                  (with_orch s (with_ch o (completeCh o ++ [ID task])))
                  (<[w := mkWorker id WRelease]> (workers s)),
                [])
        else None
      end
    | _ => None
    end
  | WorkerRelease w =>
    match workers s !! w with
    | Some (mkWorker id WRelease) =>
      match tasks o !! id with
      | None => None
      | Some task =>
        Some (with_workers
                (with_orch s (releaseResource o (Resource task)))
                (<[w := mkWorker id WExited]> (workers s)),
              [])
      end
    | _ => None
    end
  | AnnounceBlocked n =>
    match announcers s !! n with
    | Some id =>
      if (length (completeCh o) <? completeCh_cap)%nat then
        Some (with_announcers
                (with_orch s (with_ch o (completeCh o ++ [id])))
                (delete n (announcers s)),
              [])
      else None
    | None => None
    end
  | HandlerReceive =>
    if handlerDone s then None
    else
      match completeCh o with
      | [] => None
      | taskID :: rest =>
        match tasks o !! taskID with
        | None => None
        | Some task =>
          let completed := S (completedTasks s) in
          let results' :=
            match Result task with
            | Some r => results s ++ [r]
            | None => results s
            end in
          Some (mkExec (with_ch o rest) (clock s) (sched s) (workers s) (announcers s)
                       (totalTasks s) completed results'
                       (bool_decide (completed = totalTasks s)) (returned s),
                [EvProgress completed (totalTasks s) taskID])
        end
      end
  | MainReturn =>
    if handlerDone s && bool_decide (sched s = SchedDone) && negb (returned s)
    then Some (mkExec o (clock s) (sched s) (workers s) (announcers s) (totalTasks s)
                      (completedTasks s) (results s) (handlerDone s) true,
               [EvReturn (results s)])
    else None
  end.

(** A schedule: the actions taken, in order; the events they produce. *)
Fixpoint run (s : Exec) (ls : list Label) : option (Exec * list Event) :=
  match ls with
  | [] => Some (s, [])
  | l :: rest =>
    match step l s with
    | None => None
    | Some (s', ev) =>
      match run s' rest with
      | None => None
      | Some (s'', evs) => Some (s'', ev ++ evs)
      end
    end
  end.

(** [Execute] up to the point where its goroutines are started: the error
    of [validateDAG] (with no results), or the initial state. *)
Definition Execute_begin (o : DAGOrchestrator) (order1 order2 : list string) (now : Z)
  : option (result dag_error Exec) :=
  match validateDAG o order1 order2 with
  | None => None
  | Some (Some err) => Some (Err err)
  | Some None =>
    Some (Ok (mkExec o now SchedCheck [] [] (size (tasks o)) 0 [] false false))
  end.

End Orchestrator.

(** ** models: the constructors *)

Module Constructors.
Import Models.

Inductive new_result_error : Type :=
| ErrInvalidResult (e : result_error)   (* "invalid encoder result: %w" *)
| ErrNilError.   (* "invalid encoder result: error cannot be nil for failed result" *)

(** [NewEncoderResultSuccess] *)
Definition NewEncoderResultSuccess (chunkID : Z) (outputPath : string)
  : result new_result_error EncoderResult :=
  let er := mkEncoderResult chunkID outputPath true None in
  match EncoderResult_Validate er with
  | Some e => Err (ErrInvalidResult e)
  | None => Ok er
  end.

(** [NewEncoderResultFailure] *)
Definition NewEncoderResultFailure (chunkID : Z) (encError : option error)
  : result new_result_error EncoderResult :=
  match encError with
  | None => Err ErrNilError
  | Some e => Ok (mkEncoderResult chunkID EmptyString false (Some e))
  end.

End Constructors.

(** ** chunker/chunker.go: [ValidateChunks] *)

Module ChunkerValidate.
Import Models.

Inductive validate_error : Type :=
| ErrChunkListEmpty                              (* "chunk list is empty" *)
| ErrChunkInvalid (i : Z) (e : chunk_error)      (* "chunk %d is invalid: %w" *)
| ErrDifferentSource (i : Z) (expected got : string)
                                   (* "chunk %d has different source path: ..." *)
| ErrIncorrectID (i expected got : Z)  (* "chunk %d has incorrect ID: expected %d, got %d" *)
| ErrOverlap (i : Z)                   (* "chunks %d and %d overlap: ..." (i+1, i+2) *)
| ErrGap (i : Z).                      (* "gap between chunks %d and %d: ..." (i+1, i+2) *)

(** The four loops of [ValidateChunks], on the chunks of the planner, whose
    times are numbers; [i] is the index of the head.  The sum [currentEnd+1]
    is exact here, as it is in float64 for the end times of a fixed-width
    plan (integers up to 2^53); [FloatModels.ValidateChunks] is the function
    over every float64, with the sum rounded. *)
Fixpoint check_each (i : Z) (chunks : list Chunk) : option validate_error :=
  match chunks with
  | [] => None
  | chunk :: rest =>
    match Chunk_Validate chunk with
    | Some e => Some (ErrChunkInvalid i e)
    | None => check_each (i + 1) rest
    end
  end.

Fixpoint check_source (firstSource : string) (i : Z) (chunks : list Chunk)
  : option validate_error :=
  match chunks with
  | [] => None
  | chunk :: rest =>
    if negb (String.eqb (SourcePath chunk) firstSource)
    then Some (ErrDifferentSource i firstSource (SourcePath chunk))
    else check_source firstSource (i + 1) rest
  end.

Fixpoint check_ids (i : Z) (chunks : list Chunk) : option validate_error :=
  match chunks with
  | [] => None
  | chunk :: rest =>
    let expectedID := to_uint (i + 1) in
    if negb (ChunkID chunk =? expectedID)
    then Some (ErrIncorrectID i expectedID (ChunkID chunk))
    else check_ids (i + 1) rest
  end.

(** [for i := 0; i < len(chunks)-1; i++] *)
Fixpoint check_adjacent (i : Z) (chunks : list Chunk) : option validate_error :=
  match chunks with
  | cur :: ((next :: _) as rest) =>
    let currentEnd := EndTime cur in
    let nextStart := StartTime next in
    if Fmt.Qltb nextStart currentEnd then Some (ErrOverlap i)
    else if Fmt.Qltb (currentEnd + 1) nextStart then Some (ErrGap i)
    else check_adjacent (i + 1) rest
  | _ => None
  end.

Definition ValidateChunks (chunks : list Chunk) : option validate_error :=
  match chunks with
  | [] => Some ErrChunkListEmpty
  | first :: _ =>
    match check_each 0 chunks with
    | Some e => Some e
    | None =>
      match check_source (SourcePath first) 0 chunks with
      | Some e => Some e
      | None =>
        match check_ids 0 chunks with
        | Some e => Some e
        | None => check_adjacent 0 chunks
        end
      end
    end
  end.

End ChunkerValidate.

(** ** concatenator/concatenator.go: [ConcatenateSimple]; main.go: [concatenateFiles] *)

Module ConcatenatorWrappers.
Import Models Concatenator.

(** [ConcatenateSimple]: the loop that wraps the paths, [i] being the index
    of the head. *)
Fixpoint simple_results (i : Z) (chunkPaths : list string) : list EncoderResult :=
  match chunkPaths with
  | [] => []
  | path :: rest =>
    mkEncoderResult (to_uint (i + 1)) path true None :: simple_results (i + 1) rest
  end.

Definition ConcatenateSimple (env : Env) (chunkPaths : list string) (outputPath : string)
  : list warning * option concat_error :=
  Concatenate env (NewConcatenator true) (simple_results 0 chunkPaths) outputPath.

(** The pipeline driver's [concatenateFiles] (the variant that numbers the
    files by their index): a file is a success when [os.Stat] finds it. *)
Fixpoint file_results (env : Env) (i : Z) (files : list string) : list EncoderResult :=
  match files with
  | [] => []
  | file :: rest =>
    mkEncoderResult (to_uint i) file (stat env file) None :: file_results env (i + 1) rest
  end.

Definition concatenateFiles (env : Env) (files : list string) (outputPath : string)
  (strict : bool) : list warning * option concat_error :=
  Concatenate env (NewConcatenator strict) (file_results env 0 files) outputPath.

End ConcatenatorWrappers.

(** ** orchestrator/dag.go: [GetTaskStatus], [GetStats] *)

Module OrchestratorQueries.
Import Orchestrator.

Inductive query_error : Type :=
| ErrTaskNotFound (id : string).   (* "task %s not found" *)

(** [GetTaskStatus] *)
Definition GetTaskStatus (o : DAGOrchestrator) (taskID : string)
  : result query_error TaskStatus :=
  match tasks o !! taskID with
  | None => Err (ErrTaskNotFound taskID)
  | Some task => Ok (Status task)
  end.

(** The map returned by [GetStats], one field per key. *)
Record Stats : Type := mkStats {
  total : Z;
  pending : Z;
  ready : Z;
  running : Z;
  completed : Z;
  failed : Z
}.

(** The [switch] in the loop of [GetStats]. *)
Definition count_task (stats : Stats) (task : Task) : Stats :=
  match Status task with
  | TaskPending => mkStats (total stats) (pending stats + 1) (ready stats) (running stats)
                           (completed stats) (failed stats)
  | TaskReady => mkStats (total stats) (pending stats) (ready stats + 1) (running stats)
                         (completed stats) (failed stats)
  | TaskRunning => mkStats (total stats) (pending stats) (ready stats) (running stats + 1)
                           (completed stats) (failed stats)
  | TaskCompleted => mkStats (total stats) (pending stats) (ready stats) (running stats)
                             (completed stats + 1) (failed stats)
  | TaskFailed => mkStats (total stats) (pending stats) (ready stats) (running stats)
                          (completed stats) (failed stats + 1)
  end.

(** [GetStats]; the counts do not depend on the order of the [range]. *)
Definition GetStats (o : DAGOrchestrator) : Stats :=
  foldl count_task (mkStats (Z.of_nat (size (tasks o))) 0 0 0 0 0)
        (map_to_list (tasks o)).*2.

End OrchestratorQueries.

(** ** float64 with its infinities and NaN *)

Module Float64.
Import Fmt.

(** A float64 value: a number, an infinity or NaN.  Numbers are kept as
    rationals; the two zeros are not told apart (no operation used below
    does).  The results of [round] are the numbers float64 can hold. *)
Inductive float64 : Type :=
| Num (q : Q)
| PosInf
| NegInf
| NaN.

Definition is_nan (x : float64) : bool :=
  match x with NaN => true | _ => false end.

(** Go's [x < y] and [x == y]: false as soon as an operand is NaN. *)
Definition lt (x y : float64) : bool :=
  match x, y with
  | Num a, Num b => Qltb a b
  | Num _, PosInf | NegInf, Num _ | NegInf, PosInf => true
  | _, _ => false
  end.

Definition eq (x y : float64) : bool :=
  match x, y with
  | Num a, Num b => Qeq_bool a b
  | PosInf, PosInf | NegInf, NegInf => true
  | _, _ => false
  end.

(** [x > y] and [x >= y] *)
Definition gt (x y : float64) : bool := lt y x.
Definition ge (x y : float64) : bool := lt y x || eq x y.

(** The exponent of a positive rational: the floor of its binary logarithm. *)
Definition floor_log2 (a : Q) : Z :=
  let k := Z.log2 (Qnum a) - Z.log2 (Z.pos (Qden a)) in
  if Qltb a (2 ^ k) then k - 1 else k.

(** Rounding of a real result to float64: to the nearest multiple of the
    unit in the last place (53 significant bits, the exponent not below
    -1022), a tie going to the even multiple; a magnitude that rounds to
    2^1024 or more becomes an infinity. *)
Definition round (q : Q) : float64 :=
  if Qeq_bool q 0 then Num 0
  else
    let a := Qabs q in
    let e := Z.max (floor_log2 a) (-1022) in
    let ulp := (2 ^ (e - 52))%Q in
    let r := (inject_Z (round_half_even (a / ulp)) * ulp)%Q in
    if Qle_bool (2 ^ 1024) r then (if Qltb q 0 then NegInf else PosInf)
    else Num (if Qltb q 0 then - r else r).

(** [x + y] *)
Definition add (x y : float64) : float64 :=
  match x, y with
  | NaN, _ | _, NaN => NaN
  | PosInf, NegInf | NegInf, PosInf => NaN
  | PosInf, _ | _, PosInf => PosInf
  | NegInf, _ | _, NegInf => NegInf
  | Num a, Num b => round (a + b)
  end.

End Float64.

(** ** models/chunk.go and [ValidateChunks] of chunker.go, over every float64

    [Models.Chunk] keeps the times of a chunk as numbers, which is all the
    planner produces.  [NewChunk] and [ValidateChunks] are exported and take
    whatever times the caller passes, NaN and the infinities included, and
    [ValidateChunks] adds in float64; they are embedded here over [float64]. *)

Module FloatModels.
Import Float64.

Record Chunk : Type := mkChunk {
  ChunkID : Z;            (* uint *)
  StartTime : float64;
  EndTime : float64;
  SourcePath : string
}.

(** A chunk whose times are numbers. *)
Definition of_numbers (c : Models.Chunk) : Chunk :=
  mkChunk (Models.ChunkID c) (Num (Models.StartTime c)) (Num (Models.EndTime c))
          (Models.SourcePath c).

(** [Chunk.Validate] *)
Definition Chunk_Validate (c : Chunk) : option Models.chunk_error :=
  if blank (SourcePath c) then Some Models.ErrSourcePathEmpty
  else if eq (EndTime c) (Num 0) then Some Models.ErrEndTimeZero
  else if ge (StartTime c) (EndTime c) then Some Models.ErrStartNotBeforeEnd
  else None.

(** [NewChunk]: the error of [Validate] is wrapped ("invalid chunk: %w"). *)
Definition NewChunk (id : Z) (startTime endTime : float64) (sourcePath : string)
  : result Models.chunk_error Chunk :=
  let c := mkChunk id startTime endTime sourcePath in
  match Chunk_Validate c with
  | Some e => Err e
  | None => Ok c
  end.

Import ChunkerValidate.

(** The four loops of [ValidateChunks]; [i] is the index of the head. *)
Fixpoint check_each (i : Z) (chunks : list Chunk) : option validate_error :=
  match chunks with
  | [] => None
  | chunk :: rest =>
    match Chunk_Validate chunk with
    | Some e => Some (ErrChunkInvalid i e)
    | None => check_each (i + 1) rest
    end
  end.

Fixpoint check_source (firstSource : string) (i : Z) (chunks : list Chunk)
  : option validate_error :=
  match chunks with
  | [] => None
  | chunk :: rest =>
    if negb (String.eqb (SourcePath chunk) firstSource)
    then Some (ErrDifferentSource i firstSource (SourcePath chunk))
    else check_source firstSource (i + 1) rest
  end.

Fixpoint check_ids (i : Z) (chunks : list Chunk) : option validate_error :=
  match chunks with
  | [] => None
  | chunk :: rest =>
    let expectedID := to_uint (i + 1) in
    if negb (ChunkID chunk =? expectedID)
    then Some (ErrIncorrectID i expectedID (ChunkID chunk))
    else check_ids (i + 1) rest
  end.

(** [for i := 0; i < len(chunks)-1; i++] *)
Fixpoint check_adjacent (i : Z) (chunks : list Chunk) : option validate_error :=
  match chunks with
  | cur :: ((next :: _) as rest) =>
    let currentEnd := EndTime cur in
    let nextStart := StartTime next in
    if gt currentEnd nextStart then Some (ErrOverlap i)
    else if gt nextStart (add currentEnd (Num 1)) then Some (ErrGap i)
    else check_adjacent (i + 1) rest
  | _ => None
  end.

Definition ValidateChunks (chunks : list Chunk) : option validate_error :=
  match chunks with
  | [] => Some ErrChunkListEmpty
  | first :: _ =>
    match check_each 0 chunks with
    | Some e => Some e
    | None =>
      match check_source (SourcePath first) 0 chunks with
      | Some e => Some e
      | None =>
        match check_ids 0 chunks with
        | Some e => Some e
        | None => check_adjacent 0 chunks
        end
      end
    end
  end.

End FloatModels.

(** * Properties of the time formatter *)

Module TimeutilSpec.
Import Fmt Timeutil.

Lemma string_length_app (a b : string) :
  String.length (a ++ b)%string = (String.length a + String.length b)%nat.
Proof. induction a as [|c a IH]; simpl; [reflexivity | now rewrite IH]. Qed.

Lemma Qltb_lt (x y : Q) : Qltb x y = true <-> (x < y)%Q.
Proof.
  unfold Qltb. rewrite negb_true_iff. split.
  - intros H. apply Qnot_le_lt. intros Hle. apply Qle_bool_iff in Hle. congruence.
  - intros H. destruct (Qle_bool y x) eqn:E; [|reflexivity].
    apply Qle_bool_iff in E. exfalso. apply (Qlt_not_le _ _ H E).
Qed.

Lemma Qltb_ge (x y : Q) : Qltb x y = false <-> (y <= x)%Q.
Proof.
  unfold Qltb. rewrite negb_false_iff. apply Qle_bool_iff.
Qed.

Lemma Qtrunc_floor (x : Q) : (0 <= x)%Q -> Qtrunc x = Qfloor x.
Proof.
  destruct x as [n d]. unfold Qle, Qtrunc, Qfloor. simpl. intros H.
  apply Z.quot_div_nonneg; lia.
Qed.

(** Two decimal digits below one hundred. *)
Lemma pad0_two_digits (k : Z) : 0 <= k < 100 -> String.length (pad0 2 (dec k)) = 2%nat.
Proof.
  intros Hk.
  assert (H : forallb (fun n => Nat.eqb (String.length (pad0 2 (dec (Z.of_nat n)))) 2)
                (seq 0 100) = true) by (vm_compute; reflexivity).
  rewrite forallb_forall in H.
  specialize (H (Z.to_nat k)).
  rewrite Z2Nat.id in H by lia.
  apply Nat.eqb_eq, H, in_seq. lia.
Qed.

Lemma dec_length_pos (k : Z) : 0 <= k < 100 -> (1 <= String.length (dec k))%nat.
Proof.
  intros Hk.
  assert (H : forallb (fun n => Nat.leb 1 (String.length (dec (Z.of_nat n))))
                (seq 0 100) = true) by (vm_compute; reflexivity).
  rewrite forallb_forall in H.
  specialize (H (Z.to_nat k)).
  rewrite Z2Nat.id in H by lia.
  apply Nat.leb_le, H, in_seq. lia.
Qed.

Lemma pad0_split (a x : string) :
  String.length x = 2%nat ->
  pad0 5 (a ++ "." ++ x) = (pad0 2 a ++ "." ++ x)%string.
Proof.
  intros Hx. unfold pad0. rewrite !string_length_app, Hx. simpl String.length.
  replace (5 - (String.length a + (1 + 2)))%nat with (2 - String.length a)%nat by lia.
  generalize (zeros (2 - String.length a)). intros z.
  induction z as [|c z IH]; [reflexivity|].
  change (String c (z +:+ a +:+ "." +:+ x) = String c ((z +:+ a) +:+ "." +:+ x)).
  now f_equal.
Qed.

(** The rounding of [%.2f]: nearest integer, a tie to the even one. *)
Lemma round_half_even_spec (x : Q) :
  (0 <= x)%Q ->
  let c := round_half_even x in
  (inject_Z c - (1 # 2) <= x <= inject_Z c + (1 # 2))%Q /\
  0 <= c /\
  ((x == inject_Z c - (1 # 2))%Q \/ (x == inject_Z c + (1 # 2))%Q -> Z.even c = true).
Proof.
  intros Hx. unfold round_half_even.
  pose proof (Qfloor_le x) as Hlo. pose proof (Qlt_floor x) as Hhi.
  assert (Hf : 0 <= Qfloor x).
  { change 0 with (Qfloor 0). apply Qfloor_resp_le, Hx. }
  set (f := Qfloor x) in *.
  rewrite inject_Z_plus in Hhi. change (inject_Z 1) with 1%Q in Hhi.
  destruct (Qltb (x - inject_Z f) (1 # 2)) eqn:E1.
  - apply Qltb_lt in E1. cbv zeta. repeat split; try lra; try lia;
      try (intros [H|H]; lra).
  - apply Qltb_ge in E1.
    destruct (Qltb (1 # 2) (x - inject_Z f)) eqn:E2.
    + apply Qltb_lt in E2. cbv zeta. rewrite inject_Z_plus. change (inject_Z 1) with 1%Q.
      repeat split; try lra; try lia; try (intros [H|H]; lra).
    + apply Qltb_ge in E2.
      destruct (Z.even f) eqn:E3; cbv zeta.
      * repeat split; try lra; try lia; try (intros _; exact E3).
      * rewrite inject_Z_plus. change (inject_Z 1) with 1%Q.
        repeat split; try lra; try lia;
          try (intros _; rewrite Z.even_add, E3; reflexivity).
Qed.

Lemma round_half_even_le (x : Q) (n : Z) :
  (0 <= x)%Q -> (x <= inject_Z n)%Q -> round_half_even x <= n.
Proof.
  intros Hx Hn. destruct (round_half_even_spec x Hx) as [[Hlo _] _].
  set (c := round_half_even x) in *.
  destruct (Z_le_gt_dec c n) as [|Hgt]; [assumption|exfalso].
  assert (inject_Z (n + 1) <= inject_Z c)%Q by (rewrite <- Zle_Qle; lia).
  rewrite inject_Z_plus in H. change (inject_Z 1) with 1%Q in H. lra.
Qed.

(** The integer decomposition of a non-negative value. *)
Lemma decompose (s : Q) :
  (0 <= s)%Q ->
  let n := Qfloor s in
  hours_of s = n / 3600 /\
  minutes_of s = (n mod 3600) / 60 /\
  0 <= hours_of s /\
  0 <= minutes_of s < 60 /\
  (0 <= secs_of s < 60)%Q /\
  (secs_of s == s - inject_Z (3600 * hours_of s + 60 * minutes_of s))%Q.
Proof.
  intros Hs n.
  assert (Hn : 0 <= n).
  { subst n. change 0 with (Qfloor 0). apply Qfloor_resp_le, Hs. }
  unfold secs_of, hours_of, minutes_of. rewrite (Qtrunc_floor s Hs). fold n.
  rewrite (Z.quot_div_nonneg n 3600) by lia.
  rewrite (Z.rem_mod_nonneg n 3600) by lia.
  pose proof (Z.mod_pos_bound n 3600 ltac:(lia)) as Hm.
  rewrite (Z.quot_div_nonneg (n mod 3600) 60) by lia.
  pose proof (Z.div_mod n 3600 ltac:(lia)) as Hd.
  pose proof (Z.div_mod (n mod 3600) 60 ltac:(lia)) as Hd2.
  pose proof (Z.mod_pos_bound (n mod 3600) 60 ltac:(lia)) as Hm2.
  assert (Hh : 0 <= n / 3600) by (apply Z.div_pos; lia).
  assert (Hmin : 0 <= n mod 3600 / 60 < 60).
  { split; [apply Z.div_pos; lia | apply Z.div_lt_upper_bound; lia]. }
  repeat split; try lia.
  - pose proof (Qfloor_le s) as Hlo. fold n in Hlo.
    assert (inject_Z (n / 3600 * 3600 + n mod 3600 / 60 * 60) <= inject_Z n)%Q
      by (rewrite <- Zle_Qle; lia).
    rewrite inject_Z_plus in H. lra.
  - pose proof (Qlt_floor s) as Hhi. fold n in Hhi.
    rewrite inject_Z_plus in Hhi. change (inject_Z 1) with 1%Q in Hhi.
    assert (inject_Z (n + 1) <= inject_Z (n / 3600 * 3600 + n mod 3600 / 60 * 60 + 60))%Q
      by (rewrite <- Zle_Qle; lia).
    rewrite !inject_Z_plus in H. change (inject_Z 60) with 60%Q in H. change (inject_Z 1) with 1%Q in H. lra.
  - rewrite inject_Z_plus, !inject_Z_mult. change (inject_Z 3600) with 3600%Q.
    change (inject_Z 60) with 60%Q. lra.
Qed.

Lemma hundredths_spec (r : Q) :
  (0 <= r)%Q ->
  let c := hundredths r in
  (inject_Z c - (1 # 2) <= 100 * r <= inject_Z c + (1 # 2))%Q /\
  0 <= c /\
  ((100 * r == inject_Z c - (1 # 2))%Q \/ (100 * r == inject_Z c + (1 # 2))%Q ->
   Z.even c = true).
Proof.
  intros Hr. unfold hundredths.
  pose proof (Qabs_pos r Hr) as Habs.
  assert (H0 : (0 <= Qabs r * 100)%Q) by lra.
  destruct (round_half_even_spec _ H0) as [Hb [Hc He]].
  repeat split; try lra; try lia.
  intros [H|H]; apply He; [left|right]; lra.
Qed.

Lemma hundredths_le_6000 (r : Q) : (0 <= r < 60)%Q -> 0 <= hundredths r <= 6000.
Proof.
  intros [Hr Hlt]. split; [apply (hundredths_spec r Hr)|].
  unfold hundredths. pose proof (Qabs_pos r Hr) as Habs.
  apply round_half_even_le; [lra|].
  change (inject_Z 6000) with 6000%Q. lra.
Qed.

(** The table of timeutil_test.go. *)
Example FormatSeconds_table :
  FormatSeconds 0 = "00:00:00.00"%string /\
  FormatSeconds 90 = "00:01:30.00"%string /\
  FormatSeconds 3661 = "01:01:01.00"%string /\
  FormatSeconds 86400 = "24:00:00.00"%string /\
  FormatSeconds 359999 = "99:59:59.00"%string /\
  FormatSeconds (3053 # 100) = "00:00:30.53"%string /\
  FormatSeconds (1 # 2) = "00:00:00.50"%string /\
  FormatSeconds (1999 # 1000) = "00:00:02.00"%string /\
  FormatSeconds (1994 # 1000) = "00:00:01.99"%string /\
  FormatSeconds (3661123 # 1000) = "01:01:01.12"%string.
Proof. vm_compute. repeat split. Qed.

(** The seconds field is not carried into the minutes: it ranges over
    00.00 .. 60.00, the upper end reached from 59.995 on. *)
Lemma seconds_field_range (s : Q) :
  (0 <= s)%Q -> 0 <= hundredths (secs_of s) <= 6000.
Proof.
  intros Hs. apply hundredths_le_6000.
  destruct (decompose s Hs) as (_ & _ & _ & _ & H & _). exact H.
Qed.




End TimeutilSpec.

(** * Properties of the chunk planner *)

Module ChunkerSpec.
Import Models Chunker TimeutilSpec.

Lemma Qceiling_unique (x : Q) (n : Z) :
  (inject_Z n - 1 < x <= inject_Z n)%Q -> Qceiling x = n.
Proof.
  intros [Hlo Hhi].
  pose proof (Qle_ceiling x) as H1. pose proof (Qceiling_lt x) as H2.
  unfold Z.sub in H2. rewrite inject_Z_plus, inject_Z_opp in H2.
  change (inject_Z 1) with 1%Q in H2.
  assert (A : (inject_Z (Qceiling x) < inject_Z (n + 1))%Q).
  { rewrite inject_Z_plus. change (inject_Z 1) with 1%Q. lra. }
  assert (B : (inject_Z n < inject_Z (Qceiling x + 1))%Q).
  { rewrite inject_Z_plus. change (inject_Z 1) with 1%Q. lra. }
  rewrite <- Zlt_Qlt in A, B. lia.
Qed.

Section FixedWidth.
Variable c : Chunker.
Variable D : Q.
Hypothesis HW : 1 <= chunkDuration c.
Hypothesis HD : (0 < D)%Q.

Let W : Q := inject_Z (chunkDuration c).
Let N : Z := Qceiling (D / W).

Lemma W_pos : (1 <= W)%Q.
Proof. unfold W. change 1%Q with (inject_Z 1). rewrite <- Zle_Qle. exact HW. Qed.

Lemma N_bounds : (inject_Z N - 1 < D / W <= inject_Z N)%Q.
Proof.
  pose proof (Qle_ceiling (D / W)) as H1. pose proof (Qceiling_lt (D / W)) as H2.
  unfold Z.sub in H2. rewrite inject_Z_plus, inject_Z_opp in H2.
  change (inject_Z 1) with 1%Q in H2.
  fold N in H1, H2. lra.
Qed.

Lemma div_W_lt (x : Q) : (x < D / W)%Q <-> (x * W < D)%Q.
Proof.
  pose proof W_pos as HWp.
  assert (E : ((D / W) * W == D)%Q) by (field; lra).
  rewrite <- E at 2. symmetry. apply Qmult_lt_r. lra.
Qed.

Lemma div_W_le (x : Q) : (D / W <= x)%Q <-> (D <= x * W)%Q.
Proof.
  pose proof W_pos as HWp.
  assert (E : ((D / W) * W == D)%Q) by (field; lra).
  rewrite <- E at 2. symmetry. apply Qmult_le_r. lra.
Qed.

Lemma N_pos : 1 <= N.
Proof.
  pose proof N_bounds as [_ H]. pose proof W_pos as HWp.
  apply div_W_le in H.
  destruct (Z_lt_le_dec N 1) as [Hlt|]; [exfalso|assumption].
  assert (inject_Z N <= 0)%Q by (change 0%Q with (inject_Z 0); rewrite <- Zle_Qle; lia).
  nra.
Qed.

Lemma chunkCount_ceiling : chunkCount_of c D = N.
Proof.
  pose proof W_pos as HWp. pose proof N_pos as HN.
  unfold chunkCount_of. fold W.
  assert (Hq : (0 <= D / W)%Q).
  { apply Qle_shift_div_l; lra. }
  rewrite (Qtrunc_floor _ Hq).
  set (k := Qfloor (D / W)).
  pose proof (Qfloor_le (D / W)) as Hlo. pose proof (Qlt_floor (D / W)) as Hhi.
  fold k in Hlo, Hhi. rewrite inject_Z_plus in Hhi. change (inject_Z 1) with 1%Q in Hhi.
  assert (Hcase : (if Fmt.Qltb (inject_Z k * W) D then k + 1 else k) = N).
  { destruct (Fmt.Qltb (inject_Z k * W) D) eqn:E.
    - apply Qltb_lt in E. apply div_W_lt in E.
      symmetry. apply Qceiling_unique. rewrite inject_Z_plus.
      change (inject_Z 1) with 1%Q. lra.
    - apply Qltb_ge in E. apply div_W_le in E.
      symmetry. apply Qceiling_unique. lra. }
  rewrite Hcase. destruct (Z.eqb_spec N 0); [lia|reflexivity].
Qed.

Hypothesis Hsrc : blank (sourcePath c) = false.

(** The chunk appended by iteration [i] of the loop. *)
Definition fixed_chunk (i : Z) : Chunk :=
  let startTime := (inject_Z i * W)%Q in
  let endTime := (startTime + W)%Q in
  mkChunk (to_uint (i + 1)) startTime
          (if Fmt.Qltb D endTime then D else endTime) (sourcePath c).

Lemma start_before_D (i : Z) : 0 <= i < N -> (0 <= inject_Z i * W < D)%Q.
Proof.
  intros [Hi0 HiN]. pose proof W_pos as HWp. pose proof N_bounds as [Hlo _].
  assert (H0 : (0 <= inject_Z i)%Q) by (change 0%Q with (inject_Z 0); rewrite <- Zle_Qle; lia).
  split; [nra|]. apply div_W_lt.
  assert (inject_Z (i + 1) <= inject_Z N)%Q by (rewrite <- Zle_Qle; lia).
  rewrite inject_Z_plus in H. change (inject_Z 1) with 1%Q in H. lra.
Qed.

Lemma fixed_chunk_valid (i : Z) : 0 <= i < N -> Chunk_Validate (fixed_chunk i) = None.
Proof.
  intros Hi. pose proof (start_before_D i Hi) as [H0 H1]. pose proof W_pos as HWp.
  unfold Chunk_Validate, fixed_chunk. cbn [SourcePath EndTime StartTime].
  rewrite Hsrc.
  set (e := if Fmt.Qltb D (inject_Z i * W + W) then D else (inject_Z i * W + W)%Q).
  assert (He : (inject_Z i * W < e)%Q).
  { subst e. destruct (Fmt.Qltb D (inject_Z i * W + W)); lra. }
  destruct (Qeq_bool e 0) eqn:E1.
  { apply Qeq_bool_iff in E1. lra. }
  destruct (Qle_bool e (inject_Z i * W)) eqn:E2.
  { apply Qle_bool_iff in E2. lra. }
  reflexivity.
Qed.

Lemma fixed_loop_spec (todo : nat) : forall (i : Z) (acc : list Chunk),
  0 <= i -> i + Z.of_nat todo <= N ->
  fixed_loop c D i todo acc =
    Ok (acc ++ map (fun k => fixed_chunk (i + Z.of_nat k)) (seq 0 todo)).
Proof.
  induction todo as [|todo IH]; intros i acc Hi Hn.
  - simpl. now rewrite app_nil_r.
  - cbn [fixed_loop]. fold W.
    change (mkChunk (to_uint (i + 1)) (inject_Z i * W)
              (if Fmt.Qltb D (inject_Z i * W + W) then D else (inject_Z i * W + W)%Q)
              (sourcePath c)) with (fixed_chunk i).
    rewrite fixed_chunk_valid by lia.
    rewrite IH by lia. f_equal.
    rewrite <- app_assoc. f_equal. cbn [seq map app].
    rewrite Z.add_0_r. f_equal.
    rewrite <- seq_shift, map_map. apply map_ext. intros k. f_equal. lia.
Qed.

End FixedWidth.
(** [CreateChunks] hands the probed duration to the fixed-width planner when
    chapters are not used. *)
Lemma CreateChunks_fixed (scan : string -> option Q) (c : Chunker)
  (mi : MediaInfo) (D : Q) :
  sourcePath c <> EmptyString ->
  MinChunkDuration <= chunkDuration c <= MaxChunkDuration ->
  GetDuration mi = Ok D -> (0 < D)%Q ->
  useChapters c && HasChapters mi = false ->
  CreateChunks scan c (Some mi) = createFixedDurationChunks c D.
Proof.
  intros Hsrc [Hmin Hmax] Hdur HD Hch. unfold CreateChunks.
  destruct (String.eqb_spec (sourcePath c) EmptyString); [contradiction|].
  destruct (Z.ltb_spec (chunkDuration c) MinChunkDuration); [lia|].
  destruct (Z.ltb_spec MaxChunkDuration (chunkDuration c)); [lia|].
  rewrite Hdur.
  destruct (Qle_bool D 0) eqn:E; [apply Qle_bool_iff in E; lra|].
  now rewrite Hch.
Qed.

(** C9.  A fixed-width plan over a duration [D > 0] with width [W >= 1] has
    exactly ceil(D/W) chunks; chunk [i] (counted from 1) has id [i], starts at
    [(i-1)*W] and ends at [i*W], except the last one, which ends at [D]
    itself.  The planner returns this plan whenever the source path is not
    blank. *)
Theorem fixed_width_plan (c : Chunker) (D : Q) :
  blank (sourcePath c) = false ->
  1 <= chunkDuration c ->
  (0 < D)%Q -> (D <= inject_Z (2 ^ 53))%Q ->
  let W := inject_Z (chunkDuration c) in
  let N := Qceiling (D / W) in
  exists chunks,
    createFixedDurationChunks c D = Ok chunks /\
    Z.of_nat (length chunks) = N /\
    forall i, 0 <= i < N ->
      exists ch, chunks !! Z.to_nat i = Some ch /\
        ChunkID ch = i + 1 /\
        SourcePath ch = sourcePath c /\
        (StartTime ch == inject_Z i * W)%Q /\
        (EndTime ch == if i + 1 <? N then inject_Z (i + 1) * W else D)%Q.
Proof.
  intros Hsrc HW HD Hmax W N.
  pose proof (N_pos c D HW HD) as HN. fold W N in HN.
  pose proof (N_bounds c D) as [HNlo HNhi]. fold W N in HNlo, HNhi.
  pose proof (W_pos c HW) as HWp. fold W in HWp.
  exists (map (fun k => fixed_chunk c D (0 + Z.of_nat k)) (seq 0 (Z.to_nat N))).
  split; [|split].
  - unfold createFixedDurationChunks.
    destruct (Qle_bool D 0) eqn:E; [apply Qle_bool_iff in E; lra|].
    rewrite (chunkCount_ceiling c D HW HD). fold W N.
    rewrite (fixed_loop_spec c D HW Hsrc) by (fold W N; lia).
    reflexivity.
  - rewrite length_map, length_seq. lia.
  - intros i Hi.
    exists (fixed_chunk c D i). split.
    { rewrite list_lookup_fmap, lookup_seq_lt by lia. simpl. do 2 f_equal. lia. }
    assert (HNmax : N < 2 ^ 53 + 1).
    { assert (HdW : (D / W <= D)%Q).
      { apply Qle_shift_div_r; [lra|]. nra. }
      assert (A : (inject_Z N < inject_Z (2 ^ 53 + 1))%Q).
      { rewrite inject_Z_plus. change (inject_Z 1) with 1%Q. lra. }
      now rewrite <- Zlt_Qlt in A. }
    unfold fixed_chunk. cbn [ChunkID SourcePath StartTime EndTime]. fold W.
    split; [|split; [|split]].
    + unfold to_uint. apply Z.mod_small. lia.
    + reflexivity.
    + reflexivity.
    + destruct (Z.ltb_spec (i + 1) N) as [Hlt|Hge].
      * pose proof (start_before_D c D HW (i + 1)) as Hs. fold W N in Hs.
        destruct Hs as [_ Hs]; [lia|].
        rewrite inject_Z_plus in *. change (inject_Z 1) with 1%Q in *.
        destruct (Fmt.Qltb D (inject_Z i * W + W)) eqn:E.
        { apply Qltb_lt in E. lra. }
        ring.
      * assert (N = i + 1) by lia. subst N.
        apply (div_W_le c D HW) in HNhi. fold W in HNhi.
        rewrite H, inject_Z_plus in HNhi. change (inject_Z 1) with 1%Q in HNhi.
        destruct (Fmt.Qltb D (inject_Z i * W + W)) eqn:E; [reflexivity|].
        apply Qltb_ge in E. lra.
Qed.

Lemma fixed_width_plan_witness :
  blank "movie.mp4" = false /\ 1 <= 5 /\ (0 < 61 # 2)%Q /\
  exists chunks,
    createFixedDurationChunks (mkChunker "movie.mp4" 5 false) (61 # 2) = Ok chunks /\
    Z.of_nat (length chunks) = 7.
Proof.
  assert (H1 : blank "movie.mp4" = false) by reflexivity.
  assert (H2 : 1 <= 5) by lia.
  assert (H3 : (0 < 61 # 2)%Q) by reflexivity.
  assert (H4 : (61 # 2 <= inject_Z (2 ^ 53))%Q) by (vm_compute; discriminate).
  repeat split; try assumption.
  destruct (fixed_width_plan (mkChunker "movie.mp4" 5 false) (61 # 2) H1 H2 H3 H4)
    as (chunks & Hc & Hlen & _).
  exists chunks. split; [exact Hc|]. rewrite Hlen. reflexivity.
Defined.

(** *** Chapter-derived plans *)

Section Chapters.
Variable scan : string -> option Q.
Variable c : Chunker.

(** A chapter entry that parses and whose chunk passes validation. *)
Definition chapter_ok (ch : ChapterInfo) : bool :=
  match scan (ChStartTime ch), scan (ChEndTime ch) with
  | Some st, Some en =>
    match Chunk_Validate (mkChunk 0 st en (sourcePath c)) with
    | None => true
    | Some _ => false
    end
  | _, _ => false
  end.

Lemma Chunk_Validate_id (i j : Z) (st en : Q) (p : string) :
  Chunk_Validate (mkChunk i st en p) = Chunk_Validate (mkChunk j st en p).
Proof. reflexivity. Qed.


Lemma chapters_loop_err (chs : list ChapterInfo) : forall (i : Z) (acc : list Chunk),
  forallb chapter_ok chs = false ->
  exists e, chapters_loop scan c i chs acc = Err e.
Proof.
  induction chs as [|ch chs IH]; intros i acc Hall; [discriminate|].
  cbn [forallb] in Hall. cbn [chapters_loop]. unfold chapter_ok in Hall.
  destruct (scan (ChStartTime ch)) as [st|]; [|eauto].
  destruct (scan (ChEndTime ch)) as [en|]; [|eauto].
  rewrite (Chunk_Validate_id (to_uint (i + 1)) 0).
  destruct (Chunk_Validate (mkChunk 0 st en (sourcePath c))) eqn:E; [eauto|].
  simpl in Hall. apply IH, Hall.
Qed.

End Chapters.







End ChunkerSpec.

(** * Properties of the concatenator *)

Module ConcatenatorSpec.
Import Models Concatenator.


(** What the gap check accepts: an integer lying between two ids is an id. *)
Definition no_missing_between (ids : list Z) : Prop :=
  forall a b z, a ∈ ids -> b ∈ ids -> a <= z <= b -> z ∈ ids.

Definition id_le (x y : EncoderResult) : Prop := RChunkID x <= RChunkID y.

Lemma insert_by_id_perm (r : EncoderResult) (l : list EncoderResult) :
  insert_by_id r l ≡ₚ r :: l.
Proof.
  induction l as [|x l IH]; simpl; [reflexivity|].
  destruct (RChunkID r <? RChunkID x); [reflexivity|].
  rewrite IH. apply Permutation_swap.
Qed.

Lemma sort_from_perm (l : list EncoderResult) : forall sorted,
  fold_left (fun sorted r => insert_by_id r sorted) l sorted ≡ₚ sorted ++ l.
Proof.
  induction l as [|x l IH]; intros sorted; simpl.
  - now rewrite app_nil_r.
  - rewrite IH, insert_by_id_perm. apply Permutation_middle.
Qed.

Lemma sort_by_id_perm (l : list EncoderResult) : sort_by_id l ≡ₚ l.
Proof. apply (sort_from_perm l []). Qed.

Lemma insert_by_id_sorted (r : EncoderResult) (l : list EncoderResult) :
  StronglySorted id_le l -> StronglySorted id_le (insert_by_id r l).
Proof.
  induction 1 as [|x l Hs IH Hx]; simpl.
  - repeat constructor.
  - destruct (Z.ltb_spec (RChunkID r) (RChunkID x)) as [Hlt|Hge].
    + constructor; [constructor; assumption|].
      constructor; [unfold id_le; lia|].
      eapply Forall_impl; [exact Hx|]. unfold id_le. intros y Hy. lia.
    + constructor; [exact IH|].
      rewrite insert_by_id_perm. constructor; [exact Hge | exact Hx].
Qed.

Lemma sort_from_sorted (l : list EncoderResult) : forall sorted,
  StronglySorted id_le sorted ->
  StronglySorted id_le (fold_left (fun sorted r => insert_by_id r sorted) l sorted).
Proof.
  induction l as [|x l IH]; intros sorted Hs; simpl; [exact Hs|].
  apply IH. now apply insert_by_id_sorted.
Qed.

Lemma sort_by_id_sorted (l : list EncoderResult) : StronglySorted id_le (sort_by_id l).
Proof. apply sort_from_sorted. constructor. Qed.

Lemma sort_by_id_length (l : list EncoderResult) : length (sort_by_id l) = length l.
Proof. apply Permutation_length, sort_by_id_perm. Qed.

(** Results with the same id stay in their input order. *)
Example sort_by_id_keeps_ties :
  sort_by_id [mkEncoderResult 2 "/tmp/b.opus" true None;
              mkEncoderResult 1 "/tmp/x.opus" true None;
              mkEncoderResult 1 "/tmp/y.opus" true None]
  = [mkEncoderResult 1 "/tmp/x.opus" true None;
     mkEncoderResult 1 "/tmp/y.opus" true None;
     mkEncoderResult 2 "/tmp/b.opus" true None].
Proof. reflexivity. Qed.

(** On a sorted list the loop of [checkForGaps] finds nothing exactly when
    each id is at most one more than the one before. *)
Fixpoint steps_ok (l : list EncoderResult) : Prop :=
  match l with
  | cur :: ((next :: _) as rest) => RChunkID next <= RChunkID cur + 1 /\ steps_ok rest
  | _ => True
  end.

Lemma ids_between_nil (from to : Z) : ids_between from to = [] <-> to <= from.
Proof.
  unfold ids_between. split.
  - intros H. apply (f_equal (@length Z)) in H.
    rewrite length_map, length_seq in H. simpl in H. lia.
  - intros H. replace (Z.to_nat (to - from)) with 0%nat by lia. reflexivity.
Qed.

Lemma collect_gaps_cons (cur next : EncoderResult) (l : list EncoderResult) :
  collect_gaps (cur :: next :: l) =
  (if negb (RChunkID next =? to_uint (RChunkID cur + 1))
   then ids_between (to_uint (RChunkID cur + 1)) (RChunkID next) else [])
  ++ collect_gaps (next :: l).
Proof. reflexivity. Qed.

Lemma steps_ok_cons (cur next : EncoderResult) (l : list EncoderResult) :
  steps_ok (cur :: next :: l) <->
  RChunkID next <= RChunkID cur + 1 /\ steps_ok (next :: l).
Proof. reflexivity. Qed.

Lemma collect_gaps_nil (l : list EncoderResult) :
  StronglySorted id_le l ->
  Forall (fun r => 0 <= RChunkID r < 2 ^ 64 - 1) l ->
  collect_gaps l = [] <-> steps_ok l.
Proof.
  induction 1 as [|cur l Hs IH Hcur]; intros Hr; [simpl; tauto|].
  destruct l as [|next l']; [simpl; tauto|].
  apply Forall_cons in Hr as [Hc Hr]. specialize (IH Hr).
  rewrite collect_gaps_cons, steps_ok_cons.
  assert (Hu : to_uint (RChunkID cur + 1) = RChunkID cur + 1).
  { unfold to_uint. apply Z.mod_small. lia. }
  rewrite Hu. apply Forall_cons in Hcur as [Hle _]. unfold id_le in Hle.
  split.
  - intros H. apply app_eq_nil in H as [H1 H2]. split; [|now apply IH].
    destruct (Z.eqb_spec (RChunkID next) (RChunkID cur + 1)) as [->|Hne]; [lia|].
    simpl in H1. apply ids_between_nil in H1. lia.
  - intros [H1 H2]. apply IH in H2. rewrite H2, app_nil_r.
    destruct (Z.eqb_spec (RChunkID next) (RChunkID cur + 1)); [reflexivity|].
    simpl. apply ids_between_nil. lia.
Qed.

Lemma steps_ok_between (l : list EncoderResult) : forall cur,
  steps_ok (cur :: l) ->
  forall b z, b ∈ map RChunkID (cur :: l) -> RChunkID cur <= z <= b ->
    z ∈ map RChunkID (cur :: l).
Proof.
  induction l as [|next l IH]; intros cur Hst b z Hb Hz.
  - simpl in *. apply list_elem_of_singleton in Hb. subst b.
    apply list_elem_of_singleton. lia.
  - apply steps_ok_cons in Hst as [Hstep Hst]. cbn [map] in *.
    destruct (Z.eq_dec z (RChunkID cur)) as [->|Hne]; [left|].
    right. apply elem_of_cons in Hb as [->|Hb]; [lia|].
    apply (IH next Hst b z Hb). lia.
Qed.

Lemma sorted_head_min (cur : EncoderResult) (l : list EncoderResult) :
  StronglySorted id_le (cur :: l) ->
  forall a, a ∈ map RChunkID (cur :: l) -> RChunkID cur <= a.
Proof.
  intros Hs a Ha. apply StronglySorted_inv in Hs as [_ Hall].
  cbn [map] in Ha. apply elem_of_cons in Ha as [->|Ha]; [lia|].
  apply list_elem_of_fmap in Ha as (y & -> & Hy).
  rewrite Forall_forall in Hall. apply (Hall y Hy).
Qed.

Lemma steps_ok_iff_no_missing (l : list EncoderResult) :
  StronglySorted id_le l ->
  steps_ok l <-> no_missing_between (map RChunkID l).
Proof.
  induction 1 as [|cur l Hs IH Hcur].
  - simpl. split; [|tauto]. intros _ a b z Ha. inversion Ha.
  - assert (Hsorted : StronglySorted id_le (cur :: l)) by (constructor; assumption).
    split.
    + intros Hst a b z Ha Hb Hz.
      apply (steps_ok_between l cur Hst b z Hb).
      pose proof (sorted_head_min cur l Hsorted a Ha). lia.
    + intros Hno. destruct l as [|next l']; [exact I|].
      apply steps_ok_cons.
      assert (Hle : RChunkID cur <= RChunkID next).
      { apply Forall_cons in Hcur as [H _]. exact H. }
      split.
      * destruct (Z_le_gt_dec (RChunkID next) (RChunkID cur + 1)) as [|Hgap]; [assumption|].
        exfalso.
        assert (Hin : RChunkID cur + 1 ∈ map RChunkID (cur :: next :: l')).
        { apply (Hno (RChunkID cur) (RChunkID next)); [left | right; left | lia]. }
        cbn [map] in Hin. apply elem_of_cons in Hin as [Hin|Hin]; [lia|].
        pose proof (sorted_head_min next l' Hs _ Hin). lia.
      * apply IH. intros a b z Ha Hb Hz.
        assert (Hin : z ∈ map RChunkID (cur :: next :: l')).
        { apply (Hno a b); [right; exact Ha | right; exact Hb | exact Hz]. }
        cbn [map] in Hin. apply elem_of_cons in Hin as [->|Hin]; [|exact Hin].
        pose proof (sorted_head_min next l' Hs _ Ha).
        assert (RChunkID next = RChunkID cur) by lia.
        rewrite <- H0. left.
Qed.

Lemma no_missing_between_perm (l1 l2 : list Z) :
  l1 ≡ₚ l2 -> no_missing_between l1 -> no_missing_between l2.
Proof.
  intros Hp Hno a b z Ha Hb Hz. rewrite <- Hp in *. eauto.
Qed.

Section WithEnv.
Variable env : Env.

Lemma failed_nil (results : list EncoderResult) :
  filter (fun r => usable env r = false) results = [] <->
  Forall (fun r => usable env r = true) results.
Proof.
  induction results as [|r l IH].
  - split; [constructor | reflexivity].
  - rewrite filter_cons. destruct (decide (usable env r = false)) as [Hf|Ht].
    + split; [discriminate|]. intros H. apply Forall_cons in H as [H _]. congruence.
    + rewrite IH. apply not_false_iff_true in Ht. split.
      * intros H. now constructor.
      * intros H. now apply Forall_cons in H as [_ H].
Qed.

Lemma successful_all (results : list EncoderResult) :
  Forall (fun r => usable env r = true) results ->
  filter (fun r => usable env r = true) results = results.
Proof.
  induction 1 as [|r l Hr Hl IH]; [reflexivity|].
  rewrite filter_cons, decide_True by exact Hr. now rewrite IH.
Qed.

Lemma checkForGaps_none (results : list EncoderResult) :
  Forall (fun r => 0 <= RChunkID r < 2 ^ 64 - 1) results ->
  checkForGaps (sort_by_id results) = None <->
  no_missing_between (map RChunkID results).
Proof.
  intros Hr.
  assert (Hs : StronglySorted id_le (sort_by_id results)) by apply sort_by_id_sorted.
  assert (Hr' : Forall (fun r => 0 <= RChunkID r < 2 ^ 64 - 1) (sort_by_id results)).
  { now rewrite sort_by_id_perm. }
  assert (Hp : map RChunkID (sort_by_id results) ≡ₚ map RChunkID results).
  { apply fmap_Permutation, sort_by_id_perm. }
  pose proof (collect_gaps_nil _ Hs Hr') as Hg.
  pose proof (steps_ok_iff_no_missing _ Hs) as Hst.
  unfold checkForGaps.
  destruct (length (sort_by_id results) =? 0)%nat eqn:El.
  - apply Nat.eqb_eq in El. destruct (sort_by_id results) as [|x l]; [|discriminate].
    split; [|reflexivity]. intros _.
    apply (no_missing_between_perm _ _ Hp). intros a b z Ha. inversion Ha.
  - destruct (collect_gaps (sort_by_id results)) as [|g gs] eqn:Eg.
    + simpl. split; [|reflexivity]. intros _.
      apply (no_missing_between_perm _ _ Hp), Hst, Hg. reflexivity.
    + simpl. split; [discriminate|]. intros Hno. exfalso.
      assert (H : g :: gs = []); [|discriminate].
      apply Hg, Hst. apply (no_missing_between_perm _ _ (Permutation_sym Hp)), Hno.
Qed.


End WithEnv.





End ConcatenatorSpec.

(** * Validation of the task graph *)

Module OrchestratorSpec.
Import Orchestrator.

(** *** The dependency graph *)

(** [edge ts u w]: task [u] lists [w] among its dependencies. *)
Definition edge (ts : gmap string Task) (u w : string) : Prop :=
  exists t, ts !! u = Some t /\ w ∈ Dependencies t.

Definition closed (ts : gmap string Task) : Prop :=
  forall u w, edge ts u w -> is_Some (ts !! w).

Definition has_cycle (ts : gmap string Task) : Prop :=
  exists u, tc (edge ts) u u.

(** A ranking that decreases along every edge, bounded by the number of
    tasks: what the cycle check establishes when it finds nothing. *)
Definition ranking (ts : gmap string Task) (rank : string -> nat) : Prop :=
  (forall u w, edge ts u w -> (rank w < rank u)%nat) /\
  (forall u, is_Some (ts !! u) -> (rank u < size ts)%nat).

Lemma ranking_tc ts rank u w :
  ranking ts rank -> tc (edge ts) u w -> (rank w < rank u)%nat.
Proof.
  intros Hr. induction 1 as [u w He | u v w He _ IH].
  - apply (proj1 Hr u w He).
  - pose proof (proj1 Hr u v He). lia.
Qed.

Lemma ranking_acyclic ts rank : ranking ts rank -> ~ has_cycle ts.
Proof.
  intros Hr [u Hu]. pose proof (ranking_tc ts rank u u Hr Hu). lia.
Qed.

Lemma range_of_elem ts order id :
  range_of ts order -> id ∈ order <-> is_Some (ts !! id).
Proof.
  unfold range_of. intros ->. rewrite list_elem_of_fmap. split.
  - intros [[k t] [-> H]]. apply elem_of_map_to_list in H. simpl. eauto.
  - intros [t H]. exists (id, t). split; [reflexivity|]. now apply elem_of_map_to_list.
Qed.

(** *** First loop of [validateDAG] *)

Lemma first_missing_none ts id deps :
  first_missing ts id deps = None <-> forall d, d ∈ deps -> is_Some (ts !! d).
Proof.
  induction deps as [|d deps IH]; simpl.
  - split; [|reflexivity]. intros _ d Hd. inversion Hd.
  - destruct (ts !! d) eqn:E.
    + rewrite IH. split.
      * intros H x Hx. apply elem_of_cons in Hx as [->|Hx]; [rewrite E; eauto | auto].
      * intros H x Hx. apply H. now right.
    + split; [discriminate|]. intros H.
      destruct (H d) as [? Hd]; [left | congruence].
Qed.

Lemma first_missing_some ts id deps e :
  first_missing ts id deps = Some e ->
  exists d, e = ErrUnknownDependency id d /\ d ∈ deps /\ ts !! d = None.
Proof.
  induction deps as [|d deps IH]; simpl; [discriminate|].
  destruct (ts !! d) eqn:E.
  - intros H. destruct (IH H) as (x & -> & Hx & Hn). exists x. repeat split; [now right | exact Hn].
  - intros [= <-]. exists d. repeat split; [left | exact E].
Qed.

Lemma check_deps_exist_none ts order :
  check_deps_exist ts order = None <->
  forall id t, id ∈ order -> ts !! id = Some t ->
    forall d, d ∈ Dependencies t -> is_Some (ts !! d).
Proof.
  induction order as [|id order IH]; simpl.
  - split; [|reflexivity]. intros _ id t Hid. inversion Hid.
  - destruct (ts !! id) as [task|] eqn:E.
    + destruct (first_missing ts (ID task) (Dependencies task)) as [e|] eqn:Ef.
      * split; [discriminate|]. intros H. exfalso.
        assert (Hn : first_missing ts (ID task) (Dependencies task) = None).
        { apply first_missing_none. apply (H id task); [left | exact E]. }
        congruence.
      * rewrite IH. split.
        -- intros H x t Hx Ht. apply elem_of_cons in Hx as [->|Hx].
           ++ assert (t = task) by congruence. subst t.
              now apply first_missing_none with (id := ID task).
           ++ eauto.
        -- intros H x t Hx. apply H. now right.
    + rewrite IH. split.
      * intros H x t Hx Ht. apply elem_of_cons in Hx as [->|Hx]; [congruence | eauto].
      * intros H x t Hx. apply H. now right.
Qed.

Lemma check_deps_exist_some ts order e :
  check_deps_exist ts order = Some e ->
  exists id t d, id ∈ order /\ ts !! id = Some t /\
    e = ErrUnknownDependency (ID t) d /\ d ∈ Dependencies t /\ ts !! d = None.
Proof.
  induction order as [|id order IH]; simpl; [discriminate|].
  destruct (ts !! id) as [task|] eqn:E.
  - destruct (first_missing ts (ID task) (Dependencies task)) as [e'|] eqn:Ef.
    + intros [= <-]. destruct (first_missing_some _ _ _ _ Ef) as (d & -> & Hd & Hn).
      exists id, task, d. repeat split; try assumption. left.
    + intros H. destruct (IH H) as (x & t & d & Hx & Ht & He & Hd & Hn).
      exists x, t, d. repeat split; try assumption. now right.
  - intros H. destruct (IH H) as (x & t & d & Hx & Ht & He & Hd & Hn).
    exists x, t, d. repeat split; try assumption. now right.
Qed.

Lemma check_deps_exist_closed ts order :
  range_of ts order -> check_deps_exist ts order = None <-> closed ts.
Proof.
  intros Hr. rewrite check_deps_exist_none. split.
  - intros H u w (t & Ht & Hw). apply (H u t); [|assumption..].
    apply (range_of_elem ts order u Hr). eauto.
  - intros H id t _ Ht d Hd. apply (H id d). exists t. auto.
Qed.

(** *** The depth-first search of [validateDAG] *)

Section DFS.
Variable ts : gmap string Task.
Hypothesis Hclosed : closed ts.

(** Finished vertices: visited and no longer on the recursion stack. *)
Definition black (st : dfs) : gset string := visited st ∖ recStack st.

(** The finished vertices are closed under edges and ranked. *)
Definition dfs_inv (st : dfs) : Prop :=
  recStack st ⊆ visited st /\
  visited st ⊆ dom ts /\
  exists rank : string -> nat,
    (forall u w, u ∈ black st -> edge ts u w ->
       w ∈ black st /\ (rank w < rank u)%nat) /\
    (forall u, u ∈ black st -> (rank u < size (black st))%nat).

(** What a call that finds no cycle leaves behind. *)
Definition dfs_post (u : string) (st st' : dfs) : Prop :=
  recStack st' = recStack st /\
  visited st ⊆ visited st' /\
  u ∈ visited st' /\
  dfs_inv st'.

Lemma black_mono (st st' : dfs) :
  recStack st' = recStack st -> visited st ⊆ visited st' -> black st ⊆ black st'.
Proof. unfold black. intros -> H. set_solver. Qed.

Lemma hasCycle_S (fuel : nat) (u : string) (st : dfs) :
  hasCycle (S fuel) ts u st =
  let st1 := mkDfs ({[u]} ∪ visited st) ({[u]} ∪ recStack st) in
  match ts !! u with
  | None => None
  | Some task =>
    match visit_deps (hasCycle fuel ts) (Dependencies task) st1 with
    | None => None
    | Some (true, st2) => Some (true, st2)
    | Some (false, st2) => Some (false, mkDfs (visited st2) (recStack st2 ∖ {[u]}))
    end
  end.
Proof. reflexivity. Qed.

Lemma visit_deps_false (rec : string -> dfs -> option (bool * dfs)) :
  (forall u st st', u ∉ visited st -> dfs_inv st ->
     rec u st = Some (false, st') -> dfs_post u st st') ->
  forall deps st st',
    dfs_inv st ->
    visit_deps rec deps st = Some (false, st') ->
    recStack st' = recStack st /\ visited st ⊆ visited st' /\ dfs_inv st' /\
    forall d, d ∈ deps -> d ∈ black st'.
Proof.
  intros Hrec. induction deps as [|d deps IH]; intros st st' Hinv Hrun.
  - simpl in Hrun. inversion Hrun; subst st'. split_and!; try done.
    intros d Hd. inversion Hd.
  - cbn [visit_deps] in Hrun.
    destruct (decide (d ∈ visited st)) as [Hv|Hnv].
    + destruct (decide (d ∈ recStack st)) as [Hr|Hnr]; [discriminate|].
      destruct (IH st st' Hinv Hrun) as (HR & HV & Hinv' & Hdeps).
      split_and!; try assumption.
      intros x Hx. apply elem_of_cons in Hx as [->|Hx]; [|auto].
      apply (black_mono st st' HR HV). unfold black. set_solver.
    + destruct (rec d st) as [[[] st1]|] eqn:Erec; try discriminate.
      destruct (Hrec d st st1 Hnv Hinv Erec) as (HR1 & HV1 & Hd1 & Hinv1).
      destruct (IH st1 st' Hinv1 Hrun) as (HR & HV & Hinv' & Hdeps).
      split_and!; try assumption; try congruence.
      * set_solver.
      * intros x Hx. apply elem_of_cons in Hx as [->|Hx]; [|auto].
        apply (black_mono st1 st' HR HV). unfold black.
        destruct Hinv as (Hsub & _). rewrite HR1. set_solver.
Qed.

Lemma hasCycle_false (fuel : nat) : forall u st st',
  u ∉ visited st -> dfs_inv st ->
  hasCycle fuel ts u st = Some (false, st') -> dfs_post u st st'.
Proof.
  induction fuel as [|fuel IH]; intros u st st' Hu Hinv Hrun; [discriminate|].
  rewrite hasCycle_S in Hrun. cbv zeta in Hrun.
  destruct (ts !! u) as [task|] eqn:Etask; [|discriminate].
  set (st1 := mkDfs ({[u]} ∪ visited st) ({[u]} ∪ recStack st)) in Hrun.
  destruct (visit_deps (hasCycle fuel ts) (Dependencies task) st1)
    as [[[] st2]|] eqn:Edeps; try discriminate.
  inversion Hrun; subst st'. clear Hrun.
  destruct Hinv as (Hsub & Hdom & rank & Hrank & Hbound).
  assert (HuR : u ∉ recStack st) by set_solver.
  assert (Hb1 : black st1 = black st).
  { unfold black, st1. simpl. set_solver. }
  assert (Hinv1 : dfs_inv st1).
  { split; [|split].
    - unfold st1. simpl. set_solver.
    - unfold st1. simpl. apply elem_of_dom_2 in Etask. set_solver.
    - exists rank. rewrite Hb1. split; assumption. }
  destruct (visit_deps_false (hasCycle fuel ts) IH _ _ _ Hinv1 Edeps)
    as (HR2 & HV2 & Hinv2 & Hdeps).
  destruct Hinv2 as (Hsub2 & Hdom2 & rank2 & Hrank2 & Hbound2).
  assert (HuV2 : u ∈ visited st2) by (unfold st1 in HV2; simpl in HV2; set_solver).
  assert (HuB2 : u ∉ black st2).
  { unfold black. rewrite HR2. unfold st1. simpl. set_solver. }
  assert (HR' : recStack st2 ∖ {[u]} = recStack st).
  { rewrite HR2. unfold st1. simpl. set_solver. }
  assert (Hb' : black (mkDfs (visited st2) (recStack st2 ∖ {[u]})) = {[u]} ∪ black st2).
  { unfold black. simpl. rewrite HR'. rewrite HR2. unfold st1. simpl.
    apply set_eq. intros x. rewrite !elem_of_union, !elem_of_difference,
      elem_of_union, elem_of_singleton.
    destruct (decide (x = u)) as [->|]; set_solver. }
  split; [exact HR'|]. split; [unfold st1 in HV2; simpl in HV2; set_solver|].
  split; [exact HuV2|].
  split; [|split].
  - simpl. rewrite HR'. set_solver.
  - exact Hdom2.
  - exists (fun x => if decide (x = u) then size (black st2) else rank2 x).
    rewrite Hb'. split.
    + intros x w Hx Hxw.
      apply elem_of_union in Hx as [Hx|Hx].
      * apply elem_of_singleton in Hx. subst x.
        destruct Hxw as (t & Ht & Hw).
        assert (t = task) by congruence. subst t.
        pose proof (Hdeps w Hw) as HwB.
        split; [set_solver|].
        destruct (decide (w = u)) as [->|_]; [contradiction|].
        destruct (decide (u = u)) as [_|]; [|congruence].
        apply Hbound2, HwB.
      * destruct (Hrank2 x w Hx Hxw) as [HwB Hlt].
        split; [set_solver|].
        destruct (decide (w = u)) as [->|_]; [contradiction|].
        destruct (decide (x = u)) as [->|_]; [contradiction|].
        exact Hlt.
    + intros x Hx. rewrite size_union by set_solver. rewrite size_singleton.
      apply elem_of_union in Hx as [Hx|Hx].
      * apply elem_of_singleton in Hx. subst x.
        destruct (decide (u = u)) as [_|]; [lia|congruence].
      * destruct (decide (x = u)) as [->|_]; [contradiction|].
        pose proof (Hbound2 x Hx). lia.
Qed.

(** The search returns: the recursion goes to unvisited vertices only. *)
Definition unvisited (st : dfs) : nat := size (dom ts ∖ visited st).

Lemma visit_deps_total (rec : string -> dfs -> option (bool * dfs)) (fuel : nat) :
  (forall u st, is_Some (ts !! u) -> u ∉ visited st -> visited st ⊆ dom ts ->
     (unvisited st <= fuel)%nat ->
     exists b st', rec u st = Some (b, st') /\
       visited st ⊆ visited st' /\ visited st' ⊆ dom ts) ->
  forall deps st,
    (forall d, d ∈ deps -> is_Some (ts !! d)) ->
    visited st ⊆ dom ts -> (unvisited st <= fuel)%nat ->
    exists b st', visit_deps rec deps st = Some (b, st') /\
      visited st ⊆ visited st' /\ visited st' ⊆ dom ts.
Proof.
  intros Hrec. induction deps as [|d deps IH]; intros st Hdeps Hdom Hfuel.
  - exists false, st. simpl. repeat split; done.
  - cbn [visit_deps].
    assert (Hdeps' : forall x, x ∈ deps -> is_Some (ts !! x)).
    { intros x Hx. apply Hdeps. now right. }
    destruct (decide (d ∈ visited st)) as [Hv|Hnv].
    + destruct (decide (d ∈ recStack st)); [exists true, st; repeat split; done|].
      apply IH; assumption.
    + destruct (Hrec d st) as (b & st1 & -> & HV1 & Hdom1); try assumption.
      { apply Hdeps. left. }
      destruct b; [exists true, st1; repeat split; done|].
      destruct (IH st1 Hdeps' Hdom1) as (b & st' & Hrun & HV & Hdom').
      { unfold unvisited in *. etrans; [|exact Hfuel].
        apply subseteq_size. set_solver. }
      exists b, st'. repeat split; try assumption. set_solver.
Qed.

Lemma hasCycle_total (fuel : nat) : forall u st,
  is_Some (ts !! u) -> u ∉ visited st -> visited st ⊆ dom ts ->
  (unvisited st <= fuel)%nat ->
  exists b st', hasCycle (S fuel) ts u st = Some (b, st') /\
    visited st ⊆ visited st' /\ visited st' ⊆ dom ts.
Proof.
  induction fuel as [|fuel IH]; intros u st [task Etask] Hu Hdom Hfuel.
  - exfalso. unfold unvisited in Hfuel.
    assert (Hin : u ∈ dom ts ∖ visited st).
    { apply elem_of_difference. split; [now apply elem_of_dom_2 in Etask | exact Hu]. }
    assert (Hsz : size (dom ts ∖ visited st) = 0%nat) by lia.
    apply size_empty_inv in Hsz. set_solver.
  - rewrite hasCycle_S. cbv zeta. rewrite Etask.
    set (st1 := mkDfs ({[u]} ∪ visited st) ({[u]} ∪ recStack st)).
    assert (Hdom1 : visited st1 ⊆ dom ts).
    { unfold st1. simpl. apply elem_of_dom_2 in Etask. set_solver. }
    assert (Hfuel1 : (unvisited st1 <= fuel)%nat).
    { unfold unvisited in *. unfold st1. simpl.
      assert (Hin : u ∈ dom ts ∖ visited st).
      { apply elem_of_difference. split; [now apply elem_of_dom_2 in Etask | exact Hu]. }
      assert (Hsplit : dom ts ∖ visited st = {[u]} ∪ dom ts ∖ ({[u]} ∪ visited st)).
      { apply set_eq. intros x. rewrite elem_of_union, !elem_of_difference,
          elem_of_union, elem_of_singleton.
        destruct (decide (x = u)) as [->|]; set_solver. }
      rewrite Hsplit, size_union, size_singleton in Hfuel by set_solver. lia. }
    destruct (visit_deps_total (hasCycle (S fuel) ts) fuel IH (Dependencies task) st1)
      as (b & st2 & -> & HV2 & Hdom2); try assumption.
    { intros d Hd. apply (Hclosed u d). exists task. auto. }
    destruct b.
    + exists true, st2. repeat split; try assumption.
      unfold st1 in HV2. simpl in HV2. set_solver.
    + eexists false, _. split; [reflexivity|]. simpl. split; [|assumption].
      unfold st1 in HV2. simpl in HV2. set_solver.
Qed.

Lemma unvisited_le_size (st : dfs) : (unvisited st <= size ts)%nat.
Proof.
  unfold unvisited. rewrite <- (size_dom (D := gset string) ts).
  apply subseteq_size. set_solver.
Qed.

Lemma cycle_loop_spec (order : list string) : forall st,
  (forall id, id ∈ order -> is_Some (ts !! id)) ->
  dfs_inv st -> recStack st = ∅ ->
  exists b, cycle_loop ts order st = Some b /\
    (b = false ->
     exists st', dfs_inv st' /\ recStack st' = ∅ /\ visited st ⊆ visited st' /\
       forall id, id ∈ order -> id ∈ visited st').
Proof.
  induction order as [|id order IH]; intros st Hdom Hinv HR.
  - exists false. split; [reflexivity|]. intros _. exists st. split_and!; try done.
    intros id Hid. inversion Hid.
  - cbn [cycle_loop].
    assert (Hdom' : forall x, x ∈ order -> is_Some (ts !! x)).
    { intros x Hx. apply Hdom. now right. }
    destruct (decide (id ∈ visited st)) as [Hv|Hnv].
    + destruct (IH st Hdom' Hinv HR) as (b & Hrun & Hb).
      exists b. split; [exact Hrun|]. intros ->.
      destruct (Hb eq_refl) as (st' & Hinv' & HR' & HV' & Hall).
      exists st'. split_and!; try assumption.
      intros x Hx. apply elem_of_cons in Hx as [->|Hx]; [set_solver | auto].
    + destruct (hasCycle_total (size ts) id st) as (b1 & st1 & Hrun1 & HV1 & Hdom1);
        try assumption.
      { apply Hdom. left. }
      { apply Hinv. }
      { apply unvisited_le_size. }
      rewrite Hrun1. destruct b1.
      { exists true. split; [reflexivity | discriminate]. }
      destruct (hasCycle_false _ _ _ _ Hnv Hinv Hrun1) as (HR1 & _ & Hid1 & Hinv1).
      destruct (IH st1 Hdom' Hinv1) as (b & Hrun & Hb); [congruence|].
      exists b. split; [exact Hrun|]. intros ->.
      destruct (Hb eq_refl) as (st' & Hinv' & HR' & HV' & Hall).
      exists st'. split_and!; try assumption; [set_solver|].
      intros x Hx. apply elem_of_cons in Hx as [->|Hx]; [set_solver | auto].
Qed.

Lemma dfs_inv_init : dfs_inv (mkDfs ∅ ∅).
Proof.
  split; [set_solver|]. split; [set_solver|].
  exists (fun _ => 0%nat). unfold black. simpl. split; intros u; set_solver.
Qed.

(** The last loop of [validateDAG] returns, and when it finds nothing the
    graph has a ranking. *)
Lemma cycle_loop_ranking (order : list string) :
  range_of ts order ->
  exists b, cycle_loop ts order (mkDfs ∅ ∅) = Some b /\
    (b = false -> exists rank, ranking ts rank).
Proof.
  intros Hr.
  destruct (cycle_loop_spec order (mkDfs ∅ ∅)) as (b & Hrun & Hb).
  { intros id Hid. now apply (range_of_elem ts order id Hr). }
  { apply dfs_inv_init. }
  { reflexivity. }
  exists b. split; [exact Hrun|]. intros ->.
  destruct (Hb eq_refl) as (st' & (Hsub & Hdom & rank & Hrank & Hbound) & HR' & _ & Hall).
  assert (Hblack : black st' = dom ts).
  { unfold black. rewrite HR'. apply set_eq. intros x.
    rewrite elem_of_difference. split; [set_solver|]. intros Hx.
    split; [|set_solver]. apply Hall, (range_of_elem ts order x Hr).
    now apply elem_of_dom. }
  exists rank. split.
  - intros u w He. apply (Hrank u w); [|exact He].
    rewrite Hblack. destruct He as (t & Ht & _). now apply elem_of_dom_2 in Ht.
  - intros u Hu. rewrite <- (size_dom (D := gset string) ts), <- Hblack.
    apply Hbound. rewrite Hblack. now apply elem_of_dom.
Qed.

End DFS.


(** [validateDAG] returns; a nil error means that every dependency exists
    and that the graph has a ranking (so no cycle). *)
Lemma validateDAG_total (o : DAGOrchestrator) (order1 order2 : list string) :
  range_of (tasks o) order1 -> range_of (tasks o) order2 ->
  exists r, validateDAG o order1 order2 = Some r /\
    (r = None -> closed (tasks o) /\ exists rank, ranking (tasks o) rank).
Proof.
  intros H1 H2. unfold validateDAG.
  destruct (check_deps_exist (tasks o) order1) as [e|] eqn:E1.
  { exists (Some e). split; [reflexivity | discriminate]. }
  assert (Hc : closed (tasks o)) by now apply (check_deps_exist_closed _ order1 H1).
  destruct (cycle_loop_ranking (tasks o) Hc order2 H2) as (b & -> & Hb).
  destruct b.
  - exists (Some ErrCycleDetected). split; [reflexivity | discriminate].
  - exists None. split; [reflexivity|]. intros _. split; [exact Hc | now apply Hb].
Qed.

(** C5.  [validateDAG] runs first in [Execute].  If some dependency id names
    no task that was added it returns the unknown-dependency error for such a
    dependency; if every dependency exists and the graph has a directed cycle
    it returns the cycle error.  In both cases [Execute] returns that error
    alone: no goroutine is started, no task runs, no result is returned. *)
Theorem validateDAG_rejects (o : DAGOrchestrator) (order1 order2 : list string) (now : Z) :
  range_of (tasks o) order1 -> range_of (tasks o) order2 ->
  ((exists id t dep, tasks o !! id = Some t /\ dep ∈ Dependencies t /\
                     tasks o !! dep = None) ->
   exists t dep, t ∈ (map_to_list (tasks o)).*2 /\ dep ∈ Dependencies t /\
     tasks o !! dep = None /\
     validateDAG o order1 order2 = Some (Some (ErrUnknownDependency (ID t) dep)) /\
     Execute_begin o order1 order2 now = Some (Err (ErrUnknownDependency (ID t) dep))) /\
  (closed (tasks o) -> has_cycle (tasks o) ->
   validateDAG o order1 order2 = Some (Some ErrCycleDetected) /\
   Execute_begin o order1 order2 now = Some (Err ErrCycleDetected)) /\
  (has_cycle (tasks o) ->
   exists e, Execute_begin o order1 order2 now = Some (Err e)).
Proof.
  intros H1 H2.
  assert (Hunknown : ~ closed (tasks o) ->
    exists t dep, t ∈ (map_to_list (tasks o)).*2 /\ dep ∈ Dependencies t /\
      tasks o !! dep = None /\
      validateDAG o order1 order2 = Some (Some (ErrUnknownDependency (ID t) dep)) /\
      Execute_begin o order1 order2 now = Some (Err (ErrUnknownDependency (ID t) dep))).
  { intros Hnc. unfold Execute_begin, validateDAG.
    destruct (check_deps_exist (tasks o) order1) as [e|] eqn:E1.
    - destruct (check_deps_exist_some _ _ _ E1) as (id & t & d & Hid & Ht & -> & Hd & Hn).
      exists t, d. split_and!; try done.
      apply list_elem_of_fmap. exists (id, t). split; [reflexivity|].
      now apply elem_of_map_to_list.
    - exfalso. apply Hnc. now apply (check_deps_exist_closed _ order1 H1). }
  assert (Hcycle : closed (tasks o) -> has_cycle (tasks o) ->
    validateDAG o order1 order2 = Some (Some ErrCycleDetected) /\
    Execute_begin o order1 order2 now = Some (Err ErrCycleDetected)).
  { intros Hc Hcyc. unfold Execute_begin, validateDAG.
    rewrite (proj2 (check_deps_exist_closed _ order1 H1) Hc).
    destruct (cycle_loop_ranking (tasks o) Hc order2 H2) as (b & -> & Hb).
    destruct b; [split; reflexivity|].
    exfalso. destruct (Hb eq_refl) as [rank Hrank].
    exact (ranking_acyclic _ _ Hrank Hcyc). }
  split_and!.
  - intros (id & t & dep & Ht & Hd & Hn). apply Hunknown.
    intros Hc. destruct (Hc id dep) as [x Hx]; [exists t; auto | congruence].
  - exact Hcycle.
  - intros Hcyc.
    destruct (check_deps_exist (tasks o) order1) as [e|] eqn:E1.
    + destruct Hunknown as (t & d & _ & _ & _ & _ & He); [|eauto].
      intros Hc. apply (check_deps_exist_closed _ order1 H1) in Hc. congruence.
    + exists ErrCycleDetected. apply Hcycle; [|exact Hcyc].
      now apply (check_deps_exist_closed _ order1 H1).
Qed.

End OrchestratorSpec.

(** * Executions: schedules, invariants, resource slots *)

Module ExecSpec.
Import Orchestrator.

(** *** Schedules *)

Lemma run_app (ls1 ls2 : list Label) : forall s,
  run s (ls1 ++ ls2) =
  match run s ls1 with
  | None => None
  | Some (s1, ev1) =>
    match run s1 ls2 with
    | None => None
    | Some (s2, ev2) => Some (s2, ev1 ++ ev2)
    end
  end.
Proof.
  induction ls1 as [|l ls1 IH]; intros s; simpl.
  - destruct (run s ls2) as [[s2 ev2]|]; reflexivity.
  - destruct (step l s) as [[s' ev]|]; [|reflexivity].
    rewrite IH. destruct (run s' ls1) as [[s1 ev1]|]; [|reflexivity].
    destruct (run s1 ls2) as [[s2 ev2]|]; [|reflexivity].
    now rewrite app_assoc.
Qed.

(** Induction over a schedule, one action at a time from the start. *)
Lemma run_ind (P : Exec -> list Event -> Prop) (s0 : Exec) :
  P s0 [] ->
  (forall s evs l s' ev, P s evs -> step l s = Some (s', ev) -> P s' (evs ++ ev)) ->
  forall ls s evs, run s0 ls = Some (s, evs) -> P s evs.
Proof.
  intros H0 Hstep ls. induction ls as [|l ls IH] using rev_ind; intros s evs Hrun.
  - simpl in Hrun. inversion Hrun; subst. exact H0.
  - rewrite run_app in Hrun.
    destruct (run s0 ls) as [[s1 ev1]|] eqn:E1; [|discriminate].
    simpl in Hrun. destruct (step l s1) as [[s2 ev2]|] eqn:E2; [|discriminate].
    inversion Hrun; subst. rewrite app_nil_r.
    eapply Hstep; [|exact E2]. now apply IH.
Qed.

(** *** What never changes: identity, command, dependencies, resource *)

Definition static (t : Task) : string * Command.Command * list string * string :=
  (ID t, Command t, Dependencies t, Resource t).

Definition same_static (ts ts' : gmap string Task) : Prop :=
  forall id, static <$> (ts' !! id) = static <$> (ts !! id).

Lemma same_static_refl ts : same_static ts ts.
Proof. intros id. reflexivity. Qed.

Lemma same_static_trans ts1 ts2 ts3 :
  same_static ts1 ts2 -> same_static ts2 ts3 -> same_static ts1 ts3.
Proof. intros H1 H2 id. now rewrite H2, H1. Qed.

Lemma same_static_insert ts id t t' :
  ts !! id = Some t -> static t' = static t -> same_static ts (<[id := t']> ts).
Proof.
  intros Ht Hs x. destruct (decide (id = x)) as [->|Hne].
  - rewrite lookup_insert_eq, Ht. simpl. now rewrite Hs.
  - now rewrite lookup_insert_ne.
Qed.

Lemma same_static_lookup ts ts' id t' :
  same_static ts ts' -> ts' !! id = Some t' ->
  exists t, ts !! id = Some t /\ static t = static t'.
Proof.
  intros H Ht'. specialize (H id). rewrite Ht' in H. simpl in H.
  destruct (ts !! id) as [t|]; [|discriminate]. exists t. split; [reflexivity|].
  simpl in H. congruence.
Qed.

Lemma same_static_lookup_r ts ts' id t :
  same_static ts ts' -> ts !! id = Some t ->
  exists t', ts' !! id = Some t' /\ static t' = static t.
Proof.
  intros H Ht. specialize (H id). rewrite Ht in H. simpl in H.
  destruct (ts' !! id) as [t'|]; [|discriminate]. exists t'. split; [reflexivity|].
  simpl in H. congruence.
Qed.

(** The two scheduler functions touch the task table only. *)
Definition same_shared (o o' : DAGOrchestrator) : Prop :=
  constraints o' = constraints o /\ activeSlots o' = activeSlots o /\
  completeCh o' = completeCh o /\ same_static (tasks o) (tasks o').

Lemma same_shared_refl o : same_shared o o.
Proof. split_and!; try reflexivity. apply same_static_refl. Qed.

Lemma same_shared_tasks o id t t' :
  tasks o !! id = Some t -> static t' = static t ->
  same_shared o (with_tasks o (<[id := t']> (tasks o))).
Proof.
  intros Ht Hs. split_and!; try reflexivity. simpl.
  eapply same_static_insert; eassumption.
Qed.

Lemma same_shared_trans o1 o2 o3 :
  same_shared o1 o2 -> same_shared o2 o3 -> same_shared o1 o3.
Proof.
  intros (A1 & B1 & C1 & D1) (A2 & B2 & C2 & D2).
  split_and!; first [congruence | eapply same_static_trans; eassumption].
Qed.

(** How [getReadyTasks] changes a task: not at all, or from pending to ready
    when each of its dependencies is completed. *)
Definition promoted (ts : gmap string Task) (old new : option Task) : Prop :=
  new = old \/
  exists t, old = Some t /\ Status t = TaskPending /\
    deps_completed ts (Dependencies t) = true /\ new = Some (set_status TaskReady t).

Lemma deps_completed_spec ts deps :
  deps_completed ts deps = true <->
  forall d, d ∈ deps -> exists dt, ts !! d = Some dt /\ Status dt = TaskCompleted.
Proof.
  induction deps as [|d deps IH]; simpl.
  - split; [|reflexivity]. intros _ d Hd. inversion Hd.
  - destruct (ts !! d) as [dt|] eqn:E.
    + destruct (decide (Status dt = TaskCompleted)) as [Hc|Hnc].
      * rewrite IH. split.
        -- intros H x Hx. apply elem_of_cons in Hx as [->|Hx]; eauto.
        -- intros H x Hx. apply H. now right.
      * split; [discriminate|]. intros H.
        destruct (H d) as (dt' & Hd & Hc); [left|]. congruence.
    + split; [discriminate|]. intros H.
      destruct (H d) as (dt' & Hd & Hc); [left|]. congruence.
Qed.

(** Promotions do not change which tasks are completed. *)
Definition same_completed (ts ts' : gmap string Task) : Prop :=
  forall d, (exists dt, ts' !! d = Some dt /\ Status dt = TaskCompleted) <->
            (exists dt, ts !! d = Some dt /\ Status dt = TaskCompleted).

Lemma deps_completed_same ts ts' deps :
  same_completed ts ts' -> deps_completed ts' deps = deps_completed ts deps.
Proof.
  intros H. apply eq_true_iff_eq. rewrite !deps_completed_spec.
  split; intros Hd d Hin; apply H; auto.
Qed.

Lemma getReadyTasks_loop_spec (order : list string) : forall o ready o' ready',
  getReadyTasks_loop o order ready = (o', ready') ->
  same_shared o o' /\
  same_completed (tasks o) (tasks o') /\
  (forall id, promoted (tasks o) (tasks o !! id) (tasks o' !! id)) /\
  exists new, ready' = ready ++ new /\
    forall id, id ∈ new -> id ∈ order /\
      exists t', tasks o' !! id = Some t' /\ Status t' = TaskReady.
Proof.
  induction order as [|id order IH]; intros o ready o' ready' Hrun.
  - simpl in Hrun. inversion Hrun; subst. split_and!.
    + apply same_shared_refl.
    + intros d. reflexivity.
    + intros id. now left.
    + exists []. rewrite app_nil_r. split; [reflexivity|]. intros id Hid. inversion Hid.
  - cbn [getReadyTasks_loop] in Hrun.
    assert (Hskip : getReadyTasks_loop o order ready = (o', ready') ->
      same_shared o o' /\ same_completed (tasks o) (tasks o') /\
      (forall id, promoted (tasks o) (tasks o !! id) (tasks o' !! id)) /\
      exists new, ready' = ready ++ new /\
        forall x, x ∈ new -> x ∈ id :: order /\
          exists t', tasks o' !! x = Some t' /\ Status t' = TaskReady).
    { intros H. destruct (IH _ _ _ _ H) as (A & B & C & new & -> & D).
      split_and!; try assumption. exists new. split; [reflexivity|].
      intros x Hx. destruct (D x Hx) as [? ?]. split; [now right | assumption]. }
    destruct (tasks o !! id) as [task|] eqn:Et; [|auto].
    destruct (Status task) eqn:Es; try (now apply Hskip).
    + (* pending *)
      unfold dependenciesMet in Hrun.
      destruct (deps_completed (tasks o) (Dependencies task)) eqn:Ed; [|auto].
      set (o1 := with_tasks o (<[id := set_status TaskReady task]> (tasks o))) in *.
      destruct (IH _ _ _ _ Hrun) as (A & B & C & new & -> & D).
      assert (A1 : same_shared o o1) by (apply same_shared_tasks with (t := task); auto).
      assert (B1 : same_completed (tasks o) (tasks o1)).
      { intros d. unfold o1. simpl. destruct (decide (id = d)) as [Heq|Hne]; [subst d|].
        - rewrite lookup_insert_eq, Et. split; intros (dt & [= <-] & Hc);
            simpl in Hc; congruence.
        - now rewrite lookup_insert_ne. }
      assert (Hid' : exists t', tasks o' !! id = Some t' /\ Status t' = TaskReady).
      { destruct (C id) as [Hsame|(t & Ht & Hp & _)].
        - rewrite Hsame. unfold o1. simpl. rewrite lookup_insert_eq. eauto.
        - unfold o1 in Ht. simpl in Ht. rewrite lookup_insert_eq in Ht.
          inversion Ht; subst t. simpl in Hp. discriminate. }
      split_and!.
      * eapply same_shared_trans; eassumption.
      * intros d. rewrite (B d). apply B1.
      * intros x. destruct (decide (id = x)) as [Heq|Hne]; [subst x|].
        -- right. exists task. split_and!; try assumption.
           destruct (C id) as [Hsame|(t & Ht & Hp & _)].
           ++ rewrite Hsame. unfold o1. simpl. now rewrite lookup_insert_eq.
           ++ unfold o1 in Ht. simpl in Ht. rewrite lookup_insert_eq in Ht.
              inversion Ht; subst t. simpl in Hp. discriminate.
        -- destruct (C x) as [Hsame|(t & Ht & Hp & Hd & Hn)].
           ++ left. rewrite Hsame. unfold o1. simpl. now rewrite lookup_insert_ne.
           ++ right. exists t. unfold o1 in Ht. simpl in Ht.
              rewrite lookup_insert_ne in Ht by assumption.
              split_and!; try assumption.
              now rewrite <- (deps_completed_same _ _ _ B1).
      * exists (id :: new). rewrite <- app_assoc. split; [reflexivity|].
        intros x Hx. apply elem_of_cons in Hx as [->|Hx].
        -- split; [left | exact Hid'].
        -- destruct (D x Hx) as [? ?]. split; [now right | assumption].
    + (* ready *)
      destruct (IH _ _ _ _ Hrun) as (A & B & C & new & -> & D).
      split_and!; try assumption.
      exists (id :: new). rewrite <- app_assoc. split; [reflexivity|].
      intros x Hx. apply elem_of_cons in Hx as [Heq|Hx]; [subst x|].
      * split; [left|]. destruct (C id) as [Hsame|(t & Ht & Hp & _)].
        -- rewrite Hsame, Et. eauto.
        -- rewrite Et in Ht. inversion Ht; subst t. congruence.
      * destruct (D x Hx) as [? ?]. split; [now right | assumption].
Qed.

(** How [allTasksCompleteOrBlocked] changes a task: not at all, or from
    pending or ready to failed with the dependency error. *)
Definition blocked (old new : option Task) : Prop :=
  new = old \/
  exists t, old = Some t /\ (Status t = TaskPending \/ Status t = TaskReady) /\
    new = Some (mark_blocked t).

Lemma blocked_trans (a b c : option Task) :
  blocked a b -> blocked b c -> blocked a c.
Proof.
  intros [->|(t & -> & Hs & ->)] [->|(t' & Ht' & Hs' & ->)].
  - now left.
  - right. eauto.
  - right. eauto.
  - inversion Ht'; subst t'. simpl in Hs'. destruct Hs'; discriminate.
Qed.

Lemma allTasksCompleteOrBlocked_loop_spec (order : list string) :
  forall o announced o' announced' all,
  allTasksCompleteOrBlocked_loop o order announced = Some (o', announced', all) ->
  same_shared o o' /\
  (forall id, blocked (tasks o !! id) (tasks o' !! id)) /\
  (exists new, announced' = announced ++ new /\
     forall x, x ∈ new -> exists id t, id ∈ order /\ tasks o !! id = Some t /\
       x = ID t /\ tasks o' !! id = Some (mark_blocked t)) /\
  (all = true ->
   forall id t', id ∈ order -> tasks o' !! id = Some t' ->
     Status t' = TaskCompleted \/ Status t' = TaskFailed).
Proof.
  induction order as [|id order IH]; intros o ann o' ann' all Hrun.
  - simpl in Hrun. inversion Hrun; subst. split_and!.
    + apply same_shared_refl.
    + intros id. now left.
    + exists []. rewrite app_nil_r. split; [reflexivity|]. intros x Hx. inversion Hx.
    + intros _ id t' Hid. inversion Hid.
  - cbn [allTasksCompleteOrBlocked_loop] in Hrun.
    assert (Hstop : Some (o, ann, false) = Some (o', ann', all) ->
      same_shared o o' /\
      (forall id, blocked (tasks o !! id) (tasks o' !! id)) /\
      (exists new, ann' = ann ++ new /\
         forall x, x ∈ new -> exists k t, k ∈ id :: order /\ tasks o !! k = Some t /\
           x = ID t /\ tasks o' !! k = Some (mark_blocked t)) /\
      (all = true ->
       forall k t', k ∈ id :: order -> tasks o' !! k = Some t' ->
         Status t' = TaskCompleted \/ Status t' = TaskFailed)).
    { intros H. inversion H; subst. split_and!.
      - apply same_shared_refl.
      - intros k. now left.
      - exists []. rewrite app_nil_r. split; [reflexivity|]. intros x Hx. inversion Hx.
      - discriminate. }
    assert (Hskip : forall st, Status st = TaskCompleted \/ Status st = TaskFailed \/
                               tasks o !! id = None ->
      (tasks o !! id = None \/ tasks o !! id = Some st) ->
      allTasksCompleteOrBlocked_loop o order ann = Some (o', ann', all) ->
      same_shared o o' /\
      (forall id, blocked (tasks o !! id) (tasks o' !! id)) /\
      (exists new, ann' = ann ++ new /\
         forall x, x ∈ new -> exists k t, k ∈ id :: order /\ tasks o !! k = Some t /\
           x = ID t /\ tasks o' !! k = Some (mark_blocked t)) /\
      (all = true ->
       forall k t', k ∈ id :: order -> tasks o' !! k = Some t' ->
         Status t' = TaskCompleted \/ Status t' = TaskFailed)).
    { intros st Hst Hlook H. destruct (IH _ _ _ _ _ H) as (A & B & (new & -> & C) & D).
      split_and!; try assumption.
      - exists new. split; [reflexivity|]. intros x Hx.
        destruct (C x Hx) as (k & t & Hk & Ht & Hxt & Ht').
        exists k, t. split_and!; try assumption. now right.
      - intros Hall k t' Hk Ht'. apply elem_of_cons in Hk as [Heq|Hk]; [subst k|eauto].
        destruct (B id) as [Hsame|(t & Ht & Hs & Hn)].
        + rewrite Hsame in Ht'. destruct Hlook as [Hl|Hl]; rewrite Hl in Ht'; [discriminate|].
          inversion Ht'; subst t'. destruct Hst as [?|[?|?]]; auto. congruence.
        + rewrite Hn in Ht'. inversion Ht'; subst t'. now right. }
    destruct (tasks o !! id) as [task|] eqn:Et.
    2:{ apply (Hskip (mkTask EmptyString (Command.mkCommand EmptyString) [] EmptyString
                             TaskCompleted None None 0 0)); auto. }
    destruct (Status task) eqn:Es.
    + (* pending *)
      destruct (hasFailedDependency (S (size (tasks o))) (tasks o) task) as [[]|] eqn:Ef;
        [|now apply Hstop|discriminate].
      set (o1 := with_tasks o (<[id := mark_blocked task]> (tasks o))) in *.
      destruct (IH _ _ _ _ _ Hrun) as (A & B & (new & -> & C) & D).
      assert (A1 : same_shared o o1) by (apply same_shared_tasks with (t := task); auto).
      assert (B1 : forall k, blocked (tasks o !! k) (tasks o1 !! k)).
      { intros k. unfold o1. simpl. destruct (decide (id = k)) as [Heq|Hne]; [subst k|].
        - right. exists task. rewrite lookup_insert_eq. auto.
        - left. now rewrite lookup_insert_ne. }
      assert (Hkeep : tasks o' !! id = Some (mark_blocked task)).
      { destruct (B id) as [Hsame|(t & Ht & Hs & Hn)].
        - rewrite Hsame. unfold o1. simpl. now rewrite lookup_insert_eq.
        - unfold o1 in Ht. simpl in Ht. rewrite lookup_insert_eq in Ht.
          inversion Ht; subst t. simpl in Hs. destruct Hs; discriminate. }
      split_and!.
      * eapply same_shared_trans; eassumption.
      * intros k. eapply blocked_trans; [apply B1 | apply B].
      * exists (ID task :: new). rewrite <- app_assoc. split; [reflexivity|].
        intros x Hx. apply elem_of_cons in Hx as [Heq|Hx]; [subst x|].
        -- exists id, task. split_and!; [left | exact Et | reflexivity | exact Hkeep].
        -- destruct (C x Hx) as (k & t & Hk & Ht & Hxt & Ht').
           destruct (decide (id = k)) as [Heq|Hne]; [subst k|].
           ++ unfold o1 in Ht. simpl in Ht. rewrite lookup_insert_eq in Ht.
              inversion Ht; subst t.
              exists id, task. split_and!; [left | exact Et | exact Hxt | exact Hkeep].
           ++ exists k, t. unfold o1 in Ht. simpl in Ht.
              rewrite lookup_insert_ne in Ht by assumption.
              split_and!; [now right | exact Ht | exact Hxt | exact Ht'].
      * intros Hall k t' Hk Ht'. apply elem_of_cons in Hk as [Heq|Hk]; [subst k|eauto].
        rewrite Hkeep in Ht'. inversion Ht'; subst t'. now right.
    + (* ready *)
      destruct (hasFailedDependency (S (size (tasks o))) (tasks o) task) as [[]|] eqn:Ef;
        [|now apply Hstop|discriminate].
      set (o1 := with_tasks o (<[id := mark_blocked task]> (tasks o))) in *.
      destruct (IH _ _ _ _ _ Hrun) as (A & B & (new & -> & C) & D).
      assert (A1 : same_shared o o1) by (apply same_shared_tasks with (t := task); auto).
      assert (B1 : forall k, blocked (tasks o !! k) (tasks o1 !! k)).
      { intros k. unfold o1. simpl. destruct (decide (id = k)) as [Heq|Hne]; [subst k|].
        - right. exists task. rewrite lookup_insert_eq. auto.
        - left. now rewrite lookup_insert_ne. }
      assert (Hkeep : tasks o' !! id = Some (mark_blocked task)).
      { destruct (B id) as [Hsame|(t & Ht & Hs & Hn)].
        - rewrite Hsame. unfold o1. simpl. now rewrite lookup_insert_eq.
        - unfold o1 in Ht. simpl in Ht. rewrite lookup_insert_eq in Ht.
          inversion Ht; subst t. simpl in Hs. destruct Hs; discriminate. }
      split_and!.
      * eapply same_shared_trans; eassumption.
      * intros k. eapply blocked_trans; [apply B1 | apply B].
      * exists (ID task :: new). rewrite <- app_assoc. split; [reflexivity|].
        intros x Hx. apply elem_of_cons in Hx as [Heq|Hx]; [subst x|].
        -- exists id, task. split_and!; [left | exact Et | reflexivity | exact Hkeep].
        -- destruct (C x Hx) as (k & t & Hk & Ht & Hxt & Ht').
           destruct (decide (id = k)) as [Heq|Hne]; [subst k|].
           ++ unfold o1 in Ht. simpl in Ht. rewrite lookup_insert_eq in Ht.
              inversion Ht; subst t.
              exists id, task. split_and!; [left | exact Et | exact Hxt | exact Hkeep].
           ++ exists k, t. unfold o1 in Ht. simpl in Ht.
              rewrite lookup_insert_ne in Ht by assumption.
              split_and!; [now right | exact Ht | exact Hxt | exact Ht'].
      * intros Hall k t' Hk Ht'. apply elem_of_cons in Hk as [Heq|Hk]; [subst k|eauto].
        rewrite Hkeep in Ht'. inversion Ht'; subst t'. now right.
    + now apply Hstop.
    + apply (Hskip task); auto.
    + apply (Hskip task); auto.
Qed.

(** Every task failed by [allTasksCompleteOrBlocked] is announced. *)
Lemma allTasksCompleteOrBlocked_loop_announces (order : list string) :
  forall o announced o' announced' all,
  allTasksCompleteOrBlocked_loop o order announced = Some (o', announced', all) ->
  forall id t, tasks o !! id = Some t ->
    Status t = TaskPending \/ Status t = TaskReady ->
    tasks o' !! id = Some (mark_blocked t) ->
    exists new, announced' = announced ++ new /\ ID t ∈ new.
Proof.
  induction order as [|x order IH]; intros o ann o' ann' all Hrun id t Ht Hs Ht'.
  - simpl in Hrun. inversion Hrun; subst. rewrite Ht in Ht'.
    inversion Ht' as [E]. rewrite E in Hs. simpl in Hs. destruct Hs; discriminate.
  - cbn [allTasksCompleteOrBlocked_loop] in Hrun.
    assert (Hstop : Some (o, ann, false) = Some (o', ann', all) ->
                    exists new, ann' = ann ++ new /\ ID t ∈ new).
    { intros H. inversion H; subst. rewrite Ht in Ht'.
      inversion Ht' as [E]. rewrite E in Hs. simpl in Hs. destruct Hs; discriminate. }
    assert (Hmark : forall task, tasks o !! x = Some task ->
      allTasksCompleteOrBlocked_loop
        (with_tasks o (<[x := mark_blocked task]> (tasks o))) order (ann ++ [ID task])
        = Some (o', ann', all) ->
      exists new, ann' = ann ++ new /\ ID t ∈ new).
    { intros task Hx Hrun'.
      destruct (allTasksCompleteOrBlocked_loop_spec _ _ _ _ _ _ Hrun')
        as (_ & _ & (new & -> & _) & _).
      destruct (decide (x = id)) as [Heq|Hne]; [subst x|].
      - assert (task = t) by congruence. subst task.
        exists (ID t :: new). rewrite <- app_assoc. split; [reflexivity | left].
      - destruct (IH _ _ _ _ _ Hrun' id t) as (new' & Hn & Hin); try assumption.
        { simpl. now rewrite lookup_insert_ne. }
        exists (ID task :: new'). rewrite Hn, <- app_assoc. split; [reflexivity | now right]. }
    destruct (tasks o !! x) as [task|] eqn:Ex; [|eauto].
    destruct (Status task) eqn:Es; eauto.
    + destruct (hasFailedDependency (S (size (tasks o))) (tasks o) task) as [[]|];
        [eauto | eauto | discriminate].
    + destruct (hasFailedDependency (S (size (tasks o))) (tasks o) task) as [[]|];
        [eauto | eauto | discriminate].
Qed.

(** *** One action, by cases *)

Lemma step_inv (l : Label) (s s' : Exec) (ev : list Event) :
  step l s = Some (s', ev) ->
  let o := orch s in
  match l with
  | Tick d => 0 <= d /\ s' = with_clock s (clock s + d) /\ ev = []
  | SchedulerCheck order =>
    sched s = SchedCheck /\ range_of (tasks o) order /\
    exists o' announced all,
      allTasksCompleteOrBlocked o order = Some (o', announced, all) /\
      s' = with_sched (with_announcers (with_orch s o') (announcers s ++ announced))
                      (if all then SchedDone else SchedReady) /\
      ev = map EvBlocked announced
  | SchedulerReady order =>
    sched s = SchedReady /\ range_of (tasks o) order /\
    exists o' ready,
      getReadyTasks o order = (o', ready) /\
      s' = with_sched (with_orch s o') (SchedDispatch ready) /\ ev = []
  | SchedulerDispatch =>
    (sched s = SchedDispatch [] /\
     s' = with_sched s (SchedSleep (clock s + sleep_ms)) /\ ev = []) \/
    (exists id rest task,
       sched s = SchedDispatch (id :: rest) /\ tasks o !! id = Some task /\
       ((exists o', tryAcquireResource o (Resource task) = (o', true) /\
           s' = with_sched
                  (with_workers (with_orch s o') (workers s ++ [mkWorker id WStart]))
                  (SchedDispatch rest) /\
           ev = [EvDispatch id]) \/
        (exists o', tryAcquireResource o (Resource task) = (o', false) /\
           s' = with_sched s (SchedDispatch rest) /\ ev = [])))
  | SchedulerWake =>
    exists wake, sched s = SchedSleep wake /\ wake <= clock s /\
      s' = with_sched s SchedCheck /\ ev = []
  | WorkerStart w =>
    exists id task, workers s !! w = Some (mkWorker id WStart) /\
      tasks o !! id = Some task /\
      s' = with_workers
             (with_orch s (with_tasks o (<[id := executeTask_start (clock s) task]> (tasks o))))
             (<[w := mkWorker id WRunning]> (workers s)) /\
      ev = [EvStart id (clock s)]
  | WorkerFinish w err =>
    exists id task, workers s !! w = Some (mkWorker id WRunning) /\
      tasks o !! id = Some task /\
      s' = with_workers
             (with_orch s (with_tasks o (<[id := executeTask_finish (clock s) err task]> (tasks o))))
             (<[w := mkWorker id WNotify]> (workers s)) /\
      ev = [EvFinish id (bool_decide (err = None)) (clock s)]
  | WorkerNotify w =>
    exists id task, workers s !! w = Some (mkWorker id WNotify) /\
      tasks o !! id = Some task /\
      (length (completeCh o) < completeCh_cap)%nat /\
      s' = with_workers (with_orch s (with_ch o (completeCh o ++ [ID task])))
                        (<[w := mkWorker id WRelease]> (workers s)) /\
      ev = []
  | WorkerRelease w =>
    exists id task, workers s !! w = Some (mkWorker id WRelease) /\
      tasks o !! id = Some task /\
      s' = with_workers (with_orch s (releaseResource o (Resource task)))
                        (<[w := mkWorker id WExited]> (workers s)) /\
      ev = []
  | AnnounceBlocked n =>
    exists id, announcers s !! n = Some id /\
      (length (completeCh o) < completeCh_cap)%nat /\
      s' = with_announcers (with_orch s (with_ch o (completeCh o ++ [id])))
                           (delete n (announcers s)) /\
      ev = []
  | HandlerReceive =>
    handlerDone s = false /\
    exists taskID rest task,
      completeCh o = taskID :: rest /\ tasks o !! taskID = Some task /\
      s' = mkExec (with_ch o rest) (clock s) (sched s) (workers s) (announcers s)
             (totalTasks s) (S (completedTasks s))
             (match Result task with
              | Some r => results s ++ [r]
              | None => results s
              end)
             (bool_decide (S (completedTasks s) = totalTasks s)) (returned s) /\
      ev = [EvProgress (S (completedTasks s)) (totalTasks s) taskID]
  | MainReturn =>
    handlerDone s = true /\ sched s = SchedDone /\ returned s = false /\
    s' = mkExec o (clock s) (sched s) (workers s) (announcers s) (totalTasks s)
           (completedTasks s) (results s) (handlerDone s) true /\
    ev = [EvReturn (results s)]
  end.
Proof.
  intros Hstep o. destruct l; simpl in Hstep; fold o in Hstep.
  - destruct (Z.leb_spec 0 d); [|discriminate]. now inversion Hstep.
  - destruct (sched s) eqn:Es; try discriminate.
    destruct (decide (range_of (tasks o) order)); [|discriminate].
    destruct (allTasksCompleteOrBlocked o order) as [[[o' ann] all]|] eqn:E; [|discriminate].
    inversion Hstep; subst. split_and!; try done. eauto 10.
  - destruct (sched s) eqn:Es; try discriminate.
    destruct (decide (range_of (tasks o) order)); [|discriminate].
    destruct (getReadyTasks o order) as [o' ready] eqn:E.
    inversion Hstep; subst. split_and!; try done. eauto 10.
  - destruct (sched s) as [| |[|id rest]| |] eqn:Es; try discriminate.
    + inversion Hstep; subst. left. done.
    + destruct (tasks o !! id) as [task|] eqn:Et; [|discriminate].
      destruct (tryAcquireResource o (Resource task)) as [o' ok] eqn:Ea.
      right. exists id, rest, task. split_and!; try done.
      destruct ok; inversion Hstep; subst; [left|right]; eauto.
  - destruct (sched s) eqn:Es; try discriminate.
    destruct (Z.leb_spec wake (clock s)); [|discriminate].
    inversion Hstep; subst. eauto.
  - destruct (workers s !! w) as [[id []]|] eqn:Ew; try discriminate.
    destruct (tasks o !! id) as [task|] eqn:Et; [|discriminate].
    inversion Hstep; subst. eauto 10.
  - destruct (workers s !! w) as [[id []]|] eqn:Ew; try discriminate.
    destruct (tasks o !! id) as [task|] eqn:Et; [|discriminate].
    inversion Hstep; subst. eauto 10.
  - destruct (workers s !! w) as [[id []]|] eqn:Ew; try discriminate.
    destruct (tasks o !! id) as [task|] eqn:Et; [|discriminate].
    destruct (Nat.ltb_spec (length (completeCh o)) completeCh_cap); [|discriminate].
    inversion Hstep; subst. eauto 10.
  - destruct (workers s !! w) as [[id []]|] eqn:Ew; try discriminate.
    destruct (tasks o !! id) as [task|] eqn:Et; [|discriminate].
    inversion Hstep; subst. eauto 10.
  - destruct (announcers s !! n) as [id|] eqn:En; [|discriminate].
    destruct (Nat.ltb_spec (length (completeCh o)) completeCh_cap); [|discriminate].
    inversion Hstep; subst. eauto 10.
  - destruct (handlerDone s) eqn:Eh; [discriminate|].
    destruct (completeCh o) as [|taskID rest] eqn:Ec; [discriminate|].
    destruct (tasks o !! taskID) as [task|] eqn:Et; [|discriminate].
    inversion Hstep; subst. split; [reflexivity|]. eauto 10.
  - destruct (handlerDone s) eqn:Eh; [|discriminate].
    destruct (bool_decide (sched s = SchedDone)) eqn:Es; [|discriminate].
    destruct (returned s) eqn:Er; [discriminate|].
    apply bool_decide_eq_true in Es. inversion Hstep; subst. done.
Qed.

(** *** Slot accounting *)

Fixpoint count {A : Type} (f : A -> bool) (l : list A) : nat :=
  match l with
  | [] => 0
  | x :: rest => ((if f x then 1 else 0) + count f rest)%nat
  end.

Lemma count_app {A : Type} (f : A -> bool) (l1 l2 : list A) :
  count f (l1 ++ l2) = (count f l1 + count f l2)%nat.
Proof. induction l1 as [|x l1 IH]; simpl; [reflexivity | rewrite IH; lia]. Qed.

Lemma count_ext {A : Type} (f g : A -> bool) (l : list A) :
  (forall x, f x = g x) -> count f l = count g l.
Proof. intros H. induction l as [|x l IH]; simpl; [reflexivity | now rewrite H, IH]. Qed.

Lemma count_insert {A : Type} (f : A -> bool) (l : list A) : forall (i : nat) (x y : A),
  l !! i = Some x ->
  (count f (<[i := y]> l) + (if f x then 1 else 0) =
   count f l + (if f y then 1 else 0))%nat.
Proof.
  induction l as [|z l IH]; intros i x y Hi; [discriminate|].
  destruct i as [|i]; simpl in *.
  - inversion Hi; subst. lia.
  - specialize (IH i x y Hi). lia.
Qed.

(** A dispatched task holds its slot until the deferred release has run. *)
Definition holding (w : Worker) : bool := bool_decide (wpc w <> WExited).

Definition uses (ts : gmap string Task) (r : string) (w : Worker) : bool :=
  holding w && bool_decide (Resource <$> ts !! wtask w = Some r).

(** The number of dispatches that hold a slot of [r]. *)
Definition holders (s : Exec) (r : string) : nat :=
  count (uses (tasks (orch s)) r) (workers s).

Lemma uses_same_static ts ts' r w :
  same_static ts ts' -> uses ts' r w = uses ts r w.
Proof.
  intros H. unfold uses. f_equal.
  assert (E : Resource <$> ts' !! wtask w = Resource <$> ts !! wtask w).
  { specialize (H (wtask w)).
    destruct (ts' !! wtask w) as [t'|], (ts !! wtask w) as [t|]; simpl in *;
      try discriminate; [|reflexivity].
    unfold static in H. congruence. }
  now rewrite E.
Qed.

(** Actions that leave the constraints, the slot table and the static part
    of the tasks alone. *)
Definition same_slots (o o' : DAGOrchestrator) : Prop :=
  constraints o' = constraints o /\ activeSlots o' = activeSlots o /\
  same_static (tasks o) (tasks o').

Lemma same_shared_slots o o' : same_shared o o' -> same_slots o o'.
Proof. intros (A & B & _ & C). now split_and!. Qed.

Lemma same_slots_ch o ch : same_slots o (with_ch o ch).
Proof. split_and!; try reflexivity. apply same_static_refl. Qed.

Definition slot_inv (s : Exec) : Prop :=
  forall r c, constraints (orch s) !! r = Some c ->
    slots_of (orch s) r = Z.of_nat (holders s r) /\ slots_of (orch s) r <= MaxSlots c.

Lemma slot_inv_shared (s : Exec) (o' : DAGOrchestrator) (s' : Exec) :
  same_slots (orch s) o' -> orch s' = o' -> workers s' = workers s ->
  slot_inv s -> slot_inv s'.
Proof.
  intros (Hc & Ha & Hst) Ho Hw Hinv r c Hr. subst o'.
  rewrite Hc in Hr. destruct (Hinv r c Hr) as [H1 H2].
  unfold slots_of, holders in *. rewrite Ha, Hw.
  rewrite (count_ext _ (uses (tasks (orch s)) r)); [auto|].
  intros w. now apply uses_same_static.
Qed.

Lemma slot_inv_pc (s s' : Exec) (w : nat) (id : string) (pc pc' : WorkerPC) :
  workers s !! w = Some (mkWorker id pc) ->
  pc <> WExited -> pc' <> WExited ->
  same_slots (orch s) (orch s') ->
  workers s' = <[w := mkWorker id pc']> (workers s) ->
  slot_inv s -> slot_inv s'.
Proof.
  intros Hw Hpc Hpc' (Hc & Ha & Hst) Hws Hinv r c Hr.
  rewrite Hc in Hr. destruct (Hinv r c Hr) as [H1 H2].
  unfold slots_of, holders in *. rewrite Ha, Hws.
  rewrite (count_ext _ (uses (tasks (orch s)) r))
    by (intros x; now apply uses_same_static).
  pose proof (count_insert (uses (tasks (orch s)) r) _ w _ (mkWorker id pc') Hw) as Hcnt.
  assert (E : uses (tasks (orch s)) r (mkWorker id pc') =
              uses (tasks (orch s)) r (mkWorker id pc)).
  { unfold uses, holding. simpl.
    rewrite (bool_decide_eq_true_2 (pc' <> WExited)) by assumption.
    rewrite (bool_decide_eq_true_2 (pc <> WExited)) by assumption. reflexivity. }
  rewrite E in Hcnt.
  split; [|assumption]. rewrite H1.
  destruct (uses (tasks (orch s)) r (mkWorker id pc)); lia.
Qed.

Lemma slot_inv_step (l : Label) (s s' : Exec) (ev : list Event) :
  step l s = Some (s', ev) -> slot_inv s -> slot_inv s'.
Proof.
  intros Hstep Hinv. apply step_inv in Hstep. cbv zeta in Hstep.
  destruct l.
  - destruct Hstep as (_ & -> & _). exact Hinv.
  - destruct Hstep as (_ & _ & o' & ann & all & Hrun & -> & _).
    apply allTasksCompleteOrBlocked_loop_spec in Hrun as (Hsh & _).
    eapply slot_inv_shared;
      [apply same_shared_slots, Hsh | reflexivity | reflexivity | exact Hinv].
  - destruct Hstep as (_ & _ & o' & ready & Hrun & -> & _).
    apply getReadyTasks_loop_spec in Hrun as (Hsh & _).
    eapply slot_inv_shared;
      [apply same_shared_slots, Hsh | reflexivity | reflexivity | exact Hinv].
  - destruct Hstep as [(_ & -> & _)|(id & rest & task & _ & Ht & Hcase)]; [exact Hinv|].
    destruct Hcase as [(o' & Hacq & -> & _)|(o' & _ & -> & _)]; [|exact Hinv].
    unfold tryAcquireResource in Hacq.
    intros r c Hr. unfold holders, slots_of. simpl.
    rewrite count_app. simpl.
    destruct (constraints (orch s) !! Resource task) as [c0|] eqn:Ec0.
    + destruct (Z.ltb_spec (slots_of (orch s) (Resource task)) (MaxSlots c0));
        inversion Hacq; subst o'. simpl in *.
      destruct (Hinv r c Hr) as [H1 H2]. unfold holders, slots_of in *.
      unfold uses at 2. simpl. rewrite Ht. simpl.
      destruct (decide (Resource task = r)) as [Heq|Hne].
      * subst r. rewrite lookup_insert_eq. simpl.
        rewrite bool_decide_eq_true_2 by reflexivity.
        assert (c = c0) by congruence. subst c0. lia.
      * rewrite lookup_insert_ne by assumption.
        rewrite (bool_decide_eq_false_2 (Some (Resource task) = Some r)) by congruence.
        unfold holding; simpl; rewrite ?andb_false_r; simpl; lia.
    + inversion Hacq; subst o'. simpl in *.
      destruct (Hinv r c Hr) as [H1 H2]. unfold holders, slots_of in *.
      unfold uses at 2. simpl. rewrite Ht. simpl.
      rewrite (bool_decide_eq_false_2 (Some (Resource task) = Some r)) by congruence.
      unfold holding; simpl; rewrite ?andb_false_r; simpl; lia.
  - destruct Hstep as (wake & _ & _ & -> & _). exact Hinv.
  - destruct Hstep as (id & task & Hw & Ht & -> & _).
    eapply (slot_inv_pc s _ w id WStart WRunning);
      [exact Hw | discriminate | discriminate | | reflexivity | exact Hinv].
    simpl. apply same_shared_slots, same_shared_tasks with (t := task);
      [exact Ht | reflexivity].
  - destruct Hstep as (id & task & Hw & Ht & -> & _).
    eapply (slot_inv_pc s _ w id WRunning WNotify);
      [exact Hw | discriminate | discriminate | | reflexivity | exact Hinv].
    simpl. apply same_shared_slots, same_shared_tasks with (t := task); [exact Ht|].
    unfold executeTask_finish. destruct err; reflexivity.
  - destruct Hstep as (id & task & Hw & Ht & _ & -> & _).
    eapply (slot_inv_pc s _ w id WNotify WRelease);
      [exact Hw | discriminate | discriminate | | reflexivity | exact Hinv].
    apply (same_slots_ch (orch s)).
  - destruct Hstep as (id & task & Hw & Ht & -> & _).
    intros r c Hr. unfold holders, slots_of, releaseResource in *. simpl.
    pose proof (count_insert (uses (tasks (orch s)) r) _ w _ (mkWorker id WExited) Hw) as Hcnt.
    assert (Hex : uses (tasks (orch s)) r (mkWorker id WExited) = false).
    { reflexivity. }
    rewrite Hex in Hcnt.
    assert (Hold : uses (tasks (orch s)) r (mkWorker id WRelease) =
                   bool_decide (Resource task = r)).
    { unfold uses, holding. simpl. rewrite Ht. simpl.
      apply bool_decide_ext. split; congruence. }
    rewrite Hold in Hcnt.
    destruct (decide (Resource task = r)) as [Heq|Hne].
    + subst r. rewrite bool_decide_eq_true_2 in Hcnt by reflexivity.
      assert (Hr0 : constraints (orch s) !! Resource task = Some c).
      { destruct (0 <? slots_of (orch s) (Resource task)); exact Hr. }
      destruct (Hinv _ c Hr0) as [H1 H2]. unfold holders, slots_of in *.
      destruct (Z.ltb_spec 0 (default 0 (activeSlots (orch s) !! Resource task))); simpl.
      * rewrite lookup_insert_eq. simpl. lia.
      * lia.
    + rewrite bool_decide_eq_false_2 in Hcnt by assumption.
      assert (Hr0 : constraints (orch s) !! r = Some c).
      { destruct (0 <? slots_of (orch s) (Resource task)); exact Hr. }
      destruct (Hinv _ c Hr0) as [H1 H2]. unfold holders, slots_of in *.
      destruct (Z.ltb_spec 0 (default 0 (activeSlots (orch s) !! Resource task))); simpl.
      * rewrite lookup_insert_ne by assumption. lia.
      * lia.
  - destruct Hstep as (id & _ & _ & -> & _).
    eapply slot_inv_shared; [| reflexivity | reflexivity | exact Hinv].
    apply (same_slots_ch (orch s)).
  - destruct Hstep as (_ & taskID & rest & task & _ & _ & -> & _).
    eapply slot_inv_shared; [| reflexivity | reflexivity | exact Hinv].
    apply (same_slots_ch (orch s)).
  - destruct Hstep as (_ & _ & _ & -> & _). exact Hinv.
Qed.

(** Every action leaves the constraints and the static part of the tasks
    as they are. *)
Lemma step_static (l : Label) (s s' : Exec) (ev : list Event) :
  step l s = Some (s', ev) ->
  constraints (orch s') = constraints (orch s) /\
  same_static (tasks (orch s)) (tasks (orch s')).
Proof.
  intros Hstep. apply step_inv in Hstep. cbv zeta in Hstep.
  assert (Hrefl : constraints (orch s) = constraints (orch s) /\
                  same_static (tasks (orch s)) (tasks (orch s))).
  { split; [reflexivity | apply same_static_refl]. }
  destruct l.
  - destruct Hstep as (_ & -> & _). exact Hrefl.
  - destruct Hstep as (_ & _ & o' & ann & all & Hrun & -> & _).
    apply allTasksCompleteOrBlocked_loop_spec in Hrun as ((A & _ & _ & B) & _). now split.
  - destruct Hstep as (_ & _ & o' & ready & Hrun & -> & _).
    apply getReadyTasks_loop_spec in Hrun as ((A & _ & _ & B) & _). now split.
  - destruct Hstep as [(_ & -> & _)|(id & rest & task & _ & Ht & Hcase)]; [exact Hrefl|].
    destruct Hcase as [(o' & Hacq & -> & _)|(o' & _ & -> & _)]; [|exact Hrefl].
    unfold tryAcquireResource in Hacq. simpl.
    destruct (constraints (orch s) !! Resource task) as [c0|].
    + destruct (slots_of (orch s) (Resource task) <? MaxSlots c0);
        inversion Hacq; subst o'; exact Hrefl.
    + inversion Hacq; subst o'; exact Hrefl.
  - destruct Hstep as (wake & _ & _ & -> & _). exact Hrefl.
  - destruct Hstep as (id & task & Hw & Ht & -> & _). simpl.
    split; [reflexivity|]. now apply same_static_insert with (t := task).
  - destruct Hstep as (id & task & Hw & Ht & -> & _). simpl.
    split; [reflexivity|]. apply same_static_insert with (t := task); [exact Ht|].
    unfold executeTask_finish. destruct err; reflexivity.
  - destruct Hstep as (id & task & Hw & Ht & _ & -> & _). exact Hrefl.
  - destruct Hstep as (id & task & Hw & Ht & -> & _). simpl.
    unfold releaseResource. destruct (0 <? slots_of (orch s) (Resource task)); exact Hrefl.
  - destruct Hstep as (id & _ & _ & -> & _). exact Hrefl.
  - destruct Hstep as (_ & taskID & rest & task & _ & _ & -> & _). exact Hrefl.
  - destruct Hstep as (_ & _ & _ & -> & _). exact Hrefl.
Qed.

(** *** Orchestrators as [NewDAGOrchestrator] and [AddTask] build them *)

Definition pristine (o : DAGOrchestrator) : Prop :=
  activeSlots o = ∅ /\ completeCh o = [] /\
  forall id t, tasks o !! id = Some t -> ID t = id /\ Status t = TaskPending.

Lemma pristine_New (cs : list ResourceConstraint) : pristine (NewDAGOrchestrator cs).
Proof. split_and!; try reflexivity. intros id t H. simpl in H. now rewrite lookup_empty in H. Qed.

Lemma pristine_AddTask (o o' : DAGOrchestrator) (task : Task) :
  pristine o -> AddTask o task = Ok o' -> pristine o'.
Proof.
  intros (A & B & C) Hadd. unfold AddTask in Hadd.
  destruct (tasks o !! ID task) eqn:E; [discriminate|].
  inversion Hadd; subst o'. split_and!; try assumption.
  intros id t. simpl. destruct (decide (ID task = id)) as [Heq|Hne].
  - subst id. rewrite lookup_insert_eq. intros [= <-]. split; reflexivity.
  - rewrite lookup_insert_ne by assumption. apply C.
Qed.

Lemma Execute_begin_ok (o : DAGOrchestrator) (order1 order2 : list string) (now : Z)
  (s0 : Exec) :
  Execute_begin o order1 order2 now = Some (Ok s0) ->
  s0 = mkExec o now SchedCheck [] [] (size (tasks o)) 0 [] false false /\
  validateDAG o order1 order2 = Some None.
Proof.
  unfold Execute_begin. destruct (validateDAG o order1 order2) as [[e|]|]; try discriminate.
  intros [= <-]. split; reflexivity.
Qed.

(** C2.  In every state of every execution, for every resource with a
    configured constraint (of at least zero slots), the number of dispatches
    that hold a slot of it (dispatched, deferred release not yet run) is at
    most the configured maximum; and acquisition on a resource without a
    constraint succeeds, whatever the state. *)
Theorem slots_never_exceed (o : DAGOrchestrator) (order1 order2 : list string)
  (now : Z) (s0 : Exec) (ls : list Label) (s : Exec) (evs : list Event) :
  pristine o ->
  (forall r c, constraints o !! r = Some c -> 0 <= MaxSlots c) ->
  Execute_begin o order1 order2 now = Some (Ok s0) ->
  run s0 ls = Some (s, evs) ->
  (forall r c, constraints o !! r = Some c -> Z.of_nat (holders s r) <= MaxSlots c) /\
  (forall r, constraints o !! r = None ->
     tryAcquireResource (orch s) r = (orch s, true)).
Proof.
  intros (Hslots & _ & _) Hmax Hbegin Hrun.
  apply Execute_begin_ok in Hbegin as [-> _].
  assert (Hinv : slot_inv s /\ constraints (orch s) = constraints o).
  { revert ls s evs Hrun.
    apply (run_ind (fun s _ => slot_inv s /\ constraints (orch s) = constraints o)).
    - split; [|reflexivity]. intros r c Hr. simpl in *.
      unfold slots_of, holders. simpl. rewrite Hslots, lookup_empty. simpl.
      split; [reflexivity | eauto].
    - intros s1 evs1 l s2 ev [Hinv Hc] Hstep. split.
      + eapply slot_inv_step; eassumption.
      + apply step_static in Hstep as [Hc' _]. congruence. }
  destruct Hinv as [Hinv Hc]. split.
  - intros r c Hr. rewrite <- Hc in Hr. destruct (Hinv r c Hr) as [H1 H2]. lia.
  - intros r Hr. unfold tryAcquireResource. now rewrite Hc, Hr.
Qed.

End ExecSpec.

(** * Ordering of starts after dependencies *)

Module OrderSpec.
Import Orchestrator ExecSpec.

(** *** What one action does to tasks, workers, ready list and clock *)

Definition worker_ids (s : Exec) : list string := wtask <$> workers s.

Definition ready_list (pc : SchedPC) : list string :=
  match pc with
  | SchedDispatch l => l
  | _ => []
  end.

Lemma worker_ids_pc (ws : list Worker) (w : nat) (id : string) (pc pc' : WorkerPC) :
  ws !! w = Some (mkWorker id pc) ->
  wtask <$> <[w := mkWorker id pc']> ws = wtask <$> ws.
Proof.
  intros Hw. rewrite list_fmap_insert. simpl. apply list_insert_id.
  rewrite list_lookup_fmap, Hw. reflexivity.
Qed.

(** A task changes in its dynamic part only; it becomes ready only with all
    its dependencies completed, and completed only by a finish event. *)
Lemma step_tasks (l : Label) (s s' : Exec) (ev : list Event) :
  step l s = Some (s', ev) ->
  forall id,
    tasks (orch s') !! id = tasks (orch s) !! id \/
    exists t t', tasks (orch s) !! id = Some t /\ tasks (orch s') !! id = Some t' /\
      static t' = static t /\
      (Status t' = TaskReady ->
       deps_completed (tasks (orch s)) (Dependencies t) = true) /\
      (Status t' = TaskCompleted -> exists tm, EvFinish id true tm ∈ ev).
Proof.
  intros Hstep id. apply step_inv in Hstep. cbv zeta in Hstep.
  destruct l.
  - destruct Hstep as (_ & -> & _). now left.
  - destruct Hstep as (_ & _ & o' & ann & all & Hrun & -> & _).
    apply allTasksCompleteOrBlocked_loop_spec in Hrun as (_ & Hb & _).
    destruct (Hb id) as [Hsame|(t & Ht & _ & Hn)]; [now left|].
    right. exists t, (mark_blocked t). simpl. split_and!; try done.
  - destruct Hstep as (_ & _ & o' & ready & Hrun & -> & _).
    apply getReadyTasks_loop_spec in Hrun as (_ & _ & Hp & _).
    destruct (Hp id) as [Hsame|(t & Ht & _ & Hd & Hn)]; [now left|].
    right. exists t, (set_status TaskReady t). simpl. split_and!; try done.
  - destruct Hstep as [(_ & -> & _)|(x & rest & task & _ & Ht & Hcase)]; [now left|].
    destruct Hcase as [(o' & Hacq & -> & _)|(o' & _ & -> & _)]; [|now left].
    unfold tryAcquireResource in Hacq. simpl. left.
    destruct (constraints (orch s) !! Resource task) as [c0|].
    + destruct (slots_of (orch s) (Resource task) <? MaxSlots c0);
        inversion Hacq; subst o'; reflexivity.
    + inversion Hacq; subst o'; reflexivity.
  - destruct Hstep as (wake & _ & _ & -> & _). now left.
  - destruct Hstep as (x & task & Hw & Ht & -> & ->). simpl.
    destruct (decide (x = id)) as [Heq|Hne]; [subst x|].
    + right. exists task, (executeTask_start (clock s) task).
      rewrite lookup_insert_eq. simpl. split_and!; try done.
    + left. now rewrite lookup_insert_ne.
  - destruct Hstep as (x & task & Hw & Ht & -> & ->). simpl.
    destruct (decide (x = id)) as [Heq|Hne]; [subst x|].
    + right. exists task, (executeTask_finish (clock s) err task).
      rewrite lookup_insert_eq. split_and!; try done.
      * destruct err; reflexivity.
      * destruct err; simpl; discriminate.
      * destruct err; simpl; [discriminate|]. intros _. exists (clock s). left.
    + left. now rewrite lookup_insert_ne.
  - destruct Hstep as (x & task & Hw & Ht & _ & -> & _). now left.
  - destruct Hstep as (x & task & Hw & Ht & -> & _). simpl. left.
    unfold releaseResource. destruct (0 <? slots_of (orch s) (Resource task)); reflexivity.
  - destruct Hstep as (x & _ & _ & -> & _). now left.
  - destruct Hstep as (_ & taskID & rest & task & _ & _ & -> & _). now left.
  - destruct Hstep as (_ & _ & _ & -> & _). now left.
Qed.

(** A new worker runs the head of the ready list. *)
Lemma step_workers (l : Label) (s s' : Exec) (ev : list Event) :
  step l s = Some (s', ev) ->
  forall id, id ∈ worker_ids s' ->
    id ∈ worker_ids s \/ id ∈ ready_list (sched s).
Proof.
  intros Hstep id. apply step_inv in Hstep. cbv zeta in Hstep. unfold worker_ids.
  destruct l.
  - destruct Hstep as (_ & -> & _). now left.
  - destruct Hstep as (_ & _ & o' & ann & all & Hrun & -> & _). now left.
  - destruct Hstep as (_ & _ & o' & ready & Hrun & -> & _). now left.
  - destruct Hstep as [(_ & -> & _)|(x & rest & task & Hs & Ht & Hcase)]; [now left|].
    destruct Hcase as [(o' & Hacq & -> & _)|(o' & _ & -> & _)]; [|now left].
    simpl. rewrite fmap_app, elem_of_app. intros [H|H]; [now left|].
    right. rewrite Hs. simpl in *. apply list_elem_of_singleton in H. subst. left.
  - destruct Hstep as (wake & _ & _ & -> & _). now left.
  - destruct Hstep as (x & task & Hw & Ht & -> & _). simpl.
    rewrite (worker_ids_pc _ _ _ _ _ Hw). now left.
  - destruct Hstep as (x & task & Hw & Ht & -> & _). simpl.
    rewrite (worker_ids_pc _ _ _ _ _ Hw). now left.
  - destruct Hstep as (x & task & Hw & Ht & _ & -> & _). simpl.
    rewrite (worker_ids_pc _ _ _ _ _ Hw). now left.
  - destruct Hstep as (x & task & Hw & Ht & -> & _). simpl.
    rewrite (worker_ids_pc _ _ _ _ _ Hw). now left.
  - destruct Hstep as (x & _ & _ & -> & _). now left.
  - destruct Hstep as (_ & taskID & rest & task & _ & _ & -> & _). now left.
  - destruct Hstep as (_ & _ & _ & -> & _). now left.
Qed.

(** The ready list is what [getReadyTasks] returned, consumed from the head. *)
Lemma step_ready (l : Label) (s s' : Exec) (ev : list Event) :
  step l s = Some (s', ev) ->
  forall id, id ∈ ready_list (sched s') ->
    id ∈ ready_list (sched s) \/
    exists t', tasks (orch s') !! id = Some t' /\ Status t' = TaskReady.
Proof.
  intros Hstep id. apply step_inv in Hstep. cbv zeta in Hstep.
  destruct l.
  - destruct Hstep as (_ & -> & _). now left.
  - destruct Hstep as (_ & _ & o' & ann & all & Hrun & -> & _).
    simpl. destruct all; simpl; intros H; inversion H.
  - destruct Hstep as (_ & _ & o' & ready & Hrun & -> & _).
    apply getReadyTasks_loop_spec in Hrun as (_ & _ & _ & new & -> & Hnew).
    simpl. intros H. right. now apply Hnew.
  - destruct Hstep as [(_ & -> & _)|(x & rest & task & Hs & Ht & Hcase)].
    + simpl. intros H. inversion H.
    + rewrite Hs. simpl.
      destruct Hcase as [(o' & Hacq & -> & _)|(o' & _ & -> & _)]; simpl;
        intros H; left; now right.
  - destruct Hstep as (wake & _ & _ & -> & _). simpl. intros H. inversion H.
  - destruct Hstep as (x & task & Hw & Ht & -> & _). now left.
  - destruct Hstep as (x & task & Hw & Ht & -> & _). now left.
  - destruct Hstep as (x & task & Hw & Ht & _ & -> & _). now left.
  - destruct Hstep as (x & task & Hw & Ht & -> & _). now left.
  - destruct Hstep as (x & _ & _ & -> & _). now left.
  - destruct Hstep as (_ & taskID & rest & task & _ & _ & -> & _). now left.
  - destruct Hstep as (_ & _ & _ & -> & _). now left.
Qed.

(** Start and finish events carry the clock, and are events of a worker. *)
Definition event_now (s : Exec) (e : Event) : Prop :=
  match e with
  | EvStart id t => t = clock s /\ id ∈ worker_ids s
  | EvFinish id _ t => t = clock s /\ id ∈ worker_ids s
  | _ => True
  end.

Lemma step_events (l : Label) (s s' : Exec) (ev : list Event) :
  step l s = Some (s', ev) ->
  clock s <= clock s' /\ forall e, e ∈ ev -> event_now s e.
Proof.
  intros Hstep. apply step_inv in Hstep. cbv zeta in Hstep.
  assert (Hnil : clock s <= clock s /\ forall e, e ∈ [] -> event_now s e).
  { split; [lia|]. intros e He. inversion He. }
  destruct l.
  - destruct Hstep as (Hd & -> & ->). simpl. split; [lia|]. intros e He. inversion He.
  - destruct Hstep as (_ & _ & o' & ann & all & Hrun & -> & ->). simpl.
    split; [lia|]. intros e He. apply list_elem_of_fmap in He as (x & -> & _). exact I.
  - destruct Hstep as (_ & _ & o' & ready & Hrun & -> & ->). exact Hnil.
  - destruct Hstep as [(_ & -> & ->)|(x & rest & task & Hs & Ht & Hcase)]; [exact Hnil|].
    destruct Hcase as [(o' & Hacq & -> & ->)|(o' & _ & -> & ->)]; [|exact Hnil].
    simpl. split; [lia|]. intros e He. apply list_elem_of_singleton in He. now subst e.
  - destruct Hstep as (wake & _ & _ & -> & ->). exact Hnil.
  - destruct Hstep as (x & task & Hw & Ht & -> & ->). simpl. split; [lia|].
    intros e He. apply list_elem_of_singleton in He. subst e. simpl.
    split; [reflexivity|]. unfold worker_ids. apply list_elem_of_fmap.
    exists (mkWorker x WStart). split; [reflexivity|].
    apply list_elem_of_lookup. eauto.
  - destruct Hstep as (x & task & Hw & Ht & -> & ->). simpl. split; [lia|].
    intros e He. apply list_elem_of_singleton in He. subst e. simpl.
    split; [reflexivity|]. unfold worker_ids. apply list_elem_of_fmap.
    exists (mkWorker x WRunning). split; [reflexivity|].
    apply list_elem_of_lookup. eauto.
  - destruct Hstep as (x & task & Hw & Ht & _ & -> & ->). exact Hnil.
  - destruct Hstep as (x & task & Hw & Ht & -> & ->). exact Hnil.
  - destruct Hstep as (x & _ & _ & -> & ->). exact Hnil.
  - destruct Hstep as (_ & taskID & rest & task & _ & _ & -> & ->). simpl.
    split; [lia|]. intros e He. apply list_elem_of_singleton in He. now subst e.
  - destruct Hstep as (_ & _ & _ & -> & ->). simpl.
    split; [lia|]. intros e He. apply list_elem_of_singleton in He. now subst e.
Qed.

(** *** Starts come after the completions they depend on *)

Definition deps_of (ts : gmap string Task) (id : string) : list string :=
  match ts !! id with
  | Some t => Dependencies t
  | None => []
  end.

Lemma deps_of_static ts ts' id :
  same_static ts ts' -> deps_of ts' id = deps_of ts id.
Proof.
  intros H. specialize (H id). unfold deps_of.
  destruct (ts' !! id) as [t'|], (ts !! id) as [t|]; simpl in H; try discriminate;
    [|reflexivity].
  unfold static in H. congruence.
Qed.

(** [A] has completed at least once. *)
Definition done_by (evs : list Event) (A : string) : Prop :=
  exists t', EvFinish A true t' ∈ evs.

(** The condition on one event: a start comes after a completion of each
    dependency, whose end time is not after the start time. *)
Definition start_ok (D : string -> list string) (pre : list Event) (e : Event) : Prop :=
  match e with
  | EvStart B t => forall A, A ∈ D B -> exists t', EvFinish A true t' ∈ pre /\ t' <= t
  | _ => True
  end.

Fixpoint ordered_from (D : string -> list string) (pre evs : list Event) : Prop :=
  match evs with
  | [] => True
  | e :: rest => start_ok D pre e /\ ordered_from D (pre ++ [e]) rest
  end.

Lemma start_ok_mono D pre pre' e :
  (forall x, x ∈ pre -> x ∈ pre') -> start_ok D pre e -> start_ok D pre' e.
Proof.
  intros Hsub. destruct e; simpl; auto.
  intros H A HA. destruct (H A HA) as (t' & Hin & Hle). eauto.
Qed.

Lemma ordered_from_app D (l1 l2 : list Event) : forall pre,
  ordered_from D pre (l1 ++ l2) <->
  ordered_from D pre l1 /\ ordered_from D (pre ++ l1) l2.
Proof.
  induction l1 as [|e l1 IH]; intros pre; simpl.
  - rewrite app_nil_r. tauto.
  - rewrite IH, <- app_assoc. simpl. tauto.
Qed.

Lemma ordered_from_all D (evs : list Event) : forall pre,
  (forall e, e ∈ evs -> start_ok D pre e) -> ordered_from D pre evs.
Proof.
  induction evs as [|e evs IH]; intros pre H; simpl; [exact I|].
  split; [apply H; left|]. apply IH. intros x Hx.
  apply (start_ok_mono D pre); [|apply H; now right].
  intros y Hy. apply elem_of_app. now left.
Qed.

Definition event_le (now : Z) (e : Event) : Prop :=
  match e with
  | EvStart _ t | EvFinish _ _ t => t <= now
  | _ => True
  end.

Section Ordering.
Variable o : DAGOrchestrator.

Definition good (evs : list Event) (id : string) : Prop :=
  forall A, A ∈ deps_of (tasks o) id -> done_by evs A.

Record order_inv (s : Exec) (evs : list Event) : Prop := mkOrderInv {
  inv_static : same_static (tasks o) (tasks (orch s));
  inv_ready : forall id t, tasks (orch s) !! id = Some t -> Status t = TaskReady ->
                good evs id;
  inv_workers : forall id, id ∈ worker_ids s -> good evs id;
  inv_list : forall id, id ∈ ready_list (sched s) -> good evs id;
  inv_completed : forall id t, tasks (orch s) !! id = Some t ->
                    Status t = TaskCompleted -> done_by evs id;
  inv_clock : forall e, e ∈ evs -> event_le (clock s) e;
  inv_ordered : ordered_from (deps_of (tasks o)) [] evs
}.

Lemma good_mono evs ev id : good evs id -> good (evs ++ ev) id.
Proof.
  intros H A HA. destruct (H A HA) as [t' Ht']. exists t'. apply elem_of_app. now left.
Qed.

Lemma done_by_mono evs ev A : done_by evs A -> done_by (evs ++ ev) A.
Proof. intros [t' Ht']. exists t'. apply elem_of_app. now left. Qed.

Lemma order_inv_step (l : Label) (s s' : Exec) (evs ev : list Event) :
  order_inv s evs -> step l s = Some (s', ev) -> order_inv s' (evs ++ ev).
Proof.
  intros [Hs Ha Hb Hc Hd He Hf] Hstep.
  pose proof (step_static _ _ _ _ Hstep) as [_ Hst].
  pose proof (step_tasks _ _ _ _ Hstep) as Htasks.
  pose proof (step_workers _ _ _ _ Hstep) as Hworkers.
  pose proof (step_ready _ _ _ _ Hstep) as Hready.
  pose proof (step_events _ _ _ _ Hstep) as [Hclock Hev].
  assert (Ha' : forall id t, tasks (orch s') !! id = Some t -> Status t = TaskReady ->
                  good (evs ++ ev) id).
  { intros id t' Ht' Hr. destruct (Htasks id) as [Hsame|(t & t1 & Ht & Ht1 & Hstat & Hrdy & _)].
    - rewrite Hsame in Ht'. apply good_mono. eauto.
    - assert (t1 = t') by congruence. subst t1.
      specialize (Hrdy Hr). rewrite deps_completed_spec in Hrdy.
      intros A HA. apply done_by_mono.
      assert (HA' : A ∈ Dependencies t).
      { rewrite <- (deps_of_static _ _ id Hs) in HA. unfold deps_of in HA.
        now rewrite Ht in HA. }
      destruct (Hrdy A HA') as (dt & Hdt & Hcomp). eauto. }
  constructor.
  - eapply same_static_trans; eassumption.
  - exact Ha'.
  - intros id Hid. destruct (Hworkers id Hid) as [H|H]; apply good_mono; auto.
  - intros id Hid. destruct (Hready id Hid) as [H|(t' & Ht' & Hr)].
    + apply good_mono. auto.
    + eauto.
  - intros id t' Ht' Hcomp.
    destruct (Htasks id) as [Hsame|(t & t1 & Ht & Ht1 & _ & _ & Hfin)].
    + rewrite Hsame in Ht'. apply done_by_mono. eauto.
    + assert (t1 = t') by congruence. subst t1.
      destruct (Hfin Hcomp) as [tm Htm]. exists tm. apply elem_of_app. now right.
  - intros e Hin. apply elem_of_app in Hin as [Hin|Hin].
    + specialize (He e Hin). destruct e; simpl in *; lia.
    + specialize (Hev e Hin). destruct e; simpl in *; try exact I; lia.
  - apply ordered_from_app. split; [exact Hf|]. simpl.
    apply ordered_from_all. intros e Hin. specialize (Hev e Hin).
    destruct e; simpl; try exact I.
    destruct Hev as [-> Hw]. intros A HA.
    destruct (Hb id Hw A HA) as [t' Ht']. exists t'. split; [exact Ht'|].
    apply (He _ Ht').
Qed.

Lemma order_inv_init (now : Z) :
  pristine o ->
  order_inv (mkExec o now SchedCheck [] [] (size (tasks o)) 0 [] false false) [].
Proof.
  intros (_ & _ & Hpending). constructor; simpl.
  - apply same_static_refl.
  - intros id t Ht Hr. destruct (Hpending id t Ht) as [_ Hp]. congruence.
  - intros id Hid. inversion Hid.
  - intros id Hid. inversion Hid.
  - intros id t Ht Hc. destruct (Hpending id t Ht) as [_ Hp]. congruence.
  - intros e He. inversion He.
  - exact I.
Qed.

End Ordering.

(** [dependenciesMet] is false as soon as one dependency is not completed,
    in particular when one has failed. *)
Lemma dependenciesMet_failed (o : DAGOrchestrator) (tB : Task) (A : string) (tA : Task) :
  A ∈ Dependencies tB -> tasks o !! A = Some tA -> Status tA <> TaskCompleted ->
  dependenciesMet o tB = false.
Proof.
  intros HA HtA Hst. unfold dependenciesMet.
  destruct (deps_completed (tasks o) (Dependencies tB)) eqn:E; [|reflexivity].
  rewrite deps_completed_spec in E. destruct (E A HA) as (dt & Hdt & Hc). congruence.
Qed.

(** The times in the events are the recorded ones. *)
Lemma start_recorded (w : nat) (s s' : Exec) (ev : list Event) :
  step (WorkerStart w) s = Some (s', ev) ->
  exists id t', ev = [EvStart id (clock s)] /\ tasks (orch s') !! id = Some t' /\
    Status t' = TaskRunning /\ StartTime t' = clock s.
Proof.
  intros Hstep. apply step_inv in Hstep as (id & task & _ & _ & -> & ->).
  exists id, (executeTask_start (clock s) task). simpl.
  rewrite lookup_insert_eq. split_and!; reflexivity.
Qed.

Lemma finish_recorded (w : nat) (err : option Models.error) (s s' : Exec)
  (ev : list Event) :
  step (WorkerFinish w err) s = Some (s', ev) ->
  exists id t', ev = [EvFinish id (bool_decide (err = None)) (clock s)] /\
    tasks (orch s') !! id = Some t' /\ EndTime t' = clock s /\
    Status t' = match err with Some _ => TaskFailed | None => TaskCompleted end.
Proof.
  intros Hstep. apply step_inv in Hstep as (id & task & _ & _ & -> & ->).
  exists id, (executeTask_finish (clock s) err task). simpl.
  rewrite lookup_insert_eq. destruct err; split_and!; reflexivity.
Qed.

(** X28.  In every execution, whenever the command of a task [B] is started,
    the command of every dependency [A] of [B] has already returned without
    error at least once, at a clock reading that is not after that of the
    start of [B].  A dependency in the failed state makes [dependenciesMet],
    the condition under which [getReadyTasks] promotes [B], false.  (The end
    time kept in the task of [A] is that of its last run, which can be a later
    one when [A] is dispatched twice.) *)
Theorem start_after_dependencies (o : DAGOrchestrator) (order1 order2 : list string)
  (now : Z) (s0 : Exec) (ls : list Label) (s : Exec) (evs : list Event) :
  pristine o ->
  Execute_begin o order1 order2 now = Some (Ok s0) ->
  run s0 ls = Some (s, evs) ->
  (forall pre post B t tB A,
     evs = pre ++ EvStart B t :: post ->
     tasks o !! B = Some tB -> A ∈ Dependencies tB ->
     exists t', EvFinish A true t' ∈ pre /\ t' <= t) /\
  (forall tB A tA,
     A ∈ Dependencies tB -> tasks (orch s) !! A = Some tA -> Status tA = TaskFailed ->
     dependenciesMet (orch s) tB = false).
Proof.
  intros Hpr Hbegin Hrun.
  apply Execute_begin_ok in Hbegin as [-> _].
  assert (Hinv : order_inv o s evs).
  { revert ls s evs Hrun. apply (run_ind (order_inv o)).
    - now apply order_inv_init.
    - intros s1 evs1 l s2 ev Hinv Hstep. eapply order_inv_step; eassumption. }
  split.
  - intros pre post B t tB A -> HtB HA.
    pose proof (inv_ordered _ _ _ Hinv) as Hord.
    apply ordered_from_app in Hord as [_ Hord]. simpl in Hord.
    destruct Hord as [Hok _]. apply Hok. unfold deps_of. now rewrite HtB.
  - intros tB A tA HA HtA Hf. eapply dependenciesMet_failed; eauto. congruence.
Qed.

End OrderSpec.

(** * Propagation of failures *)

Module FailureSpec.
Import Orchestrator OrchestratorSpec ExecSpec OrderSpec.

(** The result written for a task that never ran. *)
Definition synthetic (t : Task) : Models.EncoderResult :=
  Models.mkEncoderResult 0 (Command.GetOutputPath (Command t)) false
    (Some dependency_failed).

(** A task changes by the hand of one of its workers, by promotion, or by
    being failed for a failed dependency, which is announced. *)
Lemma step_tasks_by (l : Label) (s s' : Exec) (ev : list Event) :
  step l s = Some (s', ev) ->
  forall id,
    tasks (orch s') !! id = tasks (orch s) !! id \/
    id ∈ worker_ids s \/
    (exists t, tasks (orch s) !! id = Some t /\ Status t = TaskPending /\
       deps_completed (tasks (orch s)) (Dependencies t) = true /\
       tasks (orch s') !! id = Some (set_status TaskReady t)) \/
    (exists t, tasks (orch s) !! id = Some t /\
       (Status t = TaskPending \/ Status t = TaskReady) /\
       tasks (orch s') !! id = Some (mark_blocked t) /\ EvBlocked (ID t) ∈ ev).
Proof.
  intros Hstep id. apply step_inv in Hstep. cbv zeta in Hstep.
  destruct l.
  - destruct Hstep as (_ & -> & _). now left.
  - destruct Hstep as (_ & _ & o' & ann & all & Hrun & -> & ->).
    pose proof (allTasksCompleteOrBlocked_loop_spec _ _ _ _ _ _ Hrun) as (_ & Hb & _).
    destruct (Hb id) as [Hsame|(t & Ht & Hs & Hn)]; [now left|].
    do 3 right. exists t. simpl. split_and!; try done.
    destruct (allTasksCompleteOrBlocked_loop_announces _ _ _ _ _ _ Hrun id t)
      as (new & Hnew & Hin); try done.
    simpl in Hnew. subst ann. apply list_elem_of_fmap. eauto.
  - destruct Hstep as (_ & _ & o' & ready & Hrun & -> & _).
    apply getReadyTasks_loop_spec in Hrun as (_ & _ & Hp & _).
    destruct (Hp id) as [Hsame|(t & Ht & Hs & Hd & Hn)]; [now left|].
    right. right. left. exists t. simpl. split_and!; try done.
  - destruct Hstep as [(_ & -> & _)|(x & rest & task & _ & Ht & Hcase)]; [now left|].
    destruct Hcase as [(o' & Hacq & -> & _)|(o' & _ & -> & _)]; [|now left].
    unfold tryAcquireResource in Hacq. simpl. left.
    destruct (constraints (orch s) !! Resource task) as [c0|].
    + destruct (slots_of (orch s) (Resource task) <? MaxSlots c0);
        inversion Hacq; subst o'; reflexivity.
    + inversion Hacq; subst o'; reflexivity.
  - destruct Hstep as (wake & _ & _ & -> & _). now left.
  - destruct Hstep as (x & task & Hw & Ht & -> & ->). simpl.
    destruct (decide (x = id)) as [Heq|Hne]; [subst x|].
    + right. left. unfold worker_ids. apply list_elem_of_fmap.
      exists (mkWorker id WStart). split; [reflexivity|]. apply list_elem_of_lookup. eauto.
    + left. now rewrite lookup_insert_ne.
  - destruct Hstep as (x & task & Hw & Ht & -> & ->). simpl.
    destruct (decide (x = id)) as [Heq|Hne]; [subst x|].
    + right. left. unfold worker_ids. apply list_elem_of_fmap.
      exists (mkWorker id WRunning). split; [reflexivity|]. apply list_elem_of_lookup. eauto.
    + left. now rewrite lookup_insert_ne.
  - destruct Hstep as (x & task & Hw & Ht & _ & -> & _). now left.
  - destruct Hstep as (x & task & Hw & Ht & -> & _). simpl. left.
    unfold releaseResource. destruct (0 <? slots_of (orch s) (Resource task)); reflexivity.
  - destruct Hstep as (x & _ & _ & -> & _). now left.
  - destruct Hstep as (_ & taskID & rest & task & _ & _ & -> & _). now left.
  - destruct Hstep as (_ & _ & _ & -> & _). now left.
Qed.

(** The scheduler returns only from a pass that found every task completed
    or failed; and [Execute] returns only after the scheduler. *)
Lemma step_sched_done (l : Label) (s s' : Exec) (ev : list Event) :
  step l s = Some (s', ev) -> sched s' = SchedDone ->
  sched s = SchedDone \/
  forall id t', tasks (orch s') !! id = Some t' ->
    Status t' = TaskCompleted \/ Status t' = TaskFailed.
Proof.
  intros Hstep Hdone. apply step_inv in Hstep. cbv zeta in Hstep.
  destruct l.
  - destruct Hstep as (_ & -> & _). now left.
  - destruct Hstep as (_ & Hrange & o' & ann & all & Hrun & -> & _).
    simpl in Hdone. destruct all; [|discriminate]. right. simpl.
    apply allTasksCompleteOrBlocked_loop_spec in Hrun as ((_ & _ & _ & Hst) & _ & _ & Hall).
    intros id t' Ht'. apply (Hall eq_refl id t'); [|exact Ht'].
    apply (range_of_elem _ _ id Hrange).
    destruct (same_static_lookup _ _ _ _ Hst Ht') as (t & Ht & _). eauto.
  - destruct Hstep as (_ & _ & o' & ready & Hrun & -> & _). discriminate.
  - destruct Hstep as [(_ & -> & _)|(x & rest & task & _ & Ht & Hcase)]; [discriminate|].
    destruct Hcase as [(o' & Hacq & -> & _)|(o' & _ & -> & _)]; discriminate.
  - destruct Hstep as (wake & _ & _ & -> & _). discriminate.
  - destruct Hstep as (x & task & Hw & Ht & -> & _). now left.
  - destruct Hstep as (x & task & Hw & Ht & -> & _). now left.
  - destruct Hstep as (x & task & Hw & Ht & _ & -> & _). now left.
  - destruct Hstep as (x & task & Hw & Ht & -> & _). now left.
  - destruct Hstep as (x & _ & _ & -> & _). now left.
  - destruct Hstep as (_ & taskID & rest & task & _ & _ & -> & _). now left.
  - destruct Hstep as (_ & _ & _ & -> & _). now left.
Qed.

Lemma step_returned (l : Label) (s s' : Exec) (ev : list Event) :
  step l s = Some (s', ev) -> returned s' = true ->
  returned s = true \/ sched s' = SchedDone.
Proof.
  intros Hstep Hret. apply step_inv in Hstep. cbv zeta in Hstep.
  destruct l.
  - destruct Hstep as (_ & -> & _). now left.
  - destruct Hstep as (_ & _ & o' & ann & all & Hrun & -> & _). now left.
  - destruct Hstep as (_ & _ & o' & ready & Hrun & -> & _). now left.
  - destruct Hstep as [(_ & -> & _)|(x & rest & task & _ & Ht & Hcase)]; [now left|].
    destruct Hcase as [(o' & Hacq & -> & _)|(o' & _ & -> & _)]; now left.
  - destruct Hstep as (wake & _ & _ & -> & _). now left.
  - destruct Hstep as (x & task & Hw & Ht & -> & _). now left.
  - destruct Hstep as (x & task & Hw & Ht & -> & _). now left.
  - destruct Hstep as (x & task & Hw & Ht & _ & -> & _). now left.
  - destruct Hstep as (x & task & Hw & Ht & -> & _). now left.
  - destruct Hstep as (x & _ & _ & -> & _). now left.
  - destruct Hstep as (_ & taskID & rest & task & _ & _ & -> & _). now left.
  - destruct Hstep as (_ & Hd & _ & -> & _). now right.
Qed.

Lemma step_sched_stays (l : Label) (s s' : Exec) (ev : list Event) :
  step l s = Some (s', ev) -> sched s = SchedDone -> sched s' = SchedDone.
Proof.
  intros Hstep Hdone. apply step_inv in Hstep. cbv zeta in Hstep.
  destruct l.
  - destruct Hstep as (_ & -> & _). exact Hdone.
  - destruct Hstep as (Hs & _). congruence.
  - destruct Hstep as (Hs & _). congruence.
  - destruct Hstep as [(Hs & _)|(x & rest & task & Hs & _)]; congruence.
  - destruct Hstep as (wake & Hs & _). congruence.
  - destruct Hstep as (x & task & Hw & Ht & -> & _). exact Hdone.
  - destruct Hstep as (x & task & Hw & Ht & -> & _). exact Hdone.
  - destruct Hstep as (x & task & Hw & Ht & _ & -> & _). exact Hdone.
  - destruct Hstep as (x & task & Hw & Ht & -> & _). exact Hdone.
  - destruct Hstep as (x & _ & _ & -> & _). exact Hdone.
  - destruct Hstep as (_ & taskID & rest & task & _ & _ & -> & _). exact Hdone.
  - destruct Hstep as (_ & _ & _ & -> & _). exact Hdone.
Qed.

Section Propagation.
Variable o : DAGOrchestrator.
Hypothesis Hpr : pristine o.
Variable F : string.

(** [F] is in the transitive dependency closure of [T]. *)
Definition doomed (T : string) : Prop := tc (edge (tasks o)) T F.

(** No run of [F] has succeeded. *)
Definition never_ok (evs : list Event) : Prop :=
  forall ok t, EvFinish F ok t ∈ evs -> ok = false.

Lemma never_ok_app evs ev : never_ok (evs ++ ev) -> never_ok evs.
Proof. intros H ok t Hin. apply (H ok t), elem_of_app. now left. Qed.

Lemma doomed_dep (T : string) :
  doomed T ->
  exists t0 D, tasks o !! T = Some t0 /\ D ∈ Dependencies t0 /\ (D = F \/ doomed D).
Proof.
  intros H. unfold doomed in H. inversion H as [x y (t0 & Ht0 & Hd)|x y z (t0 & Ht0 & Hd) Hrest];
    subst; exists t0; eauto.
Qed.

Record fail_inv (s : Exec) (evs : list Event) : Prop := mkFailInv {
  fi_not_done : forall T, doomed T -> ~ done_by evs T;
  fi_no_worker : forall T, doomed T -> T ∉ worker_ids s;
  fi_not_listed : forall T, doomed T -> T ∉ ready_list (sched s);
  fi_not_started : forall T t, doomed T -> EvStart T t ∉ evs;
  fi_status : forall T tT, doomed T -> tasks (orch s) !! T = Some tT ->
    Status tT = TaskPending \/
    (Status tT = TaskFailed /\ Error tT = Some dependency_failed /\
     Result tT = Some (synthetic tT) /\ EvBlocked T ∈ evs);
  fi_done : sched s = SchedDone ->
    forall T tT, doomed T -> tasks (orch s) !! T = Some tT -> Status tT = TaskFailed
}.

Lemma key_is_id (s : Exec) (T : string) (t : Task) :
  same_static (tasks o) (tasks (orch s)) -> tasks (orch s) !! T = Some t -> ID t = T.
Proof.
  intros Hst Ht. destruct (same_static_lookup _ _ _ _ Hst Ht) as (t0 & Ht0 & Hs).
  destruct Hpr as (_ & _ & Hkey). destruct (Hkey T t0 Ht0) as [Hid _].
  unfold static in Hs. congruence.
Qed.

Lemma fail_inv_step (l : Label) (s s' : Exec) (evs ev : list Event) :
  order_inv o s evs -> fail_inv s evs -> never_ok (evs ++ ev) ->
  step l s = Some (s', ev) -> fail_inv s' (evs ++ ev).
Proof.
  intros Hord [Hnd Hnw Hnl Hns Hst Hdn] Hnever Hstep.
  pose proof (step_tasks_by _ _ _ _ Hstep) as Htasks.
  pose proof (step_workers _ _ _ _ Hstep) as Hworkers.
  pose proof (step_ready _ _ _ _ Hstep) as Hready.
  pose proof (step_events _ _ _ _ Hstep) as [_ Hev].
  pose proof (inv_static _ _ _ Hord) as Hstatic.
  (* a doomed task is not promoted *)
  assert (Hnopromo : forall T t, doomed T -> tasks (orch s) !! T = Some t ->
            deps_completed (tasks (orch s)) (Dependencies t) = true -> False).
  { intros T t HT Ht Hdeps. rewrite deps_completed_spec in Hdeps.
    destruct (doomed_dep T HT) as (t0 & D & Ht0 & HD & Hcase).
    destruct (same_static_lookup_r _ _ _ _ Hstatic Ht0) as (t1 & Ht1 & Hs1).
    assert (t1 = t) by congruence. subst t1.
    assert (HD' : D ∈ Dependencies t) by (unfold static in Hs1; congruence).
    destruct (Hdeps D HD') as (dt & Hdt & Hcomp).
    pose proof (inv_completed _ _ _ Hord D dt Hdt Hcomp) as Hdone.
    destruct Hcase as [->|HDd].
    - destruct Hdone as [t' Ht']. apply never_ok_app in Hnever.
      specialize (Hnever true t' Ht'). discriminate.
    - exact (Hnd D HDd Hdone). }
  assert (Hst' : forall T tT, doomed T -> tasks (orch s') !! T = Some tT ->
    Status tT = TaskPending \/
    (Status tT = TaskFailed /\ Error tT = Some dependency_failed /\
     Result tT = Some (synthetic tT) /\ EvBlocked T ∈ evs ++ ev)).
  { intros T tT HT HtT.
    destruct (Htasks T) as [Hsame|[Hw|[(t & Ht & Hp & Hd & Hn)|(t & Ht & Hp & Hn & Hb)]]].
    - rewrite Hsame in HtT. destruct (Hst T tT HT HtT) as [?|(A & B & C & D)]; [now left|].
      right. split_and!; try assumption. apply elem_of_app. now left.
    - exfalso. exact (Hnw T HT Hw).
    - exfalso. exact (Hnopromo T t HT Ht Hd).
    - right. assert (tT = mark_blocked t) by congruence. subst tT.
      split_and!; try reflexivity.
      rewrite (key_is_id s T t Hstatic Ht) in Hb. apply elem_of_app. now right. }
  constructor.
  - intros T HT [t' Ht']. apply elem_of_app in Ht' as [Hin|Hin].
    + apply (Hnd T HT). now exists t'.
    + specialize (Hev _ Hin). simpl in Hev. destruct Hev as [_ Hw]. exact (Hnw T HT Hw).
  - intros T HT Hin. destruct (Hworkers T Hin) as [H|H].
    + exact (Hnw T HT H).
    + exact (Hnl T HT H).
  - intros T HT Hin. destruct (Hready T Hin) as [H|(t' & Ht' & Hr)].
    + exact (Hnl T HT H).
    + destruct (Hst' T t' HT Ht') as [?|(? & _)]; congruence.
  - intros T t HT Hin. apply elem_of_app in Hin as [Hin|Hin].
    + exact (Hns T t HT Hin).
    + specialize (Hev _ Hin). simpl in Hev. destruct Hev as [_ Hw]. exact (Hnw T HT Hw).
  - exact Hst'.
  - intros Hdone T tT HT HtT.
    destruct (step_sched_done _ _ _ _ Hstep Hdone) as [Hold|Hall].
    + destruct (Htasks T) as [Hsame|[Hw|[(t & Ht & Hp & Hd & Hn)|(t & Ht & Hp & Hn & Hb)]]].
      * rewrite Hsame in HtT. eauto.
      * exfalso. exact (Hnw T HT Hw).
      * exfalso. exact (Hnopromo T t HT Ht Hd).
      * assert (tT = mark_blocked t) by congruence. now subst tT.
    + destruct (Hall T tT HtT) as [Hc|Hf]; [|exact Hf].
      destruct (Hst' T tT HT HtT) as [?|(? & _)]; congruence.
Qed.

Lemma fail_inv_init (now : Z) :
  fail_inv (mkExec o now SchedCheck [] [] (size (tasks o)) 0 [] false false) [].
Proof.
  destruct Hpr as (_ & _ & Hpending). constructor; simpl.
  - intros T _ [t' Ht']. inversion Ht'.
  - intros T _ Hin. inversion Hin.
  - intros T _ Hin. inversion Hin.
  - intros T t _ Hin. inversion Hin.
  - intros T tT _ HtT. left. now destruct (Hpending T tT HtT).
  - discriminate.
Qed.

End Propagation.

(** A blocked task's id is on its way to the completion handler: held by
    the announcing goroutine, in the channel, or already received. *)
Definition announced (s : Exec) (evs : list Event) (T : string) : Prop :=
  T ∈ announcers s \/ T ∈ completeCh (orch s) \/ exists c n, EvProgress c n T ∈ evs.

Lemma elem_of_delete_or {A : Type} (l : list A) (n : nat) (x y : A) :
  l !! n = Some y -> x ∈ l -> x = y \/ x ∈ delete n l.
Proof.
  revert n. induction l as [|z l IH]; intros n Hn Hx; [inversion Hx|].
  destruct n as [|n]; simpl in *.
  - inversion Hn; subst. apply elem_of_cons in Hx as [->|Hx]; auto.
  - apply elem_of_cons in Hx as [->|Hx]; [right; left|].
    destruct (IH n Hn Hx) as [->|H]; [now left | right; now right].
Qed.

Lemma announced_step (l : Label) (s s' : Exec) (evs ev : list Event) :
  (forall T, EvBlocked T ∈ evs -> announced s evs T) ->
  step l s = Some (s', ev) ->
  forall T, EvBlocked T ∈ evs ++ ev -> announced s' (evs ++ ev) T.
Proof.
  intros Hinv Hstep T HT.
  assert (Hmono : forall s1, announcers s1 = announcers s ->
            completeCh (orch s1) = completeCh (orch s) ->
            EvBlocked T ∈ evs -> announced s1 (evs ++ ev) T).
  { intros s1 Ha Hc Hin. destruct (Hinv T Hin) as [H|[H|(c & n & H)]].
    - left. now rewrite Ha.
    - right. left. now rewrite Hc.
    - right. right. exists c, n. apply elem_of_app. now left. }
  apply step_inv in Hstep. cbv zeta in Hstep.
  apply elem_of_app in HT.
  destruct l.
  - destruct Hstep as (_ & -> & ->). destruct HT as [H|H]; [|inversion H]. now apply Hmono.
  - destruct Hstep as (_ & _ & o' & ann & all & Hrun & -> & ->).
    apply allTasksCompleteOrBlocked_loop_spec in Hrun as ((_ & _ & Hch & _) & _).
    destruct HT as [H|H].
    + destruct (Hinv T H) as [H1|[H1|(c & n & H1)]].
      * left. simpl. apply elem_of_app. now left.
      * right. left. simpl. now rewrite Hch.
      * right. right. exists c, n. apply elem_of_app. now left.
    + left. simpl. apply elem_of_app. right.
      apply list_elem_of_fmap in H as (x & [= ->] & Hx). exact Hx.
  - destruct Hstep as (_ & _ & o' & ready & Hrun & -> & ->).
    apply getReadyTasks_loop_spec in Hrun as ((_ & _ & Hch & _) & _).
    destruct HT as [H|H]; [|inversion H]. now apply Hmono.
  - destruct Hstep as [(_ & -> & ->)|(x & rest & task & _ & Ht & Hcase)].
    { destruct HT as [H|H]; [|inversion H]. now apply Hmono. }
    destruct Hcase as [(o' & Hacq & -> & ->)|(o' & _ & -> & ->)].
    + destruct HT as [H|H].
      2:{ apply list_elem_of_singleton in H. discriminate. }
      apply Hmono; [reflexivity | | exact H]. simpl.
      unfold tryAcquireResource in Hacq.
      destruct (constraints (orch s) !! Resource task) as [c0|].
      * destruct (slots_of (orch s) (Resource task) <? MaxSlots c0);
          inversion Hacq; subst o'; reflexivity.
      * inversion Hacq; subst o'; reflexivity.
    + destruct HT as [H|H]; [|inversion H]. now apply Hmono.
  - destruct Hstep as (wake & _ & _ & -> & ->).
    destruct HT as [H|H]; [|inversion H]. now apply Hmono.
  - destruct Hstep as (x & task & Hw & Ht & -> & ->).
    destruct HT as [H|H]; [|apply list_elem_of_singleton in H; discriminate].
    now apply Hmono.
  - destruct Hstep as (x & task & Hw & Ht & -> & ->).
    destruct HT as [H|H]; [|apply list_elem_of_singleton in H; discriminate].
    now apply Hmono.
  - destruct Hstep as (x & task & Hw & Ht & _ & -> & ->).
    destruct HT as [H|H]; [|inversion H].
    destruct (Hinv T H) as [H1|[H1|(c & n & H1)]].
    + now left.
    + right. left. simpl. apply elem_of_app. now left.
    + right. right. exists c, n. apply elem_of_app. now left.
  - destruct Hstep as (x & task & Hw & Ht & -> & ->).
    destruct HT as [H|H]; [|inversion H].
    apply Hmono; [reflexivity | | exact H]. simpl.
    unfold releaseResource. destruct (0 <? slots_of (orch s) (Resource task)); reflexivity.
  - destruct Hstep as (x & Hn & _ & -> & ->).
    destruct HT as [H|H]; [|inversion H].
    destruct (Hinv T H) as [H1|[H1|(c & k & H1)]].
    + destruct (elem_of_delete_or _ _ _ _ Hn H1) as [->|Hd].
      * right. left. simpl. apply elem_of_app. right. left.
      * now left.
    + right. left. simpl. apply elem_of_app. now left.
    + right. right. exists c, k. apply elem_of_app. now left.
  - destruct Hstep as (_ & taskID & rest & task & Hch & _ & -> & ->).
    destruct HT as [H|H]; [|apply list_elem_of_singleton in H; discriminate].
    destruct (Hinv T H) as [H1|[H1|(c & k & H1)]].
    + now left.
    + rewrite Hch in H1. apply elem_of_cons in H1 as [->|H1].
      * right. right. eexists _, _. apply elem_of_app. right. left.
      * right. left. exact H1.
    + right. right. exists c, k. apply elem_of_app. now left.
  - destruct Hstep as (_ & _ & _ & -> & ->).
    destruct HT as [H|H]; [|apply list_elem_of_singleton in H; discriminate].
    now apply Hmono.
Qed.

(** A task fails for good: its command has returned an error, and no run of
    it has succeeded. *)
Definition fails (evs : list Event) (F : string) : Prop :=
  (exists t, EvFinish F false t ∈ evs) /\
  (forall ok t, EvFinish F ok t ∈ evs -> ok = false).

(** X29.  In every execution in which the command of a task [F] returns an
    error and no run of it returns without one, a task [T] whose transitive
    dependencies include [F] never has its command started; it stays pending
    until the scheduler fails it with the dependency error and a synthetic
    result, announcing its id on the completion channel like any other
    completion; and once the scheduler or [Execute] has returned, [T] is in
    that failed state.  (When [F] is dispatched twice, one run succeeding
    and the other failing, the dependents of [F] do run.) *)
Theorem failure_propagates (o : DAGOrchestrator) (order1 order2 : list string)
  (now : Z) (s0 : Exec) (ls : list Label) (s : Exec) (evs : list Event)
  (F T : string) :
  pristine o ->
  Execute_begin o order1 order2 now = Some (Ok s0) ->
  run s0 ls = Some (s, evs) ->
  tc (edge (tasks o)) T F ->
  fails evs F ->
  (forall t, EvStart T t ∉ evs) /\
  (exists tT, tasks (orch s) !! T = Some tT /\
     (Status tT = TaskPending \/
      (Status tT = TaskFailed /\ Error tT = Some dependency_failed /\
       Result tT = Some (synthetic tT) /\ announced s evs T)) /\
     (sched s = SchedDone \/ returned s = true -> Status tT = TaskFailed)).
Proof.
  intros Hpr Hbegin Hrun Hdoom Hf.
  apply Execute_begin_ok in Hbegin as [-> _].
  assert (Hinv : order_inv o s evs /\
                 (never_ok F evs -> fail_inv o F s evs) /\
                 (forall X, EvBlocked X ∈ evs -> announced s evs X) /\
                 (returned s = true -> sched s = SchedDone)).
  { clear Hf. revert ls s evs Hrun.
    apply (run_ind (fun s evs => order_inv o s evs /\
                      (never_ok F evs -> fail_inv o F s evs) /\
                      (forall X, EvBlocked X ∈ evs -> announced s evs X) /\
                      (returned s = true -> sched s = SchedDone))).
    - split_and!.
      + now apply order_inv_init.
      + intros _. now apply fail_inv_init.
      + intros X HX. inversion HX.
      + discriminate.
    - intros s1 evs1 l s2 ev (Hord & Hfail & Hann & Hret) Hstep. split_and!.
      + eapply order_inv_step; eassumption.
      + intros Hn. eapply fail_inv_step; try eassumption.
        apply Hfail. eapply never_ok_app, Hn.
      + eapply announced_step; eassumption.
      + intros Hr. destruct (step_returned _ _ _ _ Hstep Hr) as [H|H]; [|exact H].
        eapply step_sched_stays; eauto. }
  destruct Hinv as (Hord & Hfail & Hann & Hret).
  destruct Hf as [_ Hnever]. specialize (Hfail Hnever). destruct Hfail as [Hnd Hnw Hnl Hns Hst Hdn].
  split.
  - intros t. now apply Hns.
  - destruct (doomed_dep o F T Hdoom) as (t0 & D & Ht0 & _).
    destruct (same_static_lookup_r _ _ _ _ (inv_static _ _ _ Hord) Ht0) as (tT & HtT & _).
    exists tT. split; [exact HtT|]. split.
    + destruct (Hst T tT Hdoom HtT) as [?|(A & B & C & E)]; [now left|].
      right. split_and!; auto.
    + intros [Hd|Hr]; [|apply Hret in Hr]; eapply Hdn; eauto.
Qed.

End FailureSpec.

(** * Failing commands; orchestrators without tasks *)

Module ResultSpec.
Import Orchestrator OrchestratorSpec ExecSpec OrderSpec FailureSpec.

(** *** A failing command *)

(** C3.  When the command of a running task returns an error, the task
    becomes failed, the error is kept and the result written has success
    false and that error, as the claim says; nothing else changes: the
    scheduler, the completion handler and [Execute] go on as before, and the
    step is always possible for a running worker.  But the result carries the
    output path of the command, not an empty one: unless that path is blank,
    [Validate] rejects the result as a failed result with an output path. *)
Theorem command_failure_recorded (w : nat) (e : Models.error) (s : Exec)
  (id : string) (t : Task) :
  workers s !! w = Some (mkWorker id WRunning) ->
  tasks (orch s) !! id = Some t ->
  exists s' t' r,
    step (WorkerFinish w (Some e)) s = Some (s', [EvFinish id false (clock s)]) /\
    tasks (orch s') !! id = Some t' /\
    Status t' = TaskFailed /\ Error t' = Some e /\ Result t' = Some r /\
    Models.Success r = false /\ Models.Error r = Some e /\
    Models.OutputPath r = Command.GetOutputPath (Command t) /\
    Models.EncoderResult_Validate r =
      (if blank (Models.OutputPath r) then None else Some Models.ErrFailureWithOutput) /\
    sched s' = sched s /\ handlerDone s' = handlerDone s /\
    returned s' = returned s /\ results s' = results s.
Proof.
  intros Hw Ht.
  eexists _, (executeTask_finish (clock s) (Some e) t), _.
  split.
  { unfold step. rewrite Hw, Ht. reflexivity. }
  simpl. rewrite lookup_insert_eq. split_and!; try reflexivity.
  unfold Models.EncoderResult_Validate. simpl.
  destruct (blank (Command.GetOutputPath (Command t))); reflexivity.
Qed.

(** *** An orchestrator without tasks *)

Lemma allTasksCompleteOrBlocked_loop_terminal (order : list string) :
  forall o announced,
  (forall id t, tasks o !! id = Some t ->
     Status t = TaskCompleted \/ Status t = TaskFailed) ->
  allTasksCompleteOrBlocked_loop o order announced = Some (o, announced, true).
Proof.
  induction order as [|id order IH]; intros o ann Hterm; [reflexivity|].
  cbn [allTasksCompleteOrBlocked_loop].
  destruct (tasks o !! id) as [task|] eqn:Et; [|now apply IH].
  destruct (Hterm id task Et) as [H|H]; rewrite H; now apply IH.
Qed.

Lemma getReadyTasks_loop_empty (order : list string) : forall o ready,
  tasks o = ∅ -> getReadyTasks_loop o order ready = (o, ready).
Proof.
  induction order as [|id order IH]; intros o ready He; [reflexivity|].
  cbn [getReadyTasks_loop]. rewrite He, lookup_empty. now apply IH.
Qed.

(** Nothing ever happens to an execution over no tasks, except that the
    scheduler returns. *)
Record idle (s : Exec) : Prop := mkIdle {
  idle_tasks : tasks (orch s) = ∅;
  idle_ch : completeCh (orch s) = [];
  idle_workers : workers s = [];
  idle_announcers : announcers s = [];
  idle_ready : ready_list (sched s) = [];
  idle_handler : handlerDone s = false;
  idle_returned : returned s = false
}.

Lemma idle_step (l : Label) (s s' : Exec) (ev : list Event) :
  idle s -> step l s = Some (s', ev) -> idle s'.
Proof.
  intros [Ht Hc Hw Ha Hr Hh Hret] Hstep. apply step_inv in Hstep. cbv zeta in Hstep.
  destruct l.
  - destruct Hstep as (_ & -> & _). now constructor.
  - destruct Hstep as (_ & _ & o' & ann & all & Hrun & -> & _).
    unfold allTasksCompleteOrBlocked in Hrun.
    rewrite allTasksCompleteOrBlocked_loop_terminal in Hrun.
    2:{ intros id t H. rewrite Ht, lookup_empty in H. discriminate. }
    inversion Hrun; subst. constructor; simpl; try assumption; try reflexivity.
    all: try (now rewrite Ha).
  - destruct Hstep as (_ & _ & o' & ready & Hrun & -> & _).
    unfold getReadyTasks in Hrun. rewrite getReadyTasks_loop_empty in Hrun by assumption.
    inversion Hrun; subst. now constructor.
  - destruct Hstep as [(_ & -> & _)|(x & rest & task & Hs & _)].
    + now constructor.
    + rewrite Hs in Hr. discriminate.
  - destruct Hstep as (wake & _ & _ & -> & _). now constructor.
  - destruct Hstep as (x & task & Hx & _). rewrite Hw in Hx. discriminate.
  - destruct Hstep as (x & task & Hx & _). rewrite Hw in Hx. discriminate.
  - destruct Hstep as (x & task & Hx & _). rewrite Hw in Hx. discriminate.
  - destruct Hstep as (x & task & Hx & _). rewrite Hw in Hx. discriminate.
  - destruct Hstep as (x & Hx & _). rewrite Ha in Hx. discriminate.
  - destruct Hstep as (_ & taskID & rest & task & Hx & _). rewrite Hc in Hx. discriminate.
  - destruct Hstep as (Hx & _). congruence.
Qed.

(** When every task is completed or failed (none ready, running or
    pending), and so when there is no task at all, the pass of
    [allTasksCompleteOrBlocked] answers true: the scheduler returns. *)
Lemma allTasksCompleteOrBlocked_terminal (o : DAGOrchestrator) (order : list string) :
  (forall id t, tasks o !! id = Some t ->
     Status t = TaskCompleted \/ Status t = TaskFailed) ->
  allTasksCompleteOrBlocked o order = Some (o, [], true).
Proof. intros Hterm. now apply allTasksCompleteOrBlocked_loop_terminal. Qed.

(** C6.  Over an orchestrator without tasks [validateDAG] passes and the
    scheduler goroutine returns on its first pass, as the claim says; but
    [Execute] does not return: the completion handler compares its count
    with the number of tasks only after it has received a completion, none
    ever arrives, and the main goroutine stays at the receive from
    [doneCh] in every schedule. *)
Theorem Execute_without_tasks_never_returns (o : DAGOrchestrator) (now : Z) :
  tasks o = ∅ -> completeCh o = [] ->
  exists s0,
    Execute_begin o [] [] now = Some (Ok s0) /\
    (exists s1, step (SchedulerCheck []) s0 = Some (s1, []) /\ sched s1 = SchedDone) /\
    forall ls s evs, run s0 ls = Some (s, evs) ->
      returned s = false /\ handlerDone s = false /\ completedTasks s = 0%nat /\
      step MainReturn s = None.
Proof.
  intros Ht Hc.
  exists (mkExec o now SchedCheck [] [] (size (tasks o)) 0 [] false false).
  split_and!.
  - unfold Execute_begin, validateDAG. simpl. reflexivity.
  - eexists. unfold step. simpl.
    assert (Hr : range_of (tasks o) []).
    { unfold range_of. rewrite Ht, map_to_list_empty. reflexivity. }
    rewrite decide_True by exact Hr. split; reflexivity.
  - intros ls s evs Hrun.
    assert (Hidle : idle s /\ completedTasks s = 0%nat).
    { revert ls s evs Hrun.
      apply (run_ind (fun s _ => idle s /\ completedTasks s = 0%nat)).
      - split; [now constructor | reflexivity].
      - intros s1 evs1 l s2 ev [Hi Hn] Hstep. split; [eapply idle_step; eassumption|].
        destruct Hi as [Ht1 Hc1 Hw1 Ha1 Hr1 Hh1 Hret1].
        apply step_inv in Hstep. cbv zeta in Hstep.
        destruct l; try (decompose [and ex or] Hstep; subst; simpl; congruence). }
    destruct Hidle as [[_ _ _ _ _ Hh Hret] Hn]. split_and!; auto.
    unfold step. rewrite Hh. reflexivity.
Qed.

(** [Execute] on a new orchestrator: the scheduler is done after one pass and
    nothing can happen afterwards but the passing of time. *)
Lemma Execute_without_tasks_never_returns_witness :
  exists s0,
    Execute_begin (NewDAGOrchestrator [mkResourceConstraint ResourceCPU 2]) [] [] 0
      = Some (Ok s0) /\
    (exists s1, step (SchedulerCheck []) s0 = Some (s1, []) /\ sched s1 = SchedDone) /\
    forall ls s evs, run s0 ls = Some (s, evs) ->
      returned s = false /\ handlerDone s = false /\ completedTasks s = 0%nat /\
      step MainReturn s = None.
Proof.
  apply (Execute_without_tasks_never_returns
           (NewDAGOrchestrator [mkResourceConstraint ResourceCPU 2]) 0);
    reflexivity.
Defined.

End ResultSpec.

(** * Worked schedules *)

Module Scenarios.
Import Orchestrator OrchestratorSpec ExecSpec OrderSpec FailureSpec ResultSpec.

(** *** Concrete graphs and schedules *)

Definition new_task (id path : string) (deps : list string) : Task :=
  mkTask id (Command.mkCommand path) deps ResourceCPU TaskPending None None 0 0.

Fixpoint add_all (o : DAGOrchestrator) (ts : list Task) : DAGOrchestrator :=
  match ts with
  | [] => o
  | t :: rest =>
    match AddTask o t with
    | Ok o' => add_all o' rest
    | Err _ => add_all o rest
    end
  end.

Lemma pristine_add_all (ts : list Task) : forall o, pristine o -> pristine (add_all o ts).
Proof.
  induction ts as [|t ts IH]; intros o Ho; [exact Ho|].
  simpl. destruct (AddTask o t) as [o'|e] eqn:E; [|now apply IH].
  apply IH. eapply pristine_AddTask; eassumption.
Qed.

(** The chain A <- B <- C on one CPU slot (the graph of the failure test,
    one task longer). *)
Definition chain : DAGOrchestrator :=
  add_all (NewDAGOrchestrator [mkResourceConstraint ResourceCPU 1])
    [new_task "A" "/tmp/a.mp4" []; new_task "B" "/tmp/b.mp4" ["A"];
     new_task "C" "/tmp/c.mp4" ["B"]].

Definition abc : list string := ["A"; "B"; "C"].

Definition start_of (o : DAGOrchestrator) (order : list string) (now : Z) : Exec :=
  match Execute_begin o order order now with
  | Some (Ok s) => s
  | _ => mkExec o now SchedDone [] [] 0 0 [] false false
  end.

Definition outcome (s0 : Exec) (ls : list Label) : Exec * list Event :=
  default (s0, []) (run s0 ls).

(** One scheduler round: the pass, the selection, [n] dispatches and the end
    of the dispatch loop. *)
Definition round (order : list string) (n : nat) : list Label :=
  [SchedulerCheck order; SchedulerReady order] ++ replicate n SchedulerDispatch ++
  [SchedulerDispatch].

(** Worker [w] runs its command for [d] ms with outcome [err], reports and
    releases its slot; the handler receives the completion. *)
Definition work (w : nat) (d : Z) (err : option Models.error) : list Label :=
  [WorkerStart w; Tick d; WorkerFinish w err; WorkerNotify w; WorkerRelease w;
   HandlerReceive].

Definition nap : list Label := [Tick 10; SchedulerWake].

(** Every task succeeds. *)
Definition all_succeed : list Label :=
  round abc 1 ++ work 0 250 None ++ nap ++
  round abc 1 ++ work 1 120 None ++ nap ++
  round abc 1 ++ work 2 75 None ++ nap ++
  [SchedulerCheck abc; MainReturn].

(** The command of B exits with an error. *)
Definition b_fails : list Label :=
  round abc 1 ++ work 0 250 None ++ nap ++
  round abc 1 ++ work 1 120 (Some "exit status 1"%string) ++ nap ++
  [SchedulerCheck abc; AnnounceBlocked 0; HandlerReceive; MainReturn].

(** B is running. *)
Definition b_running : list Label :=
  round abc 1 ++ work 0 250 None ++ nap ++ round abc 1 ++ [WorkerStart 1; Tick 120].

(** A cycle A -> C -> B -> A, and a dependency on a task that was never
    added. *)
Definition cyclic : DAGOrchestrator :=
  add_all (NewDAGOrchestrator [])
    [new_task "A" "/tmp/a.mp4" ["C"]; new_task "B" "/tmp/b.mp4" ["A"];
     new_task "C" "/tmp/c.mp4" ["B"]].

Definition dangling : DAGOrchestrator :=
  add_all (NewDAGOrchestrator [])
    [new_task "A" "/tmp/a.mp4" []; new_task "B" "/tmp/b.mp4" ["A"; "Z"]].

Lemma pristine_chain : pristine chain.
Proof. apply pristine_add_all, pristine_New. Qed.

Lemma chain_begin : Execute_begin chain abc abc 0 = Some (Ok (start_of chain abc 0)).
Proof. vm_compute. reflexivity. Qed.

Lemma outcome_run (s0 : Exec) (ls : list Label) :
  is_Some (run s0 ls) -> run s0 ls = Some ((outcome s0 ls).1, (outcome s0 ls).2).
Proof. unfold outcome. intros [[s evs] ->]. reflexivity. Qed.

Lemma all_succeed_runs : is_Some (run (start_of chain abc 0) all_succeed).
Proof. vm_compute. eexists. reflexivity. Qed.

Lemma b_fails_runs : is_Some (run (start_of chain abc 0) b_fails).
Proof. vm_compute. eexists. reflexivity. Qed.

Lemma b_running_runs : is_Some (run (start_of chain abc 0) b_running).
Proof. vm_compute. eexists. reflexivity. Qed.

(** The events of the run in which B fails. *)
Example b_fails_events :
  (outcome (start_of chain abc 0) b_fails).2 =
  [EvDispatch "A"; EvStart "A" 0; EvFinish "A" true 250; EvProgress 1 3 "A";
   EvDispatch "B"; EvStart "B" 260; EvFinish "B" false 380; EvProgress 2 3 "B";
   EvBlocked "C"; EvProgress 3 3 "C";
   EvReturn [Models.mkEncoderResult 0 "/tmp/a.mp4" true None;
             Models.mkEncoderResult 0 "/tmp/b.mp4" false (Some "exit status 1"%string);
             Models.mkEncoderResult 0 "/tmp/c.mp4" false (Some dependency_failed)]].
Proof. vm_compute. reflexivity. Qed.

Lemma constraints_add_all (ts : list Task) : forall o,
  constraints (add_all o ts) = constraints o.
Proof.
  induction ts as [|t ts IH]; intros o; [reflexivity|].
  simpl. unfold AddTask. destruct (tasks o !! ID t); rewrite IH; reflexivity.
Qed.

Lemma chain_constraints (r : string) (c : ResourceConstraint) :
  constraints chain !! r = Some c -> 0 <= MaxSlots c.
Proof.
  unfold chain. rewrite constraints_add_all. simpl.
  intros [[_ <-]|[_ H]]%lookup_insert_Some; [simpl; lia|].
  rewrite lookup_empty in H. discriminate.
Qed.

(** In the run where all succeed, B starts at 260, after the completion of
    A at 250. *)
Lemma start_after_dependencies_witness :
  pristine chain /\
  Execute_begin chain abc abc 0 = Some (Ok (start_of chain abc 0)) /\
  is_Some (run (start_of chain abc 0) all_succeed) /\
  exists t', EvFinish "A" true t' ∈ take 5 (outcome (start_of chain abc 0) all_succeed).2 /\
             t' <= 260.
Proof.
  split; [exact pristine_chain|]. split; [exact chain_begin|].
  split; [exact all_succeed_runs|].
  destruct (start_after_dependencies chain abc abc 0 (start_of chain abc 0) all_succeed
              _ _ pristine_chain chain_begin (outcome_run _ _ all_succeed_runs))
    as [Hstart _].
  apply (Hstart _ (drop 6 (outcome (start_of chain abc 0) all_succeed).2) "B" 260
           (new_task "B" "/tmp/b.mp4" ["A"]) "A").
  - vm_compute. reflexivity.
  - vm_compute. reflexivity.
  - simpl. apply list_elem_of_here.
Defined.

(** Witness of C2: while B runs on the only CPU slot, one dispatch holds it,
    and a GPU slot, for which nothing is configured, can be had. *)
Lemma slots_never_exceed_witness :
  pristine chain /\
  is_Some (run (start_of chain abc 0) b_running) /\
  Z.of_nat (holders (outcome (start_of chain abc 0) b_running).1 ResourceCPU) <= 1 /\
  tryAcquireResource (orch (outcome (start_of chain abc 0) b_running).1) ResourceGPUEncode
    = (orch (outcome (start_of chain abc 0) b_running).1, true).
Proof.
  split; [exact pristine_chain|]. split; [exact b_running_runs|].
  destruct (slots_never_exceed chain abc abc 0 (start_of chain abc 0) b_running
              _ _ pristine_chain chain_constraints chain_begin
              (outcome_run _ _ b_running_runs)) as [Hmax Hfree].
  split.
  - apply (Hmax ResourceCPU (mkResourceConstraint ResourceCPU 1)). vm_compute. reflexivity.
  - apply Hfree. vm_compute. reflexivity.
Defined.

Definition b_running_state : Exec := (outcome (start_of chain abc 0) b_running).1.

Definition b_started : Task :=
  mkTask "B" (Command.mkCommand "/tmp/b.mp4") ["A"] ResourceCPU TaskRunning None None 260 0.

(** The command of B fails while B is running: the result recorded carries
    the path /tmp/b.mp4 and does not pass [Validate]. *)
Lemma command_failure_recorded_witness :
  workers b_running_state !! 1%nat = Some (mkWorker "B" WRunning) /\
  tasks (orch b_running_state) !! "B" = Some b_started /\
  exists s' t' r,
    step (WorkerFinish 1 (Some "exit status 1"%string)) b_running_state
      = Some (s', [EvFinish "B" false (clock b_running_state)]) /\
    tasks (orch s') !! "B" = Some t' /\
    Status t' = TaskFailed /\ Error t' = Some "exit status 1"%string /\
    Result t' = Some r /\
    Models.Success r = false /\ Models.Error r = Some "exit status 1"%string /\
    Models.OutputPath r = Command.GetOutputPath (Command b_started) /\
    Models.EncoderResult_Validate r =
      (if blank (Models.OutputPath r) then None else Some Models.ErrFailureWithOutput) /\
    sched s' = sched b_running_state /\ handlerDone s' = handlerDone b_running_state /\
    returned s' = returned b_running_state /\ results s' = results b_running_state.
Proof.
  assert (Hw : workers b_running_state !! 1%nat = Some (mkWorker "B" WRunning)).
  { vm_compute. reflexivity. }
  assert (Ht : tasks (orch b_running_state) !! "B" = Some b_started).
  { vm_compute. reflexivity. }
  exact (conj Hw (conj Ht
    (command_failure_recorded 1 "exit status 1"%string b_running_state "B" b_started Hw Ht))).
Defined.

Definition b_failed_result : Models.EncoderResult :=
  Models.mkEncoderResult 0 "/tmp/b.mp4" false (Some "exit status 1"%string).

(** At the end of the run in which B fails, the result recorded for B
    carries the output path of its command, and [Validate] rejects it. *)
Lemma failed_result_keeps_output_path :
  tasks (orch (outcome (start_of chain abc 0) b_fails).1) !! "B"
    = Some (mkTask "B" (Command.mkCommand "/tmp/b.mp4") ["A"] ResourceCPU TaskFailed
              (Some "exit status 1"%string) (Some b_failed_result) 260 380) /\
  Models.OutputPath b_failed_result = "/tmp/b.mp4"%string /\
  blank (Models.OutputPath b_failed_result) = false /\
  Models.EncoderResult_Validate b_failed_result = Some Models.ErrFailureWithOutput /\
  returned (outcome (start_of chain abc 0) b_fails).1 = true.
Proof. split_and!; vm_compute; reflexivity. Qed.

Lemma b_fails_fails : fails (outcome (start_of chain abc 0) b_fails).2 "B".
Proof.
  rewrite b_fails_events. split.
  - exists 380. set_solver.
  - intros ok t H. set_solver.
Qed.

(** B fails; C, which depends on B, is never started and ends failed for its
    dependency, with a synthetic result. *)
Lemma failure_propagates_witness :
  pristine chain /\
  is_Some (run (start_of chain abc 0) b_fails) /\
  tc (edge (tasks chain)) "C" "B" /\
  fails (outcome (start_of chain abc 0) b_fails).2 "B" /\
  (forall t, EvStart "C" t ∉ (outcome (start_of chain abc 0) b_fails).2) /\
  exists tC, tasks (orch (outcome (start_of chain abc 0) b_fails).1) !! "C" = Some tC /\
    Status tC = TaskFailed.
Proof.
  assert (Hdep : tc (edge (tasks chain)) "C" "B").
  { apply tc_once. exists (new_task "C" "/tmp/c.mp4" ["B"]).
    split; [vm_compute; reflexivity | apply list_elem_of_here]. }
  split; [exact pristine_chain|]. split; [exact b_fails_runs|].
  split; [exact Hdep|]. split; [exact b_fails_fails|].
  destruct (failure_propagates chain abc abc 0 (start_of chain abc 0) b_fails
              _ _ "B" "C" pristine_chain chain_begin (outcome_run _ _ b_fails_runs)
              Hdep b_fails_fails) as (Hnot & tC & HtC & _ & Hend).
  split; [exact Hnot|]. exists tC. split; [exact HtC|].
  apply Hend. right. vm_compute. reflexivity.
Defined.

(** Witness of C5: the three-task cycle is refused with the cycle error, and
    the dependency of B on Z, which was never added, with the
    unknown-dependency error. *)
Lemma validateDAG_rejects_witness :
  Execute_begin cyclic abc abc 0 = Some (Err ErrCycleDetected) /\
  exists t dep,
    Execute_begin dangling ["A"; "B"] ["A"; "B"] 0
      = Some (Err (ErrUnknownDependency (ID t) dep)).
Proof.
  assert (Hr : range_of (tasks cyclic) abc).
  { apply (bool_decide_eq_true_1 (range_of (tasks cyclic) abc)). vm_compute. reflexivity. }
  assert (Hd : range_of (tasks dangling) ["A"; "B"]).
  { apply (bool_decide_eq_true_1 (range_of (tasks dangling) ["A"; "B"])).
    vm_compute. reflexivity. }
  split.
  - destruct (validateDAG_rejects cyclic abc abc 0 Hr Hr) as (_ & Hcyc & _).
    apply Hcyc.
    + apply (check_deps_exist_closed _ abc Hr). vm_compute. reflexivity.
    + exists "A". eapply tc_l.
      { exists (new_task "A" "/tmp/a.mp4" ["C"]).
        split; [vm_compute; reflexivity | apply list_elem_of_here]. }
      eapply tc_l.
      { exists (new_task "C" "/tmp/c.mp4" ["B"]).
        split; [vm_compute; reflexivity | apply list_elem_of_here]. }
      apply tc_once. exists (new_task "B" "/tmp/b.mp4" ["A"]).
      split; [vm_compute; reflexivity | apply list_elem_of_here].
  - destruct (validateDAG_rejects dangling ["A"; "B"] ["A"; "B"] 0 Hd Hd) as (Hunk & _).
    destruct Hunk as (t & dep & _ & _ & _ & _ & H).
    + exists "B", (new_task "B" "/tmp/b.mp4" ["A"; "Z"]), "Z".
      split_and!; [vm_compute; reflexivity | set_solver | vm_compute; reflexivity].
    + exists t, dep. exact H.
Defined.

(** *** Dispatching a ready task twice *)

(** A ready task stays ready until its goroutine marks it running: when the
    scheduler loop comes round before that (after its 10 ms sleep), the task
    is picked and dispatched again. *)
Example ready_task_dispatched_twice :
  (outcome (start_of chain abc 0) (round abc 1 ++ nap ++ round abc 1)).2
    = [EvDispatch "A"] /\
  (outcome (start_of
              (add_all (NewDAGOrchestrator [mkResourceConstraint ResourceCPU 2])
                       [new_task "A" "/tmp/a.mp4" []]) ["A"] 0)
           (round ["A"] 1 ++ nap ++ round ["A"] 1)).2
    = [EvDispatch "A"; EvDispatch "A"].
Proof. split; vm_compute; reflexivity. Qed.

(** The graph of the sequence test (dag_test.go): A, B after A, C after B,
    and two CPU slots. *)
Definition sequence : DAGOrchestrator :=
  add_all (NewDAGOrchestrator [mkResourceConstraint ResourceCPU 2])
    [new_task "A" "/tmp/a.mp4" []; new_task "B" "/tmp/b.mp4" ["A"];
     new_task "C" "/tmp/c.mp4" ["B"]].

Lemma pristine_sequence : pristine sequence.
Proof. apply pristine_add_all, pristine_New. Qed.

Lemma sequence_begin :
  Execute_begin sequence abc abc 0 = Some (Ok (start_of sequence abc 0)).
Proof. vm_compute. reflexivity. Qed.

(** A is dispatched in the first round and, being still ready when the
    scheduler wakes up, again in the second one (workers 0 and 1).  Worker 0
    runs the command from 10 to 20; B is dispatched and started at 30
    (worker 2); worker 1 starts the command of A again at 32; B ends at 40
    and the second run of A ends at 45 with [err]. *)
Definition a_twice (err : option Models.error) : list Label :=
  round abc 1 ++ nap ++ round abc 1 ++
  work 0 10 None ++ nap ++ round abc 1 ++
  [WorkerStart 2; Tick 2; WorkerStart 1; Tick 8] ++
  [WorkerFinish 2 None; WorkerNotify 2; WorkerRelease 2; HandlerReceive] ++
  [Tick 5; WorkerFinish 1 err; WorkerNotify 1; WorkerRelease 1; HandlerReceive].

(** The second run of A succeeds as well; C runs, and [Execute] returns. *)
Definition a_twice_late : list Label :=
  a_twice None ++ [SchedulerWake] ++ round abc 1 ++
  [WorkerStart 3; Tick 10; WorkerFinish 3 None; WorkerNotify 3; WorkerRelease 3] ++
  nap ++ [SchedulerCheck abc; MainReturn].

(** The second run of A fails; C is failed for it, and [Execute] returns. *)
Definition a_twice_fails : list Label :=
  a_twice (Some "exit status 1"%string) ++
  [SchedulerWake; SchedulerCheck abc; AnnounceBlocked 0; MainReturn].

Lemma a_twice_late_runs : is_Some (run (start_of sequence abc 0) a_twice_late).
Proof. vm_compute. eexists. reflexivity. Qed.

Lemma a_twice_fails_runs : is_Some (run (start_of sequence abc 0) a_twice_fails).
Proof. vm_compute. eexists. reflexivity. Qed.

Example a_twice_late_events :
  (outcome (start_of sequence abc 0) a_twice_late).2 =
  [EvDispatch "A"; EvDispatch "A"; EvStart "A" 10; EvFinish "A" true 20;
   EvProgress 1 3 "A"; EvDispatch "B"; EvStart "B" 30; EvStart "A" 32;
   EvFinish "B" true 40; EvProgress 2 3 "B"; EvFinish "A" true 45;
   EvProgress 3 3 "A"; EvDispatch "C"; EvStart "C" 45; EvFinish "C" true 55;
   EvReturn [Models.mkEncoderResult 0 "/tmp/a.mp4" true None;
             Models.mkEncoderResult 0 "/tmp/b.mp4" true None;
             Models.mkEncoderResult 0 "/tmp/a.mp4" true None]].
Proof. vm_compute. reflexivity. Qed.

Example a_twice_fails_events :
  (outcome (start_of sequence abc 0) a_twice_fails).2 =
  [EvDispatch "A"; EvDispatch "A"; EvStart "A" 10; EvFinish "A" true 20;
   EvProgress 1 3 "A"; EvDispatch "B"; EvStart "B" 30; EvStart "A" 32;
   EvFinish "B" true 40; EvProgress 2 3 "B"; EvFinish "A" false 45;
   EvProgress 3 3 "A"; EvBlocked "C";
   EvReturn [Models.mkEncoderResult 0 "/tmp/a.mp4" true None;
             Models.mkEncoderResult 0 "/tmp/b.mp4" true None;
             Models.mkEncoderResult 0 "/tmp/a.mp4" false (Some "exit status 1"%string)]].
Proof. vm_compute. reflexivity. Qed.

(** C1.  The recorded times do not always follow the dependency order.  On
    the graph of the sequence test A is dispatched twice; B is started at 30,
    after the first run of A has ended at 20 (so far as the claim says), but
    the second run of A ends at 45 and its end time replaces the first.  When
    [Execute] returns, A is completed with end time 45 and B, which depends
    on A, has start time 30: the end time recorded for A does not precede
    the start time recorded for B. *)
Theorem dependency_end_time_after_start :
  pristine sequence /\
  Execute_begin sequence abc abc 0 = Some (Ok (start_of sequence abc 0)) /\
  is_Some (run (start_of sequence abc 0) a_twice_late) /\
  returned (outcome (start_of sequence abc 0) a_twice_late).1 = true /\
  exists tA tB,
    tasks (orch (outcome (start_of sequence abc 0) a_twice_late).1) !! "A" = Some tA /\
    tasks (orch (outcome (start_of sequence abc 0) a_twice_late).1) !! "B" = Some tB /\
    "A" ∈ Dependencies tB /\
    Status tA = TaskCompleted /\ Status tB = TaskCompleted /\
    EndTime tA = 45 /\ StartTime tB = 30 /\ StartTime tB < EndTime tA.
Proof.
  split; [exact pristine_sequence|]. split; [exact sequence_begin|].
  split; [exact a_twice_late_runs|]. split; [vm_compute; reflexivity|].
  exists (mkTask "A" (Command.mkCommand "/tmp/a.mp4") [] ResourceCPU TaskCompleted None
            (Some (Models.mkEncoderResult 0 "/tmp/a.mp4" true None)) 32 45),
         (mkTask "B" (Command.mkCommand "/tmp/b.mp4") ["A"] ResourceCPU TaskCompleted None
            (Some (Models.mkEncoderResult 0 "/tmp/b.mp4" true None)) 30 40).
  split; [vm_compute; reflexivity|]. split; [vm_compute; reflexivity|].
  split; [apply list_elem_of_here|]. simpl. split_and!; try reflexivity.
Qed.

(** C4.  A failed task does not always take its dependents down.  On the
    graph of the sequence test A is dispatched twice; its first run succeeds
    and B, which depends on A, is started at 30 and completes at 40; the
    second run of A returns an error at 45.  When [Execute] returns, A is
    failed with that error, while the command of B has been executed and B
    is completed, not failed for its dependency.  (C, not yet started, is
    failed for the failure of A.) *)
Theorem dependent_runs_though_dependency_failed :
  pristine sequence /\
  Execute_begin sequence abc abc 0 = Some (Ok (start_of sequence abc 0)) /\
  is_Some (run (start_of sequence abc 0) a_twice_fails) /\
  returned (outcome (start_of sequence abc 0) a_twice_fails).1 = true /\
  tc (edge (tasks sequence)) "B" "A" /\
  EvFinish "A" false 45 ∈ (outcome (start_of sequence abc 0) a_twice_fails).2 /\
  EvStart "B" 30 ∈ (outcome (start_of sequence abc 0) a_twice_fails).2 /\
  exists tA tB,
    tasks (orch (outcome (start_of sequence abc 0) a_twice_fails).1) !! "A" = Some tA /\
    tasks (orch (outcome (start_of sequence abc 0) a_twice_fails).1) !! "B" = Some tB /\
    Status tA = TaskFailed /\ Error tA = Some "exit status 1"%string /\
    Status tB = TaskCompleted /\ Error tB = None /\
    Result tB = Some (Models.mkEncoderResult 0 "/tmp/b.mp4" true None).
Proof.
  split; [exact pristine_sequence|]. split; [exact sequence_begin|].
  split; [exact a_twice_fails_runs|]. split; [vm_compute; reflexivity|].
  split.
  { apply tc_once. exists (new_task "B" "/tmp/b.mp4" ["A"]).
    split; [vm_compute; reflexivity | apply list_elem_of_here]. }
  rewrite a_twice_fails_events.
  split; [set_solver|]. split; [set_solver|].
  exists (mkTask "A" (Command.mkCommand "/tmp/a.mp4") [] ResourceCPU TaskFailed
            (Some "exit status 1"%string)
            (Some (Models.mkEncoderResult 0 "/tmp/a.mp4" false (Some "exit status 1"%string)))
            32 45),
         (mkTask "B" (Command.mkCommand "/tmp/b.mp4") ["A"] ResourceCPU TaskCompleted None
            (Some (Models.mkEncoderResult 0 "/tmp/b.mp4" true None)) 30 40).
  split; [vm_compute; reflexivity|]. split; [vm_compute; reflexivity|].
  split_and!; reflexivity.
Qed.

End Scenarios.

(** * Constructors of the models package *)

Module ConstructorsSpec.
Import Models Constructors.

(** [EncoderResult.Validate] accepts exactly the consistent results: a
    successful one has no error and an output path that is not blank, a
    failed one has an error and a blank output path. *)
Lemma EncoderResult_Validate_consistent (er : EncoderResult) :
  EncoderResult_Validate er = None <->
  if Success er then Error er = None /\ blank (OutputPath er) = false
  else Error er <> None /\ blank (OutputPath er) = true.
Proof.
  unfold EncoderResult_Validate.
  destruct (Success er), (Error er) as [e|], (blank (OutputPath er)); simpl;
    split; try discriminate; try (intros [H1 H2]; congruence); auto.
Qed.

(** X1.  What the two constructors return always passes [Validate].
    [NewEncoderResultSuccess] returns a result exactly when the output path
    is not blank; [NewEncoderResultFailure] refuses a nil error and otherwise
    returns a failed result with an empty output path. *)
Theorem constructors_return_valid_results (chunkID : Z) (outputPath : string)
  (encError : option error) :
  (forall r, NewEncoderResultSuccess chunkID outputPath = Ok r ->
     r = mkEncoderResult chunkID outputPath true None /\
     EncoderResult_Validate r = None) /\
  (is_ok (NewEncoderResultSuccess chunkID outputPath) = negb (blank outputPath)) /\
  (forall r, NewEncoderResultFailure chunkID encError = Ok r ->
     exists e, encError = Some e /\
       r = mkEncoderResult chunkID EmptyString false (Some e) /\
       EncoderResult_Validate r = None) /\
  (is_ok (NewEncoderResultFailure chunkID encError) = bool_decide (encError <> None)).
Proof.
  split_and!.
  - unfold NewEncoderResultSuccess. intros r.
    destruct (EncoderResult_Validate _) eqn:E; [discriminate|].
    intros [= <-]. split; [reflexivity | exact E].
  - unfold NewEncoderResultSuccess, EncoderResult_Validate. simpl.
    destruct (blank outputPath); reflexivity.
  - unfold NewEncoderResultFailure. intros r. destruct encError as [e|]; [|discriminate].
    intros [= <-]. exists e. split_and!; reflexivity.
  - destruct encError; reflexivity.
Qed.

End ConstructorsSpec.

(** * chunker.go: [ValidateChunks], and what [CreateChunks] returns *)

Module PlanValidation.
Import Models Chunker ChunkerValidate TimeutilSpec ChunkerSpec.

(** What each loop establishes. *)
Lemma check_each_none (chunks : list Chunk) : forall i,
  check_each i chunks = None <-> Forall (fun ch => Chunk_Validate ch = None) chunks.
Proof.
  induction chunks as [|ch chunks IH]; intros i; simpl.
  - split; [constructor | reflexivity].
  - destruct (Chunk_Validate ch) eqn:E.
    + split; [discriminate|]. intros H. apply Forall_cons in H as [H _]. congruence.
    + rewrite IH. split; [now constructor | intros H; now apply Forall_cons in H as [_ H]].
Qed.

Lemma check_source_none (src : string) (chunks : list Chunk) : forall i,
  check_source src i chunks = None <-> Forall (fun ch => SourcePath ch = src) chunks.
Proof.
  induction chunks as [|ch chunks IH]; intros i; simpl.
  - split; [constructor | reflexivity].
  - destruct (String.eqb_spec (SourcePath ch) src) as [He|Hne]; simpl.
    + rewrite IH. split; [now constructor | intros H; now apply Forall_cons in H as [_ H]].
    + split; [discriminate|]. intros H. apply Forall_cons in H as [H _]. contradiction.
Qed.

Lemma check_ids_none (chunks : list Chunk) : forall i,
  check_ids i chunks = None <->
  forall (k : nat) ch, chunks !! k = Some ch -> ChunkID ch = to_uint (i + Z.of_nat k + 1).
Proof.
  induction chunks as [|ch chunks IH]; intros i; simpl.
  - split; [|reflexivity]. intros _ k ch H. discriminate.
  - destruct (Z.eqb_spec (ChunkID ch) (to_uint (i + 1))) as [He|Hne]; simpl.
    + rewrite IH. split.
      * intros H [|k] x Hk; simpl in Hk.
        -- inversion Hk; subst x. rewrite He. f_equal. lia.
        -- rewrite (H k x Hk). f_equal. lia.
      * intros H k x Hk. rewrite (H (S k) x Hk). f_equal. lia.
    + split; [discriminate|]. intros H. exfalso. apply Hne.
      rewrite (H 0%nat ch eq_refl). f_equal. lia.
Qed.

Lemma check_adjacent_cons (i : Z) (cur next : Chunk) (rest : list Chunk) :
  check_adjacent i (cur :: next :: rest) =
  if Fmt.Qltb (StartTime next) (EndTime cur) then Some (ErrOverlap i)
  else if Fmt.Qltb (EndTime cur + 1) (StartTime next) then Some (ErrGap i)
  else check_adjacent (i + 1) (next :: rest).
Proof. reflexivity. Qed.

Lemma check_adjacent_none (chunks : list Chunk) : forall i,
  check_adjacent i chunks = None <->
  forall (k : nat) cur next,
    chunks !! k = Some cur -> chunks !! S k = Some next ->
    (EndTime cur <= StartTime next <= EndTime cur + 1)%Q.
Proof.
  induction chunks as [|cur chunks IH]; intros i.
  - simpl. split; [|reflexivity]. intros _ k x y H. discriminate.
  - destruct chunks as [|next rest].
    + simpl. split; [|reflexivity]. intros _ [|k] x y H1 H2; discriminate.
    + rewrite check_adjacent_cons.
      destruct (Fmt.Qltb (StartTime next) (EndTime cur)) eqn:E1.
      { apply Qltb_lt in E1. split; [discriminate|]. intros H.
        specialize (H 0%nat cur next eq_refl eq_refl). lra. }
      apply Qltb_ge in E1.
      destruct (Fmt.Qltb (EndTime cur + 1) (StartTime next)) eqn:E2.
      { apply Qltb_lt in E2. split; [discriminate|]. intros H.
        specialize (H 0%nat cur next eq_refl eq_refl). lra. }
      apply Qltb_ge in E2. rewrite IH. split.
      * intros H [|k] x y H1 H2.
        -- simpl in H1, H2. inversion H1; inversion H2; subst. lra.
        -- apply (H k x y); assumption.
      * intros H k x y H1 H2. apply (H (S k) x y); assumption.
Qed.

(** The plan [createFixedDurationChunks] returns, when it returns one. *)
Lemma fixed_plan_inv (c : Chunker) (D : Q) (chunks : list Chunk) :
  1 <= chunkDuration c -> (0 < D)%Q ->
  createFixedDurationChunks c D = Ok chunks ->
  blank (sourcePath c) = false /\
  chunks = map (fun k => fixed_chunk c D (Z.of_nat k))
               (seq 0 (Z.to_nat (Qceiling (D / inject_Z (chunkDuration c))))).
Proof.
  intros HW HD Hrun. unfold createFixedDurationChunks in Hrun.
  destruct (Qle_bool D 0) eqn:E; [apply Qle_bool_iff in E; lra|].
  rewrite (chunkCount_ceiling c D HW HD) in Hrun.
  pose proof (N_pos c D HW HD) as HN.
  destruct (blank (sourcePath c)) eqn:Hb.
  - exfalso. destruct (Z.to_nat (Qceiling (D / inject_Z (chunkDuration c)))) eqn:En; [lia|].
    cbn [fixed_loop] in Hrun. unfold Chunk_Validate in Hrun.
    cbn [SourcePath] in Hrun. rewrite Hb in Hrun. discriminate.
  - split; [reflexivity|].
    rewrite (fixed_loop_spec c D HW Hb) in Hrun by lia.
    inversion Hrun. simpl. apply map_ext. intros k. f_equal.
Qed.

Lemma lookup_map_seq {A : Type} (f : nat -> A) (n k : nat) (x : A) :
  map f (seq 0 n) !! k = Some x -> (k < n)%nat /\ x = f k.
Proof.
  intros H. change (map f (seq 0 n)) with (f <$> seq 0 n) in H.
  apply list_lookup_fmap_Some in H as (j & -> & Hj).
  apply lookup_seq in Hj as [-> Hlt]. auto.
Qed.

(** X4.  Every plan of [createFixedDurationChunks] (for a width of at least
    one second and a duration within the exact range of float64) passes
    [ValidateChunks]: consecutive chunks meet exactly, the ids count from 1. *)
Theorem fixed_plan_passes_ValidateChunks (c : Chunker) (D : Q) (chunks : list Chunk) :
  1 <= chunkDuration c -> (0 < D)%Q -> (D <= inject_Z (2 ^ 53))%Q ->
  createFixedDurationChunks c D = Ok chunks ->
  ValidateChunks chunks = None.
Proof.
  intros HW HD _ Hrun.
  destruct (fixed_plan_inv c D chunks HW HD Hrun) as [Hb Hch].
  pose proof (N_pos c D HW HD) as HN.
  set (N := Qceiling (D / inject_Z (chunkDuration c))) in *.
  assert (Hin : forall k x, chunks !! k = Some x ->
    0 <= Z.of_nat k < N /\ x = fixed_chunk c D (Z.of_nat k)).
  { intros k x Hk. rewrite Hch in Hk.
    apply lookup_map_seq in Hk as [Hlt ->]. split; [lia | reflexivity]. }
  assert (A : check_each 0 chunks = None).
  { apply check_each_none, Forall_lookup. intros k x Hk.
    destruct (Hin k x Hk) as [Hr ->]. now apply fixed_chunk_valid. }
  assert (B : check_source (sourcePath c) 0 chunks = None).
  { apply check_source_none, Forall_lookup. intros k x Hk.
    destruct (Hin k x Hk) as [_ ->]. reflexivity. }
  assert (C : check_ids 0 chunks = None).
  { apply check_ids_none. intros k x Hk. destruct (Hin k x Hk) as [_ ->]. reflexivity. }
  assert (E : check_adjacent 0 chunks = None).
  { apply check_adjacent_none. intros k x y Hx Hy.
    destruct (Hin k x Hx) as [_ ->]. destruct (Hin (S k) y Hy) as [Hr ->].
    pose proof (start_before_D c D HW (Z.of_nat (S k)) Hr) as [_ Hlt].
    unfold fixed_chunk. cbn [EndTime StartTime].
    replace (inject_Z (Z.of_nat (S k))) with (inject_Z (Z.of_nat k) + 1)%Q in *
      by (rewrite Nat2Z.inj_succ; unfold Z.succ; now rewrite inject_Z_plus).
    destruct (Fmt.Qltb D _) eqn:Hq.
    - apply Qltb_lt in Hq. lra.
    - lra. }
  unfold ValidateChunks.
  destruct chunks as [|first rest].
  { exfalso. apply (f_equal (@length Chunk)) in Hch.
    rewrite length_map, length_seq in Hch. simpl in Hch. lia. }
  rewrite A.
  destruct (Hin 0%nat first eq_refl) as [_ Hfirst].
  rewrite Hfirst at 1. cbn [fixed_chunk SourcePath]. rewrite B, C. exact E.
Qed.

Lemma fixed_plan_passes_ValidateChunks_witness :
  ValidateChunks
    (match createFixedDurationChunks (mkChunker "movie.mp4" 5 false) (61 # 2) with
     | Ok chunks => chunks
     | Err _ => []
     end) = None.
Proof.
  apply (fixed_plan_passes_ValidateChunks (mkChunker "movie.mp4" 5 false) (61 # 2)).
  - simpl. lia.
  - reflexivity.
  - vm_compute. discriminate.
  - vm_compute. reflexivity.
Defined.

(** What the chapter loop appends when every entry is good. *)
Lemma chapters_loop_exact (scan : string -> option Q) (c : Chunker)
  (chs : list ChapterInfo) : forall (i : Z) (acc : list Chunk),
  forallb (chapter_ok scan c) chs = true ->
  exists new,
    chapters_loop scan c i chs acc = Ok (acc ++ new) /\
    Forall2 (fun ch x =>
               scan (ChStartTime ch) = Some (StartTime x) /\
               scan (ChEndTime ch) = Some (EndTime x) /\
               SourcePath x = sourcePath c /\ Chunk_Validate x = None) chs new /\
    forall (k : nat) x, new !! k = Some x -> ChunkID x = to_uint (i + Z.of_nat k + 1).
Proof.
  induction chs as [|ch chs IH]; intros i acc Hall.
  - exists []. simpl. rewrite app_nil_r. split_and!; [reflexivity | constructor |].
    intros k x Hk. discriminate.
  - cbn [forallb] in Hall. apply andb_true_iff in Hall as [Hok Hrest].
    unfold chapter_ok in Hok. cbn [chapters_loop].
    destruct (scan (ChStartTime ch)) as [st|] eqn:Est; [|discriminate].
    destruct (scan (ChEndTime ch)) as [en|] eqn:Een; [|discriminate].
    rewrite (Chunk_Validate_id (to_uint (i + 1)) 0).
    destruct (Chunk_Validate (mkChunk 0 st en (sourcePath c))) eqn:E; [discriminate|].
    destruct (IH (i + 1) (acc ++ [mkChunk (to_uint (i + 1)) st en (sourcePath c)]) Hrest)
      as (new & Hrun & Hall2 & Hid).
    exists (mkChunk (to_uint (i + 1)) st en (sourcePath c) :: new).
    rewrite Hrun, <- app_assoc. split_and!; [reflexivity | |].
    + constructor; [|exact Hall2]. rewrite Est, Een. split_and!; try reflexivity.
      now rewrite (Chunk_Validate_id _ 0).
    + intros [|k] x Hk.
      * inversion Hk. simpl. f_equal. lia.
      * simpl in Hk. rewrite (Hid k x Hk). f_equal. lia.
Qed.

Lemma createChunksFromChapters_inv (scan : string -> option Q) (c : Chunker)
  (mi : MediaInfo) (chunks : list Chunk) :
  createChunksFromChapters scan c mi = Ok chunks ->
  GetChapters mi <> [] /\
  Forall2 (fun ch x =>
             scan (ChStartTime ch) = Some (StartTime x) /\
             scan (ChEndTime ch) = Some (EndTime x) /\
             SourcePath x = sourcePath c /\ Chunk_Validate x = None)
          (GetChapters mi) chunks /\
  forall (k : nat) x, chunks !! k = Some x -> ChunkID x = to_uint (Z.of_nat k + 1).
Proof.
  unfold createChunksFromChapters. intros Hrun.
  destruct (GetChapters mi) as [|ch chs] eqn:Ech; [discriminate|].
  cbn [length Nat.eqb] in Hrun.
  destruct (forallb (chapter_ok scan c) (ch :: chs)) eqn:Hall.
  - destruct (chapters_loop_exact scan c _ 0 [] Hall) as (new & Hrun' & H2 & Hid).
    rewrite Hrun' in Hrun. inversion Hrun; subst chunks. simpl.
    split_and!; [discriminate | exact H2 | exact Hid].
  - destruct (chapters_loop_err scan c _ 0 [] Hall) as [e He]. congruence.
Qed.

(** X5.  A plan returned by [CreateChunks] is never empty or invalid: the
    source path is not blank, the width lies in 1..86400, the probe gave a
    positive duration, every chunk passes [Validate] and carries the source
    path, and the chunk at index [k] has id [k+1]. *)
Theorem CreateChunks_returns_valid_plan (scan : string -> option Q) (c : Chunker)
  (mediaInfo : option MediaInfo) (chunks : list Chunk) :
  (forall mi D, mediaInfo = Some mi -> GetDuration mi = Ok D ->
     (D <= inject_Z (2 ^ 53))%Q) ->
  CreateChunks scan c mediaInfo = Ok chunks ->
  blank (sourcePath c) = false /\
  MinChunkDuration <= chunkDuration c <= MaxChunkDuration /\
  (exists mi D, mediaInfo = Some mi /\ GetDuration mi = Ok D /\ (0 < D)%Q) /\
  chunks <> [] /\
  Forall (fun ch => Chunk_Validate ch = None /\ SourcePath ch = sourcePath c) chunks /\
  forall (k : nat) ch, chunks !! k = Some ch -> ChunkID ch = to_uint (Z.of_nat k + 1).
Proof.
  intros _ Hrun. unfold CreateChunks in Hrun.
  destruct (String.eqb (sourcePath c) EmptyString); [discriminate|].
  destruct (Z.ltb_spec (chunkDuration c) MinChunkDuration) as [|Hmin]; [discriminate|].
  destruct (Z.ltb_spec MaxChunkDuration (chunkDuration c)) as [|Hmax]; [discriminate|].
  destruct mediaInfo as [mi|]; [|discriminate].
  destruct (GetDuration mi) as [D|e] eqn:Hdur; [|discriminate].
  destruct (Qle_bool D 0) eqn:HD0; [discriminate|].
  assert (HD : (0 < D)%Q).
  { apply Qnot_le_lt. intros H. apply Qle_bool_iff in H. congruence. }
  assert (HW : 1 <= chunkDuration c) by (unfold MinChunkDuration in Hmin; lia).
  assert (Hfixed : createFixedDurationChunks c D = Ok chunks ->
    blank (sourcePath c) = false /\ chunks <> [] /\
    Forall (fun ch => Chunk_Validate ch = None /\ SourcePath ch = sourcePath c) chunks /\
    forall (k : nat) ch, chunks !! k = Some ch -> ChunkID ch = to_uint (Z.of_nat k + 1)).
  { intros Hf. destruct (fixed_plan_inv c D chunks HW HD Hf) as [Hb Hch].
    pose proof (N_pos c D HW HD) as HN.
    assert (Hin : forall k x, chunks !! k = Some x ->
      0 <= Z.of_nat k < Qceiling (D / inject_Z (chunkDuration c)) /\
      x = fixed_chunk c D (Z.of_nat k)).
    { intros k x Hk. rewrite Hch in Hk.
      apply lookup_map_seq in Hk as [Hlt ->]. split; [lia | reflexivity]. }
    split_and!; [exact Hb | | |].
    - intros ->. apply (f_equal (@length Chunk)) in Hch.
      rewrite length_map, length_seq in Hch. simpl in Hch. lia.
    - apply Forall_lookup. intros k x Hk. destruct (Hin k x Hk) as [Hr ->].
      split; [now apply fixed_chunk_valid | reflexivity].
    - intros k x Hk. destruct (Hin k x Hk) as [_ ->]. reflexivity. }
  assert (Hgoal : forall P : Prop, (blank (sourcePath c) = false /\ P) ->
    blank (sourcePath c) = false /\
    MinChunkDuration <= chunkDuration c <= MaxChunkDuration /\
    (exists mi' D', Some mi = Some mi' /\ GetDuration mi' = Ok D' /\ (0 < D')%Q) /\ P).
  { intros P [H1 H2]. split_and!; try assumption; try lia. exists mi, D. auto. }
  apply Hgoal.
  destruct (useChapters c && HasChapters mi); [|now apply Hfixed].
  destruct (createChunksFromChapters scan c mi) as [chs|e] eqn:Ech; [|now apply Hfixed].
  destruct (0 <? length chs)%nat eqn:Elen; [|now apply Hfixed].
  inversion Hrun; subst chs.
  destruct (createChunksFromChapters_inv scan c mi chunks Ech) as (Hne & H2 & Hid).
  assert (Hall : Forall (fun ch => Chunk_Validate ch = None /\ SourcePath ch = sourcePath c)
                        chunks).
  { clear -H2. induction H2 as [|ch x chs xs (_ & _ & Hs & Hv) _ IH]; constructor; auto. }
  destruct chunks as [|x xs]; [discriminate|].
  split_and!; [|discriminate | exact Hall | exact Hid].
  apply Forall_cons in Hall as [[Hv Hs] _]. unfold Chunk_Validate in Hv.
  rewrite Hs in Hv. destruct (blank (sourcePath c)); [discriminate | reflexivity].
Qed.

Definition two_chapters : MediaInfo :=
  mkMediaInfo (Ok 20%Q) true [mkChapterInfo "0" "8.5"; mkChapterInfo "8.5" "20"].

Lemma CreateChunks_returns_valid_plan_witness :
  exists chunks,
    CreateChunks scan_decimal (NewChunker "movie.mp4") (Some two_chapters) = Ok chunks /\
    chunks <> [] /\
    forall (k : nat) ch, chunks !! k = Some ch -> ChunkID ch = to_uint (Z.of_nat k + 1).
Proof.
  exists [mkChunk 1 0 (85 # 10) "movie.mp4"; mkChunk 2 (85 # 10) 20 "movie.mp4"].
  assert (H : CreateChunks scan_decimal (NewChunker "movie.mp4") (Some two_chapters)
              = Ok [mkChunk 1 0 (85 # 10) "movie.mp4"; mkChunk 2 (85 # 10) 20 "movie.mp4"]).
  { vm_compute. reflexivity. }
  split; [exact H|].
  assert (Hd : forall mi D, Some two_chapters = Some mi -> GetDuration mi = Ok D ->
                 (D <= inject_Z (2 ^ 53))%Q).
  { intros mi D [= <-] [= <-]. vm_compute. discriminate. }
  destruct (CreateChunks_returns_valid_plan scan_decimal (NewChunker "movie.mp4")
              (Some two_chapters) _ Hd H) as (_ & _ & _ & Hne & _ & Hid).
  split; assumption.
Defined.

(** X6.  With chapters in use, a probe that has chapters, and every chapter
    entry parsing to a valid time range, [CreateChunks] returns one chunk per
    chapter, in order: chunk [k] has id [k+1], the scanned start and end
    times of chapter [k], and the source path of the planner. *)
Theorem CreateChunks_follows_chapters (scan : string -> option Q) (c : Chunker)
  (mi : MediaInfo) (D : Q) :
  sourcePath c <> EmptyString ->
  MinChunkDuration <= chunkDuration c <= MaxChunkDuration ->
  GetDuration mi = Ok D -> (0 < D)%Q ->
  useChapters c = true -> HasChapters mi = true -> GetChapters mi <> [] ->
  forallb (chapter_ok scan c) (GetChapters mi) = true ->
  exists chunks,
    CreateChunks scan c (Some mi) = Ok chunks /\
    Forall2 (fun ch x =>
               scan (ChStartTime ch) = Some (StartTime x) /\
               scan (ChEndTime ch) = Some (EndTime x) /\
               SourcePath x = sourcePath c /\ Chunk_Validate x = None)
            (GetChapters mi) chunks /\
    forall (k : nat) x, chunks !! k = Some x -> ChunkID x = to_uint (Z.of_nat k + 1).
Proof.
  intros Hsrc [Hmin Hmax] Hdur HD Huse Hhas Hne Hall.
  destruct (chapters_loop_exact scan c (GetChapters mi) 0 [] Hall) as (new & Hrun & H2 & Hid).
  exists new. split_and!; [|exact H2 | exact Hid].
  unfold CreateChunks.
  destruct (String.eqb_spec (sourcePath c) EmptyString); [contradiction|].
  destruct (Z.ltb_spec (chunkDuration c) MinChunkDuration); [lia|].
  destruct (Z.ltb_spec MaxChunkDuration (chunkDuration c)); [lia|].
  rewrite Hdur.
  destruct (Qle_bool D 0) eqn:E; [apply Qle_bool_iff in E; lra|].
  rewrite Huse, Hhas. cbn [andb]. unfold createChunksFromChapters.
  destruct (GetChapters mi) as [|ch chs] eqn:Ech; [contradiction|].
  cbn [length Nat.eqb]. rewrite Hrun. simpl.
  apply Forall2_length in H2. destruct new; [discriminate | reflexivity].
Qed.

Lemma CreateChunks_follows_chapters_witness :
  exists chunks,
    CreateChunks scan_decimal (NewChunker "movie.mp4") (Some two_chapters) = Ok chunks /\
    length chunks = 2%nat.
Proof.
  destruct (CreateChunks_follows_chapters scan_decimal (NewChunker "movie.mp4")
              two_chapters 20) as (chunks & Hrun & H2 & _).
  - discriminate.
  - change (1 <= 600 <= 86400). lia.
  - reflexivity.
  - reflexivity.
  - reflexivity.
  - reflexivity.
  - discriminate.
  - vm_compute. reflexivity.
  - exists chunks. split; [exact Hrun|]. apply Forall2_length in H2. now rewrite <- H2.
Defined.

End PlanValidation.

(** * chunk.go and [ValidateChunks] over every float64 *)

Module Float64Spec.
Import Fmt Float64 ChunkerValidate FloatModels TimeutilSpec.

(** *** The comparisons *)

Lemma ge_false (x y : float64) :
  ge x y = false <-> is_nan x = true \/ is_nan y = true \/ lt x y = true.
Proof.
  unfold ge. rewrite orb_false_iff.
  destruct x as [a| | |], y as [b| | |]; simpl;
    try (split; [intros [? ?]|intros [?|[?|?]]]; auto; discriminate); try tauto.
  split.
  - intros [H1 H2]. right. right. apply Qltb_lt. apply Qltb_ge in H1.
    apply Qle_lteq in H1 as [H1|H1]; [exact H1|].
    exfalso. assert (Qeq_bool a b = true) by (apply Qeq_bool_iff; exact H1). congruence.
  - intros [H|[H|H]]; try discriminate. apply Qltb_lt in H. split.
    + apply Qltb_ge. lra.
    + destruct (Qeq_bool a b) eqn:E; [|reflexivity]. apply Qeq_bool_iff in E. lra.
Qed.

Lemma gt_false_numbers (a b : Q) : gt (Num a) (Num b) = false <-> (a <= b)%Q.
Proof. unfold gt, lt. apply Qltb_ge. Qed.

(** On chunks whose times are numbers both embeddings of [Validate] agree. *)
Lemma Chunk_Validate_of_numbers (c : Models.Chunk) :
  Chunk_Validate (of_numbers c) = Models.Chunk_Validate c.
Proof.
  unfold Chunk_Validate, Models.Chunk_Validate, of_numbers. simpl.
  destruct (blank (Models.SourcePath c)); [reflexivity|].
  destruct (Qeq_bool (Models.EndTime c) 0); [reflexivity|].
  unfold ge, lt, eq.
  destruct (Qle_bool (Models.EndTime c) (Models.StartTime c)) eqn:E.
  - apply Qle_bool_iff in E.
    destruct (Qltb (Models.EndTime c) (Models.StartTime c)) eqn:E1; [reflexivity|].
    apply Qltb_ge in E1.
    assert (H : Qeq_bool (Models.StartTime c) (Models.EndTime c) = true).
    { apply Qeq_bool_iff. lra. }
    now rewrite H.
  - assert (Hlt : (Models.StartTime c < Models.EndTime c)%Q).
    { apply Qnot_le_lt. intros H. apply Qle_bool_iff in H. congruence. }
    destruct (Qltb (Models.EndTime c) (Models.StartTime c)) eqn:E1.
    { apply Qltb_lt in E1. lra. }
    destruct (Qeq_bool (Models.StartTime c) (Models.EndTime c)) eqn:E2; [|reflexivity].
    apply Qeq_bool_iff in E2. lra.
Qed.

(** *** Rounding *)

Lemma two_pow_pos (z : Z) : (0 < 2 ^ z)%Q.
Proof. apply Qpower_0_lt. reflexivity. Qed.

Lemma two_pow_succ (z : Z) : (2 ^ (z + 1) == 2 * 2 ^ z)%Q.
Proof. rewrite Qpower_plus by discriminate. change (2 ^ 1)%Q with 2%Q. ring. Qed.

Lemma two_pow_of_Z (n : Z) : 0 <= n -> (inject_Z (2 ^ n) == 2 ^ n)%Q.
Proof. intros Hn. now rewrite Zpower_Qpower. Qed.

(** The exponent found by [floor_log2] is the right one. *)
Lemma floor_log2_spec (a : Q) :
  (0 < a)%Q -> (2 ^ floor_log2 a <= a < 2 ^ (floor_log2 a + 1))%Q.
Proof.
  intros Ha. unfold floor_log2.
  destruct a as [n d]. cbn [Qnum Qden].
  assert (Hn : 0 < n) by (unfold Qlt in Ha; simpl in Ha; lia).
  set (ln := Z.log2 n). set (ld := Z.log2 (Z.pos d)).
  pose proof (Z.log2_nonneg n) as Hln0. pose proof (Z.log2_nonneg (Z.pos d)) as Hld0.
  fold ln in Hln0. fold ld in Hld0.
  destruct (Z.log2_spec n Hn) as [Hn1 Hn2]. fold ln in Hn1, Hn2.
  destruct (Z.log2_spec (Z.pos d) ltac:(lia)) as [Hd1 Hd2]. fold ld in Hd1, Hd2.
  set (N := inject_Z n). set (D := inject_Z (Z.pos d)).
  assert (HaD : (n # d == N / D)%Q) by apply Qmake_Qdiv.
  assert (HD0 : (0 < D)%Q).
  { unfold D. change 0%Q with (inject_Z 0). rewrite <- Zlt_Qlt. lia. }
  assert (Hmul : ((n # d) * D == N)%Q).
  { rewrite HaD. field. lra. }
  assert (HN1 : (2 ^ ln <= N)%Q).
  { rewrite <- two_pow_of_Z by lia. unfold N. now rewrite <- Zle_Qle. }
  assert (HN2 : (N < 2 * 2 ^ ln)%Q).
  { rewrite <- two_pow_succ, <- two_pow_of_Z by lia. unfold N. now rewrite <- Zlt_Qlt. }
  assert (HD1 : (2 ^ ld <= D)%Q).
  { rewrite <- two_pow_of_Z by lia. unfold D. now rewrite <- Zle_Qle. }
  assert (HD2 : (D < 2 * 2 ^ ld)%Q).
  { rewrite <- two_pow_succ, <- two_pow_of_Z by lia. unfold D. now rewrite <- Zlt_Qlt. }
  set (k := ln - ld).
  assert (Hk : (2 ^ k * 2 ^ ld == 2 ^ ln)%Q).
  { rewrite <- Qpower_plus by discriminate. now replace (k + ld) with ln by (unfold k; lia). }
  pose proof (two_pow_pos k) as Hk0. pose proof (two_pow_pos ld) as Hld.
  pose proof (two_pow_pos ln) as Hlnp.
  destruct (Qltb (n # d) (2 ^ k)) eqn:E.
  - apply Qltb_lt in E. replace (k - 1 + 1) with k by lia. split; [|exact E].
    assert (H2 : (2 * 2 ^ (k - 1) == 2 ^ k)%Q).
    { rewrite <- two_pow_succ. now replace (k - 1 + 1) with k by lia. }
    pose proof (two_pow_pos (k - 1)) as Hk1.
    set (a := (n # d)%Q) in *. set (X := (2 ^ k)%Q) in *. set (Y := (2 ^ (k - 1))%Q) in *.
    set (P := (2 ^ ld)%Q) in *. set (L := (2 ^ ln)%Q) in *.
    destruct (Qlt_le_dec a Y) as [Hc|Hc]; [exfalso|exact Hc].
    assert (a * D < a * (2 * P))%Q by (apply Qmult_lt_l; assumption).
    assert (a * (2 * P) < Y * (2 * P))%Q by (apply Qmult_lt_r; lra).
    assert (Y * (2 * P) == X * P)%Q by (rewrite <- H2; ring).
    lra.
  - apply Qltb_ge in E. split; [exact E|].
    rewrite two_pow_succ.
    set (a := (n # d)%Q) in *. set (X := (2 ^ k)%Q) in *.
    set (P := (2 ^ ld)%Q) in *. set (L := (2 ^ ln)%Q) in *.
    destruct (Qlt_le_dec a (2 * X)) as [Hc|Hc]; [exact Hc|exfalso].
    assert ((2 * X) * D <= a * D)%Q by (apply Qmult_le_r; assumption).
    assert ((2 * X) * P <= (2 * X) * D)%Q by (apply Qmult_le_l; lra).
    assert ((2 * X) * P == 2 * L)%Q by (rewrite <- Hk; ring).
    lra.
Qed.

(** [round] returns a number within half a unit in the last place: the
    error is at most the fraction 2^-53 of the magnitude, or 2^-1075 for the
    smallest magnitudes. *)
Lemma round_error (q r : Q) :
  round q = Num r ->
  (Qabs (r - q) <= Qabs q * (1 # 2 ^ 53) + (1 # 2 ^ 1075))%Q.
Proof.
  unfold round. destruct (Qeq_bool q 0) eqn:E0.
  { apply Qeq_bool_iff in E0. intros [= <-].
    assert (H : (0 - q == 0)%Q) by (rewrite E0; ring).
    rewrite H, E0. vm_compute. discriminate. }
  assert (Hq : ~ (q == 0)%Q).
  { intros H. apply Qeq_bool_iff in H. congruence. }
  set (a := Qabs q). set (e := Z.max (floor_log2 a) (-1022)).
  set (ulp := (2 ^ (e - 52))%Q).
  set (m := round_half_even (a / ulp)).
  destruct (Qle_bool (2 ^ 1024) (inject_Z m * ulp)); [destruct (Qltb q 0); discriminate|].
  assert (Ha : (0 < a)%Q).
  { unfold a. apply Qabs_case; intros H; destruct (Qlt_le_dec 0 q) as [|H'];
      try lra; destruct (Qlt_le_dec q 0) as [|H'']; try lra; exfalso; apply Hq; lra. }
  pose proof (two_pow_pos (e - 52)) as Hulp. fold ulp in Hulp.
  assert (Hx : (0 <= a / ulp)%Q).
  { apply Qle_shift_div_l; [exact Hulp | lra]. }
  destruct (round_half_even_spec _ Hx) as ((Hlo & Hhi) & _ & _). fold m in Hlo, Hhi.
  assert (Hau : (a / ulp * ulp == a)%Q) by (field; lra).
  assert (Hlo' : (inject_Z m * ulp - ulp * (1 # 2) <= a)%Q).
  { assert (H1 : ((inject_Z m - (1 # 2)) * ulp <= a / ulp * ulp)%Q)
      by (apply Qmult_le_r; assumption).
    rewrite Hau in H1. lra. }
  assert (Hhi' : (a <= inject_Z m * ulp + ulp * (1 # 2))%Q).
  { assert (H1 : (a / ulp * ulp <= (inject_Z m + (1 # 2)) * ulp)%Q)
      by (apply Qmult_le_r; assumption).
    rewrite Hau in H1. lra. }
  assert (Hhalf : (ulp * (1 # 2) <= a * (1 # 2 ^ 53) + (1 # 2 ^ 1075))%Q).
  { assert (H53 : (2 ^ (-53) == 1 # 2 ^ 53)%Q) by (vm_compute; reflexivity).
    assert (Hu : (ulp * (1 # 2) == 2 ^ e * (1 # 2 ^ 53))%Q).
    { unfold ulp. replace (e - 52) with (e + -53 + 1) by lia.
      rewrite two_pow_succ, Qpower_plus by discriminate. rewrite H53. ring. }
    rewrite Hu. destruct (Z.max_spec (floor_log2 a) (-1022)) as [[_ He]|[_ He]];
      fold e in He; rewrite He.
    - assert (H : (2 ^ (-1022) * (1 # 2 ^ 53) == 1 # 2 ^ 1075)%Q) by (vm_compute; reflexivity).
      rewrite H. assert (0 <= a * (1 # 2 ^ 53))%Q by (apply Qmult_le_0_compat; [lra | discriminate]).
      lra.
    - destruct (floor_log2_spec a Ha) as [Hfl _].
      assert (2 ^ floor_log2 a * (1 # 2 ^ 53) <= a * (1 # 2 ^ 53))%Q
        by (apply Qmult_le_r; [reflexivity | exact Hfl]).
      assert (0 <= 1 # 2 ^ 1075)%Q by discriminate. lra. }
  destruct (Qltb q 0) eqn:Es; intros [= <-]; apply Qabs_Qle_condition; fold a.
  - apply Qltb_lt in Es. assert (Haq : (a == - q)%Q) by (unfold a; apply Qabs_neg; lra).
    split; lra.
  - apply Qltb_ge in Es. assert (Haq : (a == q)%Q) by (unfold a; apply Qabs_pos; lra).
    split; lra.
Qed.

(** No infinity comes out of a sum below 2^1023. *)
Lemma round_below_overflow (q : Q) :
  (q < 2 ^ 1023)%Q -> round q <> PosInf.
Proof.
  intros Hq. unfold round. destruct (Qeq_bool q 0) eqn:E0; [discriminate|].
  assert (Hq0 : ~ (q == 0)%Q).
  { intros H. apply Qeq_bool_iff in H. congruence. }
  set (a := Qabs q). set (e := Z.max (floor_log2 a) (-1022)).
  set (ulp := (2 ^ (e - 52))%Q).
  set (m := round_half_even (a / ulp)).
  destruct (Qle_bool (2 ^ 1024) (inject_Z m * ulp)) eqn:Eo; [|discriminate].
  destruct (Qltb q 0) eqn:Es; [discriminate|]. exfalso.
  apply Qltb_ge in Es. apply Qle_bool_iff in Eo.
  assert (Haq : (a == q)%Q) by (unfold a; apply Qabs_pos; lra).
  assert (Ha : (0 < a)%Q).
  { destruct (Qlt_le_dec 0 q) as [|H']; [lra|]. exfalso. apply Hq0. lra. }
  pose proof (two_pow_pos (e - 52)) as Hulp. fold ulp in Hulp.
  assert (Hx : (0 <= a / ulp)%Q).
  { apply Qle_shift_div_l; [exact Hulp | lra]. }
  destruct (round_half_even_spec _ Hx) as ((Hlo & _) & _ & _). fold m in Hlo.
  assert (Hau : (a / ulp * ulp == a)%Q) by (field; lra).
  assert (Hlo' : (inject_Z m * ulp - ulp * (1 # 2) <= a)%Q).
  { assert (H1 : ((inject_Z m - (1 # 2)) * ulp <= a / ulp * ulp)%Q)
      by (apply Qmult_le_r; assumption).
    rewrite Hau in H1. lra. }
  assert (He : e <= 1022).
  { destruct (floor_log2_spec a Ha) as [Hfl _].
    assert (Hlt : (2 ^ floor_log2 a < 2 ^ 1023)%Q) by lra.
    apply Qpower_lt_compat_l_inv in Hlt; [|reflexivity]. unfold e. lia. }
  assert (Hu : (ulp <= 2 ^ 970)%Q).
  { unfold ulp. apply Qpower_le_compat_l; [lia | discriminate]. }
  assert (Hbig : (2 ^ 1023 + 2 ^ 970 * (1 # 2) < 2 ^ 1024)%Q) by (vm_compute; reflexivity).
  lra.
Qed.

Lemma round_not_nan (q : Q) : round q <> NaN.
Proof.
  unfold round. destruct (Qeq_bool q 0); [discriminate|].
  destruct (Qle_bool _ _); destruct (Qltb q 0); discriminate.
Qed.

(** What the two comparisons of the gap check mean for numbers. *)
Lemma adjacent_numbers (e s : Q) :
  (e + 1 < 2 ^ 1023)%Q ->
  gt (Num e) (Num s) = false ->
  gt (Num s) (add (Num e) (Num 1)) = false ->
  (e <= s)%Q /\ (s <= e + 1 + Qabs (e + 1) * (1 # 2 ^ 53) + (1 # 2 ^ 1075))%Q.
Proof.
  intros Hb H1 H2. apply gt_false_numbers in H1. split; [exact H1|].
  cbn [add] in H2. pose proof (round_below_overflow _ Hb) as Hinf.
  destruct (round (e + 1)) as [r| | |] eqn:Er.
  - apply gt_false_numbers in H2. pose proof (round_error _ _ Er) as Herr.
    apply Qabs_Qle_condition in Herr. lra.
  - contradiction.
  - discriminate.
  - exfalso. exact (round_not_nan _ Er).
Qed.

(** *** [NewChunk] *)

(** X2.  [NewChunk] returns a chunk exactly when the source path is not
    blank, the end time is not zero, and the comparison [start >= end] is
    false: the start time is below the end time, or one of the two is NaN.
    So negative and infinite times pass, and so does NaN.  The chunk carries
    the arguments unchanged, and a blank path is reported before a bad time
    range.  For times that are numbers the condition is [end <> 0] and
    [start < end]. *)
Theorem NewChunk_accepts (id : Z) (startTime endTime : float64) (source : string) :
  (forall c, NewChunk id startTime endTime source = Ok c <->
     c = mkChunk id startTime endTime source /\
     blank source = false /\ eq endTime (Num 0) = false /\
     (is_nan startTime = true \/ is_nan endTime = true \/ lt startTime endTime = true)) /\
  (blank source = true ->
     NewChunk id startTime endTime source = Err Models.ErrSourcePathEmpty) /\
  (forall s e : Q, startTime = Num s -> endTime = Num e ->
     (is_ok (NewChunk id startTime endTime source) = true <->
      blank source = false /\ ~ (e == 0)%Q /\ (s < e)%Q)).
Proof.
  unfold NewChunk, Chunk_Validate. cbn [SourcePath StartTime EndTime]. split_and!.
  - intros c. destruct (blank source).
    { split; [discriminate | intros (_ & H & _); discriminate]. }
    destruct (eq endTime (Num 0)).
    { split; [discriminate | intros (_ & _ & H & _); discriminate]. }
    pose proof (ge_false startTime endTime) as Hge.
    destruct (ge startTime endTime).
    { split; [discriminate|]. intros (_ & _ & _ & H). apply Hge in H. discriminate. }
    split.
    + intros [= <-]. split_and!; try reflexivity. now apply Hge.
    + intros (-> & _). reflexivity.
  - intros ->. reflexivity.
  - intros s e -> ->. destruct (blank source).
    { simpl. split; [discriminate | intros (H & _); discriminate]. }
    unfold eq, ge, lt.
    destruct (Qeq_bool e 0) eqn:E0.
    { apply Qeq_bool_iff in E0. simpl. split; [discriminate | intros (_ & H & _); tauto]. }
    assert (He : ~ (e == 0)%Q).
    { intros H. apply Qeq_bool_iff in H. congruence. }
    destruct (Qltb e s) eqn:E1.
    { apply Qltb_lt in E1. simpl. split; [discriminate | intros (_ & _ & H); lra]. }
    apply Qltb_ge in E1. simpl.
    destruct (Qeq_bool s e) eqn:E2.
    { apply Qeq_bool_iff in E2. simpl. split; [discriminate | intros (_ & _ & H); lra]. }
    simpl. split; [|reflexivity]. intros _. split_and!; [reflexivity | exact He |].
    apply Qle_lteq in E1 as [H|H]; [exact H|].
    exfalso. assert (Qeq_bool s e = true) by (apply Qeq_bool_iff; exact H). congruence.
Qed.

(** A start time that is NaN is accepted. *)
Example NewChunk_accepts_NaN :
  NewChunk 1 NaN (Num 30) "movie.mp4" = Ok (mkChunk 1 NaN (Num 30) "movie.mp4").
Proof. reflexivity. Qed.

(** *** [ValidateChunks] *)

Lemma check_each_float (chunks : list Chunk) : forall i,
  check_each i chunks = None <-> Forall (fun ch => Chunk_Validate ch = None) chunks.
Proof.
  induction chunks as [|ch chunks IH]; intros i; simpl.
  - split; [constructor | reflexivity].
  - destruct (Chunk_Validate ch) eqn:E.
    + split; [discriminate|]. intros H. apply Forall_cons in H as [H _]. congruence.
    + rewrite IH. split; [now constructor | intros H; now apply Forall_cons in H as [_ H]].
Qed.

Lemma check_source_float (src : string) (chunks : list Chunk) : forall i,
  check_source src i chunks = None <-> Forall (fun ch => SourcePath ch = src) chunks.
Proof.
  induction chunks as [|ch chunks IH]; intros i; simpl.
  - split; [constructor | reflexivity].
  - destruct (String.eqb_spec (SourcePath ch) src) as [He|Hne]; simpl.
    + rewrite IH. split; [now constructor | intros H; now apply Forall_cons in H as [_ H]].
    + split; [discriminate|]. intros H. apply Forall_cons in H as [H _]. contradiction.
Qed.

Lemma check_ids_float (chunks : list Chunk) : forall i,
  check_ids i chunks = None <->
  forall (k : nat) ch, chunks !! k = Some ch -> ChunkID ch = to_uint (i + Z.of_nat k + 1).
Proof.
  induction chunks as [|ch chunks IH]; intros i; simpl.
  - split; [|reflexivity]. intros _ k ch H. discriminate.
  - destruct (Z.eqb_spec (ChunkID ch) (to_uint (i + 1))) as [He|Hne]; simpl.
    + rewrite IH. split.
      * intros H [|k] x Hk; simpl in Hk.
        -- inversion Hk; subst x. rewrite He. f_equal. lia.
        -- rewrite (H k x Hk). f_equal. lia.
      * intros H k x Hk. rewrite (H (S k) x Hk). f_equal. lia.
    + split; [discriminate|]. intros H. exfalso. apply Hne.
      rewrite (H 0%nat ch eq_refl). f_equal. lia.
Qed.

Lemma check_adjacent_step (i : Z) (cur next : Chunk) (rest : list Chunk) :
  check_adjacent i (cur :: next :: rest) =
  if gt (EndTime cur) (StartTime next) then Some (ErrOverlap i)
  else if gt (StartTime next) (add (EndTime cur) (Num 1)) then Some (ErrGap i)
  else check_adjacent (i + 1) (next :: rest).
Proof. reflexivity. Qed.

Lemma check_adjacent_float (chunks : list Chunk) : forall i,
  check_adjacent i chunks = None <->
  forall (k : nat) cur next,
    chunks !! k = Some cur -> chunks !! S k = Some next ->
    gt (EndTime cur) (StartTime next) = false /\
    gt (StartTime next) (add (EndTime cur) (Num 1)) = false.
Proof.
  induction chunks as [|cur chunks IH]; intros i.
  - simpl. split; [|reflexivity]. intros _ k x y H. discriminate.
  - destruct chunks as [|next rest].
    + simpl. split; [|reflexivity]. intros _ [|k] x y H1 H2; discriminate.
    + rewrite check_adjacent_step.
      destruct (gt (EndTime cur) (StartTime next)) eqn:E1.
      { split; [discriminate|]. intros H.
        destruct (H 0%nat cur next eq_refl eq_refl) as [H1 _]. congruence. }
      destruct (gt (StartTime next) (add (EndTime cur) (Num 1))) eqn:E2.
      { split; [discriminate|]. intros H.
        destruct (H 0%nat cur next eq_refl eq_refl) as [_ H2]. congruence. }
      rewrite IH. split.
      * intros H [|k] x y H1 H2.
        -- simpl in H1, H2. inversion H1; inversion H2; subst. auto.
        -- apply (H k x y); assumption.
      * intros H k x y H1 H2. apply (H (S k) x y); assumption.
Qed.

(** X3.  [ValidateChunks] accepts exactly the non-empty lists in which every
    chunk passes [Validate] and has the source path of the first one, the
    chunk at index [k] has id [k+1], and for each chunk and the next neither
    comparison of the last loop is true: not [currentEnd > nextStart] and not
    [nextStart > currentEnd+1], the sum being a float64 sum.  A time that is
    NaN makes both comparisons false.  For times that are numbers (the end
    time below 2^1023) each chunk starts no earlier than the previous one
    ends, and at most one second later up to the rounding of the sum, which
    is at most the fraction 2^-53 of it (2^-1075 for the smallest sums). *)
Theorem ValidateChunks_accepts (chunks : list Chunk) :
  (ValidateChunks chunks = None <->
   exists first, head chunks = Some first /\
     Forall (fun ch => Chunk_Validate ch = None) chunks /\
     Forall (fun ch => SourcePath ch = SourcePath first) chunks /\
     (forall (k : nat) ch, chunks !! k = Some ch -> ChunkID ch = to_uint (Z.of_nat k + 1)) /\
     (forall (k : nat) cur next,
        chunks !! k = Some cur -> chunks !! S k = Some next ->
        gt (EndTime cur) (StartTime next) = false /\
        gt (StartTime next) (add (EndTime cur) (Num 1)) = false)) /\
  (ValidateChunks chunks = None ->
   forall (k : nat) cur next e s,
     chunks !! k = Some cur -> chunks !! S k = Some next ->
     EndTime cur = Num e -> StartTime next = Num s -> (e + 1 < 2 ^ 1023)%Q ->
     (e <= s)%Q /\ (s <= e + 1 + Qabs (e + 1) * (1 # 2 ^ 53) + (1 # 2 ^ 1075))%Q).
Proof.
  assert (Hiff : ValidateChunks chunks = None <->
    exists first, head chunks = Some first /\
      Forall (fun ch => Chunk_Validate ch = None) chunks /\
      Forall (fun ch => SourcePath ch = SourcePath first) chunks /\
      (forall (k : nat) ch, chunks !! k = Some ch -> ChunkID ch = to_uint (Z.of_nat k + 1)) /\
      (forall (k : nat) cur next,
         chunks !! k = Some cur -> chunks !! S k = Some next ->
         gt (EndTime cur) (StartTime next) = false /\
         gt (StartTime next) (add (EndTime cur) (Num 1)) = false)).
  { unfold ValidateChunks. destruct chunks as [|first rest].
    { split; [discriminate|]. intros (f & H & _). discriminate. }
    set (l := first :: rest).
    pose proof (check_each_float l 0) as H1.
    pose proof (check_source_float (SourcePath first) l 0) as H2.
    pose proof (check_ids_float l 0) as H3.
    pose proof (check_adjacent_float l 0) as H4.
    split.
    - intros H. exists first.
      destruct (check_each 0 l); [discriminate|].
      destruct (check_source (SourcePath first) 0 l); [discriminate|].
      destruct (check_ids 0 l); [discriminate|].
      split_and!; [reflexivity | now apply H1 | now apply H2 | now apply H3 | now apply H4].
    - intros (f & Hf & A & B & C & D). inversion Hf; subst f.
      rewrite (proj2 H1 A), (proj2 H2 B), (proj2 H3 C). now apply H4. }
  split; [exact Hiff|].
  intros Hok k cur next e s Hcur Hnext He Hs Hb.
  apply Hiff in Hok as (first & _ & _ & _ & _ & Hadj).
  destruct (Hadj k cur next Hcur Hnext) as [H1 H2]. rewrite He, Hs in H1, H2.
  now apply adjacent_numbers.
Qed.

(** The float64 nearest to 0.1 and to 1.1. *)
Definition f64_0_1 : Q := 3602879701896397 # 2 ^ 55.
Definition f64_1_1 : Q := 4953959590107546 # 2 ^ 52.

(** The sum 0.1 + 1 is rounded to 1.1 itself, so a chunk ending at 0.1 may be
    followed by one starting at 1.1, although 1.1 exceeds the exact sum; and
    a NaN between two chunks is no gap and no overlap. *)
Example ValidateChunks_rounds_the_sum :
  ValidateChunks [mkChunk 1 (Num 0) (Num f64_0_1) "movie.mp4";
                  mkChunk 2 (Num f64_1_1) (Num 2) "movie.mp4"] = None /\
  (f64_0_1 + 1 < f64_1_1)%Q /\
  ValidateChunks [mkChunk 1 (Num 0) NaN "movie.mp4";
                  mkChunk 2 NaN (Num 2) "movie.mp4"] = None.
Proof. split_and!; vm_compute; reflexivity. Qed.

End Float64Spec.

(** * concatenator.go: partition, lenient mode, [ConcatenateSimple]; the
      driver's [concatenateFiles] *)

Module ConcatenatorMore.
Import Models Concatenator ConcatenatorWrappers ConcatenatorSpec.

Section WithEnv.
Variable env : Env.

Lemma partition_perm (results : list EncoderResult) :
  filter (fun r => usable env r = true) results ++
  filter (fun r => usable env r = false) results ≡ₚ results.
Proof.
  induction results as [|r l IH]; [reflexivity|].
  rewrite !filter_cons. destruct (usable env r) eqn:E.
  - rewrite decide_True by reflexivity. rewrite decide_False by discriminate.
    simpl. now rewrite IH.
  - rewrite decide_False by discriminate. rewrite decide_True by reflexivity.
    rewrite <- Permutation_middle. now rewrite IH.
Qed.

(** X7.  [validateResults] refuses an empty input and otherwise splits it:
    the successful part holds exactly the results that succeeded, have a
    non-empty output path and whose file exists, in ascending order of chunk
    id; the failed part holds the others in their input order; nothing is
    lost or duplicated. *)
Theorem validateResults_partitions (results : list EncoderResult) :
  (results = [] -> validateResults env results = Err ErrNoResults) /\
  (results <> [] ->
   exists successful failed,
     validateResults env results = Ok (successful, failed) /\
     successful ≡ₚ filter (fun r => usable env r = true) results /\
     StronglySorted id_le successful /\
     failed = filter (fun r => usable env r = false) results /\
     successful ++ failed ≡ₚ results).
Proof.
  split.
  - intros ->. reflexivity.
  - intros Hne. unfold validateResults.
    destruct results as [|r l]; [contradiction|].
    cbn [length Nat.eqb]. eexists _, _. split; [reflexivity|].
    split_and!.
    + apply sort_by_id_perm.
    + apply sort_by_id_sorted.
    + reflexivity.
    + rewrite sort_by_id_perm. apply partition_perm.
Qed.

(** X8.  In lenient mode failed results and gaps in the ids never make
    [Concatenate] fail: the final output is produced exactly when at least
    one result is usable and the list file and the ffmpeg run over the usable
    results, in ascending order of chunk id, succeed.  The list [sorted]
    handed to these steps holds the usable results in ascending order of id;
    nothing is said on the order of results with equal ids. *)
Theorem lenient_concatenate (results : list EncoderResult) (out : string) :
  exists sorted,
    sorted ≡ₚ filter (fun r => usable env r = true) results /\
    StronglySorted id_le sorted /\
    (snd (Concatenate env (NewConcatenator false) results out) = None <->
     Exists (fun r => usable env r = true) results /\ join env sorted out = None).
Proof.
  exists (sort_by_id (filter (fun r => usable env r = true) results)).
  split; [apply sort_by_id_perm|]. split; [apply sort_by_id_sorted|].
  unfold Concatenate, validateResults. cbn [strictMode NewConcatenator].
  destruct (length results =? 0)%nat eqn:El0.
  { apply Nat.eqb_eq in El0. destruct results; [|discriminate].
    simpl. split; [discriminate|]. intros [H _]. inversion H. }
  lazy beta iota. rewrite andb_false_r. clear El0.
  set (good := filter (fun r => usable env r = true) results).
  assert (Hex : good <> [] <-> Exists (fun r => usable env r = true) results).
  { subst good. rewrite Exists_exists. split.
    - intros Hne. destruct (filter _ results) as [|x l] eqn:E; [contradiction|].
      assert (Hx : x ∈ filter (fun r => usable env r = true) results) by (rewrite E; left).
      apply list_elem_of_filter in Hx as [Hu Hx]. exists x. split; assumption.
    - intros (x & Hx & Hu) Hnil.
      assert (Hin : x ∈ filter (fun r => usable env r = true) results).
      { apply list_elem_of_filter. split; assumption. }
      rewrite Hnil in Hin. inversion Hin. }
  rewrite <- Hex.
  destruct (length (sort_by_id good) =? 0)%nat eqn:El.
  - apply Nat.eqb_eq in El. rewrite sort_by_id_length in El.
    destruct good; [|discriminate]. simpl. split; [discriminate | intros [H _]; congruence].
  - apply Nat.eqb_neq in El. rewrite sort_by_id_length in El.
    assert (Hne : good <> []) by (intros H; rewrite H in El; contradiction).
    destruct (checkForGaps (sort_by_id good)); simpl; tauto.
Qed.

(** The error of [Concatenate] on a non-empty input, step by step. *)
Lemma Concatenate_snd (c : Concatenator) (results : list EncoderResult) (out : string) :
  results <> [] ->
  let good := sort_by_id (filter (fun r => usable env r = true) results) in
  let failed := filter (fun r => usable env r = false) results in
  snd (Concatenate env c results out) =
  if (0 <? length failed)%nat && strictMode c then Some (ErrStrictFailed (length failed))
  else if (length good =? 0)%nat then Some ErrNoSuccessful
  else match checkForGaps good with
       | Some e => if strictMode c then Some (ErrStrict e) else join env good out
       | None => join env good out
       end.
Proof.
  intros Hne good failed. unfold Concatenate, validateResults.
  destruct results as [|r l]; [contradiction|].
  cbn [length Nat.eqb]. fold good failed.
  destruct ((0 <? length failed)%nat && strictMode c); [reflexivity|].
  destruct (length good =? 0)%nat; [reflexivity|].
  destruct (checkForGaps good); [|reflexivity].
  destruct (strictMode c); reflexivity.
Qed.

(** Lists numbered consecutively from [a], as both wrappers build them. *)
Definition numbered_from (a : Z) (l : list EncoderResult) : Prop :=
  forall (k : nat) r, l !! k = Some r -> RChunkID r = a + Z.of_nat k.

Definition increasing (l : list EncoderResult) : Prop :=
  StronglySorted (fun x y => RChunkID x < RChunkID y) l.

Lemma numbered_from_cons (a : Z) (x : EncoderResult) (l : list EncoderResult) :
  numbered_from a (x :: l) -> RChunkID x = a /\ numbered_from (a + 1) l.
Proof.
  intros H. split.
  - rewrite (H 0%nat x eq_refl). simpl. lia.
  - intros k r Hk. rewrite (H (S k) r Hk). lia.
Qed.

Lemma numbered_increasing (l : list EncoderResult) : forall a,
  numbered_from a l -> increasing l.
Proof.
  induction l as [|x l IH]; intros a H; [constructor|].
  destruct (numbered_from_cons a x l H) as [Hx Hl].
  constructor; [exact (IH _ Hl)|].
  apply Forall_lookup. intros k r Hk. rewrite (Hl k r Hk). lia.
Qed.

Lemma numbered_no_missing (l : list EncoderResult) (a : Z) :
  numbered_from a l -> no_missing_between (map RChunkID l).
Proof.
  intros H x y z Hx Hy Hz.
  change (map RChunkID l) with (RChunkID <$> l) in *.
  apply list_elem_of_fmap in Hx as (rx & -> & Hx).
  apply list_elem_of_fmap in Hy as (ry & -> & Hy).
  apply list_elem_of_lookup in Hx as (i & Hi). apply list_elem_of_lookup in Hy as (j & Hj).
  rewrite (H i rx Hi), (H j ry Hj) in Hz.
  assert (Hlt : (Z.to_nat (z - a) < length l)%nat).
  { apply lookup_lt_Some in Hj. lia. }
  apply lookup_lt_is_Some in Hlt as [r Hr].
  apply list_elem_of_fmap. exists r. split; [|now apply list_elem_of_lookup_2 in Hr].
  rewrite (H _ r Hr). lia.
Qed.

Lemma numbered_range (l : list EncoderResult) (a : Z) :
  numbered_from a l -> 0 <= a -> a + Z.of_nat (length l) <= 2 ^ 64 - 1 ->
  Forall (fun r => 0 <= RChunkID r < 2 ^ 64 - 1) l.
Proof.
  intros H Ha Hlen. apply Forall_lookup. intros k r Hk.
  rewrite (H k r Hk). apply lookup_lt_Some in Hk. lia.
Qed.

Lemma insert_by_id_last (r : EncoderResult) (l : list EncoderResult) :
  Forall (fun x => RChunkID x < RChunkID r) l -> insert_by_id r l = l ++ [r].
Proof.
  induction 1 as [|x l Hx _ IH]; [reflexivity|].
  simpl. destruct (Z.ltb_spec (RChunkID r) (RChunkID x)); [lia|]. now rewrite IH.
Qed.

Lemma increasing_app_below (l1 l2 : list EncoderResult) (r : EncoderResult) :
  increasing (l1 ++ r :: l2) -> Forall (fun x => RChunkID x < RChunkID r) l1.
Proof.
  induction l1 as [|x l1 IH]; intros H; [constructor|].
  simpl in H. apply StronglySorted_inv in H as [Hs Hx].
  constructor; [|now apply IH].
  rewrite Forall_forall in Hx. apply Hx. apply elem_of_app. right. left.
Qed.

Lemma sort_from_increasing (l : list EncoderResult) : forall sorted,
  increasing (sorted ++ l) ->
  fold_left (fun sorted r => insert_by_id r sorted) l sorted = sorted ++ l.
Proof.
  induction l as [|x l IH]; intros sorted H; simpl.
  - now rewrite app_nil_r.
  - rewrite (insert_by_id_last x sorted (increasing_app_below _ _ _ H)).
    rewrite IH; rewrite <- app_assoc; [reflexivity | exact H].
Qed.

Lemma sort_by_id_increasing (l : list EncoderResult) : increasing l -> sort_by_id l = l.
Proof. intros H. apply (sort_from_increasing l [] H). Qed.

Lemma filter_increasing (P : EncoderResult -> Prop) `{forall r, Decision (P r)}
  (l : list EncoderResult) : increasing l -> increasing (filter P l).
Proof.
  induction 1 as [|x l Hs IH Hx]; [constructor|].
  rewrite filter_cons. destruct (decide (P x)); [|exact IH].
  constructor; [exact IH|].
  apply Forall_forall. intros y Hy. apply list_elem_of_filter in Hy as [_ Hy].
  rewrite Forall_forall in Hx. now apply Hx.
Qed.

(** Strict concatenation of a consecutively numbered list. *)
Lemma strict_numbered (results : list EncoderResult) (out : string) (a : Z) :
  numbered_from a results -> 0 <= a -> a + Z.of_nat (length results) <= 2 ^ 64 - 1 ->
  snd (Concatenate env (NewConcatenator true) results out) = None <->
  results <> [] /\ Forall (fun r => usable env r = true) results /\
  join env results out = None.
Proof.
  intros Hnum Ha Hlen.
  destruct results as [|r0 l] eqn:Eres.
  { simpl. split; [discriminate | intros [H _]; congruence]. }
  rewrite <- Eres in *. assert (Hne : results <> []) by (rewrite Eres; discriminate).
  clear Eres r0 l.
  rewrite (Concatenate_snd _ results out Hne). cbn [strictMode NewConcatenator].
  rewrite andb_true_r.
  pose proof (failed_nil env results) as Hfail.
  destruct (filter (fun r => usable env r = false) results) as [|f fs] eqn:Ef.
  - pose proof (proj1 Hfail eq_refl) as Hall.
    rewrite (successful_all env results Hall).
    rewrite (sort_by_id_increasing results (numbered_increasing _ _ Hnum)).
    cbn [length Nat.ltb Nat.leb].
    destruct (length results =? 0)%nat eqn:El.
    { apply Nat.eqb_eq in El. destruct results; [contradiction | discriminate]. }
    assert (Hgap : checkForGaps results = None).
    { rewrite <- (sort_by_id_increasing results (numbered_increasing _ _ Hnum)).
      apply checkForGaps_none.
      - now apply (numbered_range results a).
      - now apply (numbered_no_missing results a). }
    rewrite Hgap. tauto.
  - cbn [length Nat.ltb Nat.leb]. split; [discriminate|].
    intros (_ & Hall & _). apply Hfail in Hall. discriminate.
Qed.

Lemma simple_results_lookup (paths : list string) : forall (i : Z) (k : nat) r,
  simple_results i paths !! k = Some r <->
  exists p, paths !! k = Some p /\
            r = mkEncoderResult (to_uint (i + Z.of_nat k + 1)) p true None.
Proof.
  induction paths as [|p paths IH]; intros i k r.
  - simpl. split; [discriminate | intros (q & H & _); discriminate].
  - destruct k as [|k]; simpl.
    + rewrite Z.add_0_r. split.
      * intros [= <-]. eauto.
      * intros (q & [= <-] & ->). reflexivity.
    + rewrite IH. replace (i + 1 + Z.of_nat k + 1) with (i + Z.pos (Pos.of_succ_nat k) + 1) by lia.
      reflexivity.
Qed.

Lemma simple_results_length (paths : list string) : forall i,
  length (simple_results i paths) = length paths.
Proof. induction paths as [|p paths IH]; intros i; simpl; [|rewrite IH]; reflexivity. Qed.

Lemma file_results_lookup (files : list string) : forall (i : Z) (k : nat) r,
  file_results env i files !! k = Some r <->
  exists f, files !! k = Some f /\
            r = mkEncoderResult (to_uint (i + Z.of_nat k)) f (stat env f) None.
Proof.
  induction files as [|f files IH]; intros i k r.
  - simpl. split; [discriminate | intros (q & H & _); discriminate].
  - destruct k as [|k]; simpl.
    + rewrite Z.add_0_r. split.
      * intros [= <-]. eauto.
      * intros (q & [= <-] & ->). reflexivity.
    + rewrite IH. replace (i + 1 + Z.of_nat k) with (i + Z.pos (Pos.of_succ_nat k)) by lia.
      reflexivity.
Qed.

Lemma file_results_length (files : list string) : forall i,
  length (file_results env i files) = length files.
Proof. induction files as [|f files IH]; intros i; simpl; [|rewrite IH]; reflexivity. Qed.

(** A path that [validateResults] will accept. *)
Definition present (p : string) : Prop := p <> EmptyString /\ stat env p = true.

Lemma usable_simple (i : Z) (p : string) :
  usable env (mkEncoderResult i p true None) = true <-> present p.
Proof.
  unfold usable, present. simpl. destruct (String.eqb_spec p EmptyString) as [->|Hne]; simpl.
  - split; [discriminate | intros [H _]; contradiction].
  - tauto.
Qed.

Lemma usable_file (i : Z) (f : string) :
  usable env (mkEncoderResult i f (stat env f) None) = true <-> present f.
Proof.
  unfold usable, present. simpl. destruct (String.eqb_spec f EmptyString) as [->|Hne]; simpl.
  - rewrite andb_false_r. split; [discriminate | intros [H _]; contradiction].
  - destruct (stat env f); simpl; split; auto; intros [_ H]; discriminate.
Qed.

(** X9.  [ConcatenateSimple] numbers the paths 1, 2, .. in the order given,
    so the strict gap check cannot fail and the order is kept: the output is
    produced exactly when there is at least one path, every path is
    non-empty and names an existing file, and the list file and the ffmpeg
    run over the paths in the order given succeed. *)
Theorem ConcatenateSimple_succeeds_iff (paths : list string) (out : string) :
  Z.of_nat (length paths) < 2 ^ 64 - 1 ->
  snd (ConcatenateSimple env paths out) = None <->
  paths <> [] /\ Forall present paths /\
  join env (simple_results 0 paths) out = None.
Proof.
  intros Hlen. unfold ConcatenateSimple.
  assert (Hnum : numbered_from 1 (simple_results 0 paths)).
  { intros k r Hk. apply simple_results_lookup in Hk as (p & Hp & ->). simpl.
    apply lookup_lt_Some in Hp. unfold to_uint. rewrite Z.mod_small; lia. }
  rewrite (strict_numbered _ out 1 Hnum) by (rewrite ?simple_results_length; lia).
  assert (Hall : Forall (fun r => usable env r = true) (simple_results 0 paths) <->
                 Forall present paths).
  { rewrite !Forall_lookup. split.
    - intros H k p Hp.
      apply (usable_simple (to_uint (0 + Z.of_nat k + 1))), (H k).
      apply simple_results_lookup. eauto.
    - intros H k r Hk. apply simple_results_lookup in Hk as (p & Hp & ->).
      apply usable_simple, (H k p Hp). }
  rewrite Hall.
  assert (Hne : simple_results 0 paths <> [] <-> paths <> []).
  { destruct paths; simpl; split; congruence. }
  rewrite Hne. reflexivity.
Qed.

(** X10.  The driver's [concatenateFiles] numbers the files by their index
    and marks as successful those that exist.  In strict mode the output is
    produced exactly when there is a file, every file is present, and the
    join of all of them in the order given succeeds; in lenient mode exactly
    when some file is present and the join of the present files, in the
    order given, succeeds. *)
Theorem concatenateFiles_succeeds_iff (files : list string) (out : string) :
  Z.of_nat (length files) < 2 ^ 64 - 1 ->
  (snd (concatenateFiles env files out true) = None <->
   files <> [] /\ Forall present files /\
   join env (file_results env 0 files) out = None) /\
  (snd (concatenateFiles env files out false) = None <->
   Exists present files /\
   join env (filter (fun r => usable env r = true) (file_results env 0 files)) out = None).
Proof.
  intros Hlen. unfold concatenateFiles.
  assert (Hnum : numbered_from 0 (file_results env 0 files)).
  { intros k r Hk. apply file_results_lookup in Hk as (p & Hp & ->). simpl.
    apply lookup_lt_Some in Hp. unfold to_uint. rewrite Z.mod_small; lia. }
  assert (Hne : file_results env 0 files <> [] <-> files <> []).
  { destruct files; simpl; split; congruence. }
  split.
  - rewrite (strict_numbered _ out 0 Hnum) by (rewrite ?file_results_length; lia).
    assert (Hall : Forall (fun r => usable env r = true) (file_results env 0 files) <->
                   Forall present files).
    { rewrite !Forall_lookup. split.
      - intros H k p Hp.
        apply (usable_file (to_uint (0 + Z.of_nat k))), (H k).
        apply file_results_lookup. eauto.
      - intros H k r Hk. apply file_results_lookup in Hk as (p & Hp & ->).
        apply usable_file, (H k p Hp). }
    rewrite Hall, Hne. reflexivity.
  - destruct files as [|f0 fs] eqn:Ef.
    { simpl. split; [discriminate | intros [H _]; inversion H]. }
    rewrite <- Ef in *. assert (Hfiles : files <> []) by (rewrite Ef; discriminate).
    clear Ef f0 fs.
    rewrite (Concatenate_snd _ _ out (proj2 Hne Hfiles)). cbn [strictMode NewConcatenator].
    rewrite andb_false_r.
    set (good := filter (fun r => usable env r = true) (file_results env 0 files)).
    assert (Hinc : increasing good).
    { apply filter_increasing, (numbered_increasing _ 0 Hnum). }
    rewrite (sort_by_id_increasing good Hinc).
    assert (Hex : good <> [] <-> Exists present files).
    { subst good. rewrite Exists_exists. split.
      - intros Hgood. destruct (filter _ _) as [|x l] eqn:E; [contradiction|].
        assert (Hx : x ∈ filter (fun r => usable env r = true) (file_results env 0 files))
          by (rewrite E; left).
        apply list_elem_of_filter in Hx as [Hu Hx].
        apply list_elem_of_lookup in Hx as (k & Hk).
        apply file_results_lookup in Hk as (p & Hp & ->).
        exists p. split; [now apply list_elem_of_lookup_2 in Hp | now apply usable_file in Hu].
      - intros (p & Hp & Hpres) Hnil.
        apply list_elem_of_lookup in Hp as (k & Hk).
        assert (Hin : mkEncoderResult (to_uint (0 + Z.of_nat k)) p (stat env p) None
                      ∈ filter (fun r => usable env r = true) (file_results env 0 files)).
        { apply list_elem_of_filter. split; [now apply usable_file|].
          apply (list_elem_of_lookup_2 _ k), file_results_lookup. eauto. }
        rewrite Hnil in Hin. inversion Hin. }
    rewrite <- Hex.
    destruct (length good =? 0)%nat eqn:El.
    + apply Nat.eqb_eq in El. destruct good; [|discriminate].
      split; [discriminate | intros [H _]; congruence].
    + apply Nat.eqb_neq in El.
      assert (good <> []) by (intros H; rewrite H in El; contradiction).
      destruct (checkForGaps good); tauto.
Qed.

(** One line of the list file. *)
Definition concat_line (absPath : string) : string :=
  ("file '" ++ escape_quotes absPath ++ "'" ++ newline)%string.

Definition concat_text (absPaths : list string) : string :=
  fold_right String.append EmptyString (map concat_line absPaths).

Lemma string_app_assoc (a b c : string) : ((a ++ b) ++ c = a ++ b ++ c)%string.
Proof.
  induction a as [|x a IH]; [reflexivity|].
  change (String x ((a +:+ b) +:+ c) = String x (a +:+ b +:+ c)). now f_equal.
Qed.

Lemma string_app_nil_r (a : string) : (a ++ EmptyString)%string = a.
Proof.
  induction a as [|x a IH]; [reflexivity|].
  change (String x (a +:+ EmptyString) = String x a). now f_equal.
Qed.

Lemma write_lines_ok (l : list EncoderResult) : forall text text',
  write_lines env l text = Ok text' <->
  exists absPaths,
    Forall2 (fun r p => abs_path env (OutputPath r) = Some p /\
                        write_string env (concat_line p) = true) l absPaths /\
    text' = (text ++ concat_text absPaths)%string.
Proof.
  induction l as [|r l IH]; intros text text'.
  - simpl. split.
    + intros [= <-]. exists []. split; [constructor|]. unfold concat_text. simpl.
      now rewrite string_app_nil_r.
    + intros (ps & H2 & ->). inversion H2; subst. unfold concat_text. simpl.
      now rewrite string_app_nil_r.
  - cbn [write_lines]. destruct (abs_path env (OutputPath r)) as [p|] eqn:Ep.
    + fold (concat_line p).
      destruct (write_string env (concat_line p)) eqn:Ew.
      * rewrite IH. split.
        -- intros (ps & H2 & ->). exists (p :: ps). split; [constructor; auto|].
           unfold concat_text. simpl. now rewrite string_app_assoc.
        -- intros (ps & H2 & ->). inversion H2 as [|? q ? qs [Hq Hw] Hrest]; subst.
           assert (q = p) by congruence. subst q.
           exists qs. split; [exact Hrest|].
           unfold concat_text. simpl. now rewrite string_app_assoc.
      * split; [discriminate|]. intros (ps & H2 & _).
        inversion H2 as [|? q ? qs [Hq Hw] Hrest]; subst.
        assert (q = p) by congruence. subst q. congruence.
    + split; [discriminate|]. intros (ps & H2 & _).
      inversion H2 as [|? q ? qs [Hq Hw] Hrest]; subst. congruence.
Qed.

Lemma abs_paths_unique (l : list EncoderResult) : forall ps qs,
  Forall2 (fun r p => abs_path env (OutputPath r) = Some p /\
                      write_string env (concat_line p) = true) l ps ->
  Forall2 (fun r p => abs_path env (OutputPath r) = Some p /\
                      write_string env (concat_line p) = true) l qs ->
  ps = qs.
Proof.
  induction l as [|r l IH]; intros ps qs Hp Hq.
  - apply Forall2_nil_inv_l in Hp, Hq. congruence.
  - apply Forall2_cons_inv_l in Hp as (p & ps' & [Hp1 _] & Hp2 & ->).
    apply Forall2_cons_inv_l in Hq as (q & qs' & [Hq1 _] & Hq2 & ->).
    f_equal; [congruence | now apply IH].
Qed.

(** X11.  [createConcatFile] succeeds exactly when the temporary file can be
    created and, for every result, the absolute path is found and its line
    written; the text of the list file is then one line
    [file '<escaped absolute path>'] per result, in the order given. *)
Theorem createConcatFile_writes_one_line_each (successful : list EncoderResult)
  (name text : string) :
  createConcatFile env successful = Ok (name, text) <->
  create_temp env = Some name /\
  exists absPaths,
    Forall2 (fun r p => abs_path env (OutputPath r) = Some p /\
                        write_string env (concat_line p) = true) successful absPaths /\
    text = concat_text absPaths.
Proof.
  unfold createConcatFile. destruct (create_temp env) as [n|].
  - destruct (write_lines env successful EmptyString) as [t|e] eqn:E.
    + apply write_lines_ok in E as (ps & H2 & Ht).
      change (t = concat_text ps) in Ht. split.
      * intros [= <- <-]. split; [reflexivity|]. exists ps. auto.
      * intros ([= <-] & qs & H2' & ->). do 2 f_equal. rewrite Ht.
        now rewrite (abs_paths_unique _ _ _ H2 H2').
    + split; [discriminate|]. intros ([= <-] & qs & H2 & ->).
      assert (Hok : write_lines env successful EmptyString = Ok (concat_text qs)).
      { apply write_lines_ok. exists qs. split; [exact H2 | reflexivity]. }
      congruence.
  - split; [discriminate | intros [H _]; discriminate].
Qed.

End WithEnv.

Lemma ConcatenateSimple_succeeds_iff_witness :
  Z.of_nat (length ["/tmp/c1.opus"; "/tmp/c2.opus"]%string) < 2 ^ 64 - 1 /\
  snd (ConcatenateSimple env_all_ok ["/tmp/c1.opus"; "/tmp/c2.opus"]%string "/tmp/out.opus")
    = None.
Proof.
  assert (H : Z.of_nat (length ["/tmp/c1.opus"; "/tmp/c2.opus"]%string) < 2 ^ 64 - 1).
  { simpl. lia. }
  split; [exact H|].
  apply (ConcatenateSimple_succeeds_iff env_all_ok _ "/tmp/out.opus" H).
  split_and!.
  - discriminate.
  - repeat constructor; discriminate.
  - vm_compute. reflexivity.
Defined.

(** A file system in which the second of three chunk files is missing. *)
Definition env_one_missing : Env :=
  mkEnv (fun p => negb (String.eqb p "/tmp/v2.mkv")) (Some "/tmp/concat-1.txt"%string)
        (fun p => Some p) (fun _ => true) (fun _ _ => true) (fun _ => true).

Lemma concatenateFiles_succeeds_iff_witness :
  snd (concatenateFiles env_one_missing ["/tmp/v1.mkv"; "/tmp/v2.mkv"; "/tmp/v3.mkv"]%string
         "/tmp/out.mkv" false) = None /\
  snd (concatenateFiles env_one_missing ["/tmp/v1.mkv"; "/tmp/v2.mkv"; "/tmp/v3.mkv"]%string
         "/tmp/out.mkv" true) <> None.
Proof.
  assert (H : Z.of_nat (length ["/tmp/v1.mkv"; "/tmp/v2.mkv"; "/tmp/v3.mkv"]%string)
              < 2 ^ 64 - 1) by (simpl; lia).
  destruct (concatenateFiles_succeeds_iff env_one_missing _ "/tmp/out.mkv" H)
    as [Hstrict Hlenient].
  split.
  - apply Hlenient. split.
    + apply Exists_cons_hd. split; [discriminate | reflexivity].
    + vm_compute. reflexivity.
  - intros Hnone. apply Hstrict in Hnone as (_ & Hall & _).
    apply Forall_cons in Hall as [_ Hall]. apply Forall_cons in Hall as [[_ Hst] _].
    discriminate.
Defined.

(** Undoing [escape_quotes]: the four characters that stand for a quote are
    turned back into it. *)
Fixpoint unescape_quotes (s : string) : string :=
  match s with
  | EmptyString => EmptyString
  | String a rest =>
    if Ascii.eqb a "'"%char then
      match rest with
      | String _ (String _ (String _ rest')) => String "'" (unescape_quotes rest')
      | _ => String a (unescape_quotes rest)
      end
    else String a (unescape_quotes rest)
  end.

Lemma unescape_escape (s : string) : unescape_quotes (escape_quotes s) = s.
Proof.
  induction s as [|a s IH]; [reflexivity|].
  cbn [escape_quotes]. destruct (Ascii.eqb_spec a "'"%char) as [->|Hne].
  - cbn [unescape_quotes]. rewrite Ascii.eqb_refl. now rewrite IH.
  - cbn [unescape_quotes]. destruct (Ascii.eqb_spec a "'"%char); [contradiction|].
    now rewrite IH.
Qed.

Fixpoint has_quote (s : string) : bool :=
  match s with
  | EmptyString => false
  | String a rest => Ascii.eqb a "'"%char || has_quote rest
  end.

(** X12.  [escape_quotes] loses nothing: different paths give different
    escaped paths; a path without a single quote is left as it is, and each
    single quote adds three characters. *)
Theorem escape_quotes_injective (s1 s2 : string) :
  (escape_quotes s1 = escape_quotes s2 -> s1 = s2) /\
  (has_quote s1 = false -> escape_quotes s1 = s1) /\
  (has_quote s1 = true -> (String.length s1 < String.length (escape_quotes s1))%nat).
Proof.
  split_and!.
  - intros H. rewrite <- (unescape_escape s1), <- (unescape_escape s2). now f_equal.
  - induction s1 as [|a s IH]; [reflexivity|].
    cbn [has_quote escape_quotes]. destruct (Ascii.eqb a "'"%char); [discriminate|].
    simpl. intros H. now rewrite IH.
  - assert (Hle : forall s, (String.length s <= String.length (escape_quotes s))%nat).
    { induction s as [|a s IH]; [simpl; lia|].
      cbn [escape_quotes]. destruct (Ascii.eqb a "'"%char); simpl; lia. }
    induction s1 as [|a s IH]; [discriminate|].
    cbn [has_quote escape_quotes]. destruct (Ascii.eqb a "'"%char); simpl.
    + intros _. pose proof (Hle s). lia.
    + intros H. apply IH in H. lia.
Qed.

(** *** What [checkForGaps] reports *)

Lemma ids_between_elem (from to z : Z) :
  z ∈ ids_between from to <-> from <= z < to.
Proof.
  unfold ids_between. change (map ?f ?l) with (f <$> l).
  rewrite list_elem_of_fmap. split.
  - intros (k & -> & Hk). apply elem_of_seq in Hk. lia.
  - intros Hz. exists (Z.to_nat (z - from)). split; [lia|].
    apply elem_of_seq. lia.
Qed.

(** An integer that lies between two of the ids and is not one of them. *)
Definition missing (ids : list Z) (z : Z) : Prop :=
  (z ∉ ids) /\ exists a b, a ∈ ids /\ b ∈ ids /\ a < z < b.

Lemma collect_gaps_missing (successful : list EncoderResult) (z : Z) :
  StronglySorted id_le successful ->
  Forall (fun r => 0 <= RChunkID r < 2 ^ 64 - 1) successful ->
  z ∈ collect_gaps successful <-> missing (map RChunkID successful) z.
Proof.
  unfold missing.
  induction 1 as [|cur l Hs IH Hcur]; intros Hr.
  - simpl. split; [intros H; inversion H | intros (_ & a & b & Ha & _); inversion Ha].
  - destruct l as [|next l'].
    + simpl. split; [intros H; inversion H|].
      intros (_ & a & b & Ha & Hb & Hz).
      apply list_elem_of_singleton in Ha, Hb. lia.
    + apply Forall_cons in Hr as [Hc Hr]. specialize (IH Hr).
      assert (Hsorted : StronglySorted id_le (next :: l')) by exact Hs.
      assert (Hle : RChunkID cur <= RChunkID next).
      { apply Forall_cons in Hcur as [H _]. exact H. }
      assert (Hmin : forall a, a ∈ map RChunkID (next :: l') -> RChunkID next <= a).
      { apply sorted_head_min, Hsorted. }
      rewrite collect_gaps_cons, elem_of_app.
      assert (Hu : to_uint (RChunkID cur + 1) = RChunkID cur + 1).
      { unfold to_uint. apply Z.mod_small. lia. }
      rewrite Hu.
      assert (Hfirst : z ∈ (if negb (RChunkID next =? RChunkID cur + 1)
                            then ids_between (RChunkID cur + 1) (RChunkID next) else [])
                       <-> RChunkID cur < z < RChunkID next).
      { destruct (Z.eqb_spec (RChunkID next) (RChunkID cur + 1)) as [He|Hne]; simpl.
        - split; [intros H; inversion H | lia].
        - rewrite ids_between_elem. lia. }
      rewrite Hfirst, IH. clear Hfirst IH.
      change (map RChunkID (cur :: next :: l'))
        with (RChunkID cur :: map RChunkID (next :: l')).
      split.
      * intros [Hbetween|(Hnot & a & b & Ha & Hb & Hz)].
        -- split.
           ++ intros Hin. apply elem_of_cons in Hin as [Hin|Hin]; [lia|].
              specialize (Hmin z Hin). lia.
           ++ exists (RChunkID cur), (RChunkID next).
              split; [left | split; [right; left | exact Hbetween]].
        -- split.
           ++ intros Hin. apply elem_of_cons in Hin as [Hin|Hin]; [|contradiction].
              specialize (Hmin a Ha). lia.
           ++ exists a, b. split; [now right | split; [now right | exact Hz]].
      * intros (Hnot & a & b & Ha & Hb & Hz).
        assert (Hcurz : RChunkID cur < z).
        { apply elem_of_cons in Ha as [->|Ha]; [lia|]. specialize (Hmin a Ha). lia. }
        destruct (Z_lt_ge_dec z (RChunkID next)) as [Hlt|Hge]; [left; lia|].
        right. split.
        -- intros Hin. apply Hnot. now right.
        -- assert (Hnz : z <> RChunkID next).
           { intros ->. apply Hnot. right. left. }
           exists (RChunkID next), b. split; [left | split; [|lia]].
           apply elem_of_cons in Hb as [->|Hb]; [lia | exact Hb].
Qed.

(** X13.  On results sorted by chunk id [checkForGaps] reports an error
    exactly when some integer lying between two of the ids is not among
    them, and the ids it lists as missing are exactly those integers. *)
Theorem checkForGaps_reports_missing (successful : list EncoderResult) :
  StronglySorted id_le successful ->
  Forall (fun r => 0 <= RChunkID r < 2 ^ 64 - 1) successful ->
  match checkForGaps successful with
  | None => forall z, ~ missing (map RChunkID successful) z
  | Some (ErrMissingChunks gaps) =>
    gaps <> [] /\ forall z, z ∈ gaps <-> missing (map RChunkID successful) z
  | Some _ => False
  end.
Proof.
  intros Hs Hr. unfold checkForGaps.
  pose proof (fun z => collect_gaps_missing successful z Hs Hr) as Hiff.
  destruct (length successful =? 0)%nat eqn:El.
  - apply Nat.eqb_eq in El. destruct successful; [|discriminate].
    intros z (_ & a & b & Ha & _). inversion Ha.
  - destruct (collect_gaps successful) as [|g gs] eqn:Eg; simpl.
    + intros z Hz. apply Hiff in Hz. inversion Hz.
    + split; [discriminate | exact Hiff].
Qed.

Lemma checkForGaps_reports_missing_witness :
  checkForGaps [mkEncoderResult 1 "/tmp/c1.opus" true None;
                mkEncoderResult 4 "/tmp/c4.opus" true None]
    = Some (ErrMissingChunks [2; 3]) /\
  forall z, z ∈ [2; 3] <-> missing [1; 4] z.
Proof.
  assert (H : checkForGaps [mkEncoderResult 1 "/tmp/c1.opus" true None;
                            mkEncoderResult 4 "/tmp/c4.opus" true None]
              = Some (ErrMissingChunks [2; 3])) by (vm_compute; reflexivity).
  split; [exact H|].
  pose proof (checkForGaps_reports_missing
                [mkEncoderResult 1 "/tmp/c1.opus" true None;
                 mkEncoderResult 4 "/tmp/c4.opus" true None]) as Hspec.
  rewrite H in Hspec. apply Hspec.
  - repeat constructor; unfold id_le; simpl; lia.
  - repeat constructor; simpl; lia.
Defined.

End ConcatenatorMore.

(** * dag.go: queries and the slot table *)

Module QueriesSpec.
Import Orchestrator OrchestratorQueries.

(** The number of tasks in a given state. *)
Definition in_state (st : TaskStatus) (o : DAGOrchestrator) : Z :=
  Z.of_nat (length (filter (fun t => Status t = st) (map_to_list (tasks o)).*2)).

Lemma foldl_count_task (l : list Task) : forall s,
  let s' := foldl count_task s l in
  total s' = total s /\
  pending s' = pending s + Z.of_nat (length (filter (fun t => Status t = TaskPending) l)) /\
  ready s' = ready s + Z.of_nat (length (filter (fun t => Status t = TaskReady) l)) /\
  running s' = running s + Z.of_nat (length (filter (fun t => Status t = TaskRunning) l)) /\
  completed s' =
    completed s + Z.of_nat (length (filter (fun t => Status t = TaskCompleted) l)) /\
  failed s' = failed s + Z.of_nat (length (filter (fun t => Status t = TaskFailed) l)) /\
  pending s' + ready s' + running s' + completed s' + failed s' =
    pending s + ready s + running s + completed s + failed s + Z.of_nat (length l).
Proof.
  induction l as [|t l IH]; intros s; cbn zeta.
  - simpl. split_and!; lia.
  - cbn [foldl]. specialize (IH (count_task s t)). cbn zeta in IH.
    destruct IH as (A & B & C & D & E & F & G).
    rewrite !filter_cons.
    unfold count_task in *.
    destruct (Status t) eqn:Est; cbn [total pending ready running completed failed] in *;
      repeat (destruct (decide _) as [?|?]; try congruence); simpl length;
      split_and!; lia.
Qed.

(** X14.  [GetStats] reports the number of tasks as total and, under each
    status, the number of tasks in that status; the five counts add up to
    the total. *)
Theorem GetStats_counts (o : DAGOrchestrator) :
  let s := GetStats o in
  total s = Z.of_nat (size (tasks o)) /\
  pending s = in_state TaskPending o /\
  ready s = in_state TaskReady o /\
  running s = in_state TaskRunning o /\
  completed s = in_state TaskCompleted o /\
  failed s = in_state TaskFailed o /\
  pending s + ready s + running s + completed s + failed s = total s.
Proof.
  cbn zeta. unfold GetStats, in_state.
  destruct (foldl_count_task (map_to_list (tasks o)).*2
              (mkStats (Z.of_nat (size (tasks o))) 0 0 0 0 0)) as (A & B & C & D & E & F & G).
  cbn [total pending ready running completed failed] in *.
  rewrite length_fmap, length_map_to_list in G.
  split_and!; lia.
Qed.

(** X15.  [AddTask] stores a new task as pending, whatever status it came
    with, and leaves every other task, the constraints and the slot table
    alone; a second task with the same id is refused.  [GetTaskStatus]
    answers for exactly the ids that were added. *)
Theorem AddTask_then_GetTaskStatus (o : DAGOrchestrator) (task : Task) :
  (tasks o !! ID task = None ->
   exists o', AddTask o task = Ok o' /\
     GetTaskStatus o' (ID task) = Ok TaskPending /\
     (forall id, id <> ID task -> GetTaskStatus o' id = GetTaskStatus o id) /\
     size (tasks o') = S (size (tasks o)) /\
     constraints o' = constraints o /\ activeSlots o' = activeSlots o /\
     AddTask o' task = Err (ErrTaskExists (ID task))) /\
  (is_Some (tasks o !! ID task) -> AddTask o task = Err (ErrTaskExists (ID task))) /\
  (forall id, GetTaskStatus o id = Err (ErrTaskNotFound id) <-> tasks o !! id = None).
Proof.
  split_and!.
  - intros Hnew. unfold AddTask. rewrite Hnew. eexists. split; [reflexivity|].
    unfold GetTaskStatus. cbn [tasks with_tasks constraints activeSlots].
    rewrite lookup_insert_eq. split_and!; try reflexivity.
    + intros id Hid. now rewrite lookup_insert_ne by congruence.
    + now rewrite map_size_insert_None.
  - intros [t Ht]. unfold AddTask. now rewrite Ht.
  - intros id. unfold GetTaskStatus. destruct (tasks o !! id); split; congruence.
Qed.

(** X16.  On a constrained resource [tryAcquireResource] succeeds exactly
    when fewer than [MaxSlots] slots are taken, and then takes one;
    [releaseResource] gives it back, so that acquire followed by release
    restores the count; a refused acquisition changes nothing; the count of
    a resource never goes below zero by a release, and no other resource is
    touched. *)
Theorem acquire_then_release (o : DAGOrchestrator) (r : string) (c : ResourceConstraint) :
  constraints o !! r = Some c -> 0 <= slots_of o r ->
  (slots_of o r < MaxSlots c ->
   exists o', tryAcquireResource o r = (o', true) /\
     slots_of o' r = slots_of o r + 1 /\
     slots_of (releaseResource o' r) r = slots_of o r /\
     (forall r', r' <> r -> slots_of (releaseResource o' r) r' = slots_of o r')) /\
  (MaxSlots c <= slots_of o r -> tryAcquireResource o r = (o, false)) /\
  0 <= slots_of (releaseResource o r) r /\
  (slots_of o r = 0 -> releaseResource o r = o).
Proof.
  intros Hc H0. split_and!.
  - intros Hlt. unfold tryAcquireResource. rewrite Hc.
    destruct (Z.ltb_spec (slots_of o r) (MaxSlots c)); [|lia].
    eexists. split; [reflexivity|].
    assert (H1 : slots_of (with_slots o (<[r:=slots_of o r + 1]> (activeSlots o))) r
                 = slots_of o r + 1).
    { unfold slots_of at 1. simpl. now rewrite lookup_insert_eq. }
    split; [exact H1|]. unfold releaseResource. rewrite H1.
    destruct (Z.ltb_spec 0 (slots_of o r + 1)); [|lia].
    split.
    + unfold slots_of at 1. simpl. rewrite lookup_insert_eq. simpl. lia.
    + intros r' Hr'. unfold slots_of. simpl.
      now rewrite !lookup_insert_ne by congruence.
  - intros Hge. unfold tryAcquireResource. rewrite Hc.
    destruct (Z.ltb_spec (slots_of o r) (MaxSlots c)); [lia | reflexivity].
  - unfold releaseResource. destruct (Z.ltb_spec 0 (slots_of o r)); [|exact H0].
    unfold slots_of at 1. simpl. rewrite lookup_insert_eq. simpl. lia.
  - intros Hz. unfold releaseResource. rewrite Hz. reflexivity.
Qed.

Lemma acquire_then_release_witness :
  exists o',
    tryAcquireResource (NewDAGOrchestrator [mkResourceConstraint ResourceIO 4]) ResourceIO
      = (o', true) /\
    slots_of o' ResourceIO = 1 /\
    slots_of (releaseResource o' ResourceIO) ResourceIO = 0.
Proof.
  destruct (acquire_then_release (NewDAGOrchestrator [mkResourceConstraint ResourceIO 4])
              ResourceIO (mkResourceConstraint ResourceIO 4))
    as ((o' & Hacq & Hone & Hback & _) & _).
  - reflexivity.
  - vm_compute. discriminate.
  - vm_compute. reflexivity.
  - exists o'. split_and!; assumption.
Defined.

(** The constraint map built by the loop of [NewDAGOrchestrator]. *)
Lemma constraint_map_lookup (cs : list ResourceConstraint) :
  forall (m : gmap string ResourceConstraint) (r : string),
  foldl (fun m c => <[Type_ c := c]> m) m cs !! r =
  match last (filter (fun c => Type_ c = r) cs) with
  | Some c => Some c
  | None => m !! r
  end.
Proof.
  induction cs as [|c cs IH]; intros m r; [reflexivity|].
  cbn [foldl]. rewrite IH, filter_cons.
  destruct (decide (Type_ c = r)) as [He|Hne].
  - rewrite (last_cons c (filter (fun c0 => Type_ c0 = r) cs)).
    destruct (last (filter (fun c0 => Type_ c0 = r) cs)); [reflexivity|].
    subst r. now rewrite lookup_insert_eq.
  - destruct (last (filter (fun c0 => Type_ c0 = r) cs)); [reflexivity|].
    now rewrite lookup_insert_ne.
Qed.

(** X17.  [NewDAGOrchestrator] starts without tasks, without taken slots
    and with an empty completion channel; a resource is constrained exactly
    when the list names it, and when the list names it more than once the
    last entry counts. *)
Theorem NewDAGOrchestrator_constraints (cs : list ResourceConstraint) (r : string) :
  constraints (NewDAGOrchestrator cs) !! r = last (filter (fun c => Type_ c = r) cs) /\
  (forall c, constraints (NewDAGOrchestrator cs) !! r = Some c -> Type_ c = r /\ c ∈ cs) /\
  tasks (NewDAGOrchestrator cs) = ∅ /\
  (forall r', slots_of (NewDAGOrchestrator cs) r' = 0) /\
  completeCh (NewDAGOrchestrator cs) = [].
Proof.
  assert (H : constraints (NewDAGOrchestrator cs) !! r
              = last (filter (fun c => Type_ c = r) cs)).
  { unfold NewDAGOrchestrator. cbn [constraints]. rewrite constraint_map_lookup.
    destruct (last (filter (fun c => Type_ c = r) cs)); [reflexivity|].
    apply lookup_empty. }
  split_and!; try reflexivity; [exact H|].
  intros c Hc. rewrite H in Hc. apply last_Some_elem_of in Hc.
  apply list_elem_of_filter in Hc. exact Hc.
Qed.

End QueriesSpec.

(** * dag.go: what [validateDAG] accepts *)

Module ValidationMore.
Import Orchestrator OrchestratorSpec.

Section Soundness.
Variable ts : gmap string Task.

(** While the dependencies of [u] are explored every vertex on the recursion
    stack reaches [u]. *)
Definition stack_reaches (u : string) (st : dfs) : Prop :=
  recStack st ⊆ visited st /\ forall x, x ∈ recStack st -> rtc (edge ts) x u.

(** What a call on a vertex not yet visited may assume, and what it
    guarantees. *)
Definition call_sound (rec : string -> dfs -> option (bool * dfs)) : Prop :=
  forall d st b st',
    d ∉ visited st -> recStack st ⊆ visited st ->
    (forall x, x ∈ recStack st -> tc (edge ts) x d) ->
    rec d st = Some (b, st') ->
    if b then has_cycle ts
    else recStack st' = recStack st /\ recStack st' ⊆ visited st'.

Lemma visit_deps_sound (rec : string -> dfs -> option (bool * dfs)) (u : string) :
  call_sound rec ->
  forall deps st b st',
    (forall d, d ∈ deps -> edge ts u d) ->
    stack_reaches u st ->
    visit_deps rec deps st = Some (b, st') ->
    if b then has_cycle ts
    else recStack st' = recStack st /\ recStack st' ⊆ visited st'.
Proof.
  intros Hrec. induction deps as [|d deps IH]; intros st b st' Hdeps [Hsub Hst] Hrun.
  - simpl in Hrun. inversion Hrun; subst. split; [reflexivity | exact Hsub].
  - cbn [visit_deps] in Hrun.
    assert (Hd : edge ts u d) by (apply Hdeps; left).
    assert (Hdeps' : forall x, x ∈ deps -> edge ts u x) by (intros x Hx; apply Hdeps; now right).
    destruct (decide (d ∈ visited st)) as [Hv|Hnv].
    + destruct (decide (d ∈ recStack st)) as [Hr|Hnr].
      * inversion Hrun; subst. exists d. eapply tc_rtc_l; [apply (Hst d Hr)|].
        now apply tc_once.
      * apply (IH st b st' Hdeps' (conj Hsub Hst) Hrun).
    + destruct (rec d st) as [[[] st1]|] eqn:Erec; try discriminate.
      * inversion Hrun; subst.
        apply (Hrec d st true st' Hnv Hsub); [|exact Erec].
        intros x Hx. eapply tc_rtc_l; [apply (Hst x Hx)|]. now apply tc_once.
      * assert (H1 : recStack st1 = recStack st /\ recStack st1 ⊆ visited st1).
        { apply (Hrec d st false st1 Hnv Hsub); [|exact Erec].
          intros x Hx. eapply tc_rtc_l; [apply (Hst x Hx)|]. now apply tc_once. }
        destruct H1 as [HR Hsub1].
        assert (Hreach : stack_reaches u st1).
        { split; [exact Hsub1|]. intros x Hx. apply Hst. now rewrite <- HR. }
        pose proof (IH st1 b st' Hdeps' Hreach Hrun) as Hres.
        destruct b; [exact Hres|]. destruct Hres as [HR' Hsub']. split; [congruence | exact Hsub'].
Qed.

Lemma hasCycle_sound (fuel : nat) : call_sound (hasCycle fuel ts).
Proof.
  induction fuel as [|fuel IH]; intros u st b st' Hu Hsub Hst Hrun; [discriminate|].
  rewrite hasCycle_S in Hrun. cbv zeta in Hrun.
  destruct (ts !! u) as [task|] eqn:Etask; [|discriminate].
  set (st1 := mkDfs ({[u]} ∪ visited st) ({[u]} ∪ recStack st)) in Hrun.
  assert (Hreach : stack_reaches u st1).
  { split; [simpl; set_solver|]. intros x Hx. simpl in Hx.
    apply elem_of_union in Hx as [Hx|Hx].
    - apply elem_of_singleton in Hx. subst x. apply rtc_refl.
    - apply tc_rtc, Hst, Hx. }
  assert (Hdeps : forall d, d ∈ Dependencies task -> edge ts u d).
  { intros d Hd. exists task. auto. }
  destruct (visit_deps (hasCycle fuel ts) (Dependencies task) st1)
    as [[b2 st2]|] eqn:Edeps; [|discriminate].
  pose proof (visit_deps_sound _ u IH _ _ _ _ Hdeps Hreach Edeps) as Hres.
  destruct b2.
  - inversion Hrun; subst. exact Hres.
  - inversion Hrun; subst. destruct Hres as [HR Hsub2]. simpl in *.
    assert (HuR : u ∉ recStack st) by set_solver.
    split; set_solver.
Qed.

Lemma cycle_loop_sound (order : list string) : forall st,
  recStack st = ∅ -> cycle_loop ts order st = Some true -> has_cycle ts.
Proof.
  induction order as [|id order IH]; intros st HR Hrun; [discriminate|].
  cbn [cycle_loop] in Hrun.
  destruct (decide (id ∈ visited st)); [now apply (IH st)|].
  destruct (hasCycle (S (size ts)) ts id st) as [[b st']|] eqn:Erun; [|discriminate].
  assert (Hres := hasCycle_sound (S (size ts)) id st b st').
  destruct b.
  - apply Hres; [assumption | set_solver | set_solver | exact Erun].
  - destruct Hres as [HR' _]; [assumption | set_solver | set_solver | exact Erun |].
    apply (IH st'); [congruence | exact Hrun].
Qed.

End Soundness.

(** X18.  [validateDAG] returns, and it returns nil exactly when every
    dependency names a task of the graph and the graph has no directed
    cycle: a cycle error is only given for a real cycle, an
    unknown-dependency error only for a dependency that is missing. *)
Theorem validateDAG_accepts_iff (o : DAGOrchestrator) (order1 order2 : list string) :
  range_of (tasks o) order1 -> range_of (tasks o) order2 ->
  (validateDAG o order1 order2 = Some None <->
   closed (tasks o) /\ ~ has_cycle (tasks o)) /\
  (validateDAG o order1 order2 = Some (Some ErrCycleDetected) ->
   closed (tasks o) /\ has_cycle (tasks o)) /\
  (forall id dep, validateDAG o order1 order2 = Some (Some (ErrUnknownDependency id dep)) ->
   ~ closed (tasks o)) /\
  is_Some (validateDAG o order1 order2).
Proof.
  intros H1 H2.
  destruct (validateDAG_total o order1 order2 H1 H2) as (r & Hrun & Hnone).
  pose proof (check_deps_exist_closed (tasks o) order1 H1) as Hclosed.
  unfold validateDAG in *.
  destruct (check_deps_exist (tasks o) order1) as [e|] eqn:E1.
  - assert (Hnc : ~ closed (tasks o)).
    { intros Hc. apply Hclosed in Hc. discriminate. }
    split_and!.
    + split; [discriminate | intros [Hc _]; contradiction].
    + intros [= ->]. destruct (check_deps_exist_some _ _ _ E1)
        as (id & t & d & _ & _ & He & _). discriminate.
    + intros _ _ _. exact Hnc.
    + eauto.
  - assert (Hc : closed (tasks o)) by now apply Hclosed.
    destruct (cycle_loop (tasks o) order2 (mkDfs ∅ ∅)) as [[]|] eqn:E2.
    + assert (Hcyc : has_cycle (tasks o)).
      { apply (cycle_loop_sound (tasks o) order2 (mkDfs ∅ ∅)); [reflexivity | exact E2]. }
      split_and!.
      * split; [discriminate | intros [_ Hn]; contradiction].
      * intros _. split; assumption.
      * intros id dep H. discriminate.
      * eauto.
    + inversion Hrun; subst r. destruct (Hnone eq_refl) as (_ & rank & Hrank).
      pose proof (ranking_acyclic _ _ Hrank) as Hacyc.
      split_and!.
      * split; [intros _; split; assumption | reflexivity].
      * discriminate.
      * intros id dep H. discriminate.
      * eauto.
    + discriminate.
Qed.

End ValidationMore.

(** * dag.go: [hasFailedDependency] and the scheduler's pass *)

Module BlockingSpec.
Import Orchestrator OrchestratorSpec ExecSpec.

(** Some task below [t] in the dependency graph has failed: a dependency of
    [t], or a dependency of a dependency, and so on (dependencies that name
    no task are skipped). *)
Inductive failed_below (ts : gmap string Task) : Task -> Prop :=
| failed_dependency t d dt :
    d ∈ Dependencies t -> ts !! d = Some dt -> Status dt = TaskFailed ->
    failed_below ts t
| failed_deeper t d dt :
    d ∈ Dependencies t -> ts !! d = Some dt -> failed_below ts dt ->
    failed_below ts t.

Lemma failed_in_spec (rec : Task -> option bool) (ts : gmap string Task)
  (deps : list string) :
  (forall d dt, d ∈ deps -> ts !! d = Some dt -> Status dt <> TaskFailed ->
     exists b, rec dt = Some b /\ (b = true <-> failed_below ts dt)) ->
  exists b, failed_in rec ts deps = Some b /\
    (b = true <-> exists d dt, d ∈ deps /\ ts !! d = Some dt /\
                    (Status dt = TaskFailed \/ failed_below ts dt)).
Proof.
  induction deps as [|d deps IH]; intros Hrec.
  - exists false. split; [reflexivity|]. split; [discriminate|].
    intros (d & dt & Hd & _). inversion Hd.
  - cbn [failed_in].
    destruct IH as (b & Hrun & Hb).
    { intros x xt Hx. apply Hrec. now right. }
    assert (Hlift : (exists x xt, x ∈ deps /\ ts !! x = Some xt /\
                       (Status xt = TaskFailed \/ failed_below ts xt)) ->
                    exists x xt, x ∈ d :: deps /\ ts !! x = Some xt /\
                       (Status xt = TaskFailed \/ failed_below ts xt)).
    { intros (x & xt & Hx & H). exists x, xt. split; [now right | exact H]. }
    destruct (ts !! d) as [dt|] eqn:Ed.
    + destruct (decide (Status dt = TaskFailed)) as [Hf|Hnf].
      * exists true. split; [reflexivity|]. split; [|reflexivity].
        intros _. exists d, dt. split_and!; [left | exact Ed | now left].
      * destruct (Hrec d dt) as (bd & Hbd & Hbd'); [left | exact Ed | exact Hnf |].
        rewrite Hbd. destruct bd.
        -- exists true. split; [reflexivity|]. split; [|reflexivity].
           intros _. exists d, dt. split_and!; [left | exact Ed | right; now apply Hbd'].
        -- exists b. split; [exact Hrun|]. rewrite Hb. split; [exact Hlift|].
           intros (x & xt & Hx & Hxt & Hor).
           apply elem_of_cons in Hx as [->|Hx]; [|eauto 6].
           rewrite Ed in Hxt. inversion Hxt; subst xt.
           destruct Hor as [Hor|Hor]; [contradiction|].
           apply Hbd' in Hor. discriminate.
    + exists b. split; [exact Hrun|]. rewrite Hb. split; [exact Hlift|].
      intros (x & xt & Hx & Hxt & Hor).
      apply elem_of_cons in Hx as [->|Hx]; [congruence | eauto 6].
Qed.

Lemma failed_below_iff (ts : gmap string Task) (t : Task) :
  failed_below ts t <->
  exists d dt, d ∈ Dependencies t /\ ts !! d = Some dt /\
    (Status dt = TaskFailed \/ failed_below ts dt).
Proof.
  split.
  - intros H. inversion H; subst; eauto 7.
  - intros (d & dt & Hd & Hdt & [Hf|Hf]).
    + eapply failed_dependency; eassumption.
    + eapply failed_deeper; eassumption.
Qed.

Lemma hasFailedDependency_fuel (ts : gmap string Task) (rank : string -> nat) :
  ranking ts rank ->
  forall (fuel : nat) (t : Task),
    (forall d, d ∈ Dependencies t -> is_Some (ts !! d) -> (rank d < fuel)%nat) ->
    exists b, hasFailedDependency (S fuel) ts t = Some b /\
      (b = true <-> failed_below ts t).
Proof.
  intros [Hedge _]. induction fuel as [|fuel IH]; intros t Hdeps.
  - cbn [hasFailedDependency].
    destruct (failed_in_spec (hasFailedDependency 0 ts) ts (Dependencies t)) as (b & Hb & Hiff).
    { intros d dt Hd Hdt _. specialize (Hdeps d Hd (ex_intro _ dt Hdt)). lia. }
    exists b. split; [exact Hb|]. now rewrite failed_below_iff.
  - change (hasFailedDependency (S (S fuel)) ts t)
      with (failed_in (hasFailedDependency (S fuel) ts) ts (Dependencies t)).
    destruct (failed_in_spec (hasFailedDependency (S fuel) ts) ts (Dependencies t))
      as (b & Hb & Hiff).
    { intros d dt Hd Hdt _. apply IH. intros d' Hd' Hex.
      assert (rank d' < rank d)%nat by (apply Hedge; exists dt; auto).
      specialize (Hdeps d Hd (ex_intro _ dt Hdt)). lia. }
    exists b. split; [exact Hb|]. now rewrite failed_below_iff.
Qed.

(** In terms of the graph: a failed task can be reached along dependency
    edges. *)
Lemma failed_below_reach (ts : gmap string Task) (u : string) (t : Task) :
  ts !! u = Some t ->
  failed_below ts t <->
  exists F ft, tc (edge ts) u F /\ ts !! F = Some ft /\ Status ft = TaskFailed.
Proof.
  intros Hu. split.
  - intros H. revert u Hu. induction H as [t d dt Hd Hdt Hf | t d dt Hd Hdt _ IH]; intros u Hu.
    + exists d, dt. split_and!; [|assumption..]. apply tc_once. exists t. auto.
    + destruct (IH d Hdt) as (F & ft & Hreach & HF & Hf).
      exists F, ft. split_and!; [|assumption..].
      eapply tc_l; [|exact Hreach]. exists t. auto.
  - intros (F & ft & Hreach & HF & Hf). revert t Hu.
    induction Hreach as [u F (t' & Ht' & Hin) | u v F (t' & Ht' & Hin) Hreach IH]; intros t Hu.
    + assert (t' = t) by congruence. subst t'.
      eapply failed_dependency; eassumption.
    + assert (t' = t) by congruence. subst t'.
      assert (Hv : is_Some (ts !! v)).
      { inversion Hreach as [? ? (tv & Htv & _) | ? ? ? (tv & Htv & _)]; eauto. }
      destruct Hv as [tv Htv].
      eapply failed_deeper; [exact Hin | exact Htv | now apply IH].
Qed.

(** X19.  On a graph with a [ranking] (a rank that decreases along every
    dependency edge, as every graph that [validateDAG] accepts has)
    [hasFailedDependency] returns, and it returns true exactly when a failed task can be reached from the task
    along dependency edges: the failure of a dependency, of a dependency of
    a dependency, and so on. *)
Theorem hasFailedDependency_is_transitive (ts : gmap string Task)
  (rank : string -> nat) (u : string) (t : Task) :
  ranking ts rank -> ts !! u = Some t ->
  exists b, hasFailedDependency (S (size ts)) ts t = Some b /\
    (b = true <->
     exists F ft, tc (edge ts) u F /\ ts !! F = Some ft /\ Status ft = TaskFailed).
Proof.
  intros Hrank Hu.
  destruct (hasFailedDependency_fuel ts rank Hrank (size ts) t) as (b & Hb & Hiff).
  { intros d _ Hex. now apply (proj2 Hrank). }
  exists b. split; [exact Hb|]. rewrite Hiff. now apply failed_below_reach.
Qed.

(** Marking a task as blocked leaves the graph as it is. *)
Lemma ranking_mark_blocked (ts : gmap string Task) (rank : string -> nat)
  (id : string) (t : Task) :
  ts !! id = Some t -> ranking ts rank -> ranking (<[id := mark_blocked t]> ts) rank.
Proof.
  intros Ht [Hedge Hbound].
  assert (Hsize : size (<[id := mark_blocked t]> ts) = size ts).
  { rewrite <- (insert_id ts id t Ht) at 2.
    rewrite !map_size_insert. rewrite Ht.
    destruct (ts !! id); reflexivity. }
  split.
  - intros x y (tx & Hx & Hy). apply Hedge.
    destruct (decide (x = id)) as [->|Hne].
    + rewrite lookup_insert_eq in Hx. inversion Hx; subst tx. exists t. auto.
    + rewrite lookup_insert_ne in Hx by congruence. exists tx. auto.
  - intros x Hx. rewrite Hsize. apply Hbound.
    destruct (decide (x = id)) as [->|Hne]; [eauto|].
    now rewrite lookup_insert_ne in Hx by congruence.
Qed.

Lemma allTasksCompleteOrBlocked_loop_total (rank : string -> nat) (order : list string) :
  forall o announced,
  ranking (tasks o) rank ->
  exists o' announced' all,
    allTasksCompleteOrBlocked_loop o order announced = Some (o', announced', all) /\
    (all = false ->
     exists id t, tasks o' !! id = Some t /\
       (Status t = TaskRunning \/
        ((Status t = TaskPending \/ Status t = TaskReady) /\
         ~ failed_below (tasks o') t))).
Proof.
  induction order as [|id order IH]; intros o ann Hrank.
  - exists o, ann, true. split; [reflexivity | discriminate].
  - cbn [allTasksCompleteOrBlocked_loop].
    destruct (tasks o !! id) as [task|] eqn:Et; [|now apply IH].
    assert (Hviable : Status task = TaskPending \/ Status task = TaskReady ->
      exists o' announced' all,
        match hasFailedDependency (S (size (tasks o))) (tasks o) task with
        | Some true =>
            allTasksCompleteOrBlocked_loop
              (with_tasks o (<[id:=mark_blocked task]> (tasks o))) order (ann ++ [ID task])
        | Some false => Some (o, ann, false)
        | None => None
        end = Some (o', announced', all) /\
        (all = false ->
         exists id t, tasks o' !! id = Some t /\
           (Status t = TaskRunning \/
            ((Status t = TaskPending \/ Status t = TaskReady) /\
             ~ failed_below (tasks o') t)))).
    { intros Hst.
      destruct (hasFailedDependency_fuel (tasks o) rank Hrank (size (tasks o)) task)
        as (b & Hb & Hiff).
      { intros d _ Hex. now apply (proj2 Hrank). }
      rewrite Hb. destruct b.
      - apply IH. simpl. now apply ranking_mark_blocked.
      - exists o, ann, false. split; [reflexivity|]. intros _.
        exists id, task. split; [exact Et|]. right. split; [exact Hst|].
        intros Hf. apply Hiff in Hf. discriminate. }
    destruct (Status task) eqn:Est.
    + apply Hviable. now left.
    + apply Hviable. now right.
    + exists o, ann, false. split; [reflexivity|]. intros _.
      exists id, task. split; [exact Et | now left].
    + now apply IH.
    + now apply IH.
Qed.

(** X20.  On a graph with a [ranking] (a rank that decreases along every
    dependency edge, as every graph that [validateDAG] accepts has) the
    scheduler's pass [allTasksCompleteOrBlocked] returns.  It changes tasks only by failing
    pending or ready ones with the dependency error.  When it answers true,
    every task is completed or failed; when it answers false, some task is
    running, or is pending or ready with no failed task below it. *)
Theorem scheduler_pass_meaning (o : DAGOrchestrator) (rank : string -> nat)
  (order : list string) :
  ranking (tasks o) rank -> range_of (tasks o) order ->
  exists o' announced all,
    allTasksCompleteOrBlocked o order = Some (o', announced, all) /\
    (forall id, blocked (tasks o !! id) (tasks o' !! id)) /\
    (all = true ->
     forall id t, tasks o' !! id = Some t ->
       Status t = TaskCompleted \/ Status t = TaskFailed) /\
    (all = false ->
     exists id t, tasks o' !! id = Some t /\
       (Status t = TaskRunning \/
        ((Status t = TaskPending \/ Status t = TaskReady) /\
         ~ failed_below (tasks o') t))).
Proof.
  intros Hrank Hrange. unfold allTasksCompleteOrBlocked.
  destruct (allTasksCompleteOrBlocked_loop_total rank order o [] Hrank)
    as (o' & ann & all & Hrun & Hfalse).
  exists o', ann, all. split; [exact Hrun|].
  destruct (allTasksCompleteOrBlocked_loop_spec order o [] o' ann all Hrun)
    as (_ & Hblocked & _ & Htrue).
  split_and!; [exact Hblocked | | exact Hfalse].
  intros Hall id t Ht. apply (Htrue Hall id t); [|exact Ht].
  apply (range_of_elem (tasks o) order id Hrange).
  destruct (Hblocked id) as [Heq|(t0 & Hold & _)].
  - rewrite <- Heq. eauto.
  - eauto.
Qed.

End BlockingSpec.

(** * dag.go: what [getReadyTasks] selects *)

Module ReadySpec.
Import Orchestrator OrchestratorSpec ExecSpec.

(** A task that [getReadyTasks] returns: already ready, or pending with
    every dependency completed. *)
Definition selectable (ts : gmap string Task) (t : Task) : Prop :=
  Status t = TaskReady \/
  (Status t = TaskPending /\ deps_completed ts (Dependencies t) = true).

Lemma set_status_same (t : Task) (st : TaskStatus) :
  Status t = st -> set_status st t = t.
Proof. intros <-. destruct t. reflexivity. Qed.

Lemma same_completed_promote (ts : gmap string Task) (id : string) (t : Task) :
  ts !! id = Some t -> Status t = TaskPending ->
  same_completed ts (<[id := set_status TaskReady t]> ts).
Proof.
  intros Ht Hst d. destruct (decide (d = id)) as [->|Hne].
  - rewrite lookup_insert_eq, Ht. split.
    + intros (dt & [= <-] & Hc). discriminate.
    + intros (dt & [= <-] & Hc). congruence.
  - now rewrite lookup_insert_ne by congruence.
Qed.

Lemma getReadyTasks_loop_exact (order : list string) : forall o ready o' ready',
  NoDup order ->
  getReadyTasks_loop o order ready = (o', ready') ->
  exists new,
    ready' = ready ++ new /\ NoDup new /\
    (forall id, id ∈ new <->
       id ∈ order /\ exists t, tasks o !! id = Some t /\ selectable (tasks o) t) /\
    (forall id, tasks o' !! id =
       if decide (id ∈ new) then set_status TaskReady <$> tasks o !! id
       else tasks o !! id) /\
    constraints o' = constraints o /\ activeSlots o' = activeSlots o /\
    completeCh o' = completeCh o.
Proof.
  induction order as [|id order IH]; intros o ready o' ready' Hnd Hrun.
  - simpl in Hrun. inversion Hrun; subst. exists []. rewrite app_nil_r.
    split; [reflexivity|]. split; [apply NoDup_nil_2|]. split; [|split; [|auto]].
    + intros id. split; [intros H; inversion H | intros [H _]; inversion H].
    + intros id. destruct (decide (id ∈ [])) as [H|_]; [inversion H | reflexivity].
  - apply NoDup_cons in Hnd as [Hid Hnd]. cbn [getReadyTasks_loop] in Hrun.
    (* the head is skipped *)
    assert (Hskip : ~ (exists t, tasks o !! id = Some t /\ selectable (tasks o) t) ->
      getReadyTasks_loop o order ready = (o', ready') ->
      exists new,
        ready' = ready ++ new /\ NoDup new /\
        (forall x, x ∈ new <->
           x ∈ id :: order /\ exists t, tasks o !! x = Some t /\ selectable (tasks o) t) /\
        (forall x, tasks o' !! x =
           if decide (x ∈ new) then set_status TaskReady <$> tasks o !! x
           else tasks o !! x) /\
        constraints o' = constraints o /\ activeSlots o' = activeSlots o /\
        completeCh o' = completeCh o).
    { intros Hno Hrest.
      destruct (IH o ready o' ready' Hnd Hrest) as (new & -> & Hnew & Hin & Hts & Hrest').
      exists new. split_and!; try tauto. intros x. rewrite Hin. split.
      - intros [Hx Ht]. split; [now right | exact Ht].
      - intros [Hx Ht]. apply elem_of_cons in Hx as [->|Hx]; [contradiction | auto]. }
    (* the head is taken, [o1] being the orchestrator afterwards *)
    assert (Htake : forall t o1,
      tasks o !! id = Some t -> selectable (tasks o) t ->
      tasks o1 = <[id := set_status TaskReady t]> (tasks o) ->
      constraints o1 = constraints o -> activeSlots o1 = activeSlots o ->
      completeCh o1 = completeCh o ->
      getReadyTasks_loop o1 order (ready ++ [id]) = (o', ready') ->
      exists new,
        ready' = ready ++ new /\ NoDup new /\
        (forall x, x ∈ new <->
           x ∈ id :: order /\ exists t, tasks o !! x = Some t /\ selectable (tasks o) t) /\
        (forall x, tasks o' !! x =
           if decide (x ∈ new) then set_status TaskReady <$> tasks o !! x
           else tasks o !! x) /\
        constraints o' = constraints o /\ activeSlots o' = activeSlots o /\
        completeCh o' = completeCh o).
    { intros t o1 Ht Hsel Hts1 Hc1 Ha1 Hch1 Hrest.
      destruct (IH o1 (ready ++ [id]) o' ready' Hnd Hrest)
        as (new & -> & Hnew & Hin & Hts & Hc & Ha & Hch).
      assert (Hsame : same_completed (tasks o) (tasks o1)).
      { rewrite Hts1. destruct Hsel as [Hr|[Hp _]].
        - rewrite (set_status_same t TaskReady Hr), (insert_id _ _ _ Ht). intros d. reflexivity.
        - now apply same_completed_promote. }
      assert (Hother : forall x, x ∈ order -> tasks o1 !! x = tasks o !! x).
      { intros x Hx. rewrite Hts1. apply lookup_insert_ne. intros ->. contradiction. }
      assert (Hin' : forall x, x ∈ new <->
                x ∈ order /\ exists t, tasks o !! x = Some t /\ selectable (tasks o) t).
      { intros x. rewrite Hin. split.
        - intros [Hx (tx & Htx & Hsx)]. split; [exact Hx|].
          rewrite (Hother x Hx) in Htx. exists tx. split; [exact Htx|].
          unfold selectable in *. now rewrite <- (deps_completed_same _ _ _ Hsame).
        - intros [Hx (tx & Htx & Hsx)]. split; [exact Hx|].
          rewrite <- (Hother x Hx) in Htx. exists tx. split; [exact Htx|].
          unfold selectable in *. now rewrite (deps_completed_same _ _ _ Hsame). }
      assert (Hidnew : id ∉ new).
      { intros H. apply Hin' in H as [H _]. contradiction. }
      exists (id :: new). rewrite <- app_assoc. split_and!; try congruence.
      - reflexivity.
      - now constructor.
      - intros x. rewrite elem_of_cons, Hin'. split.
        + intros [->|[Hx Hex]]; [split; [left | eauto] | split; [now right | exact Hex]].
        + intros [Hx Hex]. apply elem_of_cons in Hx as [->|Hx]; [now left | right; auto].
      - intros x. rewrite Hts. destruct (decide (x = id)) as [->|Hne].
        + rewrite decide_False by exact Hidnew. rewrite decide_True by left.
          rewrite Hts1, lookup_insert_eq, Ht. reflexivity.
        + rewrite Hts1, lookup_insert_ne by congruence.
          destruct (decide (x ∈ new)) as [Hx|Hx].
          * rewrite decide_True by now right. reflexivity.
          * rewrite decide_False; [reflexivity|].
            intros H. apply elem_of_cons in H as [?|?]; contradiction. }
    destruct (tasks o !! id) as [task|] eqn:Et.
    2:{ apply Hskip; [|exact Hrun]. intros (t & Ht & _). discriminate. }
    destruct (Status task) eqn:Est.
    + unfold dependenciesMet in Hrun.
      destruct (deps_completed (tasks o) (Dependencies task)) eqn:Edeps.
      * apply (Htake task
                 (with_tasks o (<[id := set_status TaskReady task]> (tasks o))) eq_refl);
          try reflexivity; [|exact Hrun].
        right. split; assumption.
      * apply Hskip; [|exact Hrun]. intros (t & [= <-] & [H|[_ H]]); congruence.
    + apply (Htake task o eq_refl); try reflexivity; [now left | | exact Hrun].
      rewrite (set_status_same task TaskReady Est). symmetry. now apply insert_id.
    + apply Hskip; [|exact Hrun]. intros (t & [= <-] & [H|[H _]]); congruence.
    + apply Hskip; [|exact Hrun]. intros (t & [= <-] & [H|[H _]]); congruence.
    + apply Hskip; [|exact Hrun]. intros (t & [= <-] & [H|[H _]]); congruence.
Qed.

(** X21.  [getReadyTasks] returns, each once, exactly the tasks that are
    ready already or are pending with every dependency present and
    completed; it marks the returned tasks ready and changes nothing else. *)
Theorem getReadyTasks_selects (o o' : DAGOrchestrator) (order ready : list string) :
  range_of (tasks o) order ->
  getReadyTasks o order = (o', ready) ->
  NoDup ready /\
  (forall id, id ∈ ready <->
     exists t, tasks o !! id = Some t /\
       (Status t = TaskReady \/ (Status t = TaskPending /\ dependenciesMet o t = true))) /\
  (forall id, tasks o' !! id =
     if decide (id ∈ ready) then set_status TaskReady <$> tasks o !! id
     else tasks o !! id) /\
  constraints o' = constraints o /\ activeSlots o' = activeSlots o /\
  completeCh o' = completeCh o.
Proof.
  intros Hrange Hrun. unfold getReadyTasks in Hrun.
  assert (Hnd : NoDup order).
  { unfold range_of in Hrange. rewrite Hrange. apply NoDup_fst_map_to_list. }
  destruct (getReadyTasks_loop_exact order o [] o' ready Hnd Hrun)
    as (new & Hready & Hnew & Hin & Hts & Hrest).
  simpl in Hready. subst new. split_and!; try tauto.
  intros id. rewrite Hin. split.
  - intros [_ H]. exact H.
  - intros (t & Ht & Hsel). split; [|eauto].
    apply (range_of_elem _ _ _ Hrange). eauto.
Qed.

End ReadySpec.

(** * dag.go: the completion handler, the return of [Execute], the slots *)

Module HandlerSpec.
Import Orchestrator OrchestratorSpec ExecSpec OrderSpec.

(** The calls of the progress callback and the returns of [Execute] recorded
    in a trace. *)
Definition progress_of (e : Event) : option (nat * nat) :=
  match e with
  | EvProgress completed total _ => Some (completed, total)
  | _ => None
  end.

Definition return_of (e : Event) : option (list Models.EncoderResult) :=
  match e with
  | EvReturn rs => Some rs
  | _ => None
  end.

Lemma omap_blocked {B : Type} (f : Event -> option B) (ids : list string) :
  (forall id, f (EvBlocked id) = None) -> omap f (map EvBlocked ids) = [].
Proof.
  intros Hf. induction ids as [|id ids IH]; [reflexivity|].
  simpl. rewrite Hf. exact IH.
Qed.

(** What every action other than those of the handler and of the main
    goroutine leaves alone. *)
Lemma step_handler_frame (l : Label) (s s' : Exec) (ev : list Event) :
  step l s = Some (s', ev) -> l <> HandlerReceive -> l <> MainReturn ->
  totalTasks s' = totalTasks s /\ completedTasks s' = completedTasks s /\
  results s' = results s /\ handlerDone s' = handlerDone s /\
  returned s' = returned s /\
  omap progress_of ev = [] /\ omap return_of ev = [] /\
  (sched s = SchedDone -> sched s' = SchedDone).
Proof.
  intros Hstep Hh Hm. apply step_inv in Hstep. cbv zeta in Hstep.
  destruct l; try contradiction.
  - destruct Hstep as (_ & -> & ->). simpl. split_and!; auto.
  - destruct Hstep as (Hs & _ & o' & ann & all & _ & -> & ->). simpl.
    split_and!; try reflexivity; try (now apply omap_blocked). congruence.
  - destruct Hstep as (Hs & _ & o' & ready & _ & -> & ->). simpl.
    split_and!; try reflexivity. congruence.
  - destruct Hstep as [(Hs & -> & ->)|(x & rest & task & Hs & _ & Hcase)].
    + simpl. split_and!; try reflexivity. congruence.
    + destruct Hcase as [(o' & _ & -> & ->)|(o' & _ & -> & ->)]; simpl;
        split_and!; try reflexivity; congruence.
  - destruct Hstep as (wake & Hs & _ & -> & ->). simpl.
    split_and!; try reflexivity. congruence.
  - destruct Hstep as (x & task & _ & _ & -> & ->). simpl. split_and!; auto.
  - destruct Hstep as (x & task & _ & _ & -> & ->). simpl. split_and!; auto.
  - destruct Hstep as (x & task & _ & _ & _ & -> & ->). simpl. split_and!; auto.
  - destruct Hstep as (x & task & _ & _ & -> & ->). simpl. split_and!; auto.
  - destruct Hstep as (x & _ & _ & -> & ->). simpl. split_and!; auto.
Qed.

(** The books of the completion handler. *)
Record handler_inv (n : nat) (s : Exec) (evs : list Event) : Prop := mkHandlerInv {
  hi_total : totalTasks s = n;
  hi_done : handlerDone s = true -> completedTasks s = n;
  hi_busy : handlerDone s = false -> (0 < n)%nat -> (completedTasks s < n)%nat;
  hi_returned : returned s = true -> handlerDone s = true /\ sched s = SchedDone;
  hi_results : (length (results s) <= completedTasks s)%nat;
  hi_progress : omap progress_of evs = map (fun k => (k, n)) (seq 1 (completedTasks s));
  hi_returns : omap return_of evs = if returned s then [results s] else []
}.

Lemma handler_inv_step (n : nat) (l : Label) (s s' : Exec) (evs ev : list Event) :
  handler_inv n s evs -> step l s = Some (s', ev) -> handler_inv n s' (evs ++ ev).
Proof.
  intros [Ht Hd Hb Hr Hres Hp Hret] Hstep.
  assert (Hcase : l = HandlerReceive \/ l = MainReturn \/
                  (l <> HandlerReceive /\ l <> MainReturn)).
  { destruct l; auto; right; right; split; discriminate. }
  destruct Hcase as [->|[->|[Hh Hm]]].
  { apply step_inv in Hstep. cbv zeta in Hstep.
    destruct Hstep as (Hdone & taskID & rest & task & _ & _ & -> & ->).
    constructor; cbn [totalTasks completedTasks results handlerDone returned sched].
    - exact Ht.
    - intros H. apply bool_decide_eq_true in H. congruence.
    - intros H Hn. apply bool_decide_eq_false in H. specialize (Hb Hdone Hn). lia.
    - intros H. specialize (Hr H) as [? _]. congruence.
    - destruct (Result task); [rewrite length_app; simpl|]; lia.
    - rewrite omap_app, Hp, seq_S, map_app, Ht. reflexivity.
    - rewrite omap_app, Hret. cbn. rewrite app_nil_r.
      destruct (returned s) eqn:E; [|reflexivity].
      specialize (Hr eq_refl) as [? _]. congruence. }
  { apply step_inv in Hstep. cbv zeta in Hstep.
    destruct Hstep as (Hdone & Hs & Hnot & -> & ->).
    constructor; cbn [totalTasks completedTasks results handlerDone returned sched]; auto.
    - rewrite omap_app, Hp. cbn. now rewrite app_nil_r.
    - rewrite omap_app, Hret, Hnot. reflexivity. }
  destruct (step_handler_frame l s s' ev Hstep Hh Hm)
    as (A & B & C & D & E & F & G & H).
  constructor.
  - congruence.
  - rewrite D, B. exact Hd.
  - rewrite D, B. exact Hb.
  - rewrite E, D. intros Hx. destruct (Hr Hx) as [H1 H2]. split; [exact H1 | now apply H].
  - rewrite C, B. exact Hres.
  - rewrite omap_app, F, app_nil_r, B. exact Hp.
  - rewrite omap_app, G, app_nil_r, E, C. exact Hret.
Qed.

Lemma handler_inv_run (o : DAGOrchestrator) (order1 order2 : list string) (now : Z)
  (s0 : Exec) (ls : list Label) (s : Exec) (evs : list Event) :
  Execute_begin o order1 order2 now = Some (Ok s0) ->
  run s0 ls = Some (s, evs) ->
  handler_inv (size (tasks o)) s evs.
Proof.
  intros Hbegin Hrun. apply Execute_begin_ok in Hbegin as [-> _].
  revert ls s evs Hrun. apply run_ind.
  - constructor; simpl; try reflexivity; try discriminate; auto.
  - intros s1 evs1 l s2 ev Hinv Hstep. eapply handler_inv_step; eassumption.
Qed.

(** X22.  [Execute] returns at most once, and only after the scheduler
    goroutine has returned and the handler has received exactly as many
    completions as there are tasks; the results it returns are those
    collected by the handler, at most as many as there are tasks (they need
    not belong to different tasks: a task dispatched twice completes
    twice). *)
Theorem Execute_returns_after_all_completions (o : DAGOrchestrator)
  (order1 order2 : list string) (now : Z) (s0 : Exec) (ls : list Label) (s : Exec)
  (evs : list Event) :
  Execute_begin o order1 order2 now = Some (Ok s0) ->
  run s0 ls = Some (s, evs) ->
  (returned s = true ->
   sched s = SchedDone /\ handlerDone s = true /\
   completedTasks s = size (tasks o) /\
   (length (results s) <= size (tasks o))%nat /\
   omap return_of evs = [results s]) /\
  (returned s = false -> omap return_of evs = []).
Proof.
  intros Hbegin Hrun.
  destruct (handler_inv_run o order1 order2 now s0 ls s evs Hbegin Hrun)
    as [Ht Hd Hb Hr Hres Hp Hret].
  split.
  - intros Hx. destruct (Hr Hx) as [H1 H2]. rewrite Hx in Hret.
    pose proof (Hd H1). split_and!; auto. lia.
  - intros Hx. now rewrite Hx in Hret.
Qed.

(** X23.  The progress callback is called once per completion received,
    with the counts 1, 2, 3, .. in this order and the number of tasks as
    total; with at least one task the count never exceeds the total. *)
Theorem progress_counts_up (o : DAGOrchestrator)
  (order1 order2 : list string) (now : Z) (s0 : Exec) (ls : list Label) (s : Exec)
  (evs : list Event) :
  Execute_begin o order1 order2 now = Some (Ok s0) ->
  run s0 ls = Some (s, evs) ->
  omap progress_of evs =
    map (fun k => (k, size (tasks o))) (seq 1 (completedTasks s)) /\
  ((0 < size (tasks o))%nat -> (completedTasks s <= size (tasks o))%nat).
Proof.
  intros Hbegin Hrun.
  destruct (handler_inv_run o order1 order2 now s0 ls s evs Hbegin Hrun)
    as [Ht Hd Hb Hr Hres Hp Hret].
  split; [exact Hp|]. intros Hn.
  destruct (handlerDone s) eqn:E; [rewrite Hd by reflexivity; lia|].
  specialize (Hb eq_refl Hn). lia.
Qed.

End HandlerSpec.

(** * dag.go: the slot table over an execution *)

Module SlotSpec.
Import Orchestrator OrchestratorSpec ExecSpec OrderSpec.

Lemma count_zero {A : Type} (f : A -> bool) (l : list A) :
  Forall (fun x => f x = false) l -> count f l = 0%nat.
Proof.
  induction 1 as [|x l Hx _ IH]; [reflexivity|]. simpl. rewrite Hx, IH. reflexivity.
Qed.

Lemma count_pos {A : Type} (f : A -> bool) (l : list A) (i : nat) (x : A) :
  l !! i = Some x -> f x = true -> (1 <= count f l)%nat.
Proof.
  revert i. induction l as [|y l IH]; intros i Hi Hx; [discriminate|].
  destruct i as [|i]; simpl in *.
  - inversion Hi; subst y. rewrite Hx. lia.
  - specialize (IH i Hi Hx). lia.
Qed.

Lemma slot_inv_run (o : DAGOrchestrator) (order1 order2 : list string) (now : Z)
  (s0 : Exec) (ls : list Label) (s : Exec) (evs : list Event) :
  pristine o ->
  (forall r c, constraints o !! r = Some c -> 0 <= MaxSlots c) ->
  Execute_begin o order1 order2 now = Some (Ok s0) ->
  run s0 ls = Some (s, evs) ->
  slot_inv s /\ constraints (orch s) = constraints o /\
  same_static (tasks o) (tasks (orch s)).
Proof.
  intros (Hslots & _ & _) Hmax Hbegin Hrun.
  apply Execute_begin_ok in Hbegin as [-> _].
  revert ls s evs Hrun.
  apply (run_ind (fun s _ => slot_inv s /\ constraints (orch s) = constraints o /\
                             same_static (tasks o) (tasks (orch s)))).
  - split_and!; [|reflexivity | apply same_static_refl].
    intros r c Hr. simpl in *.
    unfold slots_of, holders. simpl. rewrite Hslots, lookup_empty. simpl.
    split; [reflexivity | eauto].
  - intros s1 evs1 l s2 ev (Hinv & Hc & Hst) Hstep. split_and!.
    + eapply slot_inv_step; eassumption.
    + apply step_static in Hstep as [Hc' _]. congruence.
    + apply step_static in Hstep as [_ Hst']. eapply same_static_trans; eassumption.
Qed.

(** X24.  No slot is leaked: in every state of every execution the counter
    of a constrained resource equals the number of dispatches on it whose
    deferred release has not run yet; once every task goroutine has exited
    the counter is back to zero. *)
Theorem slots_are_accounted (o : DAGOrchestrator) (order1 order2 : list string)
  (now : Z) (s0 : Exec) (ls : list Label) (s : Exec) (evs : list Event)
  (r : string) (c : ResourceConstraint) :
  pristine o ->
  (forall r c, constraints o !! r = Some c -> 0 <= MaxSlots c) ->
  Execute_begin o order1 order2 now = Some (Ok s0) ->
  run s0 ls = Some (s, evs) ->
  constraints o !! r = Some c ->
  slots_of (orch s) r = Z.of_nat (holders s r) /\
  (Forall (fun w => wpc w = WExited) (workers s) -> slots_of (orch s) r = 0).
Proof.
  intros Hpr Hmax Hbegin Hrun Hr.
  destruct (slot_inv_run o order1 order2 now s0 ls s evs Hpr Hmax Hbegin Hrun)
    as (Hinv & Hc & _).
  rewrite <- Hc in Hr. destruct (Hinv r c Hr) as [Heq _].
  split; [exact Heq|]. intros Hall. rewrite Heq. unfold holders.
  rewrite count_zero; [reflexivity|].
  eapply Forall_impl; [exact Hall|]. intros w Hw. unfold uses, holding.
  rewrite Hw. reflexivity.
Qed.

(** A resource with no slot at all. *)
Record starved (o : DAGOrchestrator) (r : string) (s : Exec) (evs : list Event) : Prop :=
  mkStarved {
  st_slots : slot_inv s;
  st_constraints : constraints (orch s) = constraints o;
  st_static : same_static (tasks o) (tasks (orch s));
  st_events : forall id t, tasks o !! id = Some t -> Resource t = r ->
    (EvDispatch id ∉ evs) /\ forall tm, EvStart id tm ∉ evs
}.

Lemma holders_zero (o : DAGOrchestrator) (r : string) (c : ResourceConstraint) (s : Exec) :
  constraints o !! r = Some c -> MaxSlots c = 0 ->
  constraints (orch s) = constraints o -> slot_inv s -> holders s r = 0%nat.
Proof.
  intros Hr Hmax Hc Hinv. rewrite <- Hc in Hr. destruct (Hinv r c Hr) as [H1 H2]. lia.
Qed.

Lemma starved_step (o : DAGOrchestrator) (r : string) (c : ResourceConstraint)
  (l : Label) (s s' : Exec) (evs ev : list Event) :
  constraints o !! r = Some c -> MaxSlots c = 0 ->
  starved o r s evs -> step l s = Some (s', ev) -> starved o r s' (evs ++ ev).
Proof.
  intros Hr Hmax [Hinv Hc Hst Hev] Hstep.
  assert (Hinv' : slot_inv s') by (eapply slot_inv_step; eassumption).
  pose proof (step_static _ _ _ _ Hstep) as [Hc' Hst'].
  assert (Hc2 : constraints (orch s') = constraints o) by congruence.
  assert (Hst2 : same_static (tasks o) (tasks (orch s')))
    by (eapply same_static_trans; eassumption).
  constructor; try assumption.
  intros id t Ht Hres. destruct (Hev id t Ht Hres) as [Hd Hs].
  pose proof (holders_zero o r c s Hr Hmax Hc Hinv) as Hz.
  pose proof (holders_zero o r c s' Hr Hmax Hc2 Hinv') as Hz'.
  assert (Hres_in : forall s1 task, same_static (tasks o) (tasks (orch s1)) ->
            tasks (orch s1) !! id = Some task -> Resource task = r).
  { intros s1 task H1 Htask.
    destruct (same_static_lookup _ _ _ _ H1 Htask) as (t0 & Ht0 & Hs0).
    assert (t0 = t) by congruence. subst t0. unfold static in Hs0.
    inversion Hs0. congruence. }
  assert (Hnew : (EvDispatch id ∉ ev) /\ forall tm, EvStart id tm ∉ ev).
  { apply step_inv in Hstep. cbv zeta in Hstep. destruct l.
    - destruct Hstep as (_ & _ & ->). split; [|intros tm]; intros H; inversion H.
    - destruct Hstep as (_ & _ & o' & ann & all & _ & _ & ->).
      split; [|intros tm]; intros H; apply list_elem_of_fmap in H as (x & Hx & _);
        discriminate.
    - destruct Hstep as (_ & _ & o' & ready & _ & _ & ->).
      split; [|intros tm]; intros H; inversion H.
    - destruct Hstep as [(_ & _ & ->)|(x & rest & task & _ & Htask & Hcase)].
      { split; [|intros tm]; intros H; inversion H. }
      destruct Hcase as [(o' & Hacq & Hs' & ->)|(o' & _ & _ & ->)].
      + split.
        * intros H. apply list_elem_of_singleton in H. inversion H; subst x.
          assert (Hone : (1 <= holders s' r)%nat).
          { unfold holders.
            apply (count_pos _ _ (length (workers s)) (mkWorker id WStart)).
            - rewrite Hs'. simpl. rewrite lookup_app_r by lia.
              now rewrite Nat.sub_diag.
            - unfold uses, holding. simpl.
              destruct (same_static_lookup_r _ _ _ _ Hst2 Ht) as (t' & Ht' & Hs0).
              rewrite Ht'. simpl. unfold static in Hs0. inversion Hs0.
              apply bool_decide_eq_true. congruence. }
          lia.
        * intros tm H. apply list_elem_of_singleton in H. discriminate.
      + split; [|intros tm]; intros H; inversion H.
    - destruct Hstep as (wake & _ & _ & _ & ->).
      split; [|intros tm]; intros H; inversion H.
    - destruct Hstep as (x & task & Hw & Htask & _ & ->). split.
      + intros H. apply list_elem_of_singleton in H. discriminate.
      + intros tm H. apply list_elem_of_singleton in H. inversion H; subst x tm.
        assert (Hone : (1 <= holders s r)%nat).
        { unfold holders. apply (count_pos _ _ w (mkWorker id WStart) Hw).
          unfold uses, holding. simpl. rewrite Htask. simpl.
          apply bool_decide_eq_true. f_equal. now apply (Hres_in s). }
        lia.
    - destruct Hstep as (x & task & _ & _ & _ & ->).
      split; [|intros tm]; intros H; apply list_elem_of_singleton in H; discriminate.
    - destruct Hstep as (x & task & _ & _ & _ & _ & ->).
      split; [|intros tm]; intros H; inversion H.
    - destruct Hstep as (x & task & _ & _ & _ & ->).
      split; [|intros tm]; intros H; inversion H.
    - destruct Hstep as (x & _ & _ & _ & ->).
      split; [|intros tm]; intros H; inversion H.
    - destruct Hstep as (_ & x & rest & task & _ & _ & _ & ->).
      split; [|intros tm]; intros H; apply list_elem_of_singleton in H; discriminate.
    - destruct Hstep as (_ & _ & _ & _ & ->).
      split; [|intros tm]; intros H; apply list_elem_of_singleton in H; discriminate. }
  destruct Hnew as [Hnd Hns]. split.
  - rewrite elem_of_app. tauto.
  - intros tm. rewrite elem_of_app. specialize (Hs tm). specialize (Hns tm). tauto.
Qed.

(** X25.  A resource configured with zero slots starves its tasks: in no
    execution is a task of that resource dispatched, and its command is
    never started. *)
Theorem zero_slot_resource_starves (o : DAGOrchestrator) (order1 order2 : list string)
  (now : Z) (s0 : Exec) (ls : list Label) (s : Exec) (evs : list Event)
  (r : string) (c : ResourceConstraint) (id : string) (t : Task) :
  pristine o ->
  (forall r c, constraints o !! r = Some c -> 0 <= MaxSlots c) ->
  constraints o !! r = Some c -> MaxSlots c = 0 ->
  Execute_begin o order1 order2 now = Some (Ok s0) ->
  run s0 ls = Some (s, evs) ->
  tasks o !! id = Some t -> Resource t = r ->
  (EvDispatch id ∉ evs) /\ forall tm, EvStart id tm ∉ evs.
Proof.
  intros Hpr Hmax Hr Hzero Hbegin Hrun Ht Hres.
  assert (Hinit : starved o r s0 []).
  { destruct (slot_inv_run o order1 order2 now s0 [] s0 [] Hpr Hmax Hbegin eq_refl)
      as (A & B & C).
    constructor; try assumption. intros x tx _ _.
    split; [|intros tm]; intros H; inversion H. }
  assert (Hfinal : starved o r s evs).
  { revert ls s evs Hrun. apply (run_ind (starved o r)); [exact Hinit|].
    intros s1 evs1 l s2 ev Hinv Hstep. eapply starved_step; eassumption. }
  apply (st_events _ _ _ _ Hfinal id t Ht Hres).
Qed.

End SlotSpec.

(** * timeutil.go: whole seconds, and the width of the result *)

Module TimeutilMore.
Import Fmt Timeutil TimeutilSpec.

Lemma zeros_length (n : nat) : String.length (zeros n) = n.
Proof. induction n as [|n IH]; simpl; [reflexivity | now rewrite IH]. Qed.

Lemma pad0_length (w : nat) (s : string) :
  String.length (pad0 w s) = Nat.max w (String.length s).
Proof. unfold pad0. rewrite string_length_app, zeros_length. lia. Qed.

(** The four fields of the result, for a non-negative argument. *)
Lemma FormatSeconds_fields (s : Q) :
  (0 <= s)%Q ->
  FormatSeconds s =
    (pad0 2 (dec (hours_of s)) ++ ":" ++ pad0 2 (dec (minutes_of s)) ++ ":" ++
     pad0 2 (dec (hundredths (secs_of s) / 100)) ++ "." ++
     pad0 2 (dec (hundredths (secs_of s) mod 100)))%string.
Proof.
  intros Hs.
  destruct (decompose s Hs) as (Hh & Hm & Hh0 & Hm0 & Hr & Hsecs).
  set (c := hundredths (secs_of s)).
  assert (Hmod : 0 <= c mod 100 < 100) by (apply Z.mod_pos_bound; lia).
  pose proof (pad0_two_digits _ Hmod) as Lfrac.
  unfold FormatSeconds, sprintf_02d, sprintf_05_2f. fold c.
  destruct (Z.ltb_spec (hours_of s) 0) as [?|_]; [lia|].
  destruct (Z.ltb_spec (minutes_of s) 0) as [?|_]; [lia|].
  destruct (Qltb (secs_of s) 0) eqn:E.
  { apply Qltb_lt in E. lra. }
  rewrite (pad0_split _ _ Lfrac). reflexivity.
Qed.

(** The hundredths of a whole number of seconds. *)
Lemma hundredths_whole (r : Q) (k : Z) :
  0 <= k -> (r == inject_Z k)%Q -> hundredths r = 100 * k.
Proof.
  intros Hk Hr.
  assert (H0 : (0 <= r)%Q).
  { rewrite Hr. change 0%Q with (inject_Z 0). now rewrite <- Zle_Qle. }
  destruct (hundredths_spec r H0) as ((Hlo & Hhi) & _ & _).
  set (c := hundredths r) in *.
  assert (Hk100 : (100 * r == inject_Z (100 * k))%Q).
  { rewrite Hr, inject_Z_mult. reflexivity. }
  rewrite Hk100 in Hlo, Hhi.
  assert (A : (inject_Z c < inject_Z (100 * k + 1))%Q).
  { rewrite inject_Z_plus. change (inject_Z 1) with 1%Q. lra. }
  assert (B : (inject_Z (100 * k) < inject_Z (c + 1))%Q).
  { rewrite inject_Z_plus. change (inject_Z 1) with 1%Q. lra. }
  rewrite <- Zlt_Qlt in A, B. lia.
Qed.

(** X26.  A whole number [n] of seconds, [0 <= n < 2^53], is rendered as
    its hours [n / 3600], minutes [(n mod 3600) / 60] and seconds [n mod 60],
    each padded to two digits, followed by [.00]. *)
Theorem FormatSeconds_whole_seconds (n : Z) :
  0 <= n < 2 ^ 53 ->
  FormatSeconds (inject_Z n) =
    (pad0 2 (dec (n / 3600)) ++ ":" ++ pad0 2 (dec ((n mod 3600) / 60)) ++ ":" ++
     pad0 2 (dec (n mod 60)) ++ ".00")%string.
Proof.
  intros [Hn _].
  assert (Hs : (0 <= inject_Z n)%Q).
  { change 0%Q with (inject_Z 0). now rewrite <- Zle_Qle. }
  rewrite (FormatSeconds_fields _ Hs).
  destruct (decompose _ Hs) as (Hh & Hm & _ & _ & _ & Hsecs).
  rewrite Qfloor_Z in Hh, Hm. rewrite Hh, Hm in *.
  assert (Hk : 0 <= n mod 60 < 60) by (apply Z.mod_pos_bound; lia).
  assert (Hrest : (secs_of (inject_Z n) == inject_Z (n mod 60))%Q).
  { rewrite Hsecs. unfold Qminus. rewrite <- inject_Z_opp, <- inject_Z_plus.
    apply inject_Z_injective.
    pose proof (Z.div_mod n 3600 ltac:(lia)).
    pose proof (Z.div_mod (n mod 3600) 60 ltac:(lia)).
    assert ((n mod 3600) mod 60 = n mod 60).
    { rewrite H at 2.
      replace (3600 * (n / 3600) + n mod 3600)
        with (n mod 3600 + (60 * (n / 3600)) * 60) by lia.
      now rewrite Z.mod_add by lia. }
    lia. }
  rewrite (hundredths_whole _ (n mod 60) (proj1 Hk) Hrest).
  replace (100 * (n mod 60) / 100) with (n mod 60)
    by (rewrite Z.mul_comm, Z.div_mul; lia).
  replace ((100 * (n mod 60)) mod 100) with 0
    by (rewrite Z.mul_comm, Z.mod_mul; lia).
  reflexivity.
Qed.

Lemma FormatSeconds_whole_seconds_witness :
  0 <= 3661 < 2 ^ 53 /\
  FormatSeconds (inject_Z 3661) = "01:01:01.00"%string.
Proof.
  assert (H : 0 <= 3661 < 2 ^ 53) by lia.
  split; [exact H|].
  rewrite (FormatSeconds_whole_seconds 3661 H).
  vm_compute. reflexivity.
Defined.

(** X27.  For a non-negative argument below 2^53 seconds the result is
    never shorter than the 11 characters of [HH:MM:SS.ss], and has exactly 11
    characters below one hundred hours; from one hundred hours on only the
    hours field grows. *)
Theorem FormatSeconds_width (s : Q) :
  (0 <= s)%Q -> (s < inject_Z (2 ^ 53))%Q ->
  (11 <= String.length (FormatSeconds s))%nat /\
  ((s < 360000)%Q -> String.length (FormatSeconds s) = 11%nat) /\
  String.length (FormatSeconds s) =
    (Nat.max 2 (String.length (dec (hours_of s))) + 9)%nat.
Proof.
  intros Hs _. rewrite (FormatSeconds_fields s Hs).
  destruct (decompose s Hs) as (Hh & Hm & Hh0 & Hm0 & Hr & _).
  pose proof (seconds_field_range s Hs) as Hc.
  set (c := hundredths (secs_of s)) in *.
  assert (Hmod : 0 <= c mod 100 < 100) by (apply Z.mod_pos_bound; lia).
  assert (Hdiv : 0 <= c / 100 < 100).
  { split; [apply Z.div_pos; lia | apply Z.div_lt_upper_bound; lia]. }
  assert (Hlen : String.length
            (pad0 2 (dec (hours_of s)) ++ ":" ++ pad0 2 (dec (minutes_of s)) ++ ":" ++
             pad0 2 (dec (c / 100)) ++ "." ++ pad0 2 (dec (c mod 100)))%string
          = (Nat.max 2 (String.length (dec (hours_of s))) + 9)%nat).
  { assert (Hm100 : 0 <= minutes_of s < 100) by lia.
    rewrite !string_length_app.
    rewrite (pad0_two_digits _ Hm100), (pad0_two_digits _ Hdiv), (pad0_two_digits _ Hmod).
    rewrite pad0_length. simpl String.length. lia. }
  rewrite Hlen. split_and!; [lia | | reflexivity].
  intros Hlt.
  assert (Hh100 : 0 <= hours_of s < 100).
  { split; [exact Hh0|]. rewrite Hh. apply Z.div_lt_upper_bound; [lia|].
    assert (Hf : (inject_Z (Qfloor s) < inject_Z 360000)%Q).
    { pose proof (Qfloor_le s). change (inject_Z 360000) with 360000%Q. lra. }
    rewrite <- Zlt_Qlt in Hf. lia. }
  pose proof (pad0_two_digits _ Hh100) as H2. rewrite pad0_length in H2. lia.
Qed.

Lemma FormatSeconds_width_witness :
  (0 <= 3661123 # 1000)%Q /\ (3661123 # 1000 < inject_Z (2 ^ 53))%Q /\
  String.length (FormatSeconds (3661123 # 1000)) = 11%nat.
Proof.
  assert (H : (0 <= 3661123 # 1000)%Q) by (unfold Qle; simpl; lia).
  assert (H53 : (3661123 # 1000 < inject_Z (2 ^ 53))%Q) by (vm_compute; reflexivity).
  split; [exact H|]. split; [exact H53|].
  destruct (FormatSeconds_width _ H H53) as (_ & H11 & _).
  apply H11. unfold Qlt. simpl. lia.
Defined.

End TimeutilMore.

(** * More worked schedules *)

Module MoreScenarios.
Import Orchestrator OrchestratorSpec ExecSpec OrderSpec FailureSpec Scenarios.
Import ValidationMore BlockingSpec ReadySpec HandlerSpec SlotSpec.

Lemma range_chain : range_of (tasks chain) abc.
Proof. apply (bool_decide_eq_true_1 (range_of (tasks chain) abc)). vm_compute. reflexivity. Qed.

(** The chain A <- B <- C is accepted, so closed and acyclic. *)
Lemma validateDAG_accepts_iff_witness :
  validateDAG chain abc abc = Some None /\
  closed (tasks chain) /\ ~ has_cycle (tasks chain).
Proof.
  assert (H : validateDAG chain abc abc = Some None) by (vm_compute; reflexivity).
  split; [exact H|].
  destruct (validateDAG_accepts_iff chain abc abc range_chain range_chain) as (Hiff & _).
  apply Hiff, H.
Defined.

(** The moment at which B has failed and the scheduler has not looked yet. *)
Definition b_failed : list Label :=
  round abc 1 ++ work 0 250 None ++ nap ++
  round abc 1 ++ work 1 120 (Some "exit status 1"%string).

Definition after_b_failed : Exec := (outcome (start_of chain abc 0) b_failed).1.

Definition c_pending : Task :=
  mkTask "C" (Command.mkCommand "/tmp/c.mp4") ["B"] ResourceCPU TaskPending None None 0 0.

Lemma range_after_b_failed : range_of (tasks (orch after_b_failed)) abc.
Proof.
  apply (bool_decide_eq_true_1 (range_of (tasks (orch after_b_failed)) abc)).
  vm_compute. reflexivity.
Qed.

Lemma ranking_after_b_failed : exists rank, ranking (tasks (orch after_b_failed)) rank.
Proof.
  destruct (validateDAG_total (orch after_b_failed) abc abc
              range_after_b_failed range_after_b_failed) as (r & Hrun & Hnone).
  assert (H : validateDAG (orch after_b_failed) abc abc = Some None)
    by (vm_compute; reflexivity).
  apply Hnone. congruence.
Qed.

(** After the failure of B: C, which depends on B, has a failed task
    below it. *)
Lemma hasFailedDependency_is_transitive_witness :
  tasks (orch after_b_failed) !! "C" = Some c_pending /\
  hasFailedDependency (S (size (tasks (orch after_b_failed))))
    (tasks (orch after_b_failed)) c_pending = Some true /\
  exists F ft, tc (edge (tasks (orch after_b_failed))) "C" F /\
    tasks (orch after_b_failed) !! F = Some ft /\ Status ft = TaskFailed.
Proof.
  assert (Hc : tasks (orch after_b_failed) !! "C" = Some c_pending)
    by (vm_compute; reflexivity).
  assert (Hrun : hasFailedDependency (S (size (tasks (orch after_b_failed))))
                   (tasks (orch after_b_failed)) c_pending = Some true)
    by (vm_compute; reflexivity).
  split; [exact Hc|]. split; [exact Hrun|].
  destruct ranking_after_b_failed as [rank Hrank].
  destruct (hasFailedDependency_is_transitive _ rank "C" c_pending Hrank Hc)
    as (b & Hb & Hiff).
  apply Hiff. congruence.
Defined.

(** At the same moment the scheduler's pass fails C and answers true. *)
Lemma scheduler_pass_meaning_witness :
  exists o' announced,
    allTasksCompleteOrBlocked (orch after_b_failed) abc = Some (o', announced, true) /\
    forall id t, tasks o' !! id = Some t ->
      Status t = TaskCompleted \/ Status t = TaskFailed.
Proof.
  destruct ranking_after_b_failed as [rank Hrank].
  destruct (scheduler_pass_meaning (orch after_b_failed) rank abc Hrank
              range_after_b_failed) as (o' & ann & all & Hrun & _ & Htrue & _).
  assert (Hall : (default (orch after_b_failed, [], false)
                    (allTasksCompleteOrBlocked (orch after_b_failed) abc)).2 = true)
    by (vm_compute; reflexivity).
  rewrite Hrun in Hall. simpl in Hall. subst all.
  exists o', ann. split; [exact Hrun | now apply Htrue].
Defined.

(** At the start [getReadyTasks] selects A. *)
Lemma getReadyTasks_selects_witness :
  NoDup (getReadyTasks chain abc).2 /\
  ("A" ∈ (getReadyTasks chain abc).2 <->
   exists t, tasks chain !! "A" = Some t /\
     (Status t = TaskReady \/
      (Status t = TaskPending /\ dependenciesMet chain t = true))).
Proof.
  destruct (getReadyTasks_selects chain (getReadyTasks chain abc).1 abc
              (getReadyTasks chain abc).2 range_chain (surjective_pairing _))
    as (Hnd & Hin & _).
  exact (conj Hnd (Hin "A")).
Defined.

(** The return and the progress reports of the run in which every task
    succeeds. *)
Lemma Execute_returns_after_all_completions_witness :
  sched (outcome (start_of chain abc 0) all_succeed).1 = SchedDone /\
  completedTasks (outcome (start_of chain abc 0) all_succeed).1 = size (tasks chain) /\
  omap return_of (outcome (start_of chain abc 0) all_succeed).2
    = [results (outcome (start_of chain abc 0) all_succeed).1].
Proof.
  destruct (Execute_returns_after_all_completions chain abc abc 0 (start_of chain abc 0)
              all_succeed (outcome (start_of chain abc 0) all_succeed).1
              (outcome (start_of chain abc 0) all_succeed).2
              chain_begin (outcome_run _ _ all_succeed_runs))
    as [Hret _].
  destruct Hret as (A & _ & B & _ & C).
  - vm_compute. reflexivity.
  - exact (conj A (conj B C)).
Defined.

Lemma progress_counts_up_witness :
  omap progress_of (outcome (start_of chain abc 0) all_succeed).2 =
  map (fun k => (k, size (tasks chain)))
      (seq 1 (completedTasks (outcome (start_of chain abc 0) all_succeed).1)).
Proof.
  exact (proj1 (progress_counts_up chain abc abc 0 (start_of chain abc 0) all_succeed
                  (outcome (start_of chain abc 0) all_succeed).1
                  (outcome (start_of chain abc 0) all_succeed).2
                  chain_begin (outcome_run _ _ all_succeed_runs))).
Defined.

(** The slot counter while B is running. *)
Lemma slots_are_accounted_witness :
  slots_of (orch b_running_state) ResourceCPU =
    Z.of_nat (holders b_running_state ResourceCPU).
Proof.
  exact (proj1 (slots_are_accounted chain abc abc 0 (start_of chain abc 0) b_running
                  (outcome (start_of chain abc 0) b_running).1
                  (outcome (start_of chain abc 0) b_running).2
                  ResourceCPU (mkResourceConstraint ResourceCPU 1)
                  pristine_chain chain_constraints chain_begin
                  (outcome_run _ _ b_running_runs) eq_refl)).
Defined.

(** One task on a CPU resource without slots. *)
Definition no_cpu : DAGOrchestrator :=
  add_all (NewDAGOrchestrator [mkResourceConstraint ResourceCPU 0])
    [new_task "A" "/tmp/a.mp4" []].

Definition waiting : list Label :=
  round ["A"] 1 ++ nap ++ round ["A"] 1 ++ nap ++ [SchedulerCheck ["A"]].

Lemma no_cpu_constraints (r : string) (c : ResourceConstraint) :
  constraints no_cpu !! r = Some c -> 0 <= MaxSlots c.
Proof.
  unfold no_cpu. rewrite constraints_add_all. simpl.
  intros [[_ <-]|[_ H]]%lookup_insert_Some; [simpl; lia|].
  rewrite lookup_empty in H. discriminate.
Qed.

Lemma waiting_runs : is_Some (run (start_of no_cpu ["A"] 0) waiting).
Proof. vm_compute. eexists. reflexivity. Qed.

(** The scheduler goes round and A is never dispatched. *)
Lemma zero_slot_resource_starves_witness :
  is_Some (run (start_of no_cpu ["A"] 0) waiting) /\
  (EvDispatch "A" ∉ (outcome (start_of no_cpu ["A"] 0) waiting).2) /\
  forall tm, EvStart "A" tm ∉ (outcome (start_of no_cpu ["A"] 0) waiting).2.
Proof.
  split; [exact waiting_runs|].
  apply (zero_slot_resource_starves no_cpu ["A"] ["A"] 0 (start_of no_cpu ["A"] 0) waiting
           (outcome (start_of no_cpu ["A"] 0) waiting).1
           (outcome (start_of no_cpu ["A"] 0) waiting).2 ResourceCPU
           (mkResourceConstraint ResourceCPU 0) "A"
           (new_task "A" "/tmp/a.mp4" [])).
  - apply pristine_add_all, pristine_New.
  - exact no_cpu_constraints.
  - reflexivity.
  - reflexivity.
  - vm_compute. reflexivity.
  - exact (outcome_run _ _ waiting_runs).
  - vm_compute. reflexivity.
  - reflexivity.
Defined.

End MoreScenarios.
